(** * protobuf-ts-toolkit: status/detail codec and call interceptors

    A shallow embedding of
    - [packages/grpc-error/src/codec] (encode.ts, status.ts, decode.ts),
    - [packages/grpc-error/src] (errors.ts, interceptor.ts),
    - [packages/metadata/src/metadata-interceptor.ts],
    together with the properties of the specification that concern them.

    Conventions of the embedding.
    - A JavaScript string is a [string]: the bytes of its UTF-8 form, which
      is what [TextEncoder] gives for it.  Only a well-formed string has one:
      a string with a lone surrogate is outside the model ([TextEncoder]
      writes U+FFFD in the place of the surrogate), and a [string] that is no
      UTF-8 stands for no JavaScript string.
    - A [Uint8Array] is a [list byte].
    - An integral JavaScript number is a [Z]; the range checks of the runtime
      are written out.  A number with a fraction, [NaN] and the infinities
      are outside the model ([BigInt] throws on them), and a [Z] stands for a
      number only when a double holds it exactly, as every integer below 2^53
      is held.
    - A plain object used as a dictionary is a [gmap] with [string] keys.
    - A function that can throw returns a [result]. *)

From Stdlib Require Import ZArith NArith Lia List String Ascii.
From Stdlib.Strings Require Import Byte.
From stdpp Require Import gmap strings list fin_maps.

Local Open Scope N_scope.

(** ** Outcomes of a computation that may throw *)

(** [Throw] is a JavaScript exception.  [Diverge] marks a loop of the model
    that ran out of its iteration budget; the budget lemmas below show that it
    is never produced by the functions of the codec. *)
Inductive result (A : Type) : Type :=
  | Ok (a : A)
  | Throw
  | Diverge.
Arguments Ok {A} a.
Arguments Throw {A}.
Arguments Diverge {A}.

#[global] Instance result_ret : MRet result := @Ok.
#[global] Instance result_bind : MBind result := λ A B f m,
  match m with
  | Ok a => f a
  | Throw => Throw
  | Diverge => Diverge
  end.
#[global] Instance result_fmap : FMap result := λ A B f m,
  match m with
  | Ok a => Ok (f a)
  | Throw => Throw
  | Diverge => Diverge
  end.

(** ** The wire primitives of the protobuf runtime

    [BinaryWriter] and [BinaryReader] come from [@protobuf-ts/runtime], a
    dependency of the repository; they are modelled after its files
    [binary-writer.ts], [binary-reader.ts] and [goog-varint.ts]:
    - a varint is read from at most ten bytes, and [uint32] keeps its low 32
      bits; a tag and a length prefix are read with [uint32];
    - the writer asserts the range of what it is given ([assertUInt32] for a
      length, [assertInt32], and the range of a signed 64-bit number);
    - the reader decodes a string with a fatal UTF-8 decoder that keeps a
      byte order mark. *)

Inductive WireType : Set :=
  | Varint            (* 0 *)
  | Bit64             (* 1 *)
  | LengthDelimited   (* 2 *)
  | StartGroup        (* 3 *)
  | EndGroup          (* 4 *)
  | Bit32.            (* 5 *)

Definition WireType_to_N (t : WireType) : N :=
  match t with
  | Varint => 0 | Bit64 => 1 | LengthDelimited => 2
  | StartGroup => 3 | EndGroup => 4 | Bit32 => 5
  end.

Definition WireType_of_N (n : N) : option WireType :=
  match n with
  | 0 => Some Varint | 1 => Some Bit64 | 2 => Some LengthDelimited
  | 3 => Some StartGroup | 4 => Some EndGroup | 5 => Some Bit32
  | _ => None
  end.

Definition byte_of_N (n : N) : byte := default x00 (Byte.of_N n).

(** The byte [b] lies between [lo] and [hi]. *)
Definition byte_in (lo hi : N) (b : byte) : bool :=
  (lo <=? Byte.to_N b) && (Byte.to_N b <=? hi).

(** The byte sequences a fatal UTF-8 decoder accepts: no overlong form, no
    surrogate, nothing above U+10FFFF, no sequence cut short. *)
Fixpoint utf8_valid (l : list byte) : bool :=
  match l with
  | [] => true
  | b0 :: l1 =>
      if byte_in 0 127 b0 then utf8_valid l1
      else if byte_in 194 223 b0 then
        match l1 with
        | b1 :: l2 => byte_in 128 191 b1 && utf8_valid l2
        | _ => false
        end
      else if byte_in 224 239 b0 then
        match l1 with
        | b1 :: b2 :: l3 =>
            byte_in (if byte_in 224 224 b0 then 160 else 128)
                    (if byte_in 237 237 b0 then 159 else 191) b1
            && byte_in 128 191 b2 && utf8_valid l3
        | _ => false
        end
      else if byte_in 240 244 b0 then
        match l1 with
        | b1 :: b2 :: b3 :: l4 =>
            byte_in (if byte_in 240 240 b0 then 144 else 128)
                    (if byte_in 244 244 b0 then 143 else 191) b1
            && byte_in 128 191 b2 && byte_in 128 191 b3 && utf8_valid l4
        | _ => false
        end
      else false
  end.

Module BinaryWriter.

(** The loop that writes a varint: [while (value > 0x7f) {
    push((value & 0x7f) | 0x80); value >>>= 7 } push(value)]. *)
Fixpoint varint_loop (budget : nat) (value : N) : list byte :=
  match budget with
  | O => [byte_of_N value]
  | S budget' =>
      if 127 <? value
      then byte_of_N (N.lor (N.land value 127) 128)
             :: varint_loop budget' (N.shiftr value 7)
      else [byte_of_N value]
  end.

Definition varint (value : N) : list byte :=
  varint_loop (N.to_nat (N.log2 value)) value.

(** [uint32(value)]: [assertUInt32(value)], then the varint. *)
Definition uint32 (value : N) : result (list byte) :=
  if value <? 2 ^ 32 then Ok (varint value) else Throw.

(** [tag(fieldNo, type)] is [uint32((fieldNo << 3 | type) >>> 0)]: the
    operand is an unsigned 32-bit number, whatever the field number. *)
Definition tag (fieldNo : N) (type : WireType) : list byte :=
  varint (N.lor (N.shiftl fieldNo 3) (WireType_to_N type) mod 2 ^ 32).

(** [string(value)]: [chunk = textEncoder.encode(value)], then
    [uint32(chunk.byteLength)] and the chunk.  A [string] that is no UTF-8
    is the form of no JavaScript string, and has no encoding. *)
Definition string (value : String.string) : result (list byte) :=
  let chunk := list_byte_of_string value in
  if utf8_valid chunk
  then len ← uint32 (N.of_nat (length chunk)); Ok (len ++ chunk)
  else Throw.

(** [bytes(value)]: [uint32(value.byteLength)], then the bytes. *)
Definition bytes (value : list byte) : result (list byte) :=
  len ← uint32 (N.of_nat (length value)); Ok (len ++ value).

(** [int32(value)] asserts a signed 32-bit integer and writes it as a
    varint; a negative value is written sign-extended to 64 bits. *)
Definition int32 (value : Z) : result (list byte) :=
  if ((-2147483648 <=? value) && (value <=? 2147483647))%Z
  then Ok (varint (Z.to_N (value mod 2 ^ 64)))
  else Throw.

(** [int64(value)] converts to a signed 64-bit long, refusing a value out
    of that range, and writes its two's complement as a varint. *)
Definition int64 (value : Z) : result (list byte) :=
  if ((- 2 ^ 63 <=? value) && (value <? 2 ^ 63))%Z
  then Ok (varint (Z.to_N (value mod 2 ^ 64)))
  else Throw.

End BinaryWriter.

Module BinaryReader.

(** The reader is the part of the buffer from [pos] on: [reader.pos <
    data.length] holds when it is not empty, and a read past the end
    throws ([assertBounds]). *)
Definition Reader (A : Type) : Type := list byte → result (A * list byte).

(** The bytes of a varint, low group first: a byte with its high bit set
    is followed by another, at most [more] times; a varint that goes on
    after that is invalid. *)
Fixpoint varint_loop (more : nat) (shift acc : N) (buf : list byte) {struct buf}
    : result (N * list byte) :=
  match buf with
  | [] => Throw
  | b :: rest =>
      let n := Byte.to_N b in
      let acc' := N.lor acc (N.shiftl (N.land n 127) shift) in
      if N.testbit n 7 then
        match more with
        | O => Throw
        | S more' => varint_loop more' (shift + 7) acc' rest
        end
      else Ok (acc', rest)
  end.

(** [varint32read] and [varint64read]: at most ten bytes, of which the low
    32, respectively 64, bits are kept. *)
Definition varint (bits : N) : Reader N := λ buf,
  '(v, rest) ← varint_loop 9 0 0 buf; Ok (v mod 2 ^ bits, rest).

Definition uint32 : Reader N := varint 32.

(** [int32() = uint32() | 0]: the 32 bits, read as a signed number. *)
Definition int32 : Reader Z := λ buf,
  '(v, rest) ← uint32 buf;
  let u := Z.of_N v in
  Ok (if (u <? 2 ^ 31)%Z then u else (u - 2 ^ 32)%Z, rest).

(** [Number(reader.int64())]: the 64 bits, read as a signed number.  The
    conversion to a JavaScript number rounds an integer above 2^53 that is
    no double to the nearest one; the model keeps the integer. *)
Definition int64 : Reader Z := λ buf,
  '(v, rest) ← varint 64 buf;
  let u := Z.of_N v in
  Ok (if (u <? 2 ^ 63)%Z then u else (u - 2 ^ 64)%Z, rest).

(** [tag()]: [fieldNo = tag >>> 3], [wireType = tag & 7] of a [uint32];
    throws on field number zero and on wire types above 5. *)
Definition tag : Reader (N * WireType) := λ buf,
  '(t, rest) ← uint32 buf;
  let fieldNo := N.shiftr t 3 in
  match WireType_of_N (N.land t 7) with
  | Some wireType => if fieldNo =? 0 then Throw else Ok ((fieldNo, wireType), rest)
  | None => Throw
  end.

(** [pos += n; assertBounds()], returning the bytes stepped over. *)
Definition advance (n : nat) : Reader (list byte) := λ buf,
  if decide (n ≤ length buf)%nat then Ok (take n buf, drop n buf) else Throw.

(** [bytes()]: [len = uint32()], then [len] bytes. *)
Definition bytes : Reader (list byte) := λ buf,
  '(len, rest) ← uint32 buf;
  advance (N.to_nat len) rest.

(** [string()]: [textDecoder.decode(bytes())], the decoder being fatal. *)
Definition string : Reader String.string := λ buf,
  '(chunk, rest) ← bytes buf;
  if utf8_valid chunk then Ok (string_of_list_byte chunk, rest) else Throw.

(** [while (this.buf[this.pos++] & 0x80) {}] followed by [assertBounds]. *)
Fixpoint skip_varint (buf : list byte) : result (list byte) :=
  match buf with
  | [] => Throw
  | b :: rest => if N.testbit (Byte.to_N b) 7 then skip_varint rest else Ok rest
  end.

(** [skip(wireType)].  A group is skipped field by field up to its end
    tag; groups nest, which is what the budget is for: a nested group
    takes two units of it and at least one byte of the buffer. *)
Fixpoint skip_loop (budget : nat) (wireType : WireType) (buf : list byte)
  : result (list byte) :=
  match budget with
  | O => Diverge
  | S budget' =>
      match wireType with
      | Varint => skip_varint buf
      | Bit64 => snd <$> advance 8 buf
      | Bit32 => snd <$> advance 4 buf
      | LengthDelimited => snd <$> bytes buf
      | StartGroup => skip_group budget' buf
      | EndGroup => Throw
      end
  end
with skip_group (budget : nat) (buf : list byte) : result (list byte) :=
  match budget with
  | O => Diverge
  | S budget' =>
      '((_, t), rest) ← tag buf;
      match t with
      | EndGroup => Ok rest
      | _ => rest' ← skip_loop budget' t rest; skip_group budget' rest'
      end
  end.

Definition skip (wireType : WireType) : Reader unit := λ buf,
  rest ← skip_loop (2 * length buf + 2) wireType buf; Ok ((), rest).

(** The loop shared by every parser of the codec:
    [while (reader.pos < data.length) { const [fieldNo, wireType] =
    reader.tag(); ... }], with the loop body as a parameter. *)
Fixpoint fields_loop {S : Type} (budget : nat)
    (body : N → WireType → S → Reader S) (st : S) (buf : list byte) : result S :=
  match buf with
  | [] => Ok st
  | _ :: _ =>
      match budget with
      | O => Diverge
      | Datatypes.S budget' =>
          '((fieldNo, wireType), rest) ← tag buf;
          '(st', rest') ← body fieldNo wireType st rest;
          fields_loop budget' body st' rest'
      end
  end.

Definition fields {S : Type} (body : N → WireType → S → Reader S) (st : S)
    (data : list byte) : result S :=
  fields_loop (length data) body st data.

End BinaryReader.

Module W := BinaryWriter.
Module R := BinaryReader.

(** ** Error detail records ([types.ts]) *)

Record FieldViolation : Type := mkFieldViolation
  { fv_field : string; fv_description : string }.

Record QuotaViolation : Type := mkQuotaViolation
  { qv_subject : string; qv_description : string }.

Record PreconditionViolation : Type := mkPreconditionViolation
  { pv_type : string; pv_subject : string; pv_description : string }.

Record HelpLink : Type := mkHelpLink
  { hl_description : string; hl_url : string }.

(** The discriminated union [ErrorDetail]; the constructor is the [type]
    field and its arguments are the remaining fields, in the order of the
    interface declarations. *)
Inductive ErrorDetail : Type :=
  | localizedMessage (locale message : string)
  | badRequest (fieldViolations : list FieldViolation)
  | debugInfo (stackEntries : list string) (detail : string)
  | errorInfo (reason domain : string) (metadata : gmap string string)
  | retryInfo (retryDelaySeconds : Z)
  | quotaFailure (violations : list QuotaViolation)
  | preconditionFailure (violations : list PreconditionViolation)
  | requestInfo (requestId servingData : string)
  | resourceInfo (resourceType resourceName owner description : string)
  | help (links : list HelpLink)
  | unknown (typeUrl : string) (value : list byte).

(** ** [status.ts]: [google.rpc.Status] and [google.protobuf.Any] *)

Record Any : Type := mkAny { typeUrl : string; value : list byte }.

Record Status : Type := mkStatus
  { status_code : Z; status_message : string; status_details : list Any }.

(** Truthiness of a string: [if (s)] holds for a non-empty string. *)
Definition truthy (s : string) : bool :=
  match s with
  | EmptyString => false
  | String _ _ => true
  end.

(** The three shapes of a [case] of the parsers' [switch]:
    [if (wireType === WireType.LengthDelimited) x = reader.string();
     else reader.skip(wireType);] and its variants with [reader.bytes()]
    handed to a nested parser and with a varint. *)
Definition skip_field {S : Type} (wireType : WireType) (st : S) : R.Reader S :=
  λ buf, '(_, rest) ← R.skip wireType buf; Ok (st, rest).

Definition string_field {S : Type} (wireType : WireType) (set : string → S)
    (st : S) : R.Reader S :=
  match wireType with
  | LengthDelimited => λ buf, '(s, rest) ← R.string buf; Ok (set s, rest)
  | _ => skip_field wireType st
  end.

Definition bytes_field {S X : Type} (wireType : WireType)
    (parse : list byte → result X) (set : X → S) (st : S) : R.Reader S :=
  match wireType with
  | LengthDelimited =>
      λ buf, '(b, rest) ← R.bytes buf; x ← parse b; Ok (set x, rest)
  | _ => skip_field wireType st
  end.

Definition varint_field {S X : Type} (wireType : WireType)
    (read : R.Reader X) (set : X → S) (st : S) : R.Reader S :=
  match wireType with
  | Varint => λ buf, '(x, rest) ← read buf; Ok (set x, rest)
  | _ => skip_field wireType st
  end.

Definition parseAny (data : list byte) : result Any :=
  R.fields (λ fieldNo wireType any,
    match fieldNo with
    | 1 => string_field wireType (λ s, mkAny s (value any)) any
    | 2 => bytes_field wireType Ok (λ b, mkAny (typeUrl any) b) any
    | _ => skip_field wireType any
    end) (mkAny "" []) data.

Definition parseStatus (data : list byte) : result Status :=
  R.fields (λ fieldNo wireType status,
    match fieldNo with
    | 1 => varint_field wireType R.int32
             (λ c, mkStatus c (status_message status) (status_details status)) status
    | 2 => string_field wireType
             (λ s, mkStatus (status_code status) s (status_details status)) status
    | 3 => bytes_field wireType parseAny
             (λ a, mkStatus (status_code status) (status_message status)
                     (status_details status ++ [a])) status
    | _ => skip_field wireType status
    end) (mkStatus 0 "" []) data.

(** What the encoders have in common.
    [if (s) writer.tag(fieldNo, WireType.LengthDelimited).string(s)]: *)
Definition write_string_if (fieldNo : N) (s : string) : result (list byte) :=
  if truthy s then (W.tag fieldNo LengthDelimited ++.) <$> W.string s else Ok [].

(** [writer.tag(fieldNo, WireType.LengthDelimited).string(s)] *)
Definition write_string (fieldNo : N) (s : string) : result (list byte) :=
  (W.tag fieldNo LengthDelimited ++.) <$> W.string s.

(** [writer.tag(fieldNo, WireType.LengthDelimited).bytes(sub)], where [sub]
    is a byte array made before, by a writer of its own. *)
Definition write_bytes (fieldNo : N) (sub : result (list byte)) : result (list byte) :=
  inner ← sub; (W.tag fieldNo LengthDelimited ++.) <$> W.bytes inner.

(** [for (const x of xs) { ... }], every turn writing to the one writer. *)
Fixpoint write_all {X : Type} (write : X → result (list byte)) (xs : list X)
    : result (list byte) :=
  match xs with
  | [] => Ok []
  | x :: xs' => b ← write x; bs ← write_all write xs'; Ok (b ++ bs)
  end.

Definition encodeAny (any : Any) : result (list byte) :=
  t ← write_string_if 1 (typeUrl any);
  v ← (if decide (0 < length (value any))%nat
       then write_bytes 2 (Ok (value any)) else Ok []);
  Ok (t ++ v).

Definition encodeStatus (status : Status) : result (list byte) :=
  code ← (if decide (status_code status ≠ 0%Z)
          then (W.tag 1 Varint ++.) <$> W.int32 (status_code status)
          else Ok []);
  message ← write_string_if 2 (status_message status);
  details ← write_all (λ detail, write_bytes 3 (encodeAny detail))
               (status_details status);
  Ok (code ++ message ++ details).

(** ** [encode.ts] and [decode.ts]: the detail records *)

(** Type URLs of the [google.rpc] detail types.  [encode.ts] and [decode.ts]
    each declare this table, with the same ten strings. *)
Module TYPE_URLS.
Definition localizedMessage : string := "type.googleapis.com/google.rpc.LocalizedMessage".
Definition badRequest : string := "type.googleapis.com/google.rpc.BadRequest".
Definition debugInfo : string := "type.googleapis.com/google.rpc.DebugInfo".
Definition errorInfo : string := "type.googleapis.com/google.rpc.ErrorInfo".
Definition retryInfo : string := "type.googleapis.com/google.rpc.RetryInfo".
Definition quotaFailure : string := "type.googleapis.com/google.rpc.QuotaFailure".
Definition preconditionFailure : string := "type.googleapis.com/google.rpc.PreconditionFailure".
Definition requestInfo : string := "type.googleapis.com/google.rpc.RequestInfo".
Definition resourceInfo : string := "type.googleapis.com/google.rpc.ResourceInfo".
Definition help : string := "type.googleapis.com/google.rpc.Help".
End TYPE_URLS.

Definition encodeLocalizedMessage (locale message : string) : result (list byte) :=
  f1 ← write_string_if 1 locale;
  f2 ← write_string_if 2 message;
  Ok (f1 ++ f2).

Definition encodeFieldViolation (violation : FieldViolation) : result (list byte) :=
  f1 ← write_string_if 1 (fv_field violation);
  f2 ← write_string_if 2 (fv_description violation);
  Ok (f1 ++ f2).

Definition encodeBadRequest (fieldViolations : list FieldViolation)
    : result (list byte) :=
  write_all (λ violation, write_bytes 1 (encodeFieldViolation violation))
    fieldViolations.

Definition encodeDebugInfo (stackEntries : list string) (detail : string)
    : result (list byte) :=
  f1 ← write_all (write_string 1) stackEntries;
  f2 ← write_string_if 2 detail;
  Ok (f1 ++ f2).

Definition encodeMapEntry (entry : string * string) : result (list byte) :=
  f1 ← write_string 1 entry.1;
  f2 ← write_string 2 entry.2;
  Ok (f1 ++ f2).

(** [Object.entries(detail.metadata)] enumerates the own properties of the
    object; the model enumerates the map in the order of [map_to_list]. *)
Definition encodeErrorInfo (reason domain : string) (metadata : gmap string string)
    : result (list byte) :=
  f1 ← write_string_if 1 reason;
  f2 ← write_string_if 2 domain;
  f3 ← write_all (λ entry, write_bytes 3 (encodeMapEntry entry)) (map_to_list metadata);
  Ok (f1 ++ f2 ++ f3).

(** The [Duration] message of [encodeRetryInfo]:
    [durationWriter.tag(1, WireType.Varint).int64(BigInt(seconds))].  [BigInt]
    is exact on an integral number, the only kind the model holds. *)
Definition encodeDuration (seconds : Z) : result (list byte) :=
  (W.tag 1 Varint ++.) <$> W.int64 seconds.

Definition encodeRetryInfo (retryDelaySeconds : Z) : result (list byte) :=
  if (0 <? retryDelaySeconds)%Z
  then write_bytes 1 (encodeDuration retryDelaySeconds)
  else Ok [].

Definition encodeQuotaViolation (violation : QuotaViolation) : result (list byte) :=
  f1 ← write_string_if 1 (qv_subject violation);
  f2 ← write_string_if 2 (qv_description violation);
  Ok (f1 ++ f2).

Definition encodeQuotaFailure (violations : list QuotaViolation) : result (list byte) :=
  write_all (λ violation, write_bytes 1 (encodeQuotaViolation violation)) violations.

Definition encodePreconditionViolation (violation : PreconditionViolation)
    : result (list byte) :=
  f1 ← write_string_if 1 (pv_type violation);
  f2 ← write_string_if 2 (pv_subject violation);
  f3 ← write_string_if 3 (pv_description violation);
  Ok (f1 ++ f2 ++ f3).

Definition encodePreconditionFailure (violations : list PreconditionViolation)
    : result (list byte) :=
  write_all (λ violation, write_bytes 1 (encodePreconditionViolation violation))
    violations.

Definition encodeRequestInfo (requestId servingData : string) : result (list byte) :=
  f1 ← write_string_if 1 requestId;
  f2 ← write_string_if 2 servingData;
  Ok (f1 ++ f2).

Definition encodeResourceInfo (resourceType resourceName owner description : string)
    : result (list byte) :=
  f1 ← write_string_if 1 resourceType;
  f2 ← write_string_if 2 resourceName;
  f3 ← write_string_if 3 owner;
  f4 ← write_string_if 4 description;
  Ok (f1 ++ f2 ++ f3 ++ f4).

Definition encodeHelpLink (link : HelpLink) : result (list byte) :=
  f1 ← write_string_if 1 (hl_description link);
  f2 ← write_string_if 2 (hl_url link);
  Ok (f1 ++ f2).

Definition encodeHelp (links : list HelpLink) : result (list byte) :=
  write_all (λ link, write_bytes 1 (encodeHelpLink link)) links.

(** [encodeErrorDetail]: the result is [Any | null]; the [default: return
    null] arm of the [switch] is not reachable from a value of the union. *)
Definition encodeErrorDetail (detail : ErrorDetail) : result (option Any) :=
  match detail with
  | localizedMessage locale message =>
      v ← encodeLocalizedMessage locale message;
      Ok (Some (mkAny TYPE_URLS.localizedMessage v))
  | badRequest fieldViolations =>
      v ← encodeBadRequest fieldViolations; Ok (Some (mkAny TYPE_URLS.badRequest v))
  | debugInfo stackEntries detail =>
      v ← encodeDebugInfo stackEntries detail; Ok (Some (mkAny TYPE_URLS.debugInfo v))
  | errorInfo reason domain metadata =>
      v ← encodeErrorInfo reason domain metadata; Ok (Some (mkAny TYPE_URLS.errorInfo v))
  | retryInfo retryDelaySeconds =>
      v ← encodeRetryInfo retryDelaySeconds; Ok (Some (mkAny TYPE_URLS.retryInfo v))
  | quotaFailure violations =>
      v ← encodeQuotaFailure violations; Ok (Some (mkAny TYPE_URLS.quotaFailure v))
  | preconditionFailure violations =>
      v ← encodePreconditionFailure violations;
      Ok (Some (mkAny TYPE_URLS.preconditionFailure v))
  | requestInfo requestId servingData =>
      v ← encodeRequestInfo requestId servingData;
      Ok (Some (mkAny TYPE_URLS.requestInfo v))
  | resourceInfo resourceType resourceName owner description =>
      v ← encodeResourceInfo resourceType resourceName owner description;
      Ok (Some (mkAny TYPE_URLS.resourceInfo v))
  | help links =>
      v ← encodeHelp links; Ok (Some (mkAny TYPE_URLS.help v))
  | unknown typeUrl value =>
      Ok (Some (mkAny typeUrl value))
  end.

Definition parseLocalizedMessage (data : list byte) : result ErrorDetail :=
  '(locale, message) ← R.fields (λ fieldNo wireType '(locale, message),
      match fieldNo with
      | 1 => string_field wireType (λ s, (s, message)) (locale, message)
      | 2 => string_field wireType (λ s, (locale, s)) (locale, message)
      | _ => skip_field wireType (locale, message)
      end) ("", "") data;
  Ok (localizedMessage locale message).

Definition parseFieldViolation (data : list byte) : result FieldViolation :=
  R.fields (λ fieldNo wireType v,
    match fieldNo with
    | 1 => string_field wireType (λ s, mkFieldViolation s (fv_description v)) v
    | 2 => string_field wireType (λ s, mkFieldViolation (fv_field v) s) v
    | _ => skip_field wireType v
    end) (mkFieldViolation "" "") data.

(** The parsers of a repeated sub-record test [fieldNo === 1 && wireType ===
    WireType.LengthDelimited] and skip anything else. *)
Definition repeated_field {X : Type} (parse : list byte → result X)
    (fieldNo : N) (wireType : WireType) (acc : list X) : R.Reader (list X) :=
  match fieldNo with
  | 1 => bytes_field wireType parse (λ x, acc ++ [x]) acc
  | _ => skip_field wireType acc
  end.

Definition parseBadRequest (data : list byte) : result ErrorDetail :=
  fieldViolations ← R.fields (repeated_field parseFieldViolation) [] data;
  Ok (badRequest fieldViolations).

Definition parseDebugInfo (data : list byte) : result ErrorDetail :=
  '(stackEntries, detail) ← R.fields (λ fieldNo wireType '(stackEntries, detail),
      match fieldNo with
      | 1 => string_field wireType (λ s, (stackEntries ++ [s], detail))
               (stackEntries, detail)
      | 2 => string_field wireType (λ s, (stackEntries, s)) (stackEntries, detail)
      | _ => skip_field wireType (stackEntries, detail)
      end) ([], "") data;
  Ok (debugInfo stackEntries detail).

Definition parseMapEntry (data : list byte) : result (string * string) :=
  R.fields (λ fieldNo wireType '(key, value),
    match fieldNo with
    | 1 => string_field wireType (λ s, (s, value)) (key, value)
    | 2 => string_field wireType (λ s, (key, s)) (key, value)
    | _ => skip_field wireType (key, value)
    end) ("", "") data.

(** [metadata[key] = value] on an object created by the literal [{}]: the
    name [__proto__] reaches the accessor inherited from [Object.prototype],
    whose setter ignores a string, so no own property is created; every other
    name creates or overwrites an own property. *)
Definition set_property (metadata : gmap string string) (key value : string)
    : gmap string string :=
  if String.eqb key "__proto__" then metadata else <[key := value]> metadata.

Definition parseErrorInfo (data : list byte) : result ErrorDetail :=
  '(reason, domain, metadata) ←
    R.fields (λ fieldNo wireType '(reason, domain, metadata),
      match fieldNo with
      | 1 => string_field wireType (λ s, (s, domain, metadata))
               (reason, domain, metadata)
      | 2 => string_field wireType (λ s, (reason, s, metadata))
               (reason, domain, metadata)
      | 3 => bytes_field wireType parseMapEntry
               (λ mapEntry, (reason, domain,
                             set_property metadata mapEntry.1 mapEntry.2))
               (reason, domain, metadata)
      | _ => skip_field wireType (reason, domain, metadata)
      end) ("", "", ∅) data;
  Ok (errorInfo reason domain metadata).

(** The inner loop of [parseRetryInfo] over the [Duration] message: field 1
    as a varint is the seconds; anything else is skipped. *)
Definition parseDuration (retryDelaySeconds : Z) (durationBytes : list byte)
    : result Z :=
  R.fields (λ dFieldNo dWireType seconds,
    match dFieldNo with
    | 1 => varint_field dWireType R.int64 (λ s, s) seconds
    | _ => skip_field dWireType seconds
    end) retryDelaySeconds durationBytes.

Definition parseRetryInfo (data : list byte) : result ErrorDetail :=
  retryDelaySeconds ← R.fields (λ fieldNo wireType retryDelaySeconds,
      match fieldNo with
      | 1 => bytes_field wireType (parseDuration retryDelaySeconds) (λ s, s)
               retryDelaySeconds
      | _ => skip_field wireType retryDelaySeconds
      end) 0%Z data;
  Ok (retryInfo retryDelaySeconds).

Definition parseQuotaViolation (data : list byte) : result QuotaViolation :=
  R.fields (λ fieldNo wireType v,
    match fieldNo with
    | 1 => string_field wireType (λ s, mkQuotaViolation s (qv_description v)) v
    | 2 => string_field wireType (λ s, mkQuotaViolation (qv_subject v) s) v
    | _ => skip_field wireType v
    end) (mkQuotaViolation "" "") data.

Definition parseQuotaFailure (data : list byte) : result ErrorDetail :=
  violations ← R.fields (repeated_field parseQuotaViolation) [] data;
  Ok (quotaFailure violations).

Definition parsePreconditionViolation (data : list byte)
    : result PreconditionViolation :=
  R.fields (λ fieldNo wireType v,
    match fieldNo with
    | 1 => string_field wireType
             (λ s, mkPreconditionViolation s (pv_subject v) (pv_description v)) v
    | 2 => string_field wireType
             (λ s, mkPreconditionViolation (pv_type v) s (pv_description v)) v
    | 3 => string_field wireType
             (λ s, mkPreconditionViolation (pv_type v) (pv_subject v) s) v
    | _ => skip_field wireType v
    end) (mkPreconditionViolation "" "" "") data.

Definition parsePreconditionFailure (data : list byte) : result ErrorDetail :=
  violations ← R.fields (repeated_field parsePreconditionViolation) [] data;
  Ok (preconditionFailure violations).

Definition parseRequestInfo (data : list byte) : result ErrorDetail :=
  '(requestId, servingData) ← R.fields (λ fieldNo wireType '(requestId, servingData),
      match fieldNo with
      | 1 => string_field wireType (λ s, (s, servingData)) (requestId, servingData)
      | 2 => string_field wireType (λ s, (requestId, s)) (requestId, servingData)
      | _ => skip_field wireType (requestId, servingData)
      end) ("", "") data;
  Ok (requestInfo requestId servingData).

Definition parseResourceInfo (data : list byte) : result ErrorDetail :=
  '(resourceType, resourceName, owner, description) ←
    R.fields (λ fieldNo wireType '(resourceType, resourceName, owner, description),
      let st := (resourceType, resourceName, owner, description) in
      match fieldNo with
      | 1 => string_field wireType (λ s, (s, resourceName, owner, description)) st
      | 2 => string_field wireType (λ s, (resourceType, s, owner, description)) st
      | 3 => string_field wireType (λ s, (resourceType, resourceName, s, description)) st
      | 4 => string_field wireType (λ s, (resourceType, resourceName, owner, s)) st
      | _ => skip_field wireType st
      end) ("", "", "", "") data;
  Ok (resourceInfo resourceType resourceName owner description).

Definition parseHelpLink (data : list byte) : result HelpLink :=
  R.fields (λ fieldNo wireType l,
    match fieldNo with
    | 1 => string_field wireType (λ s, mkHelpLink s (hl_url l)) l
    | 2 => string_field wireType (λ s, mkHelpLink (hl_description l) s) l
    | _ => skip_field wireType l
    end) (mkHelpLink "" "") data.

Definition parseHelp (data : list byte) : result ErrorDetail :=
  links ← R.fields (repeated_field parseHelpLink) [] data;
  Ok (help links).

(** [parseErrorDetail]: a [switch] on [any.typeUrl] with one [case] per type
    URL and the unknown shape as [default]. *)
Definition parseErrorDetail (any : Any) : result ErrorDetail :=
  let t := typeUrl any in
  if String.eqb t TYPE_URLS.localizedMessage then parseLocalizedMessage (value any)
  else if String.eqb t TYPE_URLS.badRequest then parseBadRequest (value any)
  else if String.eqb t TYPE_URLS.debugInfo then parseDebugInfo (value any)
  else if String.eqb t TYPE_URLS.errorInfo then parseErrorInfo (value any)
  else if String.eqb t TYPE_URLS.retryInfo then parseRetryInfo (value any)
  else if String.eqb t TYPE_URLS.quotaFailure then parseQuotaFailure (value any)
  else if String.eqb t TYPE_URLS.preconditionFailure then parsePreconditionFailure (value any)
  else if String.eqb t TYPE_URLS.requestInfo then parseRequestInfo (value any)
  else if String.eqb t TYPE_URLS.resourceInfo then parseResourceInfo (value any)
  else if String.eqb t TYPE_URLS.help then parseHelp (value any)
  else Ok (unknown (typeUrl any) (value any)).

(** [status.details.map(parseErrorDetail)], leaving at the first throw. *)
Fixpoint map_result {A B : Type} (f : A → result B) (l : list A) : result (list B) :=
  match l with
  | [] => Ok []
  | a :: l' => b ← f a; bs ← map_result f l'; Ok (b :: bs)
  end.

Record DecodedGrpcStatus : Type := mkDecodedGrpcStatus
  { decoded_code : Z;
    decoded_message : string;
    decoded_localizedMessage : option string;
    decoded_details : list ErrorDetail }.

(** [details.find(d => d.type === 'localizedMessage')?.message] *)
Fixpoint find_localizedMessage (details : list ErrorDetail) : option string :=
  match details with
  | [] => None
  | localizedMessage _ message :: _ => Some message
  | _ :: details' => find_localizedMessage details'
  end.

Definition decodeGrpcStatus (data : list byte) : result DecodedGrpcStatus :=
  status ← parseStatus data;
  details ← map_result parseErrorDetail (status_details status);
  Ok (mkDecodedGrpcStatus (status_code status) (status_message status)
        (find_localizedMessage details) details).

(** ** The calls of the RPC runtime ([@protobuf-ts/runtime-rpc])

    The interceptors see a call through its four promises and, for the
    streaming shapes, through its request and response streams.  A promise is
    modelled by the way it ends up; an object that is compared by reference
    carries a [ref]. *)

(** A metadata value is [string | string[]]. *)
Inductive MetaValue : Type :=
  | MetaString (s : string)
  | MetaList (l : list string).

Abbreviation RpcMetadata := (gmap string MetaValue).

Record MethodInfo : Type := mkMethodInfo { method_name : string }.

Record RpcStatus : Type := mkRpcStatus { rpc_status_code : string; rpc_status_detail : string }.

(** [RpcError]: the wire error raised by a transport, with its status code
    (a string such as ["NOT_FOUND"]) and the metadata it carries. *)
Record RpcError : Type := mkRpcError
  { rpc_ref : nat; rpc_code : string; rpc_meta : RpcMetadata }.

(** ** [errors.ts] *)

Inductive ErrorClass : Set :=
  | GrpcErrorClass
  | AbortedError
  | AlreadyExistsError
  | DeadlineExceededError
  | NotFoundError
  | PermissionDeniedError
  | RaceUpdateError
  | ValidationError
  | UnavailableError
  | UnauthenticatedError
  | UnknownError.

(** [this.constructor.name] *)
Definition class_name (c : ErrorClass) : string :=
  match c with
  | GrpcErrorClass => "GrpcError"
  | AbortedError => "AbortedError"
  | AlreadyExistsError => "AlreadyExistsError"
  | DeadlineExceededError => "DeadlineExceededError"
  | NotFoundError => "NotFoundError"
  | PermissionDeniedError => "PermissionDeniedError"
  | RaceUpdateError => "RaceUpdateError"
  | ValidationError => "ValidationError"
  | UnavailableError => "UnavailableError"
  | UnauthenticatedError => "UnauthenticatedError"
  | UnknownError => "UnknownError"
  end.

(** [GrpcErrorOptions]; both fields are optional.  The interceptor is the
    only place of the model that sets [cause], and it sets it to the wire
    error it maps. *)
Record GrpcErrorOptions : Type := mkGrpcErrorOptions
  { options_details : option (list ErrorDetail);
    options_cause : option RpcError }.

(** An instance of [GrpcError] or of one of its subclasses.  [error_ref] is
    the identity of the object: two values with the same [error_ref] are one
    instance.  [error_stack] is [None] for the trace captured by the engine
    at construction. *)
Record GrpcError : Type := mkGrpcError
  { error_ref : nat;
    error_class : ErrorClass;
    error_name : string;
    error_message : string;
    error_details : list ErrorDetail;
    error_cause : option RpcError;
    error_stack : option string }.

(** What the interceptor leaves behind: the next free object reference, and
    the errors handed to the [onError] callback, latest last. *)
Record Heap : Type := mkHeap { next_ref : nat; onError_calls : list GrpcError }.

(** The constructor of [GrpcError]:
    [super(message, { cause: options?.cause }); this.name =
    this.constructor.name; this.details = options?.details ?? []]. *)
Definition new_GrpcError (cls : ErrorClass) (message : string)
    (options : option GrpcErrorOptions) (h : Heap) : GrpcError * Heap :=
  (mkGrpcError (next_ref h) cls (class_name cls) message
     (default [] (options ≫= options_details))
     (options ≫= options_cause)
     None,
   mkHeap (S (next_ref h)) (onError_calls h)).

Definition new_AbortedError := new_GrpcError AbortedError "Aborted by client".
Definition new_AlreadyExistsError := new_GrpcError AlreadyExistsError "Already exists".
Definition new_DeadlineExceededError :=
  new_GrpcError DeadlineExceededError "Request took too long to respond".
Definition new_NotFoundError := new_GrpcError NotFoundError "Not found".
Definition new_PermissionDeniedError := new_GrpcError PermissionDeniedError "Permission denied".
Definition new_RaceUpdateError :=
  new_GrpcError RaceUpdateError "Attempt to update after the item is already updated elsewhere".
Definition new_ValidationError := new_GrpcError ValidationError "Validation error".
Definition new_UnavailableError := new_GrpcError UnavailableError "Cannot connect to the server".
Definition new_UnauthenticatedError := new_GrpcError UnauthenticatedError "Unauthenticated".
Definition new_UnknownError := new_GrpcError UnknownError "Unknown error".

(** [get localizedMessage()] *)
Definition localizedMessage_of (error : GrpcError) : option string :=
  find_localizedMessage (error_details error).

(** ** [encode.ts]: [encodeGrpcStatus] *)

Definition ERROR_TO_GRPC_CODE (c : ErrorClass) : Z :=
  match c with
  | AbortedError => 10
  | AlreadyExistsError => 6
  | DeadlineExceededError => 4
  | NotFoundError => 5
  | PermissionDeniedError => 7
  | RaceUpdateError => 10
  | ValidationError => 3
  | UnavailableError => 14
  | UnauthenticatedError => 16
  | UnknownError => 2
  | GrpcErrorClass => 2
  end.

(** [for (const detail of error.details) { const encoded =
    encodeErrorDetail(detail); if (encoded) details.push(encoded); }] *)
Fixpoint encode_details (details : list ErrorDetail) : result (list Any) :=
  match details with
  | [] => Ok []
  | detail :: details' =>
      encoded ← encodeErrorDetail detail;
      rest ← encode_details details';
      Ok (match encoded with Some any => any :: rest | None => rest end)
  end.

Definition encodeGrpcStatus (error : GrpcError) : result (list byte) :=
  details ← encode_details (error_details error);
  encodeStatus (mkStatus (ERROR_TO_GRPC_CODE (error_class error))
                  (error_message error) details).

(** ** Values that are thrown, and promises *)

(** What a [catch] may receive: a wire error, a typed error, some other
    instance of [Error], or a value that is no [Error] at all. *)
Inductive JsValue : Type :=
  | VRpcError (e : RpcError)
  | VGrpcError (g : GrpcError)
  | VError (ref : nat)
  | VOther (ref : nat).

(** How a promise ends: it stays pending, is fulfilled, or is rejected. *)
Inductive Settlement (V : Type) : Type :=
  | Pending
  | Resolved (v : V)
  | Rejected (reason : JsValue).
Arguments Pending {V}.
Arguments Resolved {V} v.
Arguments Rejected {V} reason.

(** [promise.then(f)] with no rejection handler. *)
Definition then_ {A B : Type} (p : Settlement A) (f : A → B) : Settlement B :=
  match p with
  | Pending => Pending
  | Resolved a => Resolved (f a)
  | Rejected reason => Rejected reason
  end.

(** [RpcOptions], reduced to the two fields the interceptors read:
    [meta], and the [aborted] flag of the [abort] signal. *)
Record RpcOptions : Type := mkRpcOptions
  { meta : option RpcMetadata; abort : option bool }.

Inductive Channel : Set := ch_headers | ch_response | ch_status | ch_trailers.

#[global] Instance Channel_eq_dec : EqDecision Channel.
Proof. solve_decision. Defined.

(** One call of a listener of [responses.onNext]: a message, an error, or
    the end of the stream. *)
Inductive StreamEvent (O : Type) : Type :=
  | NextMessage (message : O)
  | NextError (error : JsValue)
  | NextDone.
Arguments NextMessage {O} message.
Arguments NextError {O} error.
Arguments NextDone {O}.

Record UnaryCall (I O : Type) : Type := mkUnaryCall
  { unary_method : MethodInfo;
    unary_requestHeaders : RpcMetadata;
    unary_request : I;
    unary_headers : Settlement RpcMetadata;
    unary_response : Settlement O;
    unary_status : Settlement RpcStatus;
    unary_trailers : Settlement RpcMetadata }.
Arguments mkUnaryCall {I O}.
Arguments unary_method {I O}.
Arguments unary_requestHeaders {I O}.
Arguments unary_request {I O}.
Arguments unary_headers {I O}.
Arguments unary_response {I O}.
Arguments unary_status {I O}.
Arguments unary_trailers {I O}.

Record ServerStreamingCall (I O : Type) : Type := mkServerStreamingCall
  { server_method : MethodInfo;
    server_requestHeaders : RpcMetadata;
    server_request : I;
    server_headers : Settlement RpcMetadata;
    server_responses : list (StreamEvent O);
    server_status : Settlement RpcStatus;
    server_trailers : Settlement RpcMetadata }.
Arguments mkServerStreamingCall {I O}.
Arguments server_method {I O}.
Arguments server_requestHeaders {I O}.
Arguments server_request {I O}.
Arguments server_headers {I O}.
Arguments server_responses {I O}.
Arguments server_status {I O}.
Arguments server_trailers {I O}.

(** The request stream of a call is an object with [send] and [complete];
    [client_requests] is its reference. *)
Record ClientStreamingCall (O : Type) : Type := mkClientStreamingCall
  { client_method : MethodInfo;
    client_requestHeaders : RpcMetadata;
    client_requests : nat;
    client_headers : Settlement RpcMetadata;
    client_response : Settlement O;
    client_status : Settlement RpcStatus;
    client_trailers : Settlement RpcMetadata }.
Arguments mkClientStreamingCall {O}.
Arguments client_method {O}.
Arguments client_requestHeaders {O}.
Arguments client_requests {O}.
Arguments client_headers {O}.
Arguments client_response {O}.
Arguments client_status {O}.
Arguments client_trailers {O}.

Record DuplexStreamingCall (O : Type) : Type := mkDuplexStreamingCall
  { duplex_method : MethodInfo;
    duplex_requestHeaders : RpcMetadata;
    duplex_requests : nat;
    duplex_headers : Settlement RpcMetadata;
    duplex_responses : list (StreamEvent O);
    duplex_status : Settlement RpcStatus;
    duplex_trailers : Settlement RpcMetadata }.
Arguments mkDuplexStreamingCall {O}.
Arguments duplex_method {O}.
Arguments duplex_requestHeaders {O}.
Arguments duplex_requests {O}.
Arguments duplex_headers {O}.
Arguments duplex_responses {O}.
Arguments duplex_status {O}.
Arguments duplex_trailers {O}.

(** A [UnaryCall] is a thenable: awaiting it waits for the four promises
    ([Promise.all]) and gives their values, or fails with the rejection of
    one of them.  [Promise.all] reports the earliest rejection; the model
    reports the first in the order headers, response, status, trailers. *)
Record FinishedUnaryCall (O : Type) : Type := mkFinishedUnaryCall
  { finished_headers : RpcMetadata;
    finished_response : O;
    finished_status : RpcStatus;
    finished_trailers : RpcMetadata }.
Arguments mkFinishedUnaryCall {O}.
Arguments finished_headers {O}.
Arguments finished_response {O}.
Arguments finished_status {O}.
Arguments finished_trailers {O}.

Definition first_rejection {A B C D : Type} (a : Settlement A) (b : Settlement B)
    (c : Settlement C) (d : Settlement D) : option JsValue :=
  match a, b, c, d with
  | Rejected r, _, _, _ => Some r
  | _, Rejected r, _, _ => Some r
  | _, _, Rejected r, _ => Some r
  | _, _, _, Rejected r => Some r
  | _, _, _, _ => None
  end.

Definition await_unary {I O : Type} (call : UnaryCall I O)
    : Settlement (FinishedUnaryCall O) :=
  match unary_headers call, unary_response call, unary_status call, unary_trailers call with
  | Resolved h, Resolved r, Resolved s, Resolved t =>
      Resolved (mkFinishedUnaryCall h r s t)
  | h, r, s, t =>
      match first_rejection h r s t with
      | Some reason => Rejected reason
      | None => Pending
      end
  end.

(** A [ServerStreamingCall] is a thenable too; awaiting it waits for
    headers, status and trailers. *)
Definition await_server {I O : Type} (call : ServerStreamingCall I O)
    : Settlement (RpcMetadata * RpcStatus * RpcMetadata) :=
  match server_headers call, server_status call, server_trailers call with
  | Resolved h, Resolved s, Resolved t => Resolved (h, s, t)
  | h, s, t =>
      match first_rejection h s t (@Pending unit) with
      | Some reason => Rejected reason
      | None => Pending
      end
  end.

(** ** [interceptor.ts]: the error-mapping interceptor *)

Module GrpcStatusCode.
Definition OK : string := "OK".
Definition CANCELLED : string := "CANCELLED".
Definition UNKNOWN : string := "UNKNOWN".
Definition INVALID_ARGUMENT : string := "INVALID_ARGUMENT".
Definition DEADLINE_EXCEEDED : string := "DEADLINE_EXCEEDED".
Definition NOT_FOUND : string := "NOT_FOUND".
Definition ALREADY_EXISTS : string := "ALREADY_EXISTS".
Definition PERMISSION_DENIED : string := "PERMISSION_DENIED".
Definition RESOURCE_EXHAUSTED : string := "RESOURCE_EXHAUSTED".
Definition FAILED_PRECONDITION : string := "FAILED_PRECONDITION".
Definition ABORTED : string := "ABORTED".
Definition OUT_OF_RANGE : string := "OUT_OF_RANGE".
Definition UNIMPLEMENTED : string := "UNIMPLEMENTED".
Definition INTERNAL : string := "INTERNAL".
Definition UNAVAILABLE : string := "UNAVAILABLE".
Definition DATA_LOSS : string := "DATA_LOSS".
Definition UNAUTHENTICATED : string := "UNAUTHENTICATED".
End GrpcStatusCode.

(** [try { body } catch { handler }]: a throw of the body is replaced by
    the handler; running out of budget is not an exception. *)
Definition try_catch {A : Type} (body handler : result A) : result A :=
  match body with
  | Ok a => Ok a
  | Throw => handler
  | Diverge => Diverge
  end.

Module ErrorInterceptor.
Section with_platform.

(** [decodeBase64] rests on [atob] or on [Buffer], whichever the platform
  has; the decoder is a parameter, [None] being a throw. *)
Variable decodeBase64 : string → option (list byte).

Definition result_of_option {A : Type} (o : option A) : result A :=
match o with
| Some a => Ok a
| None => Throw
end.

(** [!richError] for a value of type [string | string[]]: the empty string
  is falsy, an array never is. *)
Definition meta_falsy (v : MetaValue) : bool :=
match v with
| MetaString s => negb (truthy s)
| MetaList _ => false
end.

(** [richError as string] where a string is expected: an array is turned
  into its elements joined by commas. *)
Definition meta_as_string (v : MetaValue) : string :=
match v with
| MetaString s => s
| MetaList l => String.concat "," l
end.

Definition parseRichErrorDetails (meta : RpcMetadata) : result GrpcErrorOptions :=
match meta !! "grpc-status-details-bin" with
| None => Ok (mkGrpcErrorOptions (Some []) None)
| Some richError =>
    if meta_falsy richError then Ok (mkGrpcErrorOptions (Some []) None)
    else
      try_catch
        (binary ← result_of_option (decodeBase64 (meta_as_string richError));
         decoded ← decodeGrpcStatus binary;
         Ok (mkGrpcErrorOptions (Some (decoded_details decoded)) None))
        (Ok (mkGrpcErrorOptions (Some []) None))
end.

(** [callSiteStack.split('\n')] *)
Fixpoint split_lines (s : string) : list string :=
match s with
| EmptyString => [EmptyString]
| String c s' =>
    if Ascii.eqb c "010"%char then EmptyString :: split_lines s'
    else match split_lines s' with
         | line :: lines => String c line :: lines
         | [] => [String c EmptyString]
         end
end.

Definition newline : string := String "010"%char EmptyString.

(** [applyCallSiteStack]: the assignment to [error.stack] gives the same
  instance with its trace replaced. *)
Definition applyCallSiteStack (error : GrpcError) (callSiteStack : option string)
  : GrpcError :=
match callSiteStack with
| None => error
| Some stack =>
    if truthy stack then
      let errorHeader := error_name error +:+ ": " +:+ error_message error in
      let stackLines := drop 1 (split_lines stack) in
      mkGrpcError (error_ref error) (error_class error) (error_name error)
        (error_message error) (error_details error) (error_cause error)
        (Some (errorHeader +:+ newline +:+ String.concat newline stackLines))
    else error
end.

(** [onError?.(error)]: when a callback is configured, the call is
  recorded. *)
Definition call_onError (onError : bool) (error : GrpcError) (h : Heap) : Heap :=
if onError then mkHeap (next_ref h) (onError_calls h ++ [error]) else h.

(** The [switch (e.code)] of [mapRpcError], as the constructor selected. *)
Definition error_for_code (code : string)
  : option GrpcErrorOptions → Heap → GrpcError * Heap :=
if String.eqb code GrpcStatusCode.CANCELLED then new_AbortedError
else if String.eqb code GrpcStatusCode.ABORTED then new_AbortedError
else if String.eqb code GrpcStatusCode.UNAUTHENTICATED then new_UnauthenticatedError
else if String.eqb code GrpcStatusCode.UNAVAILABLE then new_UnavailableError
else if String.eqb code GrpcStatusCode.ALREADY_EXISTS then new_AlreadyExistsError
else if String.eqb code GrpcStatusCode.NOT_FOUND then new_NotFoundError
else if String.eqb code GrpcStatusCode.INVALID_ARGUMENT then new_ValidationError
else if String.eqb code GrpcStatusCode.FAILED_PRECONDITION then new_ValidationError
else if String.eqb code GrpcStatusCode.DEADLINE_EXCEEDED then new_DeadlineExceededError
else if String.eqb code GrpcStatusCode.PERMISSION_DENIED then new_PermissionDeniedError
else new_UnknownError.

(** [abort?.aborted] *)
Definition aborted (abort : option bool) : bool := default false abort.

Definition mapRpcError (e : JsValue) (abort : option bool) (onError : bool)
  (callSiteStack : option string) (h : Heap) : result (JsValue * Heap) :=
match e with
| VRpcError e =>
    if aborted abort then
      let '(error, h) := new_AbortedError None h in
      let error := applyCallSiteStack error callSiteStack in
      Ok (VGrpcError error, call_onError onError error h)
    else
      parsed ← parseRichErrorDetails (rpc_meta e);
      let options := mkGrpcErrorOptions (options_details parsed) (Some e) in
      let '(error, h) := error_for_code (rpc_code e) (Some options) h in
      let error := applyCallSiteStack error callSiteStack in
      Ok (VGrpcError error, call_onError onError error h)
| VGrpcError _ | VError _ => Ok (e, h)
| VOther _ =>
    let '(error, h) := new_UnknownError None h in Ok (VGrpcError error, h)
end.

(** The configuration: whether an [onError] callback is given. *)
Record ErrorInterceptorConfig : Type := mkErrorInterceptorConfig { onError : bool }.

Context {I O : Type}.

(** [interceptUnary]: [await next(...)], then either the four values are
  resolved or the failure is mapped once and the four deferreds are
  rejected with the one error. *)
Definition interceptUnary (config : ErrorInterceptorConfig)
  (next : MethodInfo → I → RpcOptions → UnaryCall I O)
  (method : MethodInfo) (input : I) (options : RpcOptions)
  (callSiteStack : option string) (h : Heap) : result (UnaryCall I O * Heap) :=
let call headers response status trailers :=
  mkUnaryCall method (default ∅ (meta options)) input
    headers response status trailers in
match await_unary (next method input options) with
| Resolved res =>
    Ok (call (Resolved (finished_headers res)) (Resolved (finished_response res))
          (Resolved (finished_status res)) (Resolved (finished_trailers res)), h)
| Rejected e =>
    '(error, h) ← mapRpcError e (abort options) (onError config) callSiteStack h;
    Ok (call (Rejected error) (Rejected error) (Rejected error) (Rejected error), h)
| Pending => Ok (call Pending Pending Pending Pending, h)
end.

(** The listener both streaming-output hooks register with
  [responses.onNext]: messages and the end of the stream are passed on,
  an error is mapped first. *)
Fixpoint forward_responses (config : ErrorInterceptorConfig) (options : RpcOptions)
  (callSiteStack : option string) (events : list (StreamEvent O)) (h : Heap)
  : result (list (StreamEvent O) * Heap) :=
match events with
| [] => Ok ([], h)
| event :: events' =>
    '(event, h) ←
      match event with
      | NextError error =>
          '(error, h) ← mapRpcError error (abort options) (onError config)
                          callSiteStack h;
          Ok (NextError error, h)
      | _ => Ok (event, h)
      end;
    '(events', h) ← forward_responses config options callSiteStack events' h;
    Ok (event :: events', h)
end.

(** [interceptServerStreaming]: the promises of the call of [next] are
  handed on as they are; only the response stream is mapped. *)
Definition interceptServerStreaming (config : ErrorInterceptorConfig)
  (next : MethodInfo → I → RpcOptions → ServerStreamingCall I O)
  (method : MethodInfo) (input : I) (options : RpcOptions)
  (callSiteStack : option string) (h : Heap)
  : result (ServerStreamingCall I O * Heap) :=
let serverStream := next method input options in
'(outputStream, h) ← forward_responses config options callSiteStack
                       (server_responses serverStream) h;
Ok (mkServerStreamingCall method (default ∅ (meta options)) input
      (server_headers serverStream) outputStream
      (server_status serverStream) (server_trailers serverStream), h).

(** [p.then(v => deferred.resolve(v)).catch(e =>
  deferred.reject(mapRpcError(e, ...)))]: each promise has handlers of its
  own, and each rejection handler calls [mapRpcError]. *)
Definition map_settlement {V : Type} (config : ErrorInterceptorConfig)
  (options : RpcOptions) (callSiteStack : option string)
  (p : Settlement V) (h : Heap) : result (Settlement V * Heap) :=
match p with
| Pending => Ok (Pending, h)
| Resolved v => Ok (Resolved v, h)
| Rejected e =>
    '(error, h) ← mapRpcError e (abort options) (onError config) callSiteStack h;
    Ok (Rejected error, h)
end.

(** The deferreds of [interceptClientStreaming], and the handlers of the
  promises of the call of [next] run in the order the promises settle:
  [order] lists the channels in that order. *)
Record ClientDeferreds : Type := mkClientDeferreds
{ headersDeferred : Settlement RpcMetadata;
  responseDeferred : Settlement O;
  statusDeferred : Settlement RpcStatus;
  trailersDeferred : Settlement RpcMetadata }.

Definition settle_client (config : ErrorInterceptorConfig) (options : RpcOptions)
  (callSiteStack : option string) (call : ClientStreamingCall O)
  (channel : Channel) (d : ClientDeferreds) (h : Heap)
  : result (ClientDeferreds * Heap) :=
match channel with
| ch_headers =>
    match headersDeferred d with
    | Pending =>
        '(p, h) ← map_settlement config options callSiteStack (client_headers call) h;
        Ok (mkClientDeferreds p (responseDeferred d) (statusDeferred d)
              (trailersDeferred d), h)
    | _ => Ok (d, h)
    end
| ch_response =>
    match responseDeferred d with
    | Pending =>
        '(p, h) ← map_settlement config options callSiteStack (client_response call) h;
        Ok (mkClientDeferreds (headersDeferred d) p (statusDeferred d)
              (trailersDeferred d), h)
    | _ => Ok (d, h)
    end
| ch_status =>
    match statusDeferred d with
    | Pending =>
        '(p, h) ← map_settlement config options callSiteStack (client_status call) h;
        Ok (mkClientDeferreds (headersDeferred d) (responseDeferred d) p
              (trailersDeferred d), h)
    | _ => Ok (d, h)
    end
| ch_trailers =>
    match trailersDeferred d with
    | Pending =>
        '(p, h) ← map_settlement config options callSiteStack (client_trailers call) h;
        Ok (mkClientDeferreds (headersDeferred d) (responseDeferred d)
              (statusDeferred d) p, h)
    | _ => Ok (d, h)
    end
end.

Fixpoint settle_client_all (config : ErrorInterceptorConfig) (options : RpcOptions)
  (callSiteStack : option string) (call : ClientStreamingCall O)
  (order : list Channel) (d : ClientDeferreds) (h : Heap)
  : result (ClientDeferreds * Heap) :=
match order with
| [] => Ok (d, h)
| channel :: order' =>
    '(d, h) ← settle_client config options callSiteStack call channel d h;
    settle_client_all config options callSiteStack call order' d h
end.

Definition interceptClientStreaming (config : ErrorInterceptorConfig)
  (next : MethodInfo → RpcOptions → ClientStreamingCall O)
  (method : MethodInfo) (options : RpcOptions)
  (callSiteStack : option string) (order : list Channel) (h : Heap)
  : result (ClientStreamingCall O * Heap) :=
let call := next method options in
'(d, h) ← settle_client_all config options callSiteStack call order
            (mkClientDeferreds Pending Pending Pending Pending) h;
Ok (mkClientStreamingCall method (default ∅ (meta options)) (client_requests call)
      (headersDeferred d) (responseDeferred d) (statusDeferred d)
      (trailersDeferred d), h).

(** The three promises of a duplex call, in the record of the four of a
  client-streaming call: a duplex call has no response promise. *)
Definition duplex_promises (call : DuplexStreamingCall O) : ClientStreamingCall O :=
mkClientStreamingCall (duplex_method call) (duplex_requestHeaders call)
  (duplex_requests call) (duplex_headers call) Pending
  (duplex_status call) (duplex_trailers call).

(** [interceptDuplex]: headers, status and trailers as in the
  client-streaming hook, the response stream as in the server-streaming
  one.  The handlers of the three promises run in [order]; the errors of
  the stream are mapped after them. *)
Definition interceptDuplex (config : ErrorInterceptorConfig)
  (next : MethodInfo → RpcOptions → DuplexStreamingCall O)
  (method : MethodInfo) (options : RpcOptions)
  (callSiteStack : option string) (order : list Channel) (h : Heap)
  : result (DuplexStreamingCall O * Heap) :=
let call := next method options in
'(d, h) ← settle_client_all config options callSiteStack (duplex_promises call)
            order (mkClientDeferreds Pending Pending Pending Pending) h;
'(outputStream, h) ← forward_responses config options callSiteStack
                       (duplex_responses call) h;
Ok (mkDuplexStreamingCall method (default ∅ (meta options)) (duplex_requests call)
      (headersDeferred d) outputStream (statusDeferred d) (trailersDeferred d), h).

End with_platform.

Arguments ClientDeferreds : clear implicits.
Arguments mkClientDeferreds {O}.
Arguments headersDeferred {O}.
Arguments responseDeferred {O}.
Arguments statusDeferred {O}.
Arguments trailersDeferred {O}.
End ErrorInterceptor.

(** ** [metadata-interceptor.ts]: the metadata interceptor *)

Module MetadataInterceptor.

Inductive CallType : Set := unary | serverStreaming | clientStreaming | duplex.

#[global] Instance CallType_eq_dec : EqDecision CallType.
Proof. solve_decision. Defined.

Record MetadataContext : Type := mkMetadataContext
  { callType : CallType; method : MethodInfo }.

(** [MetadataProvider]: a static mapping, or a function of the context
    that returns a mapping or a promise of one.  [resolveMetadata] is an
    [async] function, so a function provider is known by the settlement of
    the promise: a returned mapping resolves it, a throw rejects it. *)
Inductive MetadataProvider : Type :=
  | provider_static (m : RpcMetadata)
  | provider_function (f : MetadataContext → Settlement RpcMetadata).

Record MetadataInterceptorConfig : Type := mkMetadataInterceptorConfig
  { metadata : MetadataProvider; callTypes : option (list CallType) }.

Definition resolveMetadata (provider : MetadataProvider) (context : MetadataContext)
    : Settlement RpcMetadata :=
  match provider with
  | provider_function f => f context
  | provider_static m => Resolved m
  end.

(** [callTypes === undefined || callTypes.includes(type)] *)
Definition shouldIntercept (config : MetadataInterceptorConfig) (type : CallType) : bool :=
  match callTypes config with
  | None => true
  | Some types => bool_decide (type ∈ types)
  end.

(** [{ ...options.meta, ...resolved }]: the entries of [options.meta],
    then those of [resolved] over them. *)
Definition merge_meta (options_meta : option RpcMetadata) (resolved : RpcMetadata)
    : RpcMetadata :=
  resolved ∪ default ∅ options_meta.

(** [{ ...options, meta }] *)
Definition with_meta (options : RpcOptions) (m : RpcMetadata) : RpcOptions :=
  mkRpcOptions (Some m) (abort options).

Section hooks.
Context {I O : Type}.

(** Each hook is given with the list of the options [next] was called
    with. *)

Definition interceptUnary (config : MetadataInterceptorConfig)
    (next : MethodInfo → I → RpcOptions → UnaryCall I O)
    (method : MethodInfo) (input : I) (options : RpcOptions)
    : UnaryCall I O * list RpcOptions :=
  if negb (shouldIntercept config unary) then (next method input options, [options])
  else
    let context := mkMetadataContext unary method in
    let '(callPromise, calls) :=
      match resolveMetadata (metadata config) context with
      | Resolved resolved =>
          let meta := merge_meta (meta options) resolved in
          (await_unary (next method input (with_meta options meta)),
           [with_meta options meta])
      | Rejected reason => (Rejected reason, [])
      | Pending => (Pending, [])
      end in
    (mkUnaryCall method (default ∅ (meta options)) input
       (then_ callPromise finished_headers)
       (then_ callPromise finished_response)
       (then_ callPromise finished_status)
       (then_ callPromise finished_trailers),
     calls).

Definition interceptServerStreaming (config : MetadataInterceptorConfig)
    (next : MethodInfo → I → RpcOptions → ServerStreamingCall I O)
    (method : MethodInfo) (input : I) (options : RpcOptions)
    : ServerStreamingCall I O * list RpcOptions :=
  if negb (shouldIntercept config serverStreaming)
  then (next method input options, [options])
  else
    let context := mkMetadataContext serverStreaming method in
    let '(callPromise, outputStream, calls) :=
      match resolveMetadata (metadata config) context with
      | Resolved resolved =>
          let meta := merge_meta (meta options) resolved in
          let call := next method input (with_meta options meta) in
          (await_server call, server_responses call, [with_meta options meta])
      | Rejected reason => (Rejected reason, [], [])
      | Pending => (Pending, [], [])
      end in
    (mkServerStreamingCall method (default ∅ (meta options)) input
       (then_ callPromise (λ c, c.1.1))
       outputStream
       (then_ callPromise (λ c, c.1.2))
       (then_ callPromise (λ c, c.2)),
     calls).

(** *** The streaming-input hooks

    The hook returns at once; what happens afterwards is a sequence of
    jobs of the event loop, each run to its end: the caller sends or
    completes, the promise of [resolveMetadata] settles, a promise of the
    real call settles, the real call delivers a response. *)

Inductive RequestEvent : Type :=
  | sent (message : I)
  | completed.

Inductive Event : Type :=
  | Send (message : I)
  | Complete
  | MetadataSettled
  | CallSettled (channel : Channel)
  | CallNext.

(** The variables the closures of a hook share ([pendingCall],
    [pendingMessages], [sendCompleted], the deferreds, the response
    stream of the duplex hook), and around them: the promise of
    [resolveMetadata], the options of the calls of [next], what the
    request stream of the real call was asked to do, in order, and the
    responses the real call has still to deliver. *)
Record State (C : Type) : Type := mkState
  { pendingCall : option C;
    pendingMessages : list I;
    sendCompleted : bool;
    headersDeferred : Settlement RpcMetadata;
    responseDeferred : Settlement O;
    statusDeferred : Settlement RpcStatus;
    trailersDeferred : Settlement RpcMetadata;
    responseStream : list (StreamEvent O);
    metadataPromise : Settlement RpcMetadata;
    next_calls : list RpcOptions;
    received : list RequestEvent;
    undelivered : list (StreamEvent O) }.
Arguments mkState {C}.
Arguments pendingCall {C}.
Arguments pendingMessages {C}.
Arguments sendCompleted {C}.
Arguments headersDeferred {C}.
Arguments responseDeferred {C}.
Arguments statusDeferred {C}.
Arguments trailersDeferred {C}.
Arguments responseStream {C}.
Arguments metadataPromise {C}.
Arguments next_calls {C}.
Arguments received {C}.
Arguments undelivered {C}.

Section proxy.
Context {C : Type}.

(** [send]: [if (pendingCall) return pendingCall.requests.send(message);
    pendingMessages.push(message)] *)
Definition send (message : I) (s : State C) : State C :=
  match pendingCall s with
  | Some _ =>
      mkState (pendingCall s) (pendingMessages s) (sendCompleted s)
        (headersDeferred s) (responseDeferred s) (statusDeferred s)
        (trailersDeferred s) (responseStream s) (metadataPromise s)
        (next_calls s) (received s ++ [sent message]) (undelivered s)
  | None =>
      mkState (pendingCall s) (pendingMessages s ++ [message]) (sendCompleted s)
        (headersDeferred s) (responseDeferred s) (statusDeferred s)
        (trailersDeferred s) (responseStream s) (metadataPromise s)
        (next_calls s) (received s) (undelivered s)
  end.

(** [complete]: [if (pendingCall) return
    pendingCall.requests.complete(); sendCompleted = true] *)
Definition complete (s : State C) : State C :=
  match pendingCall s with
  | Some _ =>
      mkState (pendingCall s) (pendingMessages s) (sendCompleted s)
        (headersDeferred s) (responseDeferred s) (statusDeferred s)
        (trailersDeferred s) (responseStream s) (metadataPromise s)
        (next_calls s) (received s ++ [completed]) (undelivered s)
  | None =>
      mkState (pendingCall s) (pendingMessages s) true
        (headersDeferred s) (responseDeferred s) (statusDeferred s)
        (trailersDeferred s) (responseStream s) (metadataPromise s)
        (next_calls s) (received s) (undelivered s)
  end.

(** The callback given to [resolveMetadata(...).then]: the real call
    is made with the merged metadata and kept in [pendingCall]; the
    buffered messages are sent to it in order and the buffer is
    emptied; [complete] follows when it was asked for.  [responses] are
    the response events of the real call. *)
Definition on_resolved (next : MethodInfo → RpcOptions → C)
    (responses : C → list (StreamEvent O))
    (method : MethodInfo) (options : RpcOptions) (resolved : RpcMetadata)
    (s : State C) : State C :=
  let meta := merge_meta (meta options) resolved in
  let call := next method (with_meta options meta) in
  mkState (Some call) [] (sendCompleted s)
    (headersDeferred s) (responseDeferred s) (statusDeferred s)
    (trailersDeferred s) (responseStream s) (metadataPromise s)
    (next_calls s ++ [with_meta options meta])
    (received s ++ map sent (pendingMessages s)
       ++ (if sendCompleted s then [completed] else []))
    (responses call).

(** The job of the promise of [resolveMetadata]: the callback runs
    once, when the promise is resolved.  There is no rejection
    handler. *)
Definition metadata_settled (next : MethodInfo → RpcOptions → C)
    (responses : C → list (StreamEvent O))
    (method : MethodInfo) (options : RpcOptions) (s : State C) : State C :=
  match pendingCall s, metadataPromise s with
  | None, Resolved resolved => on_resolved next responses method options resolved s
  | _, _ => s
  end.

(** [call.headers.then(h => headersDeferred.resolve(h)).catch(e =>
    headersDeferred.reject(e))], and likewise for the other promises:
    a deferred is settled once, as the promise of the real call is. *)
Definition settle_once {V : Type} (deferred p : Settlement V) : Settlement V :=
  match deferred with
  | Pending => p
  | _ => deferred
  end.

Definition call_settled (headers : C → Settlement RpcMetadata)
    (response : C → Settlement O) (status : C → Settlement RpcStatus)
    (trailers : C → Settlement RpcMetadata)
    (channel : Channel) (s : State C) : State C :=
  match pendingCall s with
  | None => s
  | Some call =>
      mkState (pendingCall s) (pendingMessages s) (sendCompleted s)
        (match channel with
         | ch_headers => settle_once (headersDeferred s) (headers call)
         | _ => headersDeferred s
         end)
        (match channel with
         | ch_response => settle_once (responseDeferred s) (response call)
         | _ => responseDeferred s
         end)
        (match channel with
         | ch_status => settle_once (statusDeferred s) (status call)
         | _ => statusDeferred s
         end)
        (match channel with
         | ch_trailers => settle_once (trailersDeferred s) (trailers call)
         | _ => trailersDeferred s
         end)
        (responseStream s) (metadataPromise s) (next_calls s) (received s)
        (undelivered s)
  end.

(** The listener of [call.responses.onNext] of the duplex hook passes
    every event on to [responseStream]. *)
Definition call_next (s : State C) : State C :=
  match undelivered s with
  | [] => s
  | event :: events =>
      mkState (pendingCall s) (pendingMessages s) (sendCompleted s)
        (headersDeferred s) (responseDeferred s) (statusDeferred s)
        (trailersDeferred s) (responseStream s ++ [event]) (metadataPromise s)
        (next_calls s) (received s) events
  end.
End proxy.

(** [interceptClientStreaming]: the state the hook returns in.  When the
    call type is filtered out, the call of [next] is returned as it is:
    its promises are the promises of the result and its request stream
    is the one the caller writes to. *)
Definition interceptClientStreaming (config : MetadataInterceptorConfig)
    (next : MethodInfo → RpcOptions → ClientStreamingCall O)
    (method : MethodInfo) (options : RpcOptions)
    : State (ClientStreamingCall O) :=
  if negb (shouldIntercept config clientStreaming) then
    let call := next method options in
    mkState (Some call) [] false
      (client_headers call) (client_response call) (client_status call)
      (client_trailers call) [] Pending [options] [] []
  else
    let context := mkMetadataContext clientStreaming method in
    mkState None [] false Pending Pending Pending Pending []
      (resolveMetadata (metadata config) context) [] [] [].

Definition client_step (next : MethodInfo → RpcOptions → ClientStreamingCall O)
    (method : MethodInfo) (options : RpcOptions)
    (s : State (ClientStreamingCall O)) (event : Event)
    : State (ClientStreamingCall O) :=
  match event with
  | Send message => send message s
  | Complete => complete s
  | MetadataSettled => metadata_settled next (λ _, []) method options s
  | CallSettled channel =>
      call_settled client_headers client_response client_status client_trailers
        channel s
  | CallNext => s
  end.

(** [interceptDuplex]: as above, with a response stream in the place of
    the response promise. *)
Definition interceptDuplex (config : MetadataInterceptorConfig)
    (next : MethodInfo → RpcOptions → DuplexStreamingCall O)
    (method : MethodInfo) (options : RpcOptions)
    : State (DuplexStreamingCall O) :=
  if negb (shouldIntercept config duplex) then
    let call := next method options in
    mkState (Some call) [] false
      (duplex_headers call) Pending (duplex_status call)
      (duplex_trailers call) (duplex_responses call) Pending [options] [] []
  else
    let context := mkMetadataContext duplex method in
    mkState None [] false Pending Pending Pending Pending []
      (resolveMetadata (metadata config) context) [] [] [].

Definition duplex_step (next : MethodInfo → RpcOptions → DuplexStreamingCall O)
    (method : MethodInfo) (options : RpcOptions)
    (s : State (DuplexStreamingCall O)) (event : Event)
    : State (DuplexStreamingCall O) :=
  match event with
  | Send message => send message s
  | Complete => complete s
  | MetadataSettled => metadata_settled next duplex_responses method options s
  | CallSettled channel =>
      call_settled duplex_headers (λ _, Pending) duplex_status duplex_trailers
        channel s
  | CallNext => call_next s
  end.

(** A run: the jobs of a trace, one after the other. *)
Definition client_run next method options (trace : list Event)
    (s : State (ClientStreamingCall O)) : State (ClientStreamingCall O) :=
  fold_left (client_step next method options) trace s.

Definition duplex_run next method options (trace : list Event)
    (s : State (DuplexStreamingCall O)) : State (DuplexStreamingCall O) :=
  fold_left (duplex_step next method options) trace s.

End hooks.

Arguments RequestEvent : clear implicits.
Arguments Event : clear implicits.
Arguments State : clear implicits.
Arguments mkState {I O C}.
Arguments pendingCall {I O C}.
Arguments pendingMessages {I O C}.
Arguments sendCompleted {I O C}.
Arguments headersDeferred {I O C}.
Arguments responseDeferred {I O C}.
Arguments statusDeferred {I O C}.
Arguments trailersDeferred {I O C}.
Arguments responseStream {I O C}.
Arguments metadataPromise {I O C}.
Arguments next_calls {I O C}.
Arguments received {I O C}.
Arguments undelivered {I O C}.
End MetadataInterceptor.

(** ** Vocabulary of the properties *)

(** A reader [shrinks] when the buffer it leaves is no longer than the one
    it was given, and [halts] when it does not run out of budget. *)
Definition shrinks {A : Type} (r : R.Reader A) : Prop :=
  ∀ buf a rest, r buf = Ok (a, rest) → (length rest ≤ length buf)%nat.

Definition halts {A : Type} (r : R.Reader A) : Prop :=
  ∀ buf, r buf ≠ Diverge.

(** The ten type URLs the decoder recognizes. *)
Definition type_urls : list string :=
  [ TYPE_URLS.localizedMessage; TYPE_URLS.badRequest; TYPE_URLS.debugInfo;
    TYPE_URLS.errorInfo; TYPE_URLS.retryInfo; TYPE_URLS.quotaFailure;
    TYPE_URLS.preconditionFailure; TYPE_URLS.requestInfo; TYPE_URLS.resourceInfo;
    TYPE_URLS.help ].

(** The ten recognized shapes: every shape but [unknown]. *)
Definition recognized (detail : ErrorDetail) : Prop :=
  match detail with
  | unknown _ _ => False
  | _ => True
  end.

(** The records the codec carries unchanged: a retry delay must be a
    non-negative number of the signed 64-bit range, a metadata object must
    have no property named [__proto__], and an unknown detail must not bear
    one of the ten type URLs; any other record is carried. *)
Definition carried (detail : ErrorDetail) : Prop :=
  match detail with
  | retryInfo retryDelaySeconds => (0 ≤ retryDelaySeconds < 2 ^ 63)%Z
  | errorInfo _ _ metadata => metadata !! "__proto__" = None
  | unknown typeUrl _ => typeUrl ∉ type_urls
  | _ => True
  end.

(** The type URL [encodeErrorDetail] gives a detail. *)
Definition type_url_of (detail : ErrorDetail) : string :=
  match detail with
  | localizedMessage _ _ => TYPE_URLS.localizedMessage
  | badRequest _ => TYPE_URLS.badRequest
  | debugInfo _ _ => TYPE_URLS.debugInfo
  | errorInfo _ _ _ => TYPE_URLS.errorInfo
  | retryInfo _ => TYPE_URLS.retryInfo
  | quotaFailure _ => TYPE_URLS.quotaFailure
  | preconditionFailure _ => TYPE_URLS.preconditionFailure
  | requestInfo _ _ => TYPE_URLS.requestInfo
  | resourceInfo _ _ _ _ => TYPE_URLS.resourceInfo
  | help _ => TYPE_URLS.help
  | unknown typeUrl _ => typeUrl
  end.

(** A well-formed JavaScript string: one with no lone surrogate, which is
    what the UTF-8 bytes of a [string] stand for. *)
Definition well_formed_string (s : string) : Prop :=
  utf8_valid (list_byte_of_string s) = true.

(** The strings the encoder of a detail writes. *)
Definition detail_strings (detail : ErrorDetail) : list string :=
  match detail with
  | localizedMessage locale message => [locale; message]
  | badRequest fieldViolations =>
      flat_map (λ v, [fv_field v; fv_description v]) fieldViolations
  | debugInfo stackEntries detail => stackEntries ++ [detail]
  | errorInfo reason domain metadata =>
      [reason; domain] ++ flat_map (λ entry, [entry.1; entry.2]) (map_to_list metadata)
  | retryInfo _ => []
  | quotaFailure violations =>
      flat_map (λ v, [qv_subject v; qv_description v]) violations
  | preconditionFailure violations =>
      flat_map (λ v, [pv_type v; pv_subject v; pv_description v]) violations
  | requestInfo requestId servingData => [requestId; servingData]
  | resourceInfo resourceType resourceName owner description =>
      [resourceType; resourceName; owner; description]
  | help links => flat_map (λ l, [hl_description l; hl_url l]) links
  | unknown _ _ => []
  end.

(** A bound on the bytes that strings take on the wire: twenty bytes for
    each string, for its tags and length prefixes and those of the messages
    around it, and its UTF-8 bytes. *)
Definition wire_bound (strings : list string) : N :=
  foldr (λ s n, N.of_nat (String.length s) + 20 + n) 0 strings.

(** A detail the writer has room for: its strings are well formed and take
    less than 2^32 bytes together. *)
Definition compact (detail : ErrorDetail) : Prop :=
  Forall well_formed_string (detail_strings detail)
  ∧ wire_bound (detail_strings detail) < 2 ^ 32.

(** The writer returns at most [n] bytes. *)
Definition fits (n : N) (r : result (list byte)) : Prop :=
  ∃ b, r = Ok b ∧ N.of_nat (length b) ≤ n.

Definition any_bound (any : Any) : N :=
  wire_bound [typeUrl any] + N.of_nat (length (value any)) + 20.

(** A status envelope the writer has room for: its code is a signed 32-bit
    number, its strings are well formed and it takes less than 2^32 bytes. *)
Definition compact_status (status : Status) : Prop :=
  (- 2 ^ 31 ≤ status_code status < 2 ^ 31)%Z
  ∧ well_formed_string (status_message status)
  ∧ Forall (λ any, well_formed_string (typeUrl any)) (status_details status)
  ∧ wire_bound [status_message status]
    + foldr (λ any n, any_bound any + n) 0 (status_details status) < 2 ^ 32.

Definition detail_bound (detail : ErrorDetail) : N :=
  match detail with
  | unknown typeUrl value => any_bound (mkAny typeUrl value)
  | _ => wire_bound (detail_strings detail) + 120
  end.

(** A typed error the writer has room for. *)
Definition compact_error (error : GrpcError) : Prop :=
  well_formed_string (error_message error)
  ∧ Forall (λ detail, Forall well_formed_string
                        (type_url_of detail :: detail_strings detail))
      (error_details error)
  ∧ wire_bound [error_message error]
    + foldr (λ detail n, detail_bound detail + n) 0 (error_details error) < 2 ^ 32.

(** A field holds a non-default value when it is not the empty string, the
    number zero, the empty list or the empty object. *)
Definition non_default (detail : ErrorDetail) : Prop :=
  match detail with
  | localizedMessage locale message => locale ≠ "" ∧ message ≠ ""
  | badRequest fieldViolations =>
      fieldViolations ≠ []
      ∧ Forall (λ v, fv_field v ≠ "" ∧ fv_description v ≠ "") fieldViolations
  | debugInfo stackEntries detail =>
      stackEntries ≠ [] ∧ Forall (λ s, s ≠ "") stackEntries ∧ detail ≠ ""
  | errorInfo reason domain metadata =>
      reason ≠ "" ∧ domain ≠ "" ∧ metadata ≠ ∅
  | retryInfo retryDelaySeconds => retryDelaySeconds ≠ 0%Z
  | quotaFailure violations =>
      violations ≠ []
      ∧ Forall (λ v, qv_subject v ≠ "" ∧ qv_description v ≠ "") violations
  | preconditionFailure violations =>
      violations ≠ []
      ∧ Forall (λ v, pv_type v ≠ "" ∧ pv_subject v ≠ "" ∧ pv_description v ≠ "")
          violations
  | requestInfo requestId servingData => requestId ≠ "" ∧ servingData ≠ ""
  | resourceInfo resourceType resourceName owner description =>
      resourceType ≠ "" ∧ resourceName ≠ "" ∧ owner ≠ "" ∧ description ≠ ""
  | help links =>
      links ≠ [] ∧ Forall (λ l, hl_description l ≠ "" ∧ hl_url l ≠ "") links
  | unknown typeUrl value => typeUrl ≠ "" ∧ value ≠ []
  end.

(** The table of the specification from wire status code to error kind:
    CANCELLED or ABORTED to aborted, UNAUTHENTICATED to unauthenticated,
    UNAVAILABLE to unavailable, ALREADY_EXISTS to alreadyExists, NOT_FOUND to
    notFound, INVALID_ARGUMENT or FAILED_PRECONDITION to validation,
    DEADLINE_EXCEEDED to deadlineExceeded, PERMISSION_DENIED to
    permissionDenied, anything else to unknown. *)
Definition spec_kind (code : string) : ErrorClass :=
  if decide (code = "CANCELLED" ∨ code = "ABORTED") then AbortedError
  else if decide (code = "UNAUTHENTICATED") then UnauthenticatedError
  else if decide (code = "UNAVAILABLE") then UnavailableError
  else if decide (code = "ALREADY_EXISTS") then AlreadyExistsError
  else if decide (code = "NOT_FOUND") then NotFoundError
  else if decide (code = "INVALID_ARGUMENT" ∨ code = "FAILED_PRECONDITION")
       then ValidationError
  else if decide (code = "DEADLINE_EXCEEDED") then DeadlineExceededError
  else if decide (code = "PERMISSION_DENIED") then PermissionDeniedError
  else UnknownError.

(** The table of the specification from error kind to fixed message. *)
Definition spec_message (kind : ErrorClass) : string :=
  match kind with
  | AbortedError => "Aborted by client"
  | AlreadyExistsError => "Already exists"
  | DeadlineExceededError => "Request took too long to respond"
  | NotFoundError => "Not found"
  | PermissionDeniedError => "Permission denied"
  | RaceUpdateError => "Attempt to update after the item is already updated elsewhere"
  | ValidationError => "Validation error"
  | UnavailableError => "Cannot connect to the server"
  | UnauthenticatedError => "Unauthenticated"
  | UnknownError => "Unknown error"
  | GrpcErrorClass => ""
  end.

(** The header of the status details cannot be used: it is absent (or the
    empty string), or the base64 decoder throws on it, or the status decoder
    throws on the decoded bytes. *)
Definition details_unusable (decodeBase64 : string → option (list byte))
    (meta : RpcMetadata) : Prop :=
  match meta !! "grpc-status-details-bin" with
  | None => True
  | Some richError =>
      ErrorInterceptor.meta_falsy richError = true
      ∨ match decodeBase64 (ErrorInterceptor.meta_as_string richError) with
        | None => True
        | Some binary => decodeGrpcStatus binary = Throw
        end
  end.

(** A deferred [d] of a streaming hook follows the promise [p] of the real
    call: it is pending, or it is what the handlers of [p] make of [p] in
    some state of the heap, a rejection being mapped by a call of
    [mapRpcError] of its own. *)
Definition follows {V : Type} (decodeBase64 : string → option (list byte))
    (config : ErrorInterceptor.ErrorInterceptorConfig) (options : RpcOptions)
    (callSiteStack : option string) (p d : Settlement V) : Prop :=
  d = Pending
  ∨ ∃ h h', ErrorInterceptor.map_settlement decodeBase64 config options
              callSiteStack p h = Ok (d, h').

(** Every deferred of a streaming hook follows its promise of the real
    call. *)
Definition deferreds_follow {O : Type} (decodeBase64 : string → option (list byte))
    (config : ErrorInterceptor.ErrorInterceptorConfig) (options : RpcOptions)
    (callSiteStack : option string) (call : ClientStreamingCall O)
    (d : ErrorInterceptor.ClientDeferreds O) : Prop :=
  follows decodeBase64 config options callSiteStack
    (client_headers call) (ErrorInterceptor.headersDeferred d)
  ∧ follows decodeBase64 config options callSiteStack
      (client_response call) (ErrorInterceptor.responseDeferred d)
  ∧ follows decodeBase64 config options callSiteStack
      (client_status call) (ErrorInterceptor.statusDeferred d)
  ∧ follows decodeBase64 config options callSiteStack
      (client_trailers call) (ErrorInterceptor.trailersDeferred d).

(** The reference of the typed error a deferred [d] is rejected with, when
    its promise [p] of the real call was rejected with a wire error. *)
Definition mapped_ref {V : Type} (p d : Settlement V) : option nat :=
  match p, d with
  | Rejected (VRpcError _), Rejected (VGrpcError error) => Some (error_ref error)
  | _, _ => None
  end.

Definition deferred_ref {O : Type} (call : ClientStreamingCall O)
    (d : ErrorInterceptor.ClientDeferreds O) (channel : Channel) : option nat :=
  match channel with
  | ch_headers => mapped_ref (client_headers call) (ErrorInterceptor.headersDeferred d)
  | ch_response => mapped_ref (client_response call) (ErrorInterceptor.responseDeferred d)
  | ch_status => mapped_ref (client_status call) (ErrorInterceptor.statusDeferred d)
  | ch_trailers => mapped_ref (client_trailers call) (ErrorInterceptor.trailersDeferred d)
  end.

(** The same, read off the call a hook returns. *)
Definition client_ref {O : Type} (real returned : ClientStreamingCall O)
    (channel : Channel) : option nat :=
  deferred_ref real
    (ErrorInterceptor.mkClientDeferreds (client_headers returned)
       (client_response returned) (client_status returned) (client_trailers returned))
    channel.

Definition duplex_ref {O : Type} (real returned : DuplexStreamingCall O)
    (channel : Channel) : option nat :=
  deferred_ref (ErrorInterceptor.duplex_promises real)
    (ErrorInterceptor.mkClientDeferreds (duplex_headers returned) Pending
       (duplex_status returned) (duplex_trailers returned))
    channel.

(** No two channels hold the same instance. *)
Definition distinct_refs (ref : Channel → option nat) : Prop :=
  ∀ c1 c2 r, c1 ≠ c2 → ref c1 = Some r → ref c2 = Some r → False.

(** The references in use are below the next free one of the heap, and no
    two channels share one. *)
Definition refs_fresh {O : Type} (call : ClientStreamingCall O)
    (d : ErrorInterceptor.ClientDeferreds O) (h : Heap) : Prop :=
  (∀ c r, deferred_ref call d c = Some r → (r < next_ref h)%nat)
  ∧ distinct_refs (deferred_ref call d).

(** The typed error [error] is what a call of [mapRpcError] of a hook makes
    of the wire error [e], in some state of the heap. *)
Definition mapped_from (decodeBase64 : string → option (list byte))
    (config : ErrorInterceptor.ErrorInterceptorConfig) (options : RpcOptions)
    (callSiteStack : option string) (e : RpcError) (error : GrpcError) : Prop :=
  ∃ h h', ErrorInterceptor.mapRpcError decodeBase64 (VRpcError e) (abort options)
            (ErrorInterceptor.onError config) callSiteStack h
          = Ok (VGrpcError error, h').

(** Every promise of a call is rejected, the promise of a channel with the
    value [reasons] gives for it.  A duplex and a server-streaming call have
    no promise of a response. *)
Definition unary_rejections {I O : Type} (call : UnaryCall I O)
    (reasons : Channel → JsValue) : Prop :=
  unary_headers call = Rejected (reasons ch_headers)
  ∧ unary_response call = Rejected (reasons ch_response)
  ∧ unary_status call = Rejected (reasons ch_status)
  ∧ unary_trailers call = Rejected (reasons ch_trailers).

Definition server_rejections {I O : Type} (call : ServerStreamingCall I O)
    (reasons : Channel → JsValue) : Prop :=
  server_headers call = Rejected (reasons ch_headers)
  ∧ server_status call = Rejected (reasons ch_status)
  ∧ server_trailers call = Rejected (reasons ch_trailers).

Definition client_rejections {O : Type} (call : ClientStreamingCall O)
    (reasons : Channel → JsValue) : Prop :=
  client_headers call = Rejected (reasons ch_headers)
  ∧ client_response call = Rejected (reasons ch_response)
  ∧ client_status call = Rejected (reasons ch_status)
  ∧ client_trailers call = Rejected (reasons ch_trailers).

Definition duplex_rejections {O : Type} (call : DuplexStreamingCall O)
    (reasons : Channel → JsValue) : Prop :=
  duplex_headers call = Rejected (reasons ch_headers)
  ∧ duplex_status call = Rejected (reasons ch_status)
  ∧ duplex_trailers call = Rejected (reasons ch_trailers).

(** A response stream that delivers [messages] and then fails with
    [error]. *)
Definition failing_stream {O : Type} (messages : list O) (error : JsValue)
    : list (StreamEvent O) :=
  map NextMessage messages ++ [NextError error].

(** An instance of the platform's base64 decoder, after [atob] (the
    forgiving base64 decoding of the platform): ASCII whitespace is dropped;
    when the length that is left is a multiple of four, one or two padding
    characters at the end are dropped; then every character must be of the
    standard alphabet and the length must not be one more than a multiple of
    four.  The bits left over by a last group of two or three characters are
    discarded. *)
Definition base64_digit (c : ascii) : option N :=
  let n := N_of_ascii c in
  if (65 <=? n) && (n <=? 90) then Some (n - 65)
  else if (97 <=? n) && (n <=? 122) then Some (n - 71)
  else if (48 <=? n) && (n <=? 57) then Some (n + 4)
  else if n =? 43 then Some 62
  else if n =? 47 then Some 63
  else None.

Fixpoint base64_digits (chars : list ascii) : option (list N) :=
  match chars with
  | [] => Some []
  | c :: chars' =>
      match base64_digit c, base64_digits chars' with
      | Some d, Some ds => Some (d :: ds)
      | _, _ => None
      end
  end.

Fixpoint base64_bytes (digits : list N) : option (list byte) :=
  match digits with
  | [] => Some []
  | [_] => None
  | [a; b] => Some [byte_of_N (a * 4 + b / 16)]
  | [a; b; c] =>
      Some [byte_of_N (a * 4 + b / 16); byte_of_N ((b mod 16) * 16 + c / 4)]
  | a :: b :: c :: d :: digits' =>
      match base64_bytes digits' with
      | Some rest =>
          Some (byte_of_N (a * 4 + b / 16) :: byte_of_N ((b mod 16) * 16 + c / 4)
                :: byte_of_N ((c mod 4) * 64 + d) :: rest)
      | None => None
      end
  end.

Definition ascii_whitespace (c : ascii) : bool :=
  let n := N_of_ascii c in
  (n =? 9) || (n =? 10) || (n =? 12) || (n =? 13) || (n =? 32).

Definition strip_padding (chars : list ascii) : list ascii :=
  if (length chars mod 4 =? 0)%nat then
    match reverse chars with
    | "="%char :: "="%char :: rest => reverse rest
    | "="%char :: rest => reverse rest
    | _ => chars
    end
  else chars.

Definition atob (s : string) : option (list byte) :=
  let chars := List.filter (λ c, negb (ascii_whitespace c)) (list_ascii_of_string s) in
  match base64_digits (strip_padding chars) with
  | Some digits => base64_bytes digits
  | None => None
  end.

(** What a trace asks of the request stream: the sends and completes of the
    caller, in order. *)
Definition request_of {I : Type} (event : @MetadataInterceptor.Event I)
    : option (MetadataInterceptor.RequestEvent I) :=
  match event with
  | MetadataInterceptor.Send message => Some (MetadataInterceptor.sent message)
  | MetadataInterceptor.Complete => Some MetadataInterceptor.completed
  | _ => None
  end.

Definition requests {I : Type} (trace : list (MetadataInterceptor.Event I))
    : list (MetadataInterceptor.RequestEvent I) :=
  omap request_of trace.

(** The messages among request events, in order. *)
Definition messages {I : Type} (l : list (MetadataInterceptor.RequestEvent I)) : list I :=
  omap (λ r, match r with
             | MetadataInterceptor.sent message => Some message
             | MetadataInterceptor.completed => None
             end) l.

Definition sent_messages {I : Type} (trace : list (MetadataInterceptor.Event I)) : list I :=
  messages (requests trace).

Definition caller_completed {I : Type} (trace : list (MetadataInterceptor.Event I)) : bool :=
  existsb (λ r, match r with
                | MetadataInterceptor.completed => true
                | MetadataInterceptor.sent _ => false
                end) (requests trace).

(** The caller keeps to the protocol of a request stream: nothing is asked
    of the stream after a [complete]. *)
Definition orderly {I : Type} (l : list (MetadataInterceptor.RequestEvent I)) : Prop :=
  ∀ l1 l2, l = l1 ++ MetadataInterceptor.completed :: l2 → l2 = [].

(** What the request stream of the real call has received, for a trace in
    which the job of the metadata promise comes after [before] and is
    followed by [after]:
    - the messages sent before, then [complete] if the caller completed
      before, then the requests made after, each as it was made;
    - so the messages are those the caller sent, in the order of sending;
    - [complete] is among them exactly when the caller completed;
    - for a caller that keeps to the protocol, the requests are exactly
      those the caller made, in order. *)
Definition delivered_in_order {I : Type}
    (before after : list (MetadataInterceptor.Event I))
    (received : list (MetadataInterceptor.RequestEvent I)) : Prop :=
  let trace := before ++ MetadataInterceptor.MetadataSettled :: after in
  received
  = map MetadataInterceptor.sent (sent_messages before)
    ++ (if caller_completed before then [MetadataInterceptor.completed] else [])
    ++ requests after
  ∧ messages received = sent_messages trace
  ∧ (MetadataInterceptor.completed ∈ received ↔ MetadataInterceptor.Complete ∈ trace)
  ∧ (orderly (requests trace) → received = requests trace).

(** [called] are the options of the caller in which [meta] is the merge: an
    entry of [resolved] is in it, and where [resolved] has no entry the entry
    of the caller, if any, is in it unchanged; the rest of the options is
    that of the caller. *)
Definition merged_options (options : RpcOptions) (resolved : RpcMetadata)
    (called : RpcOptions) : Prop :=
  abort called = abort options
  ∧ ∃ merged : RpcMetadata,
      meta called = Some merged
      ∧ (∀ key v, resolved !! key = Some v → merged !! key = Some v)
      ∧ (∀ key, resolved !! key = None →
           merged !! key = default ∅ (meta options) !! key).

(** The call a unary or a server-streaming hook of the metadata interceptor
    returns for the real call [real]: its promises are read off the promise
    of [real] as a whole, and the responses are those of [real]. *)
Definition awaited_unary {I O : Type} (method : MethodInfo) (options : RpcOptions)
    (input : I) (real : UnaryCall I O) : UnaryCall I O :=
  mkUnaryCall method (default ∅ (meta options)) input
    (then_ (await_unary real) finished_headers)
    (then_ (await_unary real) finished_response)
    (then_ (await_unary real) finished_status)
    (then_ (await_unary real) finished_trailers).

Definition awaited_server {I O : Type} (method : MethodInfo) (options : RpcOptions)
    (input : I) (real : ServerStreamingCall I O) : ServerStreamingCall I O :=
  mkServerStreamingCall method (default ∅ (meta options)) input
    (then_ (await_server real) (λ c, c.1.1))
    (server_responses real)
    (then_ (await_server real) (λ c, c.1.2))
    (then_ (await_server real) (λ c, c.2)).

(** The state of a streaming-input hook while it buffers: the state it
    returned in, with the messages and the completion recorded so far. *)
Definition buffering {I O C : Type} (s : MetadataInterceptor.State I O C)
    (ms : list I) (c : bool) : MetadataInterceptor.State I O C :=
  MetadataInterceptor.mkState (MetadataInterceptor.pendingCall s)
    (MetadataInterceptor.pendingMessages s ++ ms)
    (MetadataInterceptor.sendCompleted s || c)
    (MetadataInterceptor.headersDeferred s) (MetadataInterceptor.responseDeferred s)
    (MetadataInterceptor.statusDeferred s) (MetadataInterceptor.trailersDeferred s)
    (MetadataInterceptor.responseStream s) (MetadataInterceptor.metadataPromise s)
    (MetadataInterceptor.next_calls s) (MetadataInterceptor.received s)
    (MetadataInterceptor.undelivered s).

(** ** Instances for the examples *)

Module Examples.

Definition method : MethodInfo := mkMethodInfo "TestMethod".

(** The options of a caller who supplies the metadata [{b: "2"}]. *)
Definition options : RpcOptions :=
  mkRpcOptions (Some {[ "b" := MetaString "2" ]}) None.

(** The same, with the abort signal set. *)
Definition aborted_options : RpcOptions :=
  mkRpcOptions (Some {[ "b" := MetaString "2" ]}) (Some true).

(** A typed error with two details, and the base64 text of its encoding
    by [encodeGrpcStatus]. *)
Definition not_found : GrpcError :=
  mkGrpcError 0 NotFoundError "NotFoundError" "Not found"
    [localizedMessage "en" "No such user"; retryInfo 30] None None.

Definition not_found_base64 : string :=
  "CAUSCU5vdCBmb3VuZBpFCi90eXBlLmdvb2dsZWFwaXMuY29tL2dvb2dsZS5ycGMuTG9jYWxpemVkTWVzc2FnZRISCgJlbhIMTm8gc3VjaCB1c2VyGjAKKHR5cGUuZ29vZ2xlYXBpcy5jb20vZ29vZ2xlLnJwYy5SZXRyeUluZm8SBAoCCB4=".

(** A wire error NOT_FOUND that carries these details. *)
Definition wire_not_found : RpcError :=
  mkRpcError 100 "NOT_FOUND"
    {[ "grpc-status-details-bin" := MetaString not_found_base64 ]}.

(** A wire error whose header of details is cut short, and one without the
    header. *)
Definition wire_truncated : RpcError :=
  mkRpcError 101 "INVALID_ARGUMENT"
    {[ "grpc-status-details-bin" := MetaString "CAUSCU5vdA==" ]}.

Definition wire_plain : RpcError := mkRpcError 102 "UNAVAILABLE" ∅.

Definition ok_status : RpcStatus := mkRpcStatus "OK" "".

(** Calls of [next] that fail: every promise rejects with the one wire
    error. *)
Definition failing_unary (method : MethodInfo) (input : nat) (options : RpcOptions)
    : UnaryCall nat nat :=
  mkUnaryCall method (default ∅ (meta options)) input
    (Rejected (VRpcError wire_not_found)) (Rejected (VRpcError wire_not_found))
    (Rejected (VRpcError wire_not_found)) (Rejected (VRpcError wire_not_found)).

Definition failing_client (method : MethodInfo) (options : RpcOptions)
    : ClientStreamingCall nat :=
  mkClientStreamingCall method (default ∅ (meta options)) 1
    (Rejected (VRpcError wire_not_found)) (Rejected (VRpcError wire_not_found))
    (Rejected (VRpcError wire_not_found)) (Rejected (VRpcError wire_not_found)).

Definition failing_duplex (method : MethodInfo) (options : RpcOptions)
    : DuplexStreamingCall nat :=
  mkDuplexStreamingCall method (default ∅ (meta options)) 1
    (Rejected (VRpcError wire_not_found))
    [NextError (VRpcError wire_not_found)]
    (Rejected (VRpcError wire_not_found)) (Rejected (VRpcError wire_not_found)).

(** Calls of [next] that succeed. *)
Definition ok_unary (method : MethodInfo) (input : nat) (options : RpcOptions)
    : UnaryCall nat nat :=
  mkUnaryCall method (default ∅ (meta options)) input
    (Resolved ∅) (Resolved input) (Resolved ok_status) (Resolved ∅).

Definition ok_server (method : MethodInfo) (input : nat) (options : RpcOptions)
    : ServerStreamingCall nat nat :=
  mkServerStreamingCall method (default ∅ (meta options)) input
    (Resolved ∅) [NextMessage input; NextDone] (Resolved ok_status) (Resolved ∅).

Definition ok_client (method : MethodInfo) (options : RpcOptions)
    : ClientStreamingCall nat :=
  mkClientStreamingCall method (default ∅ (meta options)) 1
    (Resolved ∅) (Resolved 0%nat) (Resolved ok_status) (Resolved ∅).

Definition ok_duplex (method : MethodInfo) (options : RpcOptions)
    : DuplexStreamingCall nat :=
  mkDuplexStreamingCall method (default ∅ (meta options)) 1
    (Resolved ∅) [NextMessage 0%nat; NextDone] (Resolved ok_status) (Resolved ∅).

Definition error_config : ErrorInterceptor.ErrorInterceptorConfig :=
  ErrorInterceptor.mkErrorInterceptorConfig false.

Definition heap : Heap := mkHeap 0 [].

Definition all_channels : list Channel :=
  [ch_headers; ch_response; ch_status; ch_trailers].

(** A static provider [{a: "1"}], and a provider whose promise rejects. *)
Definition static_config : MetadataInterceptor.MetadataInterceptorConfig :=
  MetadataInterceptor.mkMetadataInterceptorConfig
    (MetadataInterceptor.provider_static {[ "a" := MetaString "1" ]}) None.

Definition rejecting_config : MetadataInterceptor.MetadataInterceptorConfig :=
  MetadataInterceptor.mkMetadataInterceptorConfig
    (MetadataInterceptor.provider_function (λ _, Rejected (VError 7))) None.

(** The caller sends 1 and 2, the metadata promise settles, the promises of
    the real call settle, the caller sends 3 and completes. *)
Definition trace_before : list (MetadataInterceptor.Event nat) :=
  [MetadataInterceptor.Send 1%nat; MetadataInterceptor.Send 2%nat].

Definition trace_after : list (MetadataInterceptor.Event nat) :=
  [MetadataInterceptor.CallSettled ch_headers; MetadataInterceptor.Send 3%nat;
   MetadataInterceptor.Complete; MetadataInterceptor.CallSettled ch_response;
   MetadataInterceptor.CallSettled ch_status;
   MetadataInterceptor.CallSettled ch_trailers].

Definition trace : list (MetadataInterceptor.Event nat) :=
  trace_before ++ MetadataInterceptor.MetadataSettled :: trace_after.

End Examples.

(** ** Vocabulary of the further properties of the codec *)

(** What one trip through the codec makes of a detail record: the encoder
    writes a retry delay only when it is above zero, and the decoder cannot
    store a metadata entry named [__proto__]. *)
Definition normalized (detail : ErrorDetail) : ErrorDetail :=
  match detail with
  | retryInfo retryDelaySeconds => retryInfo (Z.max 0 retryDelaySeconds)
  | errorInfo reason domain metadata =>
      errorInfo reason domain (delete "__proto__" metadata)
  | _ => detail
  end.

(** The retry delays the 64-bit writer accepts. *)
Definition writable (detail : ErrorDetail) : Prop :=
  match detail with
  | retryInfo retryDelaySeconds => (retryDelaySeconds < 2 ^ 63)%Z
  | _ => True
  end.

(** The status a parser holds after the fields of [later] have been read
    over those of [earlier]: a scalar field that [later] carries replaces the
    one of [earlier], and the details add up. *)
Definition merge_status (earlier later : Status) : Status :=
  mkStatus
    (if decide (status_code later ≠ 0%Z) then status_code later
     else status_code earlier)
    (if truthy (status_message later) then status_message later
     else status_message earlier)
    (status_details earlier ++ status_details later).

(** A field as it lies on the wire: a tag, and a payload of the wire type
    of the tag. *)
Inductive Payload : Type :=
  | varint_payload (v : N)
  | fixed64_payload (b : list byte)
  | delimited_payload (b : list byte)
  | fixed32_payload (b : list byte).

Definition payload_type (p : Payload) : WireType :=
  match p with
  | varint_payload _ => Varint
  | fixed64_payload _ => Bit64
  | delimited_payload _ => LengthDelimited
  | fixed32_payload _ => Bit32
  end.

Definition payload_bytes (p : Payload) : list byte :=
  match p with
  | varint_payload v => W.varint v
  | fixed64_payload b => b
  | delimited_payload b => W.varint (N.of_nat (length b)) ++ b
  | fixed32_payload b => b
  end.

Definition well_formed (p : Payload) : Prop :=
  match p with
  | varint_payload _ => True
  | fixed64_payload b => length b = 8%nat
  | delimited_payload b => N.of_nat (length b) < 2 ^ 32
  | fixed32_payload b => length b = 4%nat
  end.

Definition wire_field (fieldNo : N) (p : Payload) : list byte :=
  W.tag fieldNo (payload_type p) ++ payload_bytes p.

(** The wire type [parseStatus] reads a field number with; any other field
    is skipped. *)
Definition status_expects (fieldNo : N) : option WireType :=
  match fieldNo with
  | 1 => Some Varint
  | 2 => Some LengthDelimited
  | 3 => Some LengthDelimited
  | _ => None
  end.

(** The retry delays the 64-bit writer refuses. *)
Definition unwritable (detail : ErrorDetail) : Prop :=
  match detail with
  | retryInfo retryDelaySeconds => (2 ^ 63 ≤ retryDelaySeconds)%Z
  | _ => False
  end.

(** ** Vocabulary of the further properties of the error interceptor *)

(** What [mapRpcError] hands back is an [Error] that is no wire error: a
    typed error, or the error it was given. *)
Definition is_mapped (v : JsValue) : Prop :=
  match v with
  | VGrpcError _ | VError _ => True
  | VRpcError _ | VOther _ => False
  end.

(** A promise that does not reject with a wire error or with a value that
    is no error. *)
Definition typed {V : Type} (p : Settlement V) : Prop :=
  match p with
  | Rejected reason => is_mapped reason
  | _ => True
  end.

Definition typed_event {O : Type} (event : StreamEvent O) : Prop :=
  match event with
  | NextError error => is_mapped error
  | _ => True
  end.

(** An event of the response stream of the real call, and what the listener
    of the hook passes on for it. *)
Definition forwarded {O : Type} (event event' : StreamEvent O) : Prop :=
  match event, event' with
  | NextMessage message, NextMessage message' => message = message'
  | NextDone, NextDone => True
  | NextError error, NextError error' =>
      is_mapped error' ∧ (is_mapped error → error' = error)
  | _, _ => False
  end.

(** The same, with the error named: the listener passes on what a call of
    [mapRpcError] returns for the error of the stream, in some state of the
    heap. *)
Definition mapped_event {O : Type} (decodeBase64 : string → option (list byte))
    (config : ErrorInterceptor.ErrorInterceptorConfig) (options : RpcOptions)
    (callSiteStack : option string) (event event' : StreamEvent O) : Prop :=
  match event, event' with
  | NextMessage message, NextMessage message' => message = message'
  | NextDone, NextDone => True
  | NextError error, NextError error' =>
      ∃ h h', ErrorInterceptor.mapRpcError decodeBase64 error (abort options)
                (ErrorInterceptor.onError config) callSiteStack h
              = Ok (error', h')
  | _, _ => False
  end.

(** A promise that is rejected. *)
Definition is_rejected {V : Type} (p : Settlement V) : bool :=
  match p with
  | Rejected _ => true
  | _ => false
  end.

(** A promise rejected with a wire error. *)
Definition wire_rejected {V : Type} (p : Settlement V) : bool :=
  match p with
  | Rejected (VRpcError _) => true
  | _ => false
  end.

(** The typed error a promise is rejected with. *)
Definition rejection_error {V : Type} (p : Settlement V) : option GrpcError :=
  match p with
  | Rejected (VGrpcError error) => Some error
  | _ => None
  end.

(** A promise or a deferred of a channel, without its value. *)
Definition erase {V : Type} (p : Settlement V) : Settlement unit :=
  then_ p (λ _, ()).

Definition promise_view {O : Type} (call : ClientStreamingCall O)
    (channel : Channel) : Settlement unit :=
  match channel with
  | ch_headers => erase (client_headers call)
  | ch_response => erase (client_response call)
  | ch_status => erase (client_status call)
  | ch_trailers => erase (client_trailers call)
  end.

Definition deferred_view {O : Type} (d : ErrorInterceptor.ClientDeferreds O)
    (channel : Channel) : Settlement unit :=
  match channel with
  | ch_headers => erase (ErrorInterceptor.headersDeferred d)
  | ch_response => erase (ErrorInterceptor.responseDeferred d)
  | ch_status => erase (ErrorInterceptor.statusDeferred d)
  | ch_trailers => erase (ErrorInterceptor.trailersDeferred d)
  end.

(** The four promises of a unary call, without their values. *)
Definition unary_promises {I O : Type} (call : UnaryCall I O)
    : list (Settlement unit) :=
  [ erase (unary_headers call); erase (unary_response call);
    erase (unary_status call); erase (unary_trailers call) ].

Definition promise_wire_rejected {O : Type} (call : ClientStreamingCall O)
    (channel : Channel) : bool :=
  wire_rejected (promise_view call channel).

Definition deferred_error {O : Type} (d : ErrorInterceptor.ClientDeferreds O)
    (channel : Channel) : option GrpcError :=
  rejection_error (deferred_view d channel).

(** The promises of a call, as the record of the four deferreds. *)
Definition client_deferreds {O : Type} (call : ClientStreamingCall O)
    : ErrorInterceptor.ClientDeferreds O :=
  ErrorInterceptor.mkClientDeferreds (client_headers call) (client_response call)
    (client_status call) (client_trailers call).

(** The typed errors of the channels of [order] whose promise of the real
    call was rejected with a wire error, as the deferreds [d] hold them. *)
Definition reported {O : Type} (real : ClientStreamingCall O)
    (d : ErrorInterceptor.ClientDeferreds O) (order : list Channel) : list GrpcError :=
  omap (λ channel,
          if promise_wire_rejected real channel then deferred_error d channel
          else None) order.

(** A string without a line break. *)
Definition single_line (s : string) : Prop :=
  ErrorInterceptor.split_lines s = [s].

(** [lines.join('\n').split('\n')]: joining no line gives the empty string,
    which splits into one empty line. *)
Definition rejoined (lines : list string) : list string :=
  match lines with
  | [] => [""]
  | _ => lines
  end.

(** ** Vocabulary of the further properties of the metadata interceptor *)

(** The responses the real call has delivered in a trace. *)
Fixpoint count_next {I : Type} (trace : list (MetadataInterceptor.Event I)) : nat :=
  match trace with
  | [] => 0
  | MetadataInterceptor.CallNext :: trace' => S (count_next trace')
  | _ :: trace' => count_next trace'
  end.

(** A deferred of a hook that is pending, or settled as the promise [p] of
    the real call is. *)
Definition settled_as {V : Type} (deferred p : Settlement V) : Prop :=
  deferred = Pending ∨ deferred = p.

(** The job of the handlers of the promise of [channel]. *)
Definition is_settled_job {I : Type} (channel : Channel)
    (event : MetadataInterceptor.Event I) : bool :=
  match event with
  | MetadataInterceptor.CallSettled c => bool_decide (c = channel)
  | _ => false
  end.

(** The deferred of [channel] of a streaming-input hook is settled as the
    promise of the real call is, or is pending.  A duplex call has no promise
    of a response. *)
Definition client_settled {I O : Type}
    (s : MetadataInterceptor.State I O (ClientStreamingCall O))
    (real : ClientStreamingCall O) (channel : Channel) : Prop :=
  match channel with
  | ch_headers => MetadataInterceptor.headersDeferred s = client_headers real
  | ch_response => MetadataInterceptor.responseDeferred s = client_response real
  | ch_status => MetadataInterceptor.statusDeferred s = client_status real
  | ch_trailers => MetadataInterceptor.trailersDeferred s = client_trailers real
  end.

Definition duplex_settled {I O : Type}
    (s : MetadataInterceptor.State I O (DuplexStreamingCall O))
    (real : DuplexStreamingCall O) (channel : Channel) : Prop :=
  match channel with
  | ch_headers => MetadataInterceptor.headersDeferred s = duplex_headers real
  | ch_response => True
  | ch_status => MetadataInterceptor.statusDeferred s = duplex_status real
  | ch_trailers => MetadataInterceptor.trailersDeferred s = duplex_trailers real
  end.

Definition deferred_pending {I O C : Type} (s : MetadataInterceptor.State I O C)
    (channel : Channel) : Prop :=
  match channel with
  | ch_headers => MetadataInterceptor.headersDeferred s = Pending
  | ch_response => MetadataInterceptor.responseDeferred s = Pending
  | ch_status => MetadataInterceptor.statusDeferred s = Pending
  | ch_trailers => MetadataInterceptor.trailersDeferred s = Pending
  end.

(** ** Instances for the further properties *)

Module Cases.

(** Two statuses, the second without a code and a message of its own. *)
Definition first_status : Status :=
  mkStatus 5 "Not found" [mkAny "x.y/Z" [x01; x02]].

Definition second_status : Status :=
  mkStatus 0 "" [mkAny TYPE_URLS.retryInfo [x0a; x02; x08; x1e]].

(** A status with a sound localized message and a retry detail that is cut
    short, the base64 text of its encoding, and a wire error under it. *)
Definition malformed_status : Status :=
  mkStatus 3 "Bad input"
    [ mkAny TYPE_URLS.localizedMessage
        ([x0a; x02] ++ list_byte_of_string "en"
         ++ [x12; x09] ++ list_byte_of_string "Bad input");
      mkAny TYPE_URLS.retryInfo [x0a; x05; x08] ].

Definition malformed_base64 : string :=
  "CAMSCUJhZCBpbnB1dBpCCi90eXBlLmdvb2dsZWFwaXMuY29tL2dvb2dsZS5ycGMuTG9jYWxpemVkTWVzc2FnZRIPCgJlbhIJQmFkIGlucHV0Gi8KKHR5cGUuZ29vZ2xlYXBpcy5jb20vZ29vZ2xlLnJwYy5SZXRyeUluZm8SAwoFCA==".

Definition wire_malformed : RpcError :=
  mkRpcError 103 "INVALID_ARGUMENT"
    {[ "grpc-status-details-bin" := MetaString malformed_base64 ]}.

(** A server-streaming call whose stream fails after one message, with its
    promises rejected. *)
Definition failing_server (method : MethodInfo) (input : nat) (options : RpcOptions)
    : ServerStreamingCall nat nat :=
  mkServerStreamingCall method (default ∅ (meta options)) input
    (Rejected (VRpcError Examples.wire_not_found))
    [NextMessage input; NextError (VRpcError Examples.wire_not_found)]
    (Rejected (VRpcError Examples.wire_not_found))
    (Rejected (VRpcError Examples.wire_not_found)).

(** A client-streaming call of which two promises reject with a wire
    error, one with another error, and one is fulfilled. *)
Definition mixed_client (method : MethodInfo) (options : RpcOptions)
    : ClientStreamingCall nat :=
  mkClientStreamingCall method (default ∅ (meta options)) 1
    (Resolved ∅) (Rejected (VRpcError Examples.wire_not_found))
    (Rejected (VError 9)) (Rejected (VRpcError Examples.wire_plain)).

(** The typed error the error interceptor makes of [wire_not_found], as
    the first error of a heap. *)
Definition typed_not_found : GrpcError :=
  mkGrpcError 0 NotFoundError "NotFoundError" "Not found"
    [localizedMessage "en" "No such user"; retryInfo 30]
    (Some Examples.wire_not_found) None.

(** The calls the error interceptor returns for [Examples.failing_unary]
    and for [failing_server]. *)
Definition mapped_unary : UnaryCall nat nat :=
  mkUnaryCall Examples.method {[ "b" := MetaString "2" ]} 0%nat
    (Rejected (VGrpcError typed_not_found)) (Rejected (VGrpcError typed_not_found))
    (Rejected (VGrpcError typed_not_found)) (Rejected (VGrpcError typed_not_found)).

Definition mapped_server : ServerStreamingCall nat nat :=
  mkServerStreamingCall Examples.method {[ "b" := MetaString "2" ]} 0%nat
    (Rejected (VRpcError Examples.wire_not_found))
    [NextMessage 0%nat; NextError (VGrpcError typed_not_found)]
    (Rejected (VRpcError Examples.wire_not_found))
    (Rejected (VRpcError Examples.wire_not_found)).

Definition reporting_config : ErrorInterceptor.ErrorInterceptorConfig :=
  ErrorInterceptor.mkErrorInterceptorConfig true.

(** A trace captured at the call site. *)
Definition call_site : string :=
  "Error" +:+ ErrorInterceptor.newline
  +:+ "    at caller (app.ts:1:1)" +:+ ErrorInterceptor.newline
  +:+ "    at main (app.ts:2:2)".

(** The provider [{a: "1"}], for unary calls only. *)
Definition unary_only_config : MetadataInterceptor.MetadataInterceptorConfig :=
  MetadataInterceptor.mkMetadataInterceptorConfig
    (MetadataInterceptor.provider_static {[ "a" := MetaString "1" ]})
    (Some [MetadataInterceptor.unary]).

(** A unary call whose response rejects while its other promises are
    fulfilled. *)
Definition half_failing_unary (method : MethodInfo) (input : nat)
    (options : RpcOptions) : UnaryCall nat nat :=
  mkUnaryCall method (default ∅ (meta options)) input
    (Resolved ∅) (Rejected (VRpcError Examples.wire_plain))
    (Resolved Examples.ok_status) (Resolved ∅).

(** After the real call was made it delivers a response, the caller sends
    3, and the end of the stream is delivered. *)
Definition trace_responses : list (MetadataInterceptor.Event nat) :=
  [MetadataInterceptor.CallNext; MetadataInterceptor.Send 3%nat;
   MetadataInterceptor.CallNext].

End Cases.

(** * Part II: properties *)

(** ** Bytes and varints *)

Lemma to_N_byte_of_N (n : N) : n < 256 → Byte.to_N (byte_of_N n) = n.
Proof.
  intros Hn. unfold byte_of_N.
  destruct (Byte.of_N n) as [b|] eqn:Hb; simpl.
  - by apply Byte.to_of_N.
  - apply Byte.of_N_None_iff in Hb. lia.
Qed.

Lemma land_127 (v : N) : N.land v 127 = v mod 128.
Proof. change 127 with (N.ones 7). by rewrite N.land_ones. Qed.

Lemma lor_128 (x : N) : x < 128 → N.lor x 128 = x + 128.
Proof.
  intros Hx.
  assert (H0 : N.land x 128 = 0).
  { apply N.bits_inj_0. intros i. rewrite N.land_spec.
    change 128 with (2 ^ 7). rewrite N.pow2_bits_eqb.
    destruct (N.eqb_spec 7 i) as [ <- | Hne ]; [ | by rewrite andb_false_r ].
    rewrite andb_true_r. apply N.bits_above_log2.
    destruct (N.eq_dec x 0) as [ -> | Hx0 ]; [ done | ].
    apply N.log2_lt_pow2; [ lia | ]. done. }
  rewrite <- N.lxor_lor by done. symmetry. by apply N.add_nocarry_lxor.
Qed.

Lemma testbit7_high (x : N) : x < 128 → N.testbit (x + 128) 7 = true.
Proof.
  intros Hx. rewrite N.testbit_eqb. change (2 ^ 7) with 128.
  replace (x + 128) with (x + 1 * 128) by lia.
  rewrite N.div_add by lia. rewrite (N.div_small x 128) by done. done.
Qed.

Lemma testbit7_low (x : N) : x < 128 → N.testbit x 7 = false.
Proof.
  intros Hx. rewrite N.testbit_eqb. change (2 ^ 7) with 128.
  rewrite (N.div_small x 128) by done. done.
Qed.

Lemma varint_recombine (v s : N) :
  N.lor (N.shiftl (v mod 128) s) (N.shiftl (N.shiftr v 7) (s + 7)) = N.shiftl v s.
Proof.
  apply N.bits_inj. intros i. rewrite N.lor_spec.
  destruct (N.lt_ge_cases i s) as [Hi|Hi].
  { rewrite !N.shiftl_spec_low by lia. done. }
  rewrite (N.shiftl_spec_high' v) by done.
  rewrite (N.shiftl_spec_high' (v mod 128)) by done.
  change 128 with (2 ^ 7).
  destruct (N.lt_ge_cases i (s + 7)) as [Hj|Hj].
  - rewrite N.shiftl_spec_low by done.
    rewrite N.mod_pow2_bits_low by lia. by rewrite orb_false_r.
  - rewrite N.mod_pow2_bits_high by lia.
    rewrite N.shiftl_spec_high' by done. rewrite N.shiftr_spec'.
    simpl. f_equal. lia.
Qed.

Lemma small_below_128 (v : N) : N.log2 v = 0 → v < 128.
Proof.
  intros Hl. destruct (N.eq_dec v 0) as [ -> | Hv0 ]; [ done | ].
  change 128 with (2 ^ 7). apply N.log2_lt_pow2; lia.
Qed.

(** The writer's loop followed by the reader's loop gives the value back,
    and leaves what follows the varint untouched, when the reader is allowed
    as many bytes as the value takes. *)
Lemma varint_loop_roundtrip (budget more : nat) (v shift acc : N) (rest : list byte) :
  (N.to_nat (N.log2 v) ≤ budget)%nat →
  v < 2 ^ (7 * N.of_nat (S more)) →
  R.varint_loop more shift acc (W.varint_loop budget v ++ rest)
  = Ok (N.lor acc (N.shiftl v shift), rest).
Proof.
  revert more v shift acc.
  induction budget as [|budget IH]; intros more v shift acc Hb Hv.
  - assert (Hv128 : v < 128) by (apply small_below_128; lia).
    simpl. rewrite to_N_byte_of_N by lia.
    rewrite testbit7_low by done.
    rewrite land_127, N.mod_small by done. done.
  - simpl. destruct (N.ltb_spec 127 v) as [Hbig|Hsmall]; simpl.
    + assert (Hlt : v mod 128 < 128) by (apply N.mod_lt; lia).
      assert (Hbyte : Byte.to_N (byte_of_N (N.lor (N.land v 127) 128))
                      = v mod 128 + 128).
      { rewrite land_127, lor_128 by done. apply to_N_byte_of_N. lia. }
      rewrite !Hbyte. rewrite testbit7_high by done.
      rewrite land_127.
      replace ((v mod 128 + 128) mod 128) with (v mod 128).
      2:{ replace (v mod 128 + 128) with (v mod 128 + 1 * 128) by lia.
          rewrite N.Div0.mod_add. by rewrite N.Div0.mod_mod. }
      destruct more as [|more].
      { change (2 ^ (7 * N.of_nat 1)) with 128 in Hv. lia. }
      rewrite IH.
      * by rewrite <- N.lor_assoc, varint_recombine.
      * rewrite N.log2_shiftr. lia.
      * rewrite N.shiftr_div_pow2. apply N.Div0.div_lt_upper_bound.
        rewrite <- N.pow_add_r.
        replace (7 + 7 * N.of_nat (S more)) with (7 * N.of_nat (S (S more))) by lia.
        done.
    + rewrite to_N_byte_of_N by lia.
      rewrite testbit7_low by lia.
      rewrite land_127, N.mod_small by lia. done.
Qed.

(** A varint of at most ten bytes is read to its low bits. *)
Lemma varint_roundtrip (bits v : N) (rest : list byte) :
  v < 2 ^ 70 →
  R.varint bits (W.varint v ++ rest) = Ok (v mod 2 ^ bits, rest).
Proof.
  intros Hv. unfold R.varint, W.varint.
  rewrite varint_loop_roundtrip by done. simpl.
  by rewrite N.shiftl_0_r.
Qed.

Lemma uint32_varint (v : N) (rest : list byte) :
  v < 2 ^ 32 → R.uint32 (W.varint v ++ rest) = Ok (v, rest).
Proof.
  intros Hv. unfold R.uint32. rewrite varint_roundtrip.
  - by rewrite N.mod_small.
  - eapply N.lt_le_trans; [ exact Hv | ]. by apply N.pow_le_mono_r.
Qed.

Lemma uint32_roundtrip (v : N) (enc rest : list byte) :
  W.uint32 v = Ok enc → R.uint32 (enc ++ rest) = Ok (v, rest).
Proof.
  unfold W.uint32. destruct (N.ltb_spec v (2 ^ 32)) as [Hv|Hv]; [ | done ].
  intros [= <-]. by apply uint32_varint.
Qed.

Lemma varint_nonempty (v : N) : W.varint v ≠ [].
Proof. unfold W.varint. destruct (N.to_nat (N.log2 v)); simpl; [ done | ]. by case_match. Qed.

(** ** Readers: what they consume, and that they come to an end *)

Create HintDb reader discriminated.

Lemma varint_loop_consumes more shift acc buf v rest :
  R.varint_loop more shift acc buf = Ok (v, rest) → (length rest < length buf)%nat.
Proof.
  revert more shift acc. induction buf as [|b buf IH]; intros more shift acc; simpl;
    [ done | ].
  case_match.
  - destruct more as [|more]; [ done | ]. intros Hr%IH. lia.
  - intros [= _ <-]. lia.
Qed.

Lemma varint_loop_halts more shift acc buf : R.varint_loop more shift acc buf ≠ Diverge.
Proof.
  revert more shift acc. induction buf as [|b buf IH]; intros more shift acc; simpl;
    [ done | ].
  case_match; [ | done ]. by destruct more.
Qed.

Lemma varint_consumes bits buf v rest :
  R.varint bits buf = Ok (v, rest) → (length rest < length buf)%nat.
Proof.
  unfold R.varint.
  destruct (R.varint_loop 9 0 0 buf) as [[v' rest']| |] eqn:Hv; simpl; [ | done | done ].
  apply varint_loop_consumes in Hv. by intros [= _ <-].
Qed.

Lemma varint_halts bits buf : R.varint bits buf ≠ Diverge.
Proof.
  unfold R.varint. pose proof (varint_loop_halts 9 0 0 buf).
  by destruct (R.varint_loop 9 0 0 buf) as [[v rest]| |].
Qed.

Lemma uint32_consumes buf v rest :
  R.uint32 buf = Ok (v, rest) → (length rest < length buf)%nat.
Proof. apply varint_consumes. Qed.

Lemma uint32_halts buf : R.uint32 buf ≠ Diverge.
Proof. apply varint_halts. Qed.

Lemma tag_consumes buf f w rest :
  R.tag buf = Ok ((f, w), rest) → (length rest < length buf)%nat.
Proof.
  unfold R.tag. destruct (R.uint32 buf) as [[t rest']| |] eqn:Hu; simpl; [ | done | done ].
  apply uint32_consumes in Hu. repeat case_match; try done. by intros [= _ _ <-].
Qed.

Lemma tag_halts : halts R.tag.
Proof.
  intros buf. unfold R.tag. pose proof (uint32_halts buf) as Hh.
  destruct (R.uint32 buf) as [[t rest]| |]; simpl; [ | done | done ].
  by repeat case_match.
Qed.

Lemma advance_shrinks n : shrinks (R.advance n).
Proof.
  intros buf a rest. unfold R.advance. case_decide; [ | done ].
  intros [= _ <-]. rewrite length_drop. lia.
Qed.

Lemma bytes_shrinks : shrinks R.bytes.
Proof.
  intros buf a rest. unfold R.bytes.
  destruct (R.uint32 buf) as [[len rest']| |] eqn:Hu; simpl; [ | done | done ].
  apply uint32_consumes in Hu. intros H%advance_shrinks. lia.
Qed.

Lemma bytes_halts : halts R.bytes.
Proof.
  intros buf. unfold R.bytes. pose proof (uint32_halts buf) as Hh.
  destruct (R.uint32 buf) as [[len rest]| |]; simpl; [ | done | done ].
  unfold R.advance. by case_decide.
Qed.

Lemma string_shrinks : shrinks R.string.
Proof.
  intros buf a rest. unfold R.string.
  destruct (R.bytes buf) as [[chunk rest']| |] eqn:Hb; simpl; [ | done | done ].
  apply bytes_shrinks in Hb. case_match; [ | done ]. by intros [= _ <-].
Qed.

Lemma string_halts : halts R.string.
Proof.
  intros buf. unfold R.string. pose proof (bytes_halts buf).
  destruct (R.bytes buf) as [[chunk rest']| |]; simpl; [ | done | done ].
  by case_match.
Qed.

Lemma int32_shrinks : shrinks R.int32.
Proof.
  intros buf a rest. unfold R.int32.
  destruct (R.uint32 buf) as [[v rest']| |] eqn:Hu; simpl; [ | done | done ].
  apply uint32_consumes in Hu. intros [= _ <-]. lia.
Qed.

Lemma int32_halts : halts R.int32.
Proof.
  intros buf. unfold R.int32. pose proof (uint32_halts buf).
  by destruct (R.uint32 buf) as [[v rest]| |].
Qed.

Lemma int64_shrinks : shrinks R.int64.
Proof.
  intros buf a rest. unfold R.int64.
  destruct (R.varint 64 buf) as [[v rest']| |] eqn:Hu; simpl; [ | done | done ].
  apply varint_consumes in Hu. intros [= _ <-]. lia.
Qed.

Lemma int64_halts : halts R.int64.
Proof.
  intros buf. unfold R.int64. pose proof (varint_halts 64 buf).
  by destruct (R.varint 64 buf) as [[v rest]| |].
Qed.

Lemma skip_varint_shrinks buf rest :
  R.skip_varint buf = Ok rest → (length rest ≤ length buf)%nat.
Proof.
  induction buf as [|b buf IH]; simpl; [ done | ].
  case_match; [ intros Hr%IH; lia | intros [= <-]; lia ].
Qed.

Lemma skip_varint_halts buf : R.skip_varint buf ≠ Diverge.
Proof. induction buf as [|b buf IH]; simpl; [ done | by case_match ]. Qed.

Lemma skip_loop_shrinks budget :
  (∀ t buf rest, R.skip_loop budget t buf = Ok rest → (length rest ≤ length buf)%nat)
  ∧ (∀ buf rest, R.skip_group budget buf = Ok rest → (length rest ≤ length buf)%nat).
Proof.
  induction budget as [|budget [IH1 IH2]]; [ done | ]. split.
  - intros t buf rest. simpl. destruct t; try done.
    + apply skip_varint_shrinks.
    + destruct (R.advance 8 buf) as [[a r]| |] eqn:Ha; simpl; [ | done | done ].
      apply advance_shrinks in Ha. by intros [= <-].
    + destruct (R.bytes buf) as [[a r]| |] eqn:Ha; simpl; [ | done | done ].
      apply bytes_shrinks in Ha. by intros [= <-].
    + apply IH2.
    + destruct (R.advance 4 buf) as [[a r]| |] eqn:Ha; simpl; [ | done | done ].
      apply advance_shrinks in Ha. by intros [= <-].
  - intros buf rest. simpl.
    destruct (R.tag buf) as [[[f t] r]| |] eqn:Ht; simpl; [ | done | done ].
    apply tag_consumes in Ht.
    assert (Hgo : ∀ t', (r' ← R.skip_loop budget t' r; R.skip_group budget r') = Ok rest
                        → (length rest <= length buf)%nat).
    { intros t'. destruct (R.skip_loop budget t' r) as [r'| |] eqn:Hs; simpl; [ | done | done ].
      apply IH1 in Hs. intros H%IH2. lia. }
    destruct t; try apply Hgo. intros [= <-]. lia.
Qed.

Lemma skip_loop_halts budget :
  (∀ t buf, (2 * length buf + 2 ≤ budget)%nat → R.skip_loop budget t buf ≠ Diverge)
  ∧ (∀ buf, (2 * length buf + 1 ≤ budget)%nat → R.skip_group budget buf ≠ Diverge).
Proof.
  induction budget as [|budget [IH1 IH2]]; [ split; intros; lia | ]. split.
  - intros t buf Hb. simpl. destruct t; try done.
    + apply skip_varint_halts.
    + unfold R.advance. by case_decide.
    + pose proof (bytes_halts buf). by destruct (R.bytes buf) as [[a r]| |].
    + apply IH2. lia.
    + unfold R.advance. by case_decide.
  - intros buf Hb. simpl. pose proof (tag_halts buf) as Hh.
    destruct (R.tag buf) as [[[f t] r]| |] eqn:Ht; simpl; [ | done | done ].
    apply tag_consumes in Ht.
    assert (Hgo : ∀ t', (r' ← R.skip_loop budget t' r; R.skip_group budget r') ≠ Diverge).
    { intros t'. pose proof (IH1 t' r ltac:(lia)) as H1.
      destruct (R.skip_loop budget t' r) as [r'| |] eqn:Hs; simpl; [ | done | done ].
      apply (proj1 (skip_loop_shrinks budget)) in Hs. apply IH2. lia. }
    destruct t; try apply Hgo. done.
Qed.

Lemma skip_shrinks wireType : shrinks (R.skip wireType).
Proof.
  intros buf a rest. unfold R.skip.
  destruct (R.skip_loop _ wireType buf) as [r| |] eqn:Hs; simpl; [ | done | done ].
  apply (proj1 (skip_loop_shrinks _)) in Hs. by intros [= _ <-].
Qed.

Lemma skip_halts wireType : halts (R.skip wireType).
Proof.
  intros buf. unfold R.skip.
  pose proof (proj1 (skip_loop_halts (2 * length buf + 2)) wireType buf ltac:(lia)).
  by destruct (R.skip_loop _ wireType buf) as [r| |].
Qed.
(** The cases of the parsers' [switch] statements. *)

Lemma skip_field_shrinks {S : Type} wireType (st : S) : shrinks (skip_field wireType st).
Proof.
  intros buf a rest. unfold skip_field.
  destruct (R.skip wireType buf) as [[u r]| |] eqn:Hs; simpl; [ | done | done ].
  apply skip_shrinks in Hs. by intros [= _ <-].
Qed.

Lemma skip_field_halts {S : Type} wireType (st : S) : halts (skip_field wireType st).
Proof.
  intros buf. unfold skip_field. pose proof (skip_halts wireType buf).
  by destruct (R.skip wireType buf) as [[u r]| |].
Qed.

Lemma string_field_shrinks {S : Type} wireType (set : string → S) st :
  shrinks (string_field wireType set st).
Proof.
  destruct wireType; try apply skip_field_shrinks.
  intros buf a rest. simpl.
  destruct (R.string buf) as [[s r]| |] eqn:Hs; simpl; [ | done | done ].
  apply string_shrinks in Hs. by intros [= _ <-].
Qed.

Lemma string_field_halts {S : Type} wireType (set : string → S) st :
  halts (string_field wireType set st).
Proof.
  destruct wireType; try apply skip_field_halts.
  intros buf. simpl. pose proof (string_halts buf).
  by destruct (R.string buf) as [[s r]| |].
Qed.

Lemma bytes_field_shrinks {S X : Type} wireType (parse : list byte → result X)
    (set : X → S) st :
  shrinks (bytes_field wireType parse set st).
Proof.
  destruct wireType; try apply skip_field_shrinks.
  intros buf a rest. simpl.
  destruct (R.bytes buf) as [[b r]| |] eqn:Hs; simpl; [ | done | done ].
  apply bytes_shrinks in Hs. destruct (parse b); simpl; [ | done | done ].
  by intros [= _ <-].
Qed.

Lemma bytes_field_halts {S X : Type} wireType (parse : list byte → result X)
    (set : X → S) st :
  (∀ b, parse b ≠ Diverge) → halts (bytes_field wireType parse set st).
Proof.
  intros Hp. destruct wireType; try apply skip_field_halts.
  intros buf. simpl. pose proof (bytes_halts buf).
  destruct (R.bytes buf) as [[b r]| |]; simpl; [ | done | done ].
  specialize (Hp b). by destruct (parse b).
Qed.

Lemma varint_field_shrinks {S X : Type} wireType (read : R.Reader X) (set : X → S) st :
  shrinks read → shrinks (varint_field wireType read set st).
Proof.
  intros Hr. destruct wireType; try apply skip_field_shrinks.
  intros buf a rest. simpl.
  destruct (read buf) as [[x r]| |] eqn:Hs; simpl; [ | done | done ].
  apply Hr in Hs. by intros [= _ <-].
Qed.

Lemma varint_field_halts {S X : Type} wireType (read : R.Reader X) (set : X → S) st :
  halts read → halts (varint_field wireType read set st).
Proof.
  intros Hr. destruct wireType; try apply skip_field_halts.
  intros buf. simpl. specialize (Hr buf). by destruct (read buf) as [[x r]| |].
Qed.

Lemma repeated_field_shrinks {X : Type} (parse : list byte → result X) f w acc :
  shrinks (repeated_field parse f w acc).
Proof.
  unfold repeated_field.
  repeat case_match; auto using skip_field_shrinks, bytes_field_shrinks.
Qed.

Lemma repeated_field_halts {X : Type} (parse : list byte → result X) f w acc :
  (∀ b, parse b ≠ Diverge) → halts (repeated_field parse f w acc).
Proof.
  intros Hp. unfold repeated_field.
  repeat case_match; auto using skip_field_halts, bytes_field_halts.
Qed.

#[global] Hint Resolve repeated_field_shrinks repeated_field_halts : reader.
#[global] Hint Resolve skip_field_shrinks string_field_shrinks bytes_field_shrinks
  varint_field_shrinks int32_shrinks int64_shrinks : reader.
#[global] Hint Resolve skip_field_halts string_field_halts bytes_field_halts
  varint_field_halts int32_halts int64_halts : reader.

(** Closes [shrinks (body f w st)] and [halts (body f w st)] for a loop body
    that is a [switch] over the cases above. *)
Ltac solve_reader := intros; cbv beta; repeat case_match; eauto with reader.

(** ** The field loop *)

Section fields.
Context {S : Type} (body : N → WireType → S → R.Reader S).
Hypothesis body_shrinks : ∀ f w st, shrinks (body f w st).

(** Any budget that covers the buffer gives the same result. *)
Lemma fields_loop_budget (b1 b2 : nat) (st : S) (buf : list byte) :
  (length buf ≤ b1)%nat → (length buf ≤ b2)%nat →
  R.fields_loop b1 body st buf = R.fields_loop b2 body st buf.
Proof.
  revert b2 st buf. induction b1 as [|b1 IH]; intros b2 st buf H1 H2.
  - destruct buf; [ by destruct b2 | simpl in H1; lia ].
  - destruct buf as [|x buf]; [ by destruct b2 | ].
    destruct b2 as [|b2]; [ simpl in H2; lia | ].
    cbn [R.fields_loop].
    destruct (R.tag (x :: buf)) as [[[f w] rest]| |] eqn:Ht; simpl; [ | done | done ].
    apply tag_consumes in Ht.
    destruct (body f w st rest) as [[st' rest']| |] eqn:Hb; simpl; [ | done | done ].
    apply body_shrinks in Hb. simpl in *. apply IH; lia.
Qed.

Lemma fields_nil (st : S) : R.fields body st [] = Ok st.
Proof. done. Qed.

(** One turn of the loop, on a buffer that is not empty. *)
Lemma fields_unfold (st : S) (buf : list byte) :
  buf ≠ [] →
  R.fields body st buf
  = '((fieldNo, wireType), rest) ← R.tag buf;
    '(st', rest') ← body fieldNo wireType st rest;
    R.fields body st' rest'.
Proof.
  intros Hne. unfold R.fields. destruct buf as [|x buf]; [ done | ].
  cbn [length R.fields_loop].
  destruct (R.tag (x :: buf)) as [[[f w] rest]| |] eqn:Ht; simpl; [ | done | done ].
  apply tag_consumes in Ht.
  destruct (body f w st rest) as [[st' rest']| |] eqn:Hb; simpl; [ | done | done ].
  apply body_shrinks in Hb. simpl in *. apply fields_loop_budget; lia.
Qed.

(** The loop comes to an end when its body does. *)
Lemma fields_halts (st : S) (data : list byte) :
  (∀ f w st, halts (body f w st)) → R.fields body st data ≠ Diverge.
Proof.
  intros Hh. unfold R.fields.
  assert (Hgen : ∀ budget buf st, (length buf ≤ budget)%nat →
                   R.fields_loop budget body st buf ≠ Diverge).
  { induction budget as [|budget IH]; intros buf st' Hb.
    - destruct buf; [ done | simpl in Hb; lia ].
    - destruct buf as [|x buf]; [ done | ]. cbn [R.fields_loop].
      pose proof (tag_halts (x :: buf)) as Hth.
      destruct (R.tag (x :: buf)) as [[[f w] rest]| |] eqn:Ht; simpl; [ | done | done ].
      apply tag_consumes in Ht. pose proof (Hh f w st' rest) as Hbh.
      destruct (body f w st' rest) as [[st'' rest']| |] eqn:Hbd; simpl; [ | done | done ].
      apply body_shrinks in Hbd. simpl in *. apply IH. lia. }
  by apply Hgen.
Qed.
End fields.

(** ** Reading back what the writer wrote *)

Lemma tag_value (fieldNo : N) (type : WireType) :
  fieldNo < 2 ^ 29 →
  N.lor (N.shiftl fieldNo 3) (WireType_to_N type) mod 2 ^ 32
  = N.lor (N.shiftl fieldNo 3) (WireType_to_N type).
Proof.
  intros Hf. apply N.mod_small.
  set (t := N.lor (N.shiftl fieldNo 3) (WireType_to_N type)).
  destruct (N.eq_dec t 0) as [ -> | Ht ]; [ done | ].
  apply N.log2_lt_pow2; [ lia | ]. unfold t. rewrite N.log2_lor.
  apply N.max_lub_lt.
  - destruct (N.eq_dec fieldNo 0) as [ -> | Hf0 ]; [ done | ].
    rewrite N.log2_shiftl by done.
    assert (N.log2 fieldNo < 29) by (apply N.log2_lt_pow2; lia). lia.
  - destruct type; by vm_compute.
Qed.

Lemma tag_roundtrip (fieldNo : N) (type : WireType) (rest : list byte) :
  fieldNo ≠ 0 → fieldNo < 2 ^ 29 →
  R.tag (W.tag fieldNo type ++ rest) = Ok ((fieldNo, type), rest).
Proof.
  intros Hf Hlt. unfold R.tag, W.tag. rewrite tag_value by done.
  rewrite uint32_varint by (rewrite <- (tag_value fieldNo type Hlt); by apply N.mod_lt).
  simpl.
  assert (Hw : WireType_to_N type < 2 ^ 3) by (by destruct type).
  assert (Hlow : N.land (N.lor (N.shiftl fieldNo 3) (WireType_to_N type)) 7
                 = WireType_to_N type).
  { change 7 with (N.ones 3). rewrite N.land_ones.
    apply N.bits_inj. intros i.
    destruct (N.lt_ge_cases i 3) as [Hi|Hi].
    - rewrite N.mod_pow2_bits_low, N.lor_spec, N.shiftl_spec_low by done. done.
    - rewrite N.mod_pow2_bits_high by done. symmetry.
      destruct (N.eq_dec (WireType_to_N type) 0) as [ -> | H0 ]; [ apply N.bits_0 | ].
      apply N.bits_above_log2. apply N.log2_lt_pow2; [ lia | ].
      eapply N.lt_le_trans; [ exact Hw | ]. by apply N.pow_le_mono_r. }
  assert (Hhigh : N.shiftr (N.lor (N.shiftl fieldNo 3) (WireType_to_N type)) 3 = fieldNo).
  { rewrite N.shiftr_lor, N.shiftr_shiftl_l, N.sub_diag, N.shiftl_0_r by done.
    rewrite (N.shiftr_eq_0 (WireType_to_N type)); [ apply N.lor_0_r | ].
    destruct type; by vm_compute. }
  rewrite Hlow, Hhigh.
  replace (WireType_of_N (WireType_to_N type)) with (Some type) by (by destruct type).
  by destruct (N.eqb_spec fieldNo 0).
Qed.

Lemma tag_nonempty (fieldNo : N) (type : WireType) : W.tag fieldNo type ≠ [].
Proof. apply varint_nonempty. Qed.

Lemma bytes_roundtrip (value enc rest : list byte) :
  W.bytes value = Ok enc → R.bytes (enc ++ rest) = Ok (value, rest).
Proof.
  unfold W.bytes, R.bytes.
  destruct (W.uint32 (N.of_nat (length value))) as [len| |] eqn:Hlen; simpl;
    [ | done | done ].
  intros [= <-]. rewrite <- app_assoc, (uint32_roundtrip _ _ _ Hlen). simpl.
  unfold R.advance. rewrite Nat2N.id. rewrite decide_True by (rewrite length_app; lia).
  by rewrite take_app_length, drop_app_length.
Qed.

Lemma string_utf8 (value : string) (enc : list byte) :
  W.string value = Ok enc → utf8_valid (list_byte_of_string value) = true.
Proof. unfold W.string. by case_match. Qed.

Lemma string_bytes (value : string) (enc : list byte) :
  W.string value = Ok enc → W.bytes (list_byte_of_string value) = Ok enc.
Proof. unfold W.string, W.bytes. by case_match. Qed.

Lemma string_roundtrip (value : string) (enc rest : list byte) :
  W.string value = Ok enc → R.string (enc ++ rest) = Ok (value, rest).
Proof.
  intros Henc. unfold R.string.
  rewrite (bytes_roundtrip _ _ _ (string_bytes _ _ Henc)). simpl.
  rewrite (string_utf8 _ _ Henc). by rewrite string_of_list_byte_of_string.
Qed.

(** The low bits of a two's complement, read as a signed number. *)
Lemma signed_roundtrip (value : Z) (bits : Z) :
  (0 < bits ≤ 64)%Z → (- 2 ^ (bits - 1) ≤ value < 2 ^ (bits - 1))%Z →
  let u := Z.of_N (Z.to_N (value mod 2 ^ 64) mod 2 ^ Z.to_N bits) in
  (if (u <? 2 ^ (bits - 1))%Z then u else (u - 2 ^ bits)%Z) = value.
Proof.
  intros Hbits Hrange. cbv zeta.
  assert (Hpow : (2 ^ bits = 2 * 2 ^ (bits - 1))%Z).
  { rewrite <- Z.pow_succ_r by lia. f_equal. lia. }
  assert (Hpos : (0 < 2 ^ (bits - 1))%Z) by (apply Z.pow_pos_nonneg; lia).
  rewrite N2Z.inj_mod, N2Z.inj_pow. rewrite !Z2N.id by (try apply Z.mod_pos_bound; lia).
  change (Z.of_N 2) with 2%Z.
  replace ((value mod 2 ^ 64) mod 2 ^ bits)%Z with (value mod 2 ^ bits)%Z.
  2:{ replace 64%Z with (bits + (64 - bits))%Z at 1 by lia.
      rewrite Z.pow_add_r by lia.
      rewrite Z.rem_mul_r by (apply Z.pow_nonzero || apply Z.pow_pos_nonneg; lia).
      rewrite Z.mul_comm, Z.mod_add by lia. by rewrite Z.mod_mod by lia. }
  destruct (Z.ltb_spec (value mod 2 ^ bits) (2 ^ (bits - 1))) as [Hlt|Hge].
  - destruct (Z.neg_nonneg_cases value) as [Hneg|Hnonneg].
    + rewrite <- (Z.mod_add value 1 (2 ^ bits)) in Hlt by lia.
      rewrite Z.mod_small in Hlt by lia. lia.
    + rewrite Z.mod_small by lia. done.
  - destruct (Z.neg_nonneg_cases value) as [Hneg|Hnonneg].
    + rewrite <- (Z.mod_add value 1 (2 ^ bits)) by lia.
      rewrite Z.mod_small by lia. lia.
    + rewrite Z.mod_small in Hge by lia. lia.
Qed.

Lemma two_complement_bound (value : Z) : Z.to_N (value mod 2 ^ 64) < 2 ^ 70.
Proof.
  assert (H : (0 ≤ value mod 2 ^ 64 < 2 ^ 64)%Z) by (apply Z.mod_pos_bound; lia).
  apply N2Z.inj_lt. rewrite Z2N.id by lia.
  change (Z.of_N (2 ^ 70)) with (2 ^ 70)%Z. lia.
Qed.

Lemma int32_roundtrip (value : Z) (enc rest : list byte) :
  W.int32 value = Ok enc → R.int32 (enc ++ rest) = Ok (value, rest).
Proof.
  unfold W.int32, R.int32, R.uint32. case_match eqn:Hrange; [ | done ]. intros [= <-].
  rewrite varint_roundtrip by apply two_complement_bound. simpl. do 2 f_equal.
  apply andb_prop in Hrange as [H1%Z.leb_le H2%Z.leb_le].
  apply (signed_roundtrip value 32); lia.
Qed.

Lemma int64_roundtrip (value : Z) (enc rest : list byte) :
  W.int64 value = Ok enc → R.int64 (enc ++ rest) = Ok (value, rest).
Proof.
  unfold W.int64, R.int64. case_match eqn:Hrange; [ | done ]. intros [= <-].
  rewrite varint_roundtrip by apply two_complement_bound. simpl. do 2 f_equal.
  apply andb_prop in Hrange as [H1%Z.leb_le H2%Z.ltb_lt].
  apply (signed_roundtrip value 64); lia.
Qed.

Arguments W.varint : simpl never.
Arguments W.uint32 : simpl never.
Arguments W.tag : simpl never.
Arguments W.string : simpl never.
Arguments W.bytes : simpl never.
Arguments R.varint : simpl never.
Arguments R.uint32 : simpl never.
Arguments R.tag : simpl never.
Arguments R.string : simpl never.
Arguments R.bytes : simpl never.
Arguments R.int32 : simpl never.
Arguments R.int64 : simpl never.
Arguments R.skip : simpl never.
Arguments R.fields : simpl never.
#[local] Opaque W.tag W.varint.

(** ** What an encoder that returned has written *)

Lemma bind_Ok {A B : Type} (m : result A) (f : A → result B) (b : B) :
  m ≫= f = Ok b → ∃ a, m = Ok a ∧ f a = Ok b.
Proof. destruct m as [a| |]; simpl; [ by exists a | done | done ]. Qed.

Lemma fmap_Ok {A B : Type} (g : A → B) (m : result A) (b : B) :
  g <$> m = Ok b → ∃ a, m = Ok a ∧ b = g a.
Proof. destruct m as [a| |]; simpl; [ intros [= <-]; by exists a | done | done ]. Qed.

(** Splits [H : encode ... = Ok enc] into what each step of the encoder
    returned. *)
Ltac inv_Ok H :=
  repeat match type of H with
  | _ ≫= _ = Ok _ =>
      let a := fresh "enc" in let Ha := fresh "Henc" in
      apply bind_Ok in H as (a & Ha & H)
  | _ <$> _ = Ok _ =>
      let a := fresh "enc" in let Ha := fresh "Henc" in
      apply fmap_Ok in H as (a & Ha & H)
  | Ok _ = Ok _ => injection H as H
  end;
  try (subst; simpl in * ).

(** ** The loop on encoded fields *)

Section encoded_fields.
Context {S : Type} (body : N → WireType → S → R.Reader S).
Hypothesis body_shrinks : ∀ f w st, shrinks (body f w st).

(** A field written as [tag] then payload is handed to the loop body. *)
Lemma fields_tag (f : N) (w : WireType) (st : S) (buf : list byte) :
  f ≠ 0 → f < 2 ^ 29 →
  R.fields body st (W.tag f w ++ buf)
  = '(st', rest') ← body f w st buf; R.fields body st' rest'.
Proof.
  intros Hf Hlt. rewrite fields_unfold.
  - by rewrite tag_roundtrip.
  - done.
  - pose proof (tag_nonempty f w). by destruct (W.tag f w).
Qed.

(** A string field: the loop moves from [st] to [st'] when the body stores
    the string. *)
Lemma fields_write_string (f : N) (s : string) (st st' : S) (enc rest : list byte) :
  f ≠ 0 → f < 2 ^ 29 →
  write_string f s = Ok enc →
  (∀ chunk buf, W.string s = Ok chunk →
                body f LengthDelimited st (chunk ++ buf) = Ok (st', buf)) →
  R.fields body st (enc ++ rest) = R.fields body st' rest.
Proof.
  intros Hf Hlt Henc Hstep. unfold write_string in Henc.
  apply fmap_Ok in Henc as (chunk & Hchunk & ->).
  rewrite <- app_assoc, fields_tag by done. by rewrite (Hstep _ _ Hchunk).
Qed.

(** A string written only when not empty: an omitted empty string leaves
    the state as it is. *)
Lemma fields_string_if (f : N) (s : string) (st st' : S) (enc rest : list byte) :
  f ≠ 0 → f < 2 ^ 29 →
  write_string_if f s = Ok enc →
  (truthy s = true → ∀ chunk buf, W.string s = Ok chunk →
     body f LengthDelimited st (chunk ++ buf) = Ok (st', buf)) →
  (s = "" → st' = st) →
  R.fields body st (enc ++ rest) = R.fields body st' rest.
Proof.
  intros Hf Hlt Henc Hstep Hempty. unfold write_string_if in Henc.
  destruct s as [|c s]; simpl in Henc.
  - injection Henc as <-. by rewrite Hempty.
  - apply (fields_write_string f (String c s) st st'); try done. by apply Hstep.
Qed.

(** A nested message: the bytes of a writer of its own, written as a
    length-delimited field. *)
Lemma fields_write_bytes (f : N) (sub : result (list byte)) (st st' : S)
    (enc rest : list byte) :
  f ≠ 0 → f < 2 ^ 29 →
  write_bytes f sub = Ok enc →
  (∀ inner chunk buf, sub = Ok inner → W.bytes inner = Ok chunk →
                      body f LengthDelimited st (chunk ++ buf) = Ok (st', buf)) →
  R.fields body st (enc ++ rest) = R.fields body st' rest.
Proof.
  intros Hf Hlt Henc Hstep. unfold write_bytes in Henc.
  apply bind_Ok in Henc as (inner & Hinner & Henc).
  apply fmap_Ok in Henc as (chunk & Hchunk & ->).
  rewrite <- app_assoc, fields_tag by done. by rewrite (Hstep _ _ _ Hinner Hchunk).
Qed.

(** A repeated field: every turn of the encoder's loop is one turn of the
    parser's, in order. *)
Lemma fields_write_all {X : Type} (write : X → result (list byte))
    (upd : S → X → S) (l : list X) (st : S) (enc rest : list byte) :
  write_all write l = Ok enc →
  (∀ st x b buf, write x = Ok b →
                 R.fields body st (b ++ buf) = R.fields body (upd st x) buf) →
  R.fields body st (enc ++ rest) = R.fields body (fold_left upd l st) rest.
Proof.
  intros Henc Hstep. revert st enc Henc.
  induction l as [|x l IH]; intros st enc Henc; simpl in Henc.
  - by injection Henc as <-.
  - apply bind_Ok in Henc as (b & Hb & Henc).
    apply bind_Ok in Henc as (bs & Hbs & Henc). injection Henc as <-.
    rewrite <- app_assoc, (Hstep _ _ _ _ Hb). simpl. by apply IH.
Qed.
End encoded_fields.

(** Steps of a round-trip proof: each consumes one piece of the encoding. *)
Ltac field_side :=
  first [ done
        | by intros ->
        | by (let Hchunk := fresh in
              intros ? ? Hchunk; cbn; rewrite (string_roundtrip _ _ _ Hchunk))
        | by (let Hchunk := fresh in
              intros _ ? ? Hchunk; cbn; rewrite (string_roundtrip _ _ _ Hchunk)) ].

(** Puts the buffer of the loop in the form [piece ++ ... ++ []]. *)
Ltac fields_start :=
  match goal with
  | |- context [R.fields _ _ ?d] => rewrite <- (app_nil_r d), <- ?app_assoc
  end.

Ltac fields_string st' :=
  match goal with
  | H : write_string_if ?f ?s = Ok ?enc
    |- context [R.fields ?b ?st (?enc ++ ?rest)] =>
      rewrite (fields_string_if b ltac:(solve_reader) f s st st' enc rest
                 ltac:(done) ltac:(done) H) by field_side
  end.

Lemma fold_left_snoc {X : Type} (l acc : list X) :
  fold_left (λ acc x, acc ++ [x]) l acc = acc ++ l.
Proof.
  revert acc. induction l as [|x l IH]; intros acc; simpl.
  - by rewrite app_nil_r.
  - by rewrite IH, <- app_assoc.
Qed.

(** ** Round trips of the detail records *)

Lemma parseLocalizedMessage_roundtrip locale message enc :
  encodeLocalizedMessage locale message = Ok enc →
  parseLocalizedMessage enc = Ok (localizedMessage locale message).
Proof.
  unfold parseLocalizedMessage, encodeLocalizedMessage. intros Henc. inv_Ok Henc.
  fields_start.
  fields_string (locale, ""). fields_string (locale, message).
  done.
Qed.

Lemma parseRequestInfo_roundtrip requestId servingData enc :
  encodeRequestInfo requestId servingData = Ok enc →
  parseRequestInfo enc = Ok (requestInfo requestId servingData).
Proof.
  unfold parseRequestInfo, encodeRequestInfo. intros Henc. inv_Ok Henc.
  fields_start.
  fields_string (requestId, ""). fields_string (requestId, servingData).
  done.
Qed.

Lemma parseResourceInfo_roundtrip resourceType resourceName owner description enc :
  encodeResourceInfo resourceType resourceName owner description = Ok enc →
  parseResourceInfo enc = Ok (resourceInfo resourceType resourceName owner description).
Proof.
  unfold parseResourceInfo, encodeResourceInfo. intros Henc. inv_Ok Henc.
  fields_start.
  fields_string (resourceType, "", "", "").
  fields_string (resourceType, resourceName, "", "").
  fields_string (resourceType, resourceName, owner, "").
  fields_string (resourceType, resourceName, owner, description).
  done.
Qed.

(** Sub-records. *)

Lemma parseFieldViolation_roundtrip v enc :
  encodeFieldViolation v = Ok enc → parseFieldViolation enc = Ok v.
Proof.
  destruct v as [field description]. unfold parseFieldViolation, encodeFieldViolation.
  simpl. intros Henc. inv_Ok Henc. fields_start.
  fields_string (mkFieldViolation field "").
  fields_string (mkFieldViolation field description).
  done.
Qed.

Lemma parseQuotaViolation_roundtrip v enc :
  encodeQuotaViolation v = Ok enc → parseQuotaViolation enc = Ok v.
Proof.
  destruct v as [subject description]. unfold parseQuotaViolation, encodeQuotaViolation.
  simpl. intros Henc. inv_Ok Henc. fields_start.
  fields_string (mkQuotaViolation subject "").
  fields_string (mkQuotaViolation subject description).
  done.
Qed.

Lemma parsePreconditionViolation_roundtrip v enc :
  encodePreconditionViolation v = Ok enc → parsePreconditionViolation enc = Ok v.
Proof.
  destruct v as [type subject description].
  unfold parsePreconditionViolation, encodePreconditionViolation.
  simpl. intros Henc. inv_Ok Henc. fields_start.
  fields_string (mkPreconditionViolation type "" "").
  fields_string (mkPreconditionViolation type subject "").
  fields_string (mkPreconditionViolation type subject description).
  done.
Qed.

Lemma parseHelpLink_roundtrip l enc :
  encodeHelpLink l = Ok enc → parseHelpLink enc = Ok l.
Proof.
  destruct l as [description url]. unfold parseHelpLink, encodeHelpLink.
  simpl. intros Henc. inv_Ok Henc. fields_start.
  fields_string (mkHelpLink description "").
  fields_string (mkHelpLink description url).
  done.
Qed.

Lemma parseMapEntry_roundtrip entry enc :
  encodeMapEntry entry = Ok enc → parseMapEntry enc = Ok entry.
Proof.
  destruct entry as [key value]. unfold parseMapEntry, encodeMapEntry. simpl.
  intros Henc. apply bind_Ok in Henc as (f1 & H1 & Henc).
  apply bind_Ok in Henc as (f2 & H2 & Henc). injection Henc as <-.
  fields_start.
  match goal with
  | |- context [R.fields ?b _ _] =>
      rewrite (fields_write_string b ltac:(solve_reader) 1 key ("", "") (key, "")
                 f1 _ ltac:(done) ltac:(done) H1) by field_side;
      rewrite (fields_write_string b ltac:(solve_reader) 2 value (key, "") (key, value)
                 f2 _ ltac:(done) ltac:(done) H2) by field_side
  end.
  done.
Qed.

(** A repeated sub-record, parsed by [repeated_field]. *)
Lemma repeated_field_roundtrip {X : Type} (parse : list byte → result X)
    (encode : X → result (list byte)) (l : list X) (enc : list byte) :
  (∀ x inner, encode x = Ok inner → parse inner = Ok x) →
  write_all (λ x, write_bytes 1 (encode x)) l = Ok enc →
  R.fields (repeated_field parse) [] enc = Ok l.
Proof.
  intros Hparse Henc. fields_start.
  rewrite (fields_write_all (repeated_field parse) _ (λ acc x, acc ++ [x]) l [] enc []
             Henc).
  - by rewrite fold_left_snoc.
  - intros st x b buf Hb.
    apply (fields_write_bytes (repeated_field parse) ltac:(solve_reader) 1 (encode x)
             st (st ++ [x]) b buf); [ done | done | done | ].
    intros inner chunk buf' Hinner Hchunk. cbn.
    rewrite (bytes_roundtrip _ _ _ Hchunk). cbn. by rewrite (Hparse _ _ Hinner).
Qed.

Lemma parseBadRequest_roundtrip fieldViolations enc :
  encodeBadRequest fieldViolations = Ok enc →
  parseBadRequest enc = Ok (badRequest fieldViolations).
Proof.
  unfold parseBadRequest, encodeBadRequest. intros Henc.
  rewrite (repeated_field_roundtrip parseFieldViolation encodeFieldViolation
             fieldViolations enc parseFieldViolation_roundtrip Henc).
  done.
Qed.

Lemma parseQuotaFailure_roundtrip violations enc :
  encodeQuotaFailure violations = Ok enc →
  parseQuotaFailure enc = Ok (quotaFailure violations).
Proof.
  unfold parseQuotaFailure, encodeQuotaFailure. intros Henc.
  rewrite (repeated_field_roundtrip parseQuotaViolation encodeQuotaViolation
             violations enc parseQuotaViolation_roundtrip Henc).
  done.
Qed.

Lemma parsePreconditionFailure_roundtrip violations enc :
  encodePreconditionFailure violations = Ok enc →
  parsePreconditionFailure enc = Ok (preconditionFailure violations).
Proof.
  unfold parsePreconditionFailure, encodePreconditionFailure. intros Henc.
  rewrite (repeated_field_roundtrip parsePreconditionViolation
             encodePreconditionViolation violations enc
             parsePreconditionViolation_roundtrip Henc).
  done.
Qed.

Lemma parseHelp_roundtrip links enc :
  encodeHelp links = Ok enc → parseHelp enc = Ok (help links).
Proof.
  unfold parseHelp, encodeHelp. intros Henc.
  rewrite (repeated_field_roundtrip parseHelpLink encodeHelpLink links enc
             parseHelpLink_roundtrip Henc).
  done.
Qed.

Lemma fold_left_snoc_fst {X D : Type} (l acc : list X) (d : D) :
  fold_left (λ '(entries, d) x, (entries ++ [x], d)) l (acc, d) = (acc ++ l, d).
Proof.
  revert acc. induction l as [|x l IH]; intros acc; simpl.
  - by rewrite app_nil_r.
  - by rewrite IH, <- app_assoc.
Qed.

Lemma parseDebugInfo_roundtrip stackEntries detail enc :
  encodeDebugInfo stackEntries detail = Ok enc →
  parseDebugInfo enc = Ok (debugInfo stackEntries detail).
Proof.
  unfold parseDebugInfo, encodeDebugInfo. intros Henc.
  apply bind_Ok in Henc as (f1 & H1 & Henc).
  apply bind_Ok in Henc as (f2 & H2 & Henc). injection Henc as <-.
  fields_start.
  match goal with
  | |- context [R.fields ?b _ _] =>
      rewrite (fields_write_all b (write_string 1)
                 (λ '(entries, d) s, (entries ++ [s], d)) stackEntries _ f1 _ H1)
  end.
  - rewrite fold_left_snoc_fst. simpl.
    fields_string (stackEntries, detail). done.
  - intros [entries d] s b buf Hb.
    match goal with
    | |- R.fields ?body _ _ = _ =>
        apply (fields_write_string body ltac:(solve_reader) 1 s (entries, d)
                 (entries ++ [s], d) b buf ltac:(done) ltac:(done) Hb)
    end.
    field_side.
Qed.

(** Assigning the entries of a map, one by one, to a fresh object gives the
    map back, but for an entry named [__proto__], which is lost. *)
Lemma fold_left_insert (l : list (string * string)) (m0 : gmap string string) :
  NoDup l.*1 →
  fold_left (λ m x, <[x.1 := x.2]> m) l m0 = list_to_map l ∪ m0.
Proof.
  revert m0. induction l as [|[k v] l IH]; intros m0 Hnd; simpl.
  - by rewrite (left_id_L ∅ (∪)).
  - rewrite fmap_cons in Hnd. apply NoDup_cons in Hnd as [Hk Hnd].
    rewrite IH by done.
    rewrite <- insert_union_l. symmetry. apply insert_union_r.
    by apply not_elem_of_list_to_map_1.
Qed.

Lemma fold_left_set_property_filter (l : list (string * string))
    (m0 : gmap string string) :
  fold_left (λ m x, set_property m x.1 x.2) l m0
  = fold_left (λ m x, <[x.1 := x.2]> m)
      (filter (λ x : string * string, x.1 ≠ "__proto__") l) m0.
Proof.
  revert m0. induction l as [|[k v] l IH]; intros m0; [ done | ].
  rewrite filter_cons. simpl. unfold set_property at 2.
  destruct (String.eqb_spec k "__proto__") as [ -> | Hne ].
  - rewrite decide_False by (by intros []). apply IH.
  - rewrite decide_True by done. simpl. apply IH.
Qed.

Lemma fold_left_set_property_delete (metadata : gmap string string) :
  fold_left (λ m x, set_property m x.1 x.2) (map_to_list metadata) ∅
  = delete "__proto__" metadata.
Proof.
  rewrite fold_left_set_property_filter.
  assert (Hnd : NoDup (filter (λ x : string * string, x.1 ≠ "__proto__")
                         (map_to_list metadata)).*1).
  { eapply sublist_NoDup; [ apply (NoDup_fst_map_to_list metadata) | ].
    apply fmap_sublist, sublist_filter. }
  rewrite fold_left_insert by done. rewrite (right_id_L ∅ (∪)).
  apply map_eq. intros k. apply option_eq. intros v.
  rewrite <- elem_of_list_to_map by done.
  rewrite list_elem_of_filter, elem_of_map_to_list, lookup_delete_Some. simpl.
  split; intros [??]; split; congruence.
Qed.

Lemma parseErrorInfo_normalizes reason domain (metadata : gmap string string) enc :
  encodeErrorInfo reason domain metadata = Ok enc →
  parseErrorInfo enc = Ok (errorInfo reason domain (delete "__proto__" metadata)).
Proof.
  unfold parseErrorInfo, encodeErrorInfo. intros Henc.
  apply bind_Ok in Henc as (f1 & H1 & Henc).
  apply bind_Ok in Henc as (f2 & H2 & Henc).
  apply bind_Ok in Henc as (f3 & H3 & Henc). injection Henc as <-.
  fields_start.
  fields_string (reason, "", ∅ : gmap string string).
  fields_string (reason, domain, ∅ : gmap string string).
  match goal with
  | |- context [R.fields ?b _ _] =>
      rewrite (fields_write_all b _
                 (λ '(r, d, m) x, (r, d, set_property m x.1 x.2))
                 (map_to_list metadata) _ f3 _ H3)
  end.
  - replace (fold_left _ (map_to_list metadata) (reason, domain, ∅))
      with (reason, domain, delete "__proto__" metadata); [ done | ].
    rewrite <- (fold_left_set_property_delete metadata). clear H3.
    generalize (∅ : gmap string string).
    induction (map_to_list metadata) as [|x l IH]; intros m0; simpl; [ done | apply IH ].
  - intros [[r d] m] entry b buf Hb.
    match goal with
    | |- R.fields ?body _ _ = _ =>
        apply (fields_write_bytes body ltac:(solve_reader) 3 (encodeMapEntry entry)
                 (r, d, m) (r, d, set_property m entry.1 entry.2) b buf
                 ltac:(done) ltac:(done) Hb)
    end.
    intros inner chunk buf' Hinner Hchunk. cbn.
    rewrite (bytes_roundtrip _ _ _ Hchunk). cbn.
    by rewrite (parseMapEntry_roundtrip _ _ Hinner).
Qed.

Lemma parseErrorInfo_roundtrip reason domain (metadata : gmap string string) enc :
  metadata !! "__proto__" = None →
  encodeErrorInfo reason domain metadata = Ok enc →
  parseErrorInfo enc = Ok (errorInfo reason domain metadata).
Proof.
  intros Hproto Henc. rewrite (parseErrorInfo_normalizes _ _ _ _ Henc).
  by rewrite delete_id.
Qed.

Lemma parseRetryInfo_normalizes retryDelaySeconds (enc : list byte) :
  encodeRetryInfo retryDelaySeconds = Ok enc →
  parseRetryInfo enc = Ok (retryInfo (Z.max 0 retryDelaySeconds)).
Proof.
  unfold encodeRetryInfo, parseRetryInfo.
  destruct (Z.ltb_spec 0 retryDelaySeconds) as [Hpos|Hzero].
  - intros Henc. rewrite Z.max_r by lia. fields_start.
    match goal with
    | |- context [R.fields ?b _ _] =>
        rewrite (fields_write_bytes b ltac:(solve_reader) 1
                   (encodeDuration retryDelaySeconds) 0%Z retryDelaySeconds enc []
                   ltac:(done) ltac:(done) Henc)
    end; [ done | ].
    intros inner chunk buf Hinner Hchunk. cbn.
    rewrite (bytes_roundtrip _ _ _ Hchunk). cbn.
    unfold encodeDuration in Hinner. apply fmap_Ok in Hinner as (seconds & Hs & ->).
    unfold parseDuration. rewrite fields_tag by (solve_reader || done). cbn.
    rewrite <- (app_nil_r seconds).
    by rewrite (int64_roundtrip _ _ _ Hs).
  - intros [= <-]. by rewrite Z.max_l by lia.
Qed.

Lemma parseRetryInfo_roundtrip retryDelaySeconds (enc : list byte) :
  (0 ≤ retryDelaySeconds)%Z →
  encodeRetryInfo retryDelaySeconds = Ok enc →
  parseRetryInfo enc = Ok (retryInfo retryDelaySeconds).
Proof.
  intros Hnonneg Henc. rewrite (parseRetryInfo_normalizes _ _ Henc).
  by rewrite Z.max_r by done.
Qed.

(** ** Round trips of [Any] and of the status envelope *)

Lemma parseAny_roundtrip (any : Any) (enc : list byte) :
  encodeAny any = Ok enc → parseAny enc = Ok any.
Proof.
  destruct any as [t v]. unfold parseAny, encodeAny. simpl. intros Henc.
  apply bind_Ok in Henc as (f1 & H1 & Henc).
  apply bind_Ok in Henc as (f2 & H2 & Henc). injection Henc as <-.
  fields_start.
  fields_string (mkAny t []).
  case_decide as Hv.
  - match goal with
    | |- context [R.fields ?b _ _] =>
        rewrite (fields_write_bytes b ltac:(solve_reader) 2 (Ok v) (mkAny t [])
                   (mkAny t v) f2 [] ltac:(done) ltac:(done) H2)
    end; [ done | ].
    intros inner chunk buf [= <-] Hchunk. cbn.
    by rewrite (bytes_roundtrip _ _ _ Hchunk).
  - injection H2 as <-. destruct v; [ done | simpl in Hv; lia ].
Qed.

Lemma fold_left_status_details code message (details acc : list Any) :
  fold_left (λ st a, mkStatus (status_code st) (status_message st)
                       (status_details st ++ [a])) details
    (mkStatus code message acc)
  = mkStatus code message (acc ++ details).
Proof.
  revert acc. induction details as [|a l IH]; intros acc; simpl.
  - by rewrite app_nil_r.
  - by rewrite IH, <- app_assoc.
Qed.

(** The status envelope, read over a status already held. *)
Section status_fields.

Abbreviation status_body :=
  (λ (fieldNo : N) (wireType : WireType) (status : Status),
     match fieldNo with
     | 1 => varint_field wireType R.int32
              (λ c, mkStatus c (status_message status) (status_details status)) status
     | 2 => string_field wireType
              (λ s, mkStatus (status_code status) s (status_details status)) status
     | 3 => bytes_field wireType parseAny
              (λ a, mkStatus (status_code status) (status_message status)
                      (status_details status ++ [a])) status
     | _ => skip_field wireType status
     end).

Lemma status_body_shrinks : ∀ f w st, shrinks (status_body f w st).
Proof. solve_reader. Qed.

Lemma parseStatus_fields (st s : Status) (d rest : list byte) :
  encodeStatus s = Ok d →
  R.fields status_body st (d ++ rest) = R.fields status_body (merge_status st s) rest.
Proof.
  destruct st as [code0 message0 details0]. destruct s as [code message details].
  unfold encodeStatus, merge_status. cbn [status_code status_message status_details].
  intros Henc.
  apply bind_Ok in Henc as (f1 & H1 & Henc).
  apply bind_Ok in Henc as (f2 & H2 & Henc).
  apply bind_Ok in Henc as (f3 & H3 & Henc). injection Henc as <-.
  rewrite <- !app_assoc.
  assert (Htail : ∀ c,
    R.fields status_body (mkStatus c message0 details0) (f2 ++ f3 ++ rest)
    = R.fields status_body
        (mkStatus c (if truthy message then message else message0)
           (details0 ++ details)) rest).
  { intros c.
    rewrite (fields_string_if status_body status_body_shrinks 2 message
               (mkStatus c message0 details0)
               (mkStatus c (if truthy message then message else message0) details0)
               f2 _ ltac:(done) ltac:(done) H2).
    - rewrite (fields_write_all status_body _
                 (λ st a, mkStatus (status_code st) (status_message st)
                            (status_details st ++ [a])) details _ f3 rest H3).
      + by rewrite fold_left_status_details.
      + intros st a b buf Hb.
        apply (fields_write_bytes status_body status_body_shrinks 3 (encodeAny a)
                 st _ b buf ltac:(done) ltac:(done) Hb).
        intros inner chunk buf' Hinner Hchunk. cbn.
        rewrite (bytes_roundtrip _ _ _ Hchunk). cbn.
        by rewrite (parseAny_roundtrip _ _ Hinner).
    - intros Hm chunk buf Hchunk. cbn. rewrite (string_roundtrip _ _ _ Hchunk).
      by rewrite Hm.
    - by intros ->. }
  case_decide as Hcode.
  - apply fmap_Ok in H1 as (enc & Henc & ->). rewrite <- app_assoc.
    rewrite fields_tag by (apply status_body_shrinks || done). cbn.
    rewrite (int32_roundtrip _ _ _ Henc). cbn. apply Htail.
  - injection H1 as <-. apply Htail.
Qed.

Lemma merge_status_initial (s : Status) : merge_status (mkStatus 0 "" []) s = s.
Proof.
  destruct s as [code message details]. unfold merge_status. simpl. f_equal.
  - case_decide as Hc; [ done | ]. destruct (decide (code = 0%Z)); [ done | by destruct Hc ].
  - by destruct message.
Qed.

End status_fields.

Lemma parseStatus_roundtrip (status : Status) (data : list byte) :
  encodeStatus status = Ok data → parseStatus data = Ok status.
Proof.
  intros Henc. unfold parseStatus. rewrite <- (app_nil_r data).
  by rewrite (parseStatus_fields _ status data [] Henc), merge_status_initial.
Qed.

(** ** [parseErrorDetail] after [encodeErrorDetail] *)

Lemma parseErrorDetail_unknown (any : Any) :
  typeUrl any ∉ type_urls →
  parseErrorDetail any = Ok (unknown (typeUrl any) (value any)).
Proof.
  intros Hurl. unfold parseErrorDetail. cbv zeta.
  repeat match goal with
  | |- context [String.eqb (typeUrl any) ?u] =>
      destruct (String.eqb_spec (typeUrl any) u) as [Heq|_];
      [ exfalso; apply Hurl; rewrite Heq; unfold type_urls; set_solver | ]
  end.
  done.
Qed.

(** An encoded detail is an [Any] under the type URL of its shape: the
    encoder leaves no detail out. *)
Lemma encodeErrorDetail_Some (detail : ErrorDetail) (encoded : option Any) :
  encodeErrorDetail detail = Ok encoded →
  ∃ any, encoded = Some any ∧ typeUrl any = type_url_of detail.
Proof.
  destruct detail; simpl; intros Henc;
    try (apply bind_Ok in Henc as (v & _ & Henc)); injection Henc as <-;
    by eexists.
Qed.

(** What decoding makes of an encoded detail of one of the ten shapes: the
    detail, with a retry delay below zero taken for zero and without a
    metadata entry named [__proto__]. *)
Lemma parseErrorDetail_normalizes (detail : ErrorDetail) (any : Any) :
  recognized detail →
  encodeErrorDetail detail = Ok (Some any) →
  parseErrorDetail any = Ok (normalized detail).
Proof.
  destruct detail; simpl; intros Hr Henc; try done;
    apply bind_Ok in Henc as (v & Hv & Henc); injection Henc as <-; cbn.
  - by apply parseLocalizedMessage_roundtrip.
  - by apply parseBadRequest_roundtrip.
  - by apply parseDebugInfo_roundtrip.
  - by apply parseErrorInfo_normalizes.
  - by apply parseRetryInfo_normalizes.
  - by apply parseQuotaFailure_roundtrip.
  - by apply parsePreconditionFailure_roundtrip.
  - by apply parseRequestInfo_roundtrip.
  - by apply parseResourceInfo_roundtrip.
  - by apply parseHelp_roundtrip.
Qed.

Lemma normalized_carried (detail : ErrorDetail) :
  carried detail → normalized detail = detail.
Proof.
  destruct detail; simpl; try done.
  - intros Hproto. by rewrite delete_id.
  - intros [Hlo _]. by rewrite Z.max_r.
Qed.

Lemma parseErrorDetail_encodeErrorDetail (detail : ErrorDetail) (any : Any) :
  carried detail →
  encodeErrorDetail detail = Ok (Some any) →
  parseErrorDetail any = Ok detail.
Proof.
  intros Hc Henc.
  assert (Hcases : recognized detail ∨ ∃ t v, detail = unknown t v).
  { destruct detail; try (by left). right. by do 2 eexists. }
  destruct Hcases as [Hr|(t & v & ->)].
  - rewrite (parseErrorDetail_normalizes detail any Hr Henc).
    by rewrite normalized_carried.
  - simpl in Hc, Henc. injection Henc as <-. by apply parseErrorDetail_unknown.
Qed.

Lemma encode_details_roundtrip (details : list ErrorDetail) (anys : list Any) :
  Forall carried details →
  encode_details details = Ok anys →
  map_result parseErrorDetail anys = Ok details.
Proof.
  intros Hc. revert anys.
  induction Hc as [|detail details Hd _ IH]; intros anys; simpl.
  - by intros [= <-].
  - intros Henc. apply bind_Ok in Henc as (encoded & He & Henc).
    apply bind_Ok in Henc as (rest & Hrest & Henc). injection Henc as <-.
    destruct (encodeErrorDetail_Some _ _ He) as (any & -> & _). simpl.
    rewrite (parseErrorDetail_encodeErrorDetail detail any Hd He). simpl.
    by rewrite (IH rest Hrest).
Qed.

Lemma encode_details_urls (details : list ErrorDetail) (anys : list Any) :
  encode_details details = Ok anys →
  map typeUrl anys = map type_url_of details.
Proof.
  revert anys. induction details as [|detail details IH]; intros anys; simpl.
  - by intros [= <-].
  - intros Henc. apply bind_Ok in Henc as (encoded & He & Henc).
    apply bind_Ok in Henc as (rest & Hrest & Henc). injection Henc as <-.
    destruct (encodeErrorDetail_Some _ _ He) as (any & -> & Hurl). simpl.
    by rewrite Hurl, (IH rest Hrest).
Qed.

Lemma decodeGrpcStatus_encodeGrpcStatus (error : GrpcError) (data : list byte) :
  Forall carried (error_details error) →
  encodeGrpcStatus error = Ok data →
  decodeGrpcStatus data
  = Ok (mkDecodedGrpcStatus (ERROR_TO_GRPC_CODE (error_class error))
          (error_message error) (localizedMessage_of error) (error_details error)).
Proof.
  intros Hc Henc. unfold encodeGrpcStatus in Henc.
  apply bind_Ok in Henc as (anys & Hanys & Henc).
  unfold decodeGrpcStatus. rewrite (parseStatus_roundtrip _ _ Henc). simpl.
  by rewrite (encode_details_roundtrip _ _ Hc Hanys).
Qed.

(** ** The parsers come to an end

    None of the parsers runs out of its budget, whatever the bytes: a failure
    of a parser is a throw. *)

Lemma bind_halts {A B : Type} (m : result A) (f : A → result B) :
  m ≠ Diverge → (∀ a, f a ≠ Diverge) → m ≫= f ≠ Diverge.
Proof. intros Hm Hf. destruct m; simpl; [ apply Hf | done | done ]. Qed.

Ltac solve_halts :=
  intros;
  repeat first
    [ apply bind_halts; [ | by intros; repeat case_match ]
    | apply fields_halts; [ solve_reader | solve_reader ] ].

Lemma parseAny_halts data : parseAny data ≠ Diverge.
Proof. unfold parseAny. solve_halts. Qed.
#[global] Hint Resolve parseAny_halts : reader.

Lemma parseStatus_halts data : parseStatus data ≠ Diverge.
Proof. unfold parseStatus. solve_halts. Qed.

Lemma parseLocalizedMessage_halts data : parseLocalizedMessage data ≠ Diverge.
Proof. unfold parseLocalizedMessage. solve_halts. Qed.

Lemma parseFieldViolation_halts data : parseFieldViolation data ≠ Diverge.
Proof. unfold parseFieldViolation. solve_halts. Qed.
#[global] Hint Resolve parseFieldViolation_halts : reader.

Lemma parseBadRequest_halts data : parseBadRequest data ≠ Diverge.
Proof. unfold parseBadRequest. solve_halts. Qed.

Lemma parseDebugInfo_halts data : parseDebugInfo data ≠ Diverge.
Proof. unfold parseDebugInfo. solve_halts. Qed.

Lemma parseMapEntry_halts data : parseMapEntry data ≠ Diverge.
Proof. unfold parseMapEntry. solve_halts. Qed.
#[global] Hint Resolve parseMapEntry_halts : reader.

Lemma parseErrorInfo_halts data : parseErrorInfo data ≠ Diverge.
Proof. unfold parseErrorInfo. solve_halts. Qed.

Lemma parseDuration_halts seconds data : parseDuration seconds data ≠ Diverge.
Proof. unfold parseDuration. solve_halts. Qed.
#[global] Hint Resolve parseDuration_halts : reader.

Lemma parseRetryInfo_halts data : parseRetryInfo data ≠ Diverge.
Proof. unfold parseRetryInfo. solve_halts. Qed.

Lemma parseQuotaViolation_halts data : parseQuotaViolation data ≠ Diverge.
Proof. unfold parseQuotaViolation. solve_halts. Qed.
#[global] Hint Resolve parseQuotaViolation_halts : reader.

Lemma parseQuotaFailure_halts data : parseQuotaFailure data ≠ Diverge.
Proof. unfold parseQuotaFailure. solve_halts. Qed.

Lemma parsePreconditionViolation_halts data : parsePreconditionViolation data ≠ Diverge.
Proof. unfold parsePreconditionViolation. solve_halts. Qed.
#[global] Hint Resolve parsePreconditionViolation_halts : reader.

Lemma parsePreconditionFailure_halts data : parsePreconditionFailure data ≠ Diverge.
Proof. unfold parsePreconditionFailure. solve_halts. Qed.

Lemma parseRequestInfo_halts data : parseRequestInfo data ≠ Diverge.
Proof. unfold parseRequestInfo. solve_halts. Qed.

Lemma parseResourceInfo_halts data : parseResourceInfo data ≠ Diverge.
Proof. unfold parseResourceInfo. solve_halts. Qed.

Lemma parseHelpLink_halts data : parseHelpLink data ≠ Diverge.
Proof. unfold parseHelpLink. solve_halts. Qed.
#[global] Hint Resolve parseHelpLink_halts : reader.

Lemma parseHelp_halts data : parseHelp data ≠ Diverge.
Proof. unfold parseHelp. solve_halts. Qed.

Lemma parseErrorDetail_halts any : parseErrorDetail any ≠ Diverge.
Proof.
  unfold parseErrorDetail. cbv zeta.
  repeat case_match;
    auto using parseLocalizedMessage_halts, parseBadRequest_halts, parseDebugInfo_halts,
      parseErrorInfo_halts, parseRetryInfo_halts, parseQuotaFailure_halts,
      parsePreconditionFailure_halts, parseRequestInfo_halts, parseResourceInfo_halts,
      parseHelp_halts.
Qed.

Lemma map_result_halts {A B : Type} (f : A → result B) (l : list A) :
  (∀ a, f a ≠ Diverge) → map_result f l ≠ Diverge.
Proof.
  intros Hf. induction l as [|a l IH]; simpl; [ done | ].
  apply bind_halts; [ done | ]. intros b. apply bind_halts; [ done | done ].
Qed.

Lemma decodeGrpcStatus_halts data : decodeGrpcStatus data ≠ Diverge.
Proof.
  unfold decodeGrpcStatus. apply bind_halts; [ apply parseStatus_halts | ].
  intros status. apply bind_halts; [ | done ].
  apply map_result_halts, parseErrorDetail_halts.
Qed.
(** ** The error-mapping interceptor *)

Section error_interceptor.
Import ErrorInterceptor.
Variable decodeBase64 : string → option (list byte).

(** [parseRichErrorDetails] always returns a list of details: what the
    decoders throw is caught. *)
Lemma parseRichErrorDetails_ok (meta : RpcMetadata) :
  ∃ details, parseRichErrorDetails decodeBase64 meta
             = Ok (mkGrpcErrorOptions (Some details) None).
Proof.
  unfold parseRichErrorDetails.
  destruct (meta !! "grpc-status-details-bin") as [richError|]; [ | by eexists ].
  destruct (meta_falsy richError); [ by eexists | ].
  destruct (decodeBase64 (meta_as_string richError)) as [binary|]; simpl;
    [ | by eexists ].
  pose proof (decodeGrpcStatus_halts binary) as Hh.
  destruct (decodeGrpcStatus binary); simpl; [ by eexists | by eexists | done ].
Qed.

Lemma parseRichErrorDetails_unusable (meta : RpcMetadata) :
  details_unusable decodeBase64 meta →
  parseRichErrorDetails decodeBase64 meta = Ok (mkGrpcErrorOptions (Some []) None).
Proof.
  unfold details_unusable, parseRichErrorDetails.
  destruct (meta !! "grpc-status-details-bin") as [richError|]; [ | done ].
  intros [-> | Hdec]; [ done | ].
  destruct (meta_falsy richError); [ done | ].
  destruct (decodeBase64 (meta_as_string richError)) as [binary|]; simpl; [ | done ].
  by rewrite Hdec.
Qed.

(** Replacing the trace leaves the rest of the error as it is. *)
Lemma applyCallSiteStack_fields (error : GrpcError) (callSiteStack : option string) :
  let error' := applyCallSiteStack error callSiteStack in
  error_ref error' = error_ref error
  ∧ error_class error' = error_class error
  ∧ error_name error' = error_name error
  ∧ error_message error' = error_message error
  ∧ error_details error' = error_details error
  ∧ error_cause error' = error_cause error.
Proof.
  unfold applyCallSiteStack. destruct callSiteStack as [stack|]; [ | done ].
  by destruct (truthy stack).
Qed.

(** The [switch] of [mapRpcError] selects the constructor of the kind the
    table of the specification gives, and that constructor passes the fixed
    message of the kind. *)
Lemma error_for_code_spec (code : string) :
  error_for_code code
  = new_GrpcError (spec_kind code) (spec_message (spec_kind code)).
Proof.
  unfold error_for_code, spec_kind.
  repeat match goal with
  | |- context [String.eqb code ?c] =>
      destruct (String.eqb_spec code c) as [ -> | ? ]; [ done | ]
  end.
  unfold GrpcStatusCode.CANCELLED, GrpcStatusCode.ABORTED,
    GrpcStatusCode.UNAUTHENTICATED, GrpcStatusCode.UNAVAILABLE,
    GrpcStatusCode.ALREADY_EXISTS, GrpcStatusCode.NOT_FOUND,
    GrpcStatusCode.INVALID_ARGUMENT, GrpcStatusCode.FAILED_PRECONDITION,
    GrpcStatusCode.DEADLINE_EXCEEDED, GrpcStatusCode.PERMISSION_DENIED in *.
  repeat (case_decide; [ by intuition | ]). done.
Qed.

(** The wire error of a call that was not aborted. *)
Lemma mapRpcError_wire (e : RpcError) (abort : option bool) (onError : bool)
    (callSiteStack : option string) (h : Heap) :
  aborted abort = false →
  ∃ details,
    parseRichErrorDetails decodeBase64 (rpc_meta e)
    = Ok (mkGrpcErrorOptions (Some details) None)
    ∧ let error := applyCallSiteStack
                     (mkGrpcError (next_ref h) (spec_kind (rpc_code e))
                        (class_name (spec_kind (rpc_code e)))
                        (spec_message (spec_kind (rpc_code e))) details (Some e) None)
                     callSiteStack in
      mapRpcError decodeBase64 (VRpcError e) abort onError callSiteStack h
      = Ok (VGrpcError error,
            call_onError onError error (mkHeap (S (next_ref h)) (onError_calls h))).
Proof.
  intros Hab. destruct (parseRichErrorDetails_ok (rpc_meta e)) as [details Hd].
  exists details. split; [ done | ].
  unfold mapRpcError. rewrite Hab, Hd. simpl.
  by rewrite error_for_code_spec.
Qed.

(** The wire error of a call whose abort signal is set. *)
Lemma mapRpcError_aborted (e : RpcError) (abort : option bool) (onError : bool)
    (callSiteStack : option string) (h : Heap) :
  aborted abort = true →
  let error := applyCallSiteStack
                 (mkGrpcError (next_ref h) AbortedError "AbortedError"
                    "Aborted by client" [] None None) callSiteStack in
  mapRpcError decodeBase64 (VRpcError e) abort onError callSiteStack h
  = Ok (VGrpcError error,
        call_onError onError error (mkHeap (S (next_ref h)) (onError_calls h))).
Proof. intros Hab. unfold mapRpcError. by rewrite Hab. Qed.

(** The error of an aborted call, field by field. *)
Lemma mapRpcError_aborted_fields (e : RpcError) (abort : option bool)
    (onError : bool) (callSiteStack : option string) (h : Heap) :
  aborted abort = true →
  ∃ error h',
    mapRpcError decodeBase64 (VRpcError e) abort onError callSiteStack h
    = Ok (VGrpcError error, h')
    ∧ error_class error = AbortedError
    ∧ error_message error = "Aborted by client"
    ∧ error_details error = []
    ∧ error_cause error = None.
Proof.
  intros Hab. rewrite mapRpcError_aborted by done. do 2 eexists. split; [ done | ].
  pose proof (applyCallSiteStack_fields
                (mkGrpcError (next_ref h) AbortedError "AbortedError"
                   "Aborted by client" [] None None) callSiteStack) as Hf.
  cbv zeta in Hf. by destruct Hf as (_ & -> & _ & -> & -> & ->).
Qed.

(** [mapRpcError] returns an error, whatever it is given. *)
Lemma mapRpcError_ok (e : JsValue) (abort : option bool) (onError : bool)
    (callSiteStack : option string) (h : Heap) :
  ∃ error h', mapRpcError decodeBase64 e abort onError callSiteStack h = Ok (error, h').
Proof.
  destruct e as [e|g|ref|ref]; [ | by do 2 eexists.. ].
  destruct (aborted abort) eqn:Hab.
  - rewrite mapRpcError_aborted by done. by do 2 eexists.
  - destruct (mapRpcError_wire e abort onError callSiteStack h Hab) as [d [_ ->]].
    by do 2 eexists.
Qed.
End error_interceptor.

(** ** The claims on the mapping of wire errors *)

Section error_mapping_claims.
Import ErrorInterceptor.
Variable decodeBase64 : string → option (list byte).

(** C5. For a wire error of a call whose abort signal is not active,
    [mapRpcError] returns a typed error whose class is the kind the table
    of the specification gives for the wire status code, and whose message
    is the fixed message of that kind. *)
Theorem status_code_to_kind (e : RpcError) (abort : option bool) (onError : bool)
    (callSiteStack : option string) (h : Heap) :
  aborted abort = false →
  ∃ error h',
    mapRpcError decodeBase64 (VRpcError e) abort onError callSiteStack h
    = Ok (VGrpcError error, h')
    ∧ error_class error = spec_kind (rpc_code e)
    ∧ error_message error = spec_message (spec_kind (rpc_code e)).
Proof.
  intros Hab.
  destruct (mapRpcError_wire decodeBase64 e abort onError callSiteStack h Hab)
    as [details [_ Hmap]].
  cbv zeta in Hmap. rewrite Hmap. do 2 eexists. split; [ done | ].
  pose proof (applyCallSiteStack_fields
                (mkGrpcError (next_ref h) (spec_kind (rpc_code e))
                   (class_name (spec_kind (rpc_code e)))
                   (spec_message (spec_kind (rpc_code e))) details (Some e) None)
                callSiteStack) as Hf.
  cbv zeta in Hf. by destruct Hf as (_ & -> & _ & -> & _).
Qed.

(** C6. For a wire error of a call whose abort signal is active,
    [mapRpcError] returns an error of class [AbortedError], whatever the
    wire status code. *)
Theorem aborted_signal_forces_aborted (e : RpcError) (abort : option bool)
    (onError : bool) (callSiteStack : option string) (h : Heap) :
  aborted abort = true →
  ∃ error h',
    mapRpcError decodeBase64 (VRpcError e) abort onError callSiteStack h
    = Ok (VGrpcError error, h')
    ∧ error_class error = AbortedError
    ∧ error_message error = "Aborted by client".
Proof.
  intros Hab.
  destruct (mapRpcError_aborted_fields decodeBase64 e abort onError callSiteStack h Hab)
    as (error & h' & Hmap & Hc & Hm & _).
  by exists error, h'.
Qed.

(** C10. For a wire error of a call whose abort signal is active, the
    error [mapRpcError] returns has an empty list of details and no cause,
    whatever metadata the wire error carries: the header of the status
    details is not looked at. *)
Theorem aborted_error_has_no_details (e : RpcError) (abort : option bool)
    (onError : bool) (callSiteStack : option string) (h : Heap) :
  aborted abort = true →
  ∃ error h',
    mapRpcError decodeBase64 (VRpcError e) abort onError callSiteStack h
    = Ok (VGrpcError error, h')
    ∧ error_details error = []
    ∧ error_cause error = None.
Proof.
  intros Hab.
  destruct (mapRpcError_aborted_fields decodeBase64 e abort onError callSiteStack h Hab)
    as (error & h' & Hmap & _ & _ & Hd & Hc).
  by exists error, h'.
Qed.

(** C8. For a wire error whose metadata has no usable header of status
    details (the header is absent, or the base64 decoder or the status
    decoder throws on it), [mapRpcError] returns normally, with a typed
    error whose list of details is empty. *)
Theorem unusable_details_give_no_details (e : RpcError) (abort : option bool)
    (onError : bool) (callSiteStack : option string) (h : Heap) :
  details_unusable decodeBase64 (rpc_meta e) →
  ∃ error h',
    mapRpcError decodeBase64 (VRpcError e) abort onError callSiteStack h
    = Ok (VGrpcError error, h')
    ∧ error_details error = [].
Proof.
  intros Hun. destruct (aborted abort) eqn:Hab.
  - destruct (mapRpcError_aborted_fields decodeBase64 e abort onError callSiteStack h Hab)
      as (error & h' & Hmap & _ & _ & Hd & _).
    by exists error, h'.
  - destruct (mapRpcError_wire decodeBase64 e abort onError callSiteStack h Hab)
      as [details [Hparse Hmap]].
    rewrite (parseRichErrorDetails_unusable decodeBase64 _ Hun) in Hparse.
    injection Hparse as <-.
    cbv zeta in Hmap. rewrite Hmap. do 2 eexists. split; [ done | ].
    pose proof (applyCallSiteStack_fields
                  (mkGrpcError (next_ref h) (spec_kind (rpc_code e))
                     (class_name (spec_kind (rpc_code e)))
                     (spec_message (spec_kind (rpc_code e))) [] (Some e) None)
                  callSiteStack) as Hf.
    cbv zeta in Hf. by destruct Hf as (_ & _ & _ & _ & -> & _).
Qed.
End error_mapping_claims.

(** ** The deferreds of the error-mapping hooks *)

Section error_hooks.
Import ErrorInterceptor.
Variable decodeBase64 : string → option (list byte).
Context {I O : Type}.
Variables (config : ErrorInterceptorConfig) (options : RpcOptions)
  (callSiteStack : option string).

Lemma map_settlement_ok {V : Type} (p : Settlement V) (h : Heap) :
  ∃ d h', map_settlement decodeBase64 config options callSiteStack p h = Ok (d, h').
Proof.
  destruct p as [|v|e]; simpl; [ by do 2 eexists.. | ].
  destruct (mapRpcError_ok decodeBase64 e (abort options) (onError config)
              callSiteStack h) as (error & h' & ->).
  simpl. by do 2 eexists.
Qed.

Lemma forward_responses_ok (events : list (StreamEvent O)) (h : Heap) :
  ∃ events' h',
    forward_responses decodeBase64 config options callSiteStack events h
    = Ok (events', h').
Proof.
  revert h. induction events as [|event events IH]; intros h; simpl.
  - by do 2 eexists.
  - destruct event as [m|e|].
    + simpl. destruct (IH h) as (ev & h' & ->). simpl. by do 2 eexists.
    + destruct (mapRpcError_ok decodeBase64 e (abort options) (onError config)
                  callSiteStack h) as (error & h1 & ->).
      simpl. destruct (IH h1) as (ev & h' & ->). simpl. by do 2 eexists.
    + simpl. destruct (IH h) as (ev & h' & ->). simpl. by do 2 eexists.
Qed.

Abbreviation deferreds_follow :=
  (deferreds_follow decodeBase64 config options callSiteStack).

Lemma settle_client_follows (call : ClientStreamingCall O) (channel : Channel)
    (d : ClientDeferreds O) (h : Heap) :
  deferreds_follow call d →
  ∃ d' h', settle_client decodeBase64 config options callSiteStack call channel d h
           = Ok (d', h')
           ∧ deferreds_follow call d'.
Proof.
  intros (Hh & Hr & Hs & Ht).
  destruct channel; simpl.
  - destruct (headersDeferred d) eqn:Hd; [ | exists d, h; split; [ done | repeat split; by rewrite ?Hd ].. ].
    destruct (map_settlement_ok (client_headers call) h) as (p & h' & Hp).
    rewrite Hp. simpl. do 2 eexists. split; [ done | ].
    repeat split; simpl; try done. right. by exists h, h'.
  - destruct (responseDeferred d) eqn:Hd; [ | exists d, h; split; [ done | repeat split; by rewrite ?Hd ].. ].
    destruct (map_settlement_ok (client_response call) h) as (p & h' & Hp).
    rewrite Hp. simpl. do 2 eexists. split; [ done | ].
    repeat split; simpl; try done. right. by exists h, h'.
  - destruct (statusDeferred d) eqn:Hd; [ | exists d, h; split; [ done | repeat split; by rewrite ?Hd ].. ].
    destruct (map_settlement_ok (client_status call) h) as (p & h' & Hp).
    rewrite Hp. simpl. do 2 eexists. split; [ done | ].
    repeat split; simpl; try done. right. by exists h, h'.
  - destruct (trailersDeferred d) eqn:Hd; [ | exists d, h; split; [ done | repeat split; by rewrite ?Hd ].. ].
    destruct (map_settlement_ok (client_trailers call) h) as (p & h' & Hp).
    rewrite Hp. simpl. do 2 eexists. split; [ done | ].
    repeat split; simpl; try done. right. by exists h, h'.
Qed.

Lemma settle_client_all_follows (call : ClientStreamingCall O) (order : list Channel)
    (d : ClientDeferreds O) (h : Heap) :
  deferreds_follow call d →
  ∃ d' h', settle_client_all decodeBase64 config options callSiteStack call order d h
           = Ok (d', h')
           ∧ deferreds_follow call d'.
Proof.
  revert d h. induction order as [|channel order IH]; intros d h Hd; simpl.
  - by exists d, h.
  - destruct (settle_client_follows call channel d h Hd) as (d1 & h1 & -> & Hd1).
    simpl. by apply IH.
Qed.

Lemma deferreds_follow_init (call : ClientStreamingCall O) :
  deferreds_follow call (mkClientDeferreds Pending Pending Pending Pending).
Proof. repeat split; by left. Qed.

(** A wire error is mapped to a new instance: its reference is the next
    free one.  No mapping gives a reference back. *)
Lemma mapRpcError_wire_ref (e : RpcError) (h : Heap) (v : JsValue) (h' : Heap) :
  mapRpcError decodeBase64 (VRpcError e) (abort options) (onError config)
    callSiteStack h = Ok (v, h') →
  ∃ error, v = VGrpcError error
           ∧ error_ref error = next_ref h
           ∧ next_ref h' = S (next_ref h).
Proof.
  destruct (aborted (abort options)) eqn:Hab.
  - rewrite mapRpcError_aborted by done. intros [= <- <-].
    eexists. split; [ done | ].
    pose proof (applyCallSiteStack_fields
                  (mkGrpcError (next_ref h) AbortedError "AbortedError"
                     "Aborted by client" [] None None) callSiteStack) as Hf.
    cbv zeta in Hf. destruct Hf as (-> & _). split; [ done | ].
    unfold call_onError. by destruct (onError config).
  - destruct (mapRpcError_wire decodeBase64 e (abort options) (onError config)
                callSiteStack h Hab) as [details [_ Hmap]].
    cbv zeta in Hmap. rewrite Hmap. intros [= <- <-].
    eexists. split; [ done | ].
    pose proof (applyCallSiteStack_fields
                  (mkGrpcError (next_ref h) (spec_kind (rpc_code e))
                     (class_name (spec_kind (rpc_code e)))
                     (spec_message (spec_kind (rpc_code e))) details (Some e) None)
                  callSiteStack) as Hf.
    cbv zeta in Hf. destruct Hf as (-> & _). split; [ done | ].
    unfold call_onError. by destruct (onError config).
Qed.

Lemma mapRpcError_next_ref (e : JsValue) (h : Heap) (v : JsValue) (h' : Heap) :
  mapRpcError decodeBase64 e (abort options) (onError config) callSiteStack h
  = Ok (v, h') →
  (next_ref h ≤ next_ref h')%nat.
Proof.
  destruct e as [e|g|ref|ref].
  - intros (error & _ & _ & ->)%mapRpcError_wire_ref. lia.
  - by intros [= _ <-].
  - by intros [= _ <-].
  - simpl. intros [= _ <-]. simpl. lia.
Qed.

(** What a step of the settlement does to the references: the heap does
    not shrink, the other channels keep theirs, and the channel of the step
    keeps its own or takes the next free one. *)
Lemma map_settlement_ref {V : Type} (p : Settlement V) (h : Heap)
    (d : Settlement V) (h' : Heap) :
  map_settlement decodeBase64 config options callSiteStack p h = Ok (d, h') →
  (next_ref h ≤ next_ref h')%nat
  ∧ (mapped_ref p d = None
     ∨ (mapped_ref p d = Some (next_ref h) ∧ next_ref h' = S (next_ref h))).
Proof.
  destruct p as [|v|e]; simpl.
  - intros [= <- <-]. split; [ done | by left ].
  - intros [= <- <-]. split; [ done | by left ].
  - destruct (mapRpcError decodeBase64 e (abort options) (onError config)
                callSiteStack h) as [[error h1]| |] eqn:Hmap; simpl; [ | done | done ].
    intros [= <- <-]. split; [ by eapply mapRpcError_next_ref | ].
    destruct e as [e|g|ref|ref]; [ | by left.. ].
    apply mapRpcError_wire_ref in Hmap as (g & -> & Href & Hnext).
    right. by rewrite Href.
Qed.

Lemma mapped_ref_pending {V : Type} (p : Settlement V) : mapped_ref p Pending = None.
Proof. by destruct p as [|v|[]]. Qed.

Lemma settle_client_refs (call : ClientStreamingCall O) (channel : Channel)
    (d : ClientDeferreds O) (h : Heap) (d' : ClientDeferreds O) (h' : Heap) :
  settle_client decodeBase64 config options callSiteStack call channel d h
  = Ok (d', h') →
  (next_ref h ≤ next_ref h')%nat
  ∧ (∀ c, c ≠ channel → deferred_ref call d' c = deferred_ref call d c)
  ∧ (deferred_ref call d' channel = deferred_ref call d channel
     ∨ (deferred_ref call d' channel = Some (next_ref h)
        ∧ next_ref h' = S (next_ref h))).
Proof.
  destruct channel; simpl.
  - destruct (headersDeferred d) eqn:Hd;
      [ | intros [= <- <-]; repeat split; first [ lia | done | by left; rewrite Hd ].. ].
    destruct (map_settlement decodeBase64 config options callSiteStack
                (client_headers call) h) as [[p h1]| |] eqn:Hp; simpl; [ | done | done ].
    intros [= <- <-]. apply map_settlement_ref in Hp as [Hle Href]. simpl.
    rewrite mapped_ref_pending. split; [ done | ].
    split; [ by intros [] | ]. destruct Href as [ -> | Href ]; [ by left | by right ].
  - destruct (responseDeferred d) eqn:Hd;
      [ | intros [= <- <-]; repeat split; first [ lia | done | by left; rewrite Hd ].. ].
    destruct (map_settlement decodeBase64 config options callSiteStack
                (client_response call) h) as [[p h1]| |] eqn:Hp; simpl; [ | done | done ].
    intros [= <- <-]. apply map_settlement_ref in Hp as [Hle Href]. simpl.
    rewrite mapped_ref_pending. split; [ done | ].
    split; [ by intros [] | ]. destruct Href as [ -> | Href ]; [ by left | by right ].
  - destruct (statusDeferred d) eqn:Hd;
      [ | intros [= <- <-]; repeat split; first [ lia | done | by left; rewrite Hd ].. ].
    destruct (map_settlement decodeBase64 config options callSiteStack
                (client_status call) h) as [[p h1]| |] eqn:Hp; simpl; [ | done | done ].
    intros [= <- <-]. apply map_settlement_ref in Hp as [Hle Href]. simpl.
    rewrite mapped_ref_pending. split; [ done | ].
    split; [ by intros [] | ]. destruct Href as [ -> | Href ]; [ by left | by right ].
  - destruct (trailersDeferred d) eqn:Hd;
      [ | intros [= <- <-]; repeat split; first [ lia | done | by left; rewrite Hd ].. ].
    destruct (map_settlement decodeBase64 config options callSiteStack
                (client_trailers call) h) as [[p h1]| |] eqn:Hp; simpl; [ | done | done ].
    intros [= <- <-]. apply map_settlement_ref in Hp as [Hle Href]. simpl.
    rewrite mapped_ref_pending. split; [ done | ].
    split; [ by intros [] | ]. destruct Href as [ -> | Href ]; [ by left | by right ].
Qed.

(** The references in use stay fresh from one step to the next. *)
Lemma settle_client_fresh (call : ClientStreamingCall O) (channel : Channel)
    (d : ClientDeferreds O) (h : Heap) (d' : ClientDeferreds O) (h' : Heap) :
  settle_client decodeBase64 config options callSiteStack call channel d h
  = Ok (d', h') →
  refs_fresh call d h → refs_fresh call d' h'.
Proof.
  intros (Hle & Hother & Hthis)%settle_client_refs [Hbound Hdistinct].
  assert (Hbound' : ∀ c r, deferred_ref call d' c = Some r → (r < next_ref h')%nat).
  { intros c r Hc. destruct (decide (c = channel)) as [ -> | Hne ].
    - destruct Hthis as [Hsame | [Hnew Hnext]].
      + rewrite Hsame in Hc. apply Hbound in Hc. lia.
      + rewrite Hnew in Hc. injection Hc as <-. lia.
    - rewrite Hother in Hc by done. apply Hbound in Hc. lia. }
  split; [ done | ].
  assert (Hfresh : ∀ c r, c ≠ channel → deferred_ref call d' c = Some r →
                     deferred_ref call d' channel = Some r → False).
  { intros c r Hne Hc Hch. rewrite Hother in Hc by done.
    destruct Hthis as [Hsame | [Hnew Hnext]].
    - rewrite Hsame in Hch. by apply (Hdistinct c channel r).
    - rewrite Hnew in Hch. injection Hch as <-. apply Hbound in Hc. lia. }
  intros c1 c2 r Hne H1 H2.
  destruct (decide (c1 = channel)) as [ -> | Hne1 ];
    [ by apply (Hfresh c2 r) | ].
  destruct (decide (c2 = channel)) as [ -> | Hne2 ];
    [ by apply (Hfresh c1 r) | ].
  rewrite Hother in H1, H2 by done. by apply (Hdistinct c1 c2 r).
Qed.

Lemma settle_client_all_fresh (call : ClientStreamingCall O) (order : list Channel)
    (d : ClientDeferreds O) (h : Heap) (d' : ClientDeferreds O) (h' : Heap) :
  settle_client_all decodeBase64 config options callSiteStack call order d h
  = Ok (d', h') →
  refs_fresh call d h → refs_fresh call d' h'.
Proof.
  revert d h. induction order as [|channel order IH]; intros d h; simpl.
  - by intros [= <- <-].
  - destruct (settle_client decodeBase64 config options callSiteStack call channel d h)
      as [[d1 h1]| |] eqn:Hstep; simpl; [ | done | done ].
    intros Hrest Hfresh. apply (IH d1 h1 Hrest).
    by apply (settle_client_fresh call channel d h).
Qed.

Lemma refs_fresh_init (call : ClientStreamingCall O) (h : Heap) :
  refs_fresh call (mkClientDeferreds Pending Pending Pending Pending) h.
Proof.
  split.
  - intros c r. destruct c; simpl; by rewrite mapped_ref_pending.
  - intros c1 c2 r _. destruct c1; simpl; by rewrite mapped_ref_pending.
Qed.

(** The unary hook maps a failure once and rejects its four deferreds with
    the error it got. *)
Lemma interceptUnary_rejected (next : MethodInfo → I → RpcOptions → UnaryCall I O)
    (method : MethodInfo) (input : I) (h : Heap) (e : JsValue) :
  await_unary (next method input options) = Rejected e →
  ∃ error h',
    mapRpcError decodeBase64 e (abort options) (onError config) callSiteStack h
    = Ok (error, h')
    ∧ interceptUnary decodeBase64 config next method input options callSiteStack h
      = Ok (mkUnaryCall method (default ∅ (meta options)) input
              (Rejected error) (Rejected error) (Rejected error) (Rejected error),
            h').
Proof.
  intros Hawait.
  destruct (mapRpcError_ok decodeBase64 e (abort options) (onError config)
              callSiteStack h) as (error & h' & Hmap).
  exists error, h'. split; [ done | ].
  unfold interceptUnary. rewrite Hawait, Hmap. done.
Qed.

Lemma interceptClientStreaming_follows
    (next : MethodInfo → RpcOptions → ClientStreamingCall O)
    (method : MethodInfo) (order : list Channel) (h : Heap) :
  ∃ call h',
    interceptClientStreaming decodeBase64 config next method options callSiteStack
      order h = Ok (call, h')
    ∧ follows decodeBase64 config options callSiteStack
        (client_headers (next method options)) (client_headers call)
    ∧ follows decodeBase64 config options callSiteStack
        (client_response (next method options)) (client_response call)
    ∧ follows decodeBase64 config options callSiteStack
        (client_status (next method options)) (client_status call)
    ∧ follows decodeBase64 config options callSiteStack
        (client_trailers (next method options)) (client_trailers call)
    ∧ distinct_refs (client_ref (next method options) call).
Proof.
  unfold interceptClientStreaming.
  destruct (settle_client_all_follows (next method options) order _ h
              (deferreds_follow_init _)) as (d & h' & Hsettle & Hh & Hr & Hs & Ht).
  pose proof (settle_client_all_fresh _ _ _ _ _ _ Hsettle (refs_fresh_init _ _))
    as [_ Hdistinct].
  rewrite Hsettle. simpl. do 2 eexists. split; [ done | ].
  by repeat split.
Qed.

Lemma interceptDuplex_follows
    (next : MethodInfo → RpcOptions → DuplexStreamingCall O)
    (method : MethodInfo) (order : list Channel) (h : Heap) :
  ∃ call h',
    interceptDuplex decodeBase64 config next method options callSiteStack
      order h = Ok (call, h')
    ∧ follows decodeBase64 config options callSiteStack
        (duplex_headers (next method options)) (duplex_headers call)
    ∧ follows decodeBase64 config options callSiteStack
        (duplex_status (next method options)) (duplex_status call)
    ∧ follows decodeBase64 config options callSiteStack
        (duplex_trailers (next method options)) (duplex_trailers call)
    ∧ distinct_refs (duplex_ref (next method options) call).
Proof.
  unfold interceptDuplex.
  destruct (settle_client_all_follows (duplex_promises (next method options)) order
              _ h (deferreds_follow_init _))
    as (d & h1 & Hsettle & Hh & _ & Hs & Ht).
  pose proof (settle_client_all_fresh _ _ _ _ _ _ Hsettle (refs_fresh_init _ _))
    as [_ Hdistinct].
  rewrite Hsettle. simpl.
  destruct (forward_responses_ok (duplex_responses (next method options)) h1)
    as (events & h' & ->).
  simpl. do 2 eexists. split; [ done | ]. by repeat split.
Qed.

(** The handlers of a settled promise settle the deferred. *)
Lemma map_settlement_settles {V : Type} (p : Settlement V) (h : Heap)
    (d : Settlement V) (h' : Heap) :
  map_settlement decodeBase64 config options callSiteStack p h = Ok (d, h') →
  p ≠ Pending → d ≠ Pending.
Proof.
  destruct p as [|v|e]; simpl.
  - by intros _ [].
  - by intros [= <- _].
  - destruct (mapRpcError decodeBase64 e (abort options) (onError config)
                callSiteStack h) as [[error h1]| |]; simpl; [ | done | done ].
    by intros [= <- _].
Qed.

Lemma erase_settled {V : Type} (p : Settlement V) : erase p ≠ Pending ↔ p ≠ Pending.
Proof. by destruct p. Qed.

(** A step of the settlement leaves a settled deferred settled, and
    settles the deferred of its channel when the promise is. *)
Lemma settle_client_settles (call : ClientStreamingCall O) (channel : Channel)
    (d : ClientDeferreds O) (h : Heap) (d' : ClientDeferreds O) (h' : Heap) :
  settle_client decodeBase64 config options callSiteStack call channel d h
  = Ok (d', h') →
  (∀ c, deferred_view d c ≠ Pending → deferred_view d' c ≠ Pending)
  ∧ (promise_view call channel ≠ Pending → deferred_view d' channel ≠ Pending).
Proof.
  destruct channel; simpl.
  - destruct (headersDeferred d) eqn:Hd;
      [ | intros [= <- <-]; split; [ done | by rewrite Hd ].. ].
    destruct (map_settlement decodeBase64 config options callSiteStack
                (client_headers call) h) as [[p h1]| |] eqn:Hp; simpl; [ | done | done ].
    intros [= <- <-]. split.
    + intros c. destruct c; simpl; rewrite ?Hd; done.
    + rewrite !erase_settled. by eapply map_settlement_settles.
  - destruct (responseDeferred d) eqn:Hd;
      [ | intros [= <- <-]; split; [ done | by rewrite Hd ].. ].
    destruct (map_settlement decodeBase64 config options callSiteStack
                (client_response call) h) as [[p h1]| |] eqn:Hp; simpl; [ | done | done ].
    intros [= <- <-]. split.
    + intros c. destruct c; simpl; rewrite ?Hd; done.
    + rewrite !erase_settled. by eapply map_settlement_settles.
  - destruct (statusDeferred d) eqn:Hd;
      [ | intros [= <- <-]; split; [ done | by rewrite Hd ].. ].
    destruct (map_settlement decodeBase64 config options callSiteStack
                (client_status call) h) as [[p h1]| |] eqn:Hp; simpl; [ | done | done ].
    intros [= <- <-]. split.
    + intros c. destruct c; simpl; rewrite ?Hd; done.
    + rewrite !erase_settled. by eapply map_settlement_settles.
  - destruct (trailersDeferred d) eqn:Hd;
      [ | intros [= <- <-]; split; [ done | by rewrite Hd ].. ].
    destruct (map_settlement decodeBase64 config options callSiteStack
                (client_trailers call) h) as [[p h1]| |] eqn:Hp; simpl; [ | done | done ].
    intros [= <- <-]. split.
    + intros c. destruct c; simpl; rewrite ?Hd; done.
    + rewrite !erase_settled. by eapply map_settlement_settles.
Qed.

(** Once the handlers of a channel have run, the deferred of a settled
    promise is settled. *)
Lemma settle_client_all_settles (call : ClientStreamingCall O) (order : list Channel)
    (d : ClientDeferreds O) (h : Heap) (d' : ClientDeferreds O) (h' : Heap) :
  settle_client_all decodeBase64 config options callSiteStack call order d h
  = Ok (d', h') →
  ∀ c, (c ∈ order ∨ deferred_view d c ≠ Pending) →
       promise_view call c ≠ Pending → deferred_view d' c ≠ Pending.
Proof.
  revert d h. induction order as [|channel order IH]; intros d h; simpl.
  - intros [= <- <-] c [Hc | Hc] _; [ by apply elem_of_nil in Hc | done ].
  - destruct (settle_client decodeBase64 config options callSiteStack call channel d h)
      as [[d1 h1]| |] eqn:Hstep; simpl; [ | done | done ].
    intros Hrest c Hc Hp. apply settle_client_settles in Hstep as [Hkeep Hthis].
    apply (IH d1 h1 Hrest c); [ | done ].
    destruct Hc as [Hc | Hc]; [ | right; by apply Hkeep ].
    apply elem_of_cons in Hc as [ -> | Hc ]; [ right; by apply Hthis | by left ].
Qed.

(** A settled deferred that follows a promise rejected with a wire error
    is rejected with the typed error a call of [mapRpcError] made of it. *)
Lemma follows_wire {V : Type} (e : RpcError) (d : Settlement V) :
  follows decodeBase64 config options callSiteStack (Rejected (VRpcError e)) d →
  d ≠ Pending →
  ∃ error, d = Rejected (VGrpcError error)
           ∧ mapped_from decodeBase64 config options callSiteStack e error.
Proof.
  intros [ -> | (h & h' & Hmap) ] Hd; [ done | ].
  revert Hmap. unfold map_settlement.
  destruct (mapRpcError decodeBase64 (VRpcError e) (abort options) (onError config)
              callSiteStack h) as [[v h1]| |] eqn:Hmap; simpl; [ | done | done ].
  intros [= <- <-].
  destruct (mapRpcError_wire_ref e h v h1 Hmap) as (error & -> & _).
  exists error. split; [ done | ]. by exists h, h1.
Qed.

(** The listener of a stream that fails with a wire error passes the
    messages on and maps the error, to a new instance. *)
Lemma forward_responses_failing (messages : list O) (e : RpcError) (h : Heap) :
  ∃ error h',
    forward_responses decodeBase64 config options callSiteStack
      (failing_stream messages (VRpcError e)) h
    = Ok (failing_stream messages (VGrpcError error), h')
    ∧ mapRpcError decodeBase64 (VRpcError e) (abort options) (onError config)
        callSiteStack h = Ok (VGrpcError error, h')
    ∧ error_ref error = next_ref h.
Proof.
  destruct (mapRpcError_ok decodeBase64 (VRpcError e) (abort options)
              (onError config) callSiteStack h) as (v & h' & Hmap).
  destruct (mapRpcError_wire_ref e h v h' Hmap) as (error & -> & Href & _).
  exists error, h'. split; [ | done ].
  unfold failing_stream.
  induction messages as [|message messages IH]; cbn -[mapRpcError].
  - by rewrite Hmap.
  - by rewrite IH.
Qed.

Lemma erase_rejected {V : Type} (p : Settlement V) (reason : JsValue) :
  erase p = Rejected reason ↔ p = Rejected reason.
Proof. destruct p; simpl; split; congruence. Qed.

(** The deferred of a channel whose handlers have run, when the promise of
    the real call was rejected with a wire error: it is rejected with the
    typed error a call of [mapRpcError] made of the wire error. *)
Lemma settled_channel_rejection (call : ClientStreamingCall O) (order : list Channel)
    (h : Heap) (d : ClientDeferreds O) (h' : Heap) (c : Channel) (e : RpcError) :
  settle_client_all decodeBase64 config options callSiteStack call order
    (mkClientDeferreds Pending Pending Pending Pending) h = Ok (d, h') →
  c ∈ order →
  promise_view call c = Rejected (VRpcError e) →
  ∃ error, deferred_view d c = Rejected (VGrpcError error)
           ∧ mapped_from decodeBase64 config options callSiteStack e error
           ∧ deferred_ref call d c = Some (error_ref error).
Proof.
  intros Hsettle Hc Hp.
  destruct (settle_client_all_follows call order _ h (deferreds_follow_init _))
    as (d0 & h0 & Hsettle0 & Hh & Hr & Hs & Ht).
  rewrite Hsettle in Hsettle0. injection Hsettle0 as <- <-.
  assert (Hd : deferred_view d c ≠ Pending).
  { apply (settle_client_all_settles _ _ _ _ _ _ Hsettle c); [ by left | ].
    by rewrite Hp. }
  destruct c; simpl in *; apply (proj1 (erase_rejected _ _)) in Hp;
    apply (proj1 (erase_settled _)) in Hd.
  - rewrite Hp in Hh. apply follows_wire in Hh as (error & -> & Hm); [ | done ].
    exists error. by rewrite Hp.
  - rewrite Hp in Hr. apply follows_wire in Hr as (error & -> & Hm); [ | done ].
    exists error. by rewrite Hp.
  - rewrite Hp in Hs. apply follows_wire in Hs as (error & -> & Hm); [ | done ].
    exists error. by rewrite Hp.
  - rewrite Hp in Ht. apply follows_wire in Ht as (error & -> & Hm); [ | done ].
    exists error. by rewrite Hp.
Qed.

(** The rejections of a client-streaming call all of whose promises
    failed, once the handlers of every channel have run: each deferred is
    rejected with a typed error of its own. *)
Lemma interceptClientStreaming_rejections
    (next : MethodInfo → RpcOptions → ClientStreamingCall O)
    (method : MethodInfo) (order : list Channel) (h : Heap)
    (wire : Channel → RpcError) :
  (∀ c, c ∈ order) →
  client_rejections (next method options) (λ c, VRpcError (wire c)) →
  ∃ call h' errors,
    interceptClientStreaming decodeBase64 config next method options callSiteStack
      order h = Ok (call, h')
    ∧ client_rejections call (λ c, VGrpcError (errors c))
    ∧ (∀ c, mapped_from decodeBase64 config options callSiteStack (wire c) (errors c))
    ∧ (∀ c1 c2, c1 ≠ c2 → error_ref (errors c1) ≠ error_ref (errors c2)).
Proof.
  intros Horder (Hph & Hpr & Hps & Hpt).
  destruct (settle_client_all_follows (next method options) order _ h
              (deferreds_follow_init _)) as (d & h' & Hsettle & _).
  pose proof (settle_client_all_fresh _ _ _ _ _ _ Hsettle (refs_fresh_init _ _))
    as [_ Hdistinct].
  destruct (settled_channel_rejection _ _ _ _ _ ch_headers (wire ch_headers)
              Hsettle (Horder _)) as (eh & Hdh & Hmh & Hrh);
    [ simpl; by rewrite Hph | ].
  destruct (settled_channel_rejection _ _ _ _ _ ch_response (wire ch_response)
              Hsettle (Horder _)) as (er & Hdr & Hmr & Hrr);
    [ simpl; by rewrite Hpr | ].
  destruct (settled_channel_rejection _ _ _ _ _ ch_status (wire ch_status)
              Hsettle (Horder _)) as (es & Hds & Hms & Hrs);
    [ simpl; by rewrite Hps | ].
  destruct (settled_channel_rejection _ _ _ _ _ ch_trailers (wire ch_trailers)
              Hsettle (Horder _)) as (et & Hdt & Hmt & Hrt);
    [ simpl; by rewrite Hpt | ].
  set (errors := λ c, match c with
                      | ch_headers => eh | ch_response => er
                      | ch_status => es | ch_trailers => et
                      end).
  assert (Href : ∀ c, deferred_ref (next method options) d c
                      = Some (error_ref (errors c))) by (by intros []).
  unfold interceptClientStreaming. rewrite Hsettle. simpl.
  eexists _, h', errors. split; [ done | ].
  simpl in Hdh, Hdr, Hds, Hdt.
  apply (proj1 (erase_rejected _ _)) in Hdh, Hdr, Hds, Hdt.
  split; [ by repeat split | ]. split; [ by intros [] | ].
  intros c1 c2 Hne Heq.
  apply (Hdistinct c1 c2 (error_ref (errors c1)) Hne); [ apply Href | ].
  rewrite Heq. apply Href.
Qed.

(** The same for a duplex call, with the error of its response stream:
    the three deferreds and the listeners of the stream get four
    instances. *)
Lemma interceptDuplex_rejections
    (next : MethodInfo → RpcOptions → DuplexStreamingCall O)
    (method : MethodInfo) (order : list Channel) (h : Heap)
    (wire : Channel → RpcError) (e : RpcError) (messages : list O) :
  (∀ c, c ∈ order) →
  duplex_rejections (next method options) (λ c, VRpcError (wire c)) →
  duplex_responses (next method options) = failing_stream messages (VRpcError e) →
  ∃ call h' errors error,
    interceptDuplex decodeBase64 config next method options callSiteStack order h
    = Ok (call, h')
    ∧ duplex_rejections call (λ c, VGrpcError (errors c))
    ∧ duplex_responses call = failing_stream messages (VGrpcError error)
    ∧ (∀ c, c ≠ ch_response →
            mapped_from decodeBase64 config options callSiteStack (wire c) (errors c))
    ∧ mapped_from decodeBase64 config options callSiteStack e error
    ∧ (∀ c1 c2, c1 ≠ ch_response → c2 ≠ ch_response → c1 ≠ c2 →
                error_ref (errors c1) ≠ error_ref (errors c2))
    ∧ (∀ c, c ≠ ch_response → error_ref (errors c) ≠ error_ref error).
Proof.
  intros Horder (Hph & Hps & Hpt) Hstream.
  destruct (settle_client_all_follows (duplex_promises (next method options)) order
              _ h (deferreds_follow_init _)) as (d & h1 & Hsettle & _).
  pose proof (settle_client_all_fresh _ _ _ _ _ _ Hsettle (refs_fresh_init _ _))
    as [Hbound Hdistinct].
  destruct (settled_channel_rejection _ _ _ _ _ ch_headers (wire ch_headers)
              Hsettle (Horder _)) as (eh & Hdh & Hmh & Hrh);
    [ simpl; by rewrite Hph | ].
  destruct (settled_channel_rejection _ _ _ _ _ ch_status (wire ch_status)
              Hsettle (Horder _)) as (es & Hds & Hms & Hrs);
    [ simpl; by rewrite Hps | ].
  destruct (settled_channel_rejection _ _ _ _ _ ch_trailers (wire ch_trailers)
              Hsettle (Horder _)) as (et & Hdt & Hmt & Hrt);
    [ simpl; by rewrite Hpt | ].
  set (errors := λ c, match c with
                      | ch_headers | ch_response => eh
                      | ch_status => es | ch_trailers => et
                      end).
  assert (Href : ∀ c, c ≠ ch_response →
                      deferred_ref (duplex_promises (next method options)) d c
                      = Some (error_ref (errors c))) by (by intros []).
  unfold interceptDuplex. rewrite Hsettle, Hstream. simpl.
  destruct (forward_responses_failing messages e h1)
    as (error & h' & -> & Hmap & Hnew).
  simpl. eexists _, h', errors, error. split; [ done | ].
  simpl in Hdh, Hds, Hdt.
  apply (proj1 (erase_rejected _ _)) in Hdh, Hds, Hdt.
  split; [ by repeat split | ]. split; [ done | ].
  split; [ by intros [] | ]. split; [ by exists h1, h' | ]. split.
  - intros c1 c2 H1 H2 Hne Heq.
    apply (Hdistinct c1 c2 (error_ref (errors c1)) Hne); [ by apply Href | ].
    rewrite Heq. by apply Href.
  - intros c Hc Heq. specialize (Hbound c _ (Href c Hc)). lia.
Qed.
End error_hooks.

(** C3, as the hooks are written.  Let every promise of the real call be
    rejected with a wire error, let its response stream, when it has one,
    deliver some messages and then fail with a wire error, and let the
    handlers of every promise have run.
    - The unary hook maps the failure once: its four deferreds are rejected
      with one typed error.
    - The server-streaming hook maps the error of the stream only: the
      promises of headers, status and trailers it returns are rejected with
      the wire errors themselves.
    - The client-streaming hook rejects its four deferreds with four typed
      errors, each made by a call of [mapRpcError] of its own and each an
      instance of its own.
    - The duplex hook does so for its three deferreds, and the error it
      passes to the listeners of the stream is one more instance. *)
Theorem streaming_hooks_map_each_channel_apart {I O : Type}
    (decodeBase64 : string → option (list byte))
    (config : ErrorInterceptor.ErrorInterceptorConfig)
    (nextUnary : MethodInfo → I → RpcOptions → UnaryCall I O)
    (nextServer : MethodInfo → I → RpcOptions → ServerStreamingCall I O)
    (nextClient : MethodInfo → RpcOptions → ClientStreamingCall O)
    (nextDuplex : MethodInfo → RpcOptions → DuplexStreamingCall O)
    (method : MethodInfo) (input : I) (options : RpcOptions)
    (callSiteStack : option string) (order : list Channel) (h : Heap)
    (e : RpcError) (wire : Channel → RpcError) (messages : list O) :
  (∀ c, c ∈ order) →
  (unary_rejections (nextUnary method input options) (λ _, VRpcError e) →
   ∃ call h' error,
     ErrorInterceptor.interceptUnary decodeBase64 config nextUnary method input
       options callSiteStack h = Ok (call, h')
     ∧ unary_rejections call (λ _, VGrpcError error)
     ∧ mapped_from decodeBase64 config options callSiteStack e error)
  ∧ (server_rejections (nextServer method input options) (λ c, VRpcError (wire c)) →
     server_responses (nextServer method input options)
     = failing_stream messages (VRpcError e) →
     ∃ call h' error,
       ErrorInterceptor.interceptServerStreaming decodeBase64 config nextServer
         method input options callSiteStack h = Ok (call, h')
       ∧ server_rejections call (λ c, VRpcError (wire c))
       ∧ server_responses call = failing_stream messages (VGrpcError error)
       ∧ mapped_from decodeBase64 config options callSiteStack e error)
  ∧ (client_rejections (nextClient method options) (λ c, VRpcError (wire c)) →
     ∃ call h' errors,
       ErrorInterceptor.interceptClientStreaming decodeBase64 config nextClient
         method options callSiteStack order h = Ok (call, h')
       ∧ client_rejections call (λ c, VGrpcError (errors c))
       ∧ (∀ c, mapped_from decodeBase64 config options callSiteStack
                 (wire c) (errors c))
       ∧ (∀ c1 c2, c1 ≠ c2 → error_ref (errors c1) ≠ error_ref (errors c2)))
  ∧ (duplex_rejections (nextDuplex method options) (λ c, VRpcError (wire c)) →
     duplex_responses (nextDuplex method options)
     = failing_stream messages (VRpcError e) →
     ∃ call h' errors error,
       ErrorInterceptor.interceptDuplex decodeBase64 config nextDuplex method
         options callSiteStack order h = Ok (call, h')
       ∧ duplex_rejections call (λ c, VGrpcError (errors c))
       ∧ duplex_responses call = failing_stream messages (VGrpcError error)
       ∧ (∀ c, c ≠ ch_response →
               mapped_from decodeBase64 config options callSiteStack
                 (wire c) (errors c))
       ∧ mapped_from decodeBase64 config options callSiteStack e error
       ∧ (∀ c1 c2, c1 ≠ ch_response → c2 ≠ ch_response → c1 ≠ c2 →
                   error_ref (errors c1) ≠ error_ref (errors c2))
       ∧ (∀ c, c ≠ ch_response → error_ref (errors c) ≠ error_ref error)).
Proof.
  intros Horder. split; [ | split; [ | split ] ].
  - intros (Hh & Hr & Hs & Ht).
    assert (Hawait : await_unary (nextUnary method input options)
                     = Rejected (VRpcError e)).
    { unfold await_unary. by rewrite Hh, Hr, Hs, Ht. }
    destruct (interceptUnary_rejected decodeBase64 config options callSiteStack
                nextUnary method input h (VRpcError e) Hawait)
      as (v & h' & Hmap & Hcall).
    destruct (mapRpcError_wire_ref decodeBase64 config options callSiteStack
                e h v h' Hmap) as (error & -> & _).
    eexists _, h', error. split; [ exact Hcall | ].
    split; [ done | by exists h, h' ].
  - intros (Hh & Hs & Ht) Hstream.
    unfold ErrorInterceptor.interceptServerStreaming. rewrite Hstream.
    destruct (forward_responses_failing decodeBase64 config options callSiteStack
                messages e h) as (error & h' & -> & Hmap & _).
    simpl. eexists _, h', error. split; [ done | ].
    split; [ done | ]. split; [ done | by exists h, h' ].
  - by apply interceptClientStreaming_rejections.
  - by apply interceptDuplex_rejections.
Qed.

(** ** The streaming-input hooks of the metadata interceptor *)

Section request_proxy.
Import MetadataInterceptor.
Context {I O C : Type}.
Variables (next : MethodInfo → RpcOptions → C)
  (responses : C → list (StreamEvent O))
  (method : MethodInfo) (options : RpcOptions).

(** What the two hooks have in common: sends, completes and the job of the
    metadata promise are the shared closures; the jobs of the real call do
    nothing before the real call exists and never touch the request side. *)
Variable step : State I O C → Event I → State I O C.
Hypothesis step_send : ∀ s message, step s (Send message) = send message s.
Hypothesis step_complete : ∀ s, step s Complete = complete s.
Hypothesis step_metadata :
  ∀ s, step s MetadataSettled = metadata_settled next responses method options s.
Hypothesis step_call_before :
  ∀ s event, request_of event = None → event ≠ MetadataSettled →
    pendingCall s = None → undelivered s = [] → step s event = s.
Hypothesis step_call_after :
  ∀ s event, request_of event = None → event ≠ MetadataSettled →
    pendingCall (step s event) = pendingCall s
    ∧ pendingMessages (step s event) = pendingMessages s
    ∧ received (step s event) = received s
    ∧ next_calls (step s event) = next_calls s.

Lemma requests_app (t1 t2 : list (Event I)) :
  requests (t1 ++ t2) = requests t1 ++ requests t2.
Proof. unfold requests. apply omap_app. Qed.

Lemma messages_app (l1 l2 : list (RequestEvent I)) :
  messages (l1 ++ l2) = messages l1 ++ messages l2.
Proof. unfold messages. apply omap_app. Qed.

Lemma messages_sent (ms : list I) : messages (map sent ms) = ms.
Proof. induction ms as [|m ms IH]; simpl; [ done | ]. unfold messages in *. simpl. by rewrite IH. Qed.

Lemma buffering_nil (s : State I O C) : buffering s [] false = s.
Proof. destruct s. unfold buffering. simpl. by rewrite app_nil_r, orb_false_r. Qed.

(** Before the real call exists, a trace only fills the buffer and sets
    the completion flag; this also holds across the job of the metadata
    promise when that promise is not resolved. *)
Lemma run_before (trace : list (Event I)) (s : State I O C) :
  pendingCall s = None → undelivered s = [] →
  (MetadataSettled ∉ trace ∨ ∀ resolved, metadataPromise s ≠ Resolved resolved) →
  fold_left step trace s = buffering s (sent_messages trace) (caller_completed trace).
Proof.
  revert s. induction trace as [|event trace IH]; intros s Hcall Hund Hmeta; simpl.
  - by rewrite buffering_nil.
  - assert (Hmeta' : MetadataSettled ∉ trace
                     ∨ ∀ resolved, metadataPromise s ≠ Resolved resolved).
    { destruct Hmeta as [Hnot|Hrej]; [ left | by right ].
      intros Hin. apply Hnot. by right. }
    destruct event as [message| | |channel|].
    + rewrite step_send. unfold send at 1. rewrite Hcall.
      rewrite IH; simpl; try done.
      unfold buffering, sent_messages, requests, caller_completed. simpl.
      unfold messages. simpl. by rewrite Hcall, <- app_assoc.
    + rewrite step_complete. unfold complete at 1. rewrite Hcall.
      rewrite IH; simpl; try done.
      unfold buffering, sent_messages, requests, caller_completed. simpl.
      unfold messages. simpl. rewrite Hcall. f_equal. by destruct (sendCompleted s).
    + rewrite step_metadata. unfold metadata_settled at 1. rewrite Hcall.
      destruct Hmeta as [Hnot|Hrej]; [ exfalso; apply Hnot; by left | ].
      assert (Hstay : match metadataPromise s with
                      | Resolved resolved =>
                          on_resolved next responses method options resolved s
                      | _ => s
                      end = s).
      { destruct (metadataPromise s) as [|resolved|reason] eqn:Hp; try done.
        by destruct (Hrej resolved). }
      rewrite Hstay. by rewrite IH.
    + rewrite step_call_before by done. by rewrite IH.
    + rewrite step_call_before by done. by rewrite IH.
Qed.

(** Once the real call exists, every send and complete goes straight to
    it, and nothing is buffered. *)
Lemma run_after (trace : list (Event I)) (s : State I O C) :
  is_Some (pendingCall s) →
  let s' := fold_left step trace s in
  received s' = received s ++ requests trace
  ∧ pendingMessages s' = pendingMessages s
  ∧ next_calls s' = next_calls s
  ∧ is_Some (pendingCall s').
Proof.
  revert s. induction trace as [|event trace IH]; intros s [call Hcall]; simpl.
  - rewrite app_nil_r. by rewrite Hcall.
  - assert (Hnext : is_Some (pendingCall (step s event))
                    ∧ received (step s event) = received s ++ requests [event]
                    ∧ pendingMessages (step s event) = pendingMessages s
                    ∧ next_calls (step s event) = next_calls s).
    { destruct event as [message| | |channel|].
      - rewrite step_send. unfold send. rewrite Hcall. simpl. by split; [ eexists | ].
      - rewrite step_complete. unfold complete. rewrite Hcall. simpl.
        by split; [ eexists | ].
      - rewrite step_metadata. unfold metadata_settled. rewrite Hcall. simpl.
        rewrite app_nil_r, Hcall. by split; [ eexists | ].
      - destruct (step_call_after s (CallSettled channel)) as (Hc & Hm & Hr & Hn);
          [ done | done | ].
        rewrite Hc, Hm, Hr, Hn, Hcall. simpl. rewrite app_nil_r. by split; [ eexists | ].
      - destruct (step_call_after s CallNext) as (Hc & Hm & Hr & Hn);
          [ done | done | ].
        rewrite Hc, Hm, Hr, Hn, Hcall. simpl. rewrite app_nil_r. by split; [ eexists | ]. }
    destruct Hnext as (Hc & Hr & Hm & Hn).
    destruct (IH (step s event) Hc) as (Hr' & Hm' & Hn' & Hc').
    rewrite Hr', Hm', Hn', Hr, Hm, Hn.
    repeat split; try done.
    rewrite <- app_assoc. f_equal. unfold requests. simpl.
    by destruct (request_of event).
Qed.

(** The real call, once made, stays the call the proxy writes to. *)
Lemma run_keeps_call (trace : list (Event I)) (s : State I O C) (call : C) :
  pendingCall s = Some call → pendingCall (fold_left step trace s) = Some call.
Proof.
  revert s. induction trace as [|event trace IH]; intros s Hcall; simpl; [ done | ].
  apply IH. destruct event as [message| | |channel|].
  - rewrite step_send. unfold send. by rewrite Hcall.
  - rewrite step_complete. unfold complete. by rewrite Hcall.
  - rewrite step_metadata. unfold metadata_settled. by rewrite Hcall.
  - by destruct (step_call_after s (CallSettled channel)) as (-> & _).
  - by destruct (step_call_after s CallNext) as (-> & _).
Qed.

(** The job of a resolved metadata promise makes the real call, with the
    merged metadata, and that call is kept. *)
Lemma run_resolved_call (before after : list (Event I)) (s : State I O C)
    (resolved : RpcMetadata) :
  pendingCall s = None → undelivered s = [] →
  metadataPromise s = Resolved resolved →
  MetadataSettled ∉ before →
  pendingCall (fold_left step (before ++ MetadataSettled :: after) s)
  = Some (next method (with_meta options (merge_meta (meta options) resolved))).
Proof.
  intros Hcall Hund Hp Hnot.
  rewrite fold_left_app. simpl. apply run_keeps_call.
  rewrite (run_before before s) by (done || by left).
  rewrite step_metadata. unfold metadata_settled, buffering. simpl.
  by rewrite Hcall, Hp.
Qed.

(** A whole trace in which the metadata promise, resolved, has its job
    run after [before]. *)
Lemma run_resolved (before after : list (Event I)) (s : State I O C)
    (resolved : RpcMetadata) :
  pendingCall s = None → undelivered s = [] → pendingMessages s = [] →
  sendCompleted s = false → received s = [] → next_calls s = [] →
  metadataPromise s = Resolved resolved →
  MetadataSettled ∉ before →
  let s' := fold_left step (before ++ MetadataSettled :: after) s in
  received s'
  = map sent (sent_messages before)
    ++ (if caller_completed before then [completed] else [])
    ++ requests after
  ∧ pendingMessages s' = []
  ∧ next_calls s'
    = [with_meta options (merge_meta (meta options) resolved)].
Proof.
  intros Hcall Hund Hms Hsc Hrec Hnc Hp Hnot. cbv zeta.
  rewrite fold_left_app. simpl.
  rewrite (run_before before s) by (done || by left).
  rewrite step_metadata. unfold metadata_settled, buffering. simpl.
  rewrite Hcall, Hp, Hms, Hsc, Hrec, Hnc. simpl.
  match goal with
  | |- context [fold_left step after ?s0] =>
      destruct (run_after after s0) as (Hr & Hm & Hn & _); [ by eexists | ]
  end.
  cbv zeta in Hr, Hm, Hn. rewrite Hr, Hm, Hn. simpl.
  by rewrite <- app_assoc.
Qed.
End request_proxy.

Section delivered.
Import MetadataInterceptor.
Context {I : Type}.

Lemma completed_in_requests (trace : list (Event I)) :
  completed ∈ requests trace ↔ Complete ∈ trace.
Proof.
  unfold requests. rewrite list_elem_of_omap. split.
  - intros (event & Hin & Hreq). by destruct event.
  - intros Hin. by exists Complete.
Qed.

Lemma caller_completed_true (trace : list (Event I)) :
  caller_completed trace = true ↔ Complete ∈ trace.
Proof.
  rewrite <- completed_in_requests. unfold caller_completed.
  rewrite existsb_exists. split.
  - intros (r & Hin%list_elem_of_In & Hr). by destruct r.
  - intros Hin. exists completed. by rewrite <- list_elem_of_In.
Qed.

Lemma completed_not_sent (ms : list I) : completed ∉ map (@sent I) ms.
Proof. induction ms as [|m ms IH]; simpl; [ apply not_elem_of_nil | ].
       rewrite not_elem_of_cons. by split. Qed.

(** The requests of an orderly caller, up to any point: messages, then
    perhaps a [complete]. *)
Lemma orderly_prefix (l1 l2 : list (RequestEvent I)) :
  orderly (l1 ++ l2) →
  l1 = map sent (messages l1)
       ++ (if existsb (λ r, match r with completed => true | sent _ => false end) l1
           then [completed] else []).
Proof.
  revert l2. induction l1 as [|r l1 IH]; intros l2 Hord; [ done | ].
  destruct r as [message|].
  - unfold messages in *. simpl. f_equal. apply (IH l2).
    intros k1 k2 Heq. apply (Hord (sent message :: k1) k2). simpl. by rewrite Heq.
  - assert (Hnil : l1 ++ l2 = []) by (by apply (Hord [] (l1 ++ l2))).
    apply app_eq_nil in Hnil as [-> _]. done.
Qed.

Lemma delivered_in_order_intro (before after : list (Event I))
    (received : list (RequestEvent I)) :
  received
  = map sent (sent_messages before)
    ++ (if caller_completed before then [completed] else [])
    ++ requests after →
  delivered_in_order before after received.
Proof.
  intros ->. unfold delivered_in_order. cbv zeta. split; [ done | ].
  assert (Hreq : requests (before ++ MetadataSettled :: after)
                 = requests before ++ requests after).
  { unfold requests. by rewrite omap_app. }
  split; [ | split ].
  - unfold sent_messages at 2. rewrite Hreq.
    rewrite !messages_app, messages_sent.
    f_equal. by destruct (caller_completed before).
  - rewrite !elem_of_app, elem_of_cons.
    rewrite (completed_in_requests after).
    rewrite <- (caller_completed_true before).
    pose proof (completed_not_sent (sent_messages before)).
    destruct (caller_completed before).
    + rewrite list_elem_of_singleton. intuition congruence.
    + rewrite elem_of_nil. intuition congruence.
  - intros Hord. rewrite Hreq in *. rewrite app_assoc. f_equal.
    symmetry. apply (orderly_prefix _ _ Hord).
Qed.
End delivered.

Section metadata_hooks.
Import MetadataInterceptor.
Context {I O : Type}.
Variables (config : MetadataInterceptorConfig) (method : MethodInfo)
  (options : RpcOptions).

Lemma call_settled_request_side {C : Type} hd rs st tr channel (s : State I O C) :
  let s' := call_settled hd rs st tr channel s in
  pendingCall s' = pendingCall s
  ∧ pendingMessages s' = pendingMessages s
  ∧ received s' = received s
  ∧ next_calls s' = next_calls s.
Proof.
  cbv zeta. unfold call_settled.
  destruct (pendingCall s) eqn:Hc; simpl; by rewrite ?Hc.
Qed.

Lemma call_next_request_side {C : Type} (s : State I O C) :
  let s' := call_next s in
  pendingCall s' = pendingCall s
  ∧ pendingMessages s' = pendingMessages s
  ∧ received s' = received s
  ∧ next_calls s' = next_calls s.
Proof. cbv zeta. unfold call_next. by destruct (undelivered s). Qed.

Section client.
Variable next : MethodInfo → RpcOptions → ClientStreamingCall O.

Lemma client_step_before (s : State I O (ClientStreamingCall O)) (event : Event I) :
  request_of event = None → event ≠ MetadataSettled →
  pendingCall s = None → undelivered s = [] →
  client_step next method options s event = s.
Proof.
  intros Hreq Hne Hcall Hund. destruct event; try done; simpl.
  unfold call_settled. by rewrite Hcall.
Qed.

Lemma client_step_after (s : State I O (ClientStreamingCall O)) (event : Event I) :
  request_of event = None → event ≠ MetadataSettled →
  pendingCall (client_step next method options s event) = pendingCall s
  ∧ pendingMessages (client_step next method options s event) = pendingMessages s
  ∧ received (client_step next method options s event) = received s
  ∧ next_calls (client_step next method options s event) = next_calls s.
Proof.
  intros Hreq Hne. destruct event; try done; simpl.
  apply call_settled_request_side.
Qed.

(** The client-streaming hook, when the metadata promise is resolved. *)
Lemma client_run_resolved (before after : list (Event I)) (resolved : RpcMetadata) :
  shouldIntercept config clientStreaming = true →
  resolveMetadata (metadata config) (mkMetadataContext clientStreaming method)
  = Resolved resolved →
  MetadataSettled ∉ before →
  let s := client_run next method options (before ++ MetadataSettled :: after)
             (interceptClientStreaming config next method options) in
  received s
  = map sent (sent_messages before)
    ++ (if caller_completed before then [completed] else [])
    ++ requests after
  ∧ pendingMessages s = []
  ∧ next_calls s = [with_meta options (merge_meta (meta options) resolved)].
Proof.
  intros Hshould Hres Hnot. unfold client_run, interceptClientStreaming.
  rewrite Hshould. simpl.
  apply (run_resolved next (λ _, []) method options
           (client_step next method options)); try done.
  - apply client_step_before.
  - apply client_step_after.
Qed.

Lemma client_run_resolved_call (before after : list (Event I))
    (resolved : RpcMetadata) :
  shouldIntercept config clientStreaming = true →
  resolveMetadata (metadata config) (mkMetadataContext clientStreaming method)
  = Resolved resolved →
  MetadataSettled ∉ before →
  pendingCall (client_run next method options (before ++ MetadataSettled :: after)
                 (interceptClientStreaming config next method options))
  = Some (next method (with_meta options (merge_meta (meta options) resolved))).
Proof.
  intros Hshould Hres Hnot. unfold client_run, interceptClientStreaming.
  rewrite Hshould. simpl.
  apply (run_resolved_call next (λ _, []) method options
           (client_step next method options)); try done.
  - apply client_step_before.
  - apply client_step_after.
Qed.

(** When the metadata promise is not resolved, no trace gets the hook
    out of the state it returned in, but for the buffer and the
    completion flag. *)
Lemma client_run_unresolved (trace : list (Event I)) :
  shouldIntercept config clientStreaming = true →
  (∀ resolved,
     resolveMetadata (metadata config) (mkMetadataContext clientStreaming method)
     ≠ Resolved resolved) →
  client_run next method options trace
    (interceptClientStreaming config next method options)
  = buffering (interceptClientStreaming config next method options)
      (sent_messages trace) (caller_completed trace).
Proof.
  intros Hshould Hres. unfold client_run.
  apply (run_before next (λ _, []) method options
           (client_step next method options)); try done.
  - apply client_step_before.
  - unfold interceptClientStreaming. by rewrite Hshould.
  - unfold interceptClientStreaming. by rewrite Hshould.
  - right. unfold interceptClientStreaming. by rewrite Hshould.
Qed.
End client.

Section duplex.
Variable next : MethodInfo → RpcOptions → DuplexStreamingCall O.

Lemma duplex_step_before (s : State I O (DuplexStreamingCall O)) (event : Event I) :
  request_of event = None → event ≠ MetadataSettled →
  pendingCall s = None → undelivered s = [] →
  duplex_step next method options s event = s.
Proof.
  intros Hreq Hne Hcall Hund. destruct event; try done; simpl.
  - unfold call_settled. by rewrite Hcall.
  - unfold call_next. by rewrite Hund.
Qed.

Lemma duplex_step_after (s : State I O (DuplexStreamingCall O)) (event : Event I) :
  request_of event = None → event ≠ MetadataSettled →
  pendingCall (duplex_step next method options s event) = pendingCall s
  ∧ pendingMessages (duplex_step next method options s event) = pendingMessages s
  ∧ received (duplex_step next method options s event) = received s
  ∧ next_calls (duplex_step next method options s event) = next_calls s.
Proof.
  intros Hreq Hne. destruct event; try done; simpl.
  - apply call_settled_request_side.
  - apply call_next_request_side.
Qed.

Lemma duplex_run_resolved (before after : list (Event I)) (resolved : RpcMetadata) :
  shouldIntercept config duplex = true →
  resolveMetadata (metadata config) (mkMetadataContext duplex method)
  = Resolved resolved →
  MetadataSettled ∉ before →
  let s := duplex_run next method options (before ++ MetadataSettled :: after)
             (interceptDuplex config next method options) in
  received s
  = map sent (sent_messages before)
    ++ (if caller_completed before then [completed] else [])
    ++ requests after
  ∧ pendingMessages s = []
  ∧ next_calls s = [with_meta options (merge_meta (meta options) resolved)].
Proof.
  intros Hshould Hres Hnot. unfold duplex_run, interceptDuplex.
  rewrite Hshould. simpl.
  apply (run_resolved next duplex_responses method options
           (duplex_step next method options)); try done.
  - apply duplex_step_before.
  - apply duplex_step_after.
Qed.

Lemma duplex_run_resolved_call (before after : list (Event I))
    (resolved : RpcMetadata) :
  shouldIntercept config duplex = true →
  resolveMetadata (metadata config) (mkMetadataContext duplex method)
  = Resolved resolved →
  MetadataSettled ∉ before →
  pendingCall (duplex_run next method options (before ++ MetadataSettled :: after)
                 (interceptDuplex config next method options))
  = Some (next method (with_meta options (merge_meta (meta options) resolved))).
Proof.
  intros Hshould Hres Hnot. unfold duplex_run, interceptDuplex.
  rewrite Hshould. simpl.
  apply (run_resolved_call next duplex_responses method options
           (duplex_step next method options)); try done.
  - apply duplex_step_before.
  - apply duplex_step_after.
Qed.

Lemma duplex_run_unresolved (trace : list (Event I)) :
  shouldIntercept config duplex = true →
  (∀ resolved,
     resolveMetadata (metadata config) (mkMetadataContext duplex method)
     ≠ Resolved resolved) →
  duplex_run next method options trace
    (interceptDuplex config next method options)
  = buffering (interceptDuplex config next method options)
      (sent_messages trace) (caller_completed trace).
Proof.
  intros Hshould Hres. unfold duplex_run.
  apply (run_before next duplex_responses method options
           (duplex_step next method options)); try done.
  - apply duplex_step_before.
  - unfold interceptDuplex. by rewrite Hshould.
  - unfold interceptDuplex. by rewrite Hshould.
  - right. unfold interceptDuplex. by rewrite Hshould.
Qed.
End duplex.
End metadata_hooks.

(** ** The claims on the metadata interceptor *)

Lemma merged_options_intro (options : RpcOptions) (resolved : RpcMetadata) :
  merged_options options resolved
    (MetadataInterceptor.with_meta options
       (MetadataInterceptor.merge_meta (meta options) resolved)).
Proof.
  split; [ done | ].
  exists (MetadataInterceptor.merge_meta (meta options) resolved).
  unfold MetadataInterceptor.merge_meta.
  split; [ done | ]. split.
  - intros key v Hres. by apply lookup_union_Some_l.
  - intros key Hres. by apply lookup_union_r.
Qed.

(** C2. In the client-streaming hook and in the duplex hook of the metadata
    interceptor, when the hook intercepts and the provider resolves, the
    request stream of the real call receives the messages the caller sent
    before the resolution, in the order of sending, then [complete] if the
    caller had completed, then every later request as the caller makes it;
    nothing is left in the buffer. *)
Theorem buffered_sends_in_order {I O : Type}
    (config : MetadataInterceptor.MetadataInterceptorConfig)
    (nextClient : MethodInfo → RpcOptions → ClientStreamingCall O)
    (nextDuplex : MethodInfo → RpcOptions → DuplexStreamingCall O)
    (method : MethodInfo) (options : RpcOptions)
    (before after : list (MetadataInterceptor.Event I)) :
  MetadataInterceptor.MetadataSettled ∉ before →
  let trace := before ++ MetadataInterceptor.MetadataSettled :: after in
  let client :=
    MetadataInterceptor.client_run nextClient method options trace
      (MetadataInterceptor.interceptClientStreaming config nextClient method options) in
  let duplex :=
    MetadataInterceptor.duplex_run nextDuplex method options trace
      (MetadataInterceptor.interceptDuplex config nextDuplex method options) in
  (MetadataInterceptor.shouldIntercept config MetadataInterceptor.clientStreaming = true →
   ∀ resolved,
     MetadataInterceptor.resolveMetadata (MetadataInterceptor.metadata config)
       (MetadataInterceptor.mkMetadataContext MetadataInterceptor.clientStreaming method)
     = Resolved resolved →
     delivered_in_order before after (MetadataInterceptor.received client)
     ∧ MetadataInterceptor.pendingMessages client = [])
  ∧ (MetadataInterceptor.shouldIntercept config MetadataInterceptor.duplex = true →
     ∀ resolved,
       MetadataInterceptor.resolveMetadata (MetadataInterceptor.metadata config)
         (MetadataInterceptor.mkMetadataContext MetadataInterceptor.duplex method)
       = Resolved resolved →
       delivered_in_order before after (MetadataInterceptor.received duplex)
       ∧ MetadataInterceptor.pendingMessages duplex = []).
Proof.
  intros Hnot. cbv zeta. split; intros Hshould resolved Hres.
  - destruct (client_run_resolved config method options nextClient before after
                resolved Hshould Hres Hnot) as (Hr & Hm & _).
    split; [ by apply delivered_in_order_intro | done ].
  - destruct (duplex_run_resolved config method options nextDuplex before after
                resolved Hshould Hres Hnot) as (Hr & Hm & _).
    split; [ by apply delivered_in_order_intro | done ].
Qed.

(** C9. In each of the four hooks of the metadata interceptor, when the
    hook intercepts and the provider resolves, the real call is the call of
    [next] with the options of the caller in which the metadata is the merge:
    every entry of the resolved metadata stands in it, over the entry of the
    caller with the same key, and every entry of the caller whose key the
    resolved metadata lacks stands in it unchanged.  The unary and the
    server-streaming hook return the promises and the responses of that
    call; the client-streaming and the duplex hook make it in the job of the
    metadata promise and write to it from then on.  In each hook it is the
    one call of [next]. *)
Theorem metadata_merge {I O : Type}
    (config : MetadataInterceptor.MetadataInterceptorConfig)
    (nextUnary : MethodInfo → I → RpcOptions → UnaryCall I O)
    (nextServer : MethodInfo → I → RpcOptions → ServerStreamingCall I O)
    (nextClient : MethodInfo → RpcOptions → ClientStreamingCall O)
    (nextDuplex : MethodInfo → RpcOptions → DuplexStreamingCall O)
    (method : MethodInfo) (input : I) (options : RpcOptions)
    (before after : list (MetadataInterceptor.Event I))
    (type : MetadataInterceptor.CallType) (resolved : RpcMetadata) :
  MetadataInterceptor.MetadataSettled ∉ before →
  MetadataInterceptor.shouldIntercept config type = true →
  MetadataInterceptor.resolveMetadata (MetadataInterceptor.metadata config)
    (MetadataInterceptor.mkMetadataContext type method) = Resolved resolved →
  let trace := before ++ MetadataInterceptor.MetadataSettled :: after in
  ∃ called : RpcOptions,
    merged_options options resolved called
    ∧ match type with
      | MetadataInterceptor.unary =>
          MetadataInterceptor.interceptUnary config nextUnary method input options
          = (awaited_unary method options input (nextUnary method input called),
             [called])
      | MetadataInterceptor.serverStreaming =>
          MetadataInterceptor.interceptServerStreaming config nextServer method input
            options
          = (awaited_server method options input (nextServer method input called),
             [called])
      | MetadataInterceptor.clientStreaming =>
          let s := MetadataInterceptor.client_run nextClient method options trace
                     (MetadataInterceptor.interceptClientStreaming config nextClient
                        method options) in
          MetadataInterceptor.pendingCall s = Some (nextClient method called)
          ∧ MetadataInterceptor.next_calls s = [called]
      | MetadataInterceptor.duplex =>
          let s := MetadataInterceptor.duplex_run nextDuplex method options trace
                     (MetadataInterceptor.interceptDuplex config nextDuplex method
                        options) in
          MetadataInterceptor.pendingCall s = Some (nextDuplex method called)
          ∧ MetadataInterceptor.next_calls s = [called]
      end.
Proof.
  intros Hnot Hshould Hres. cbv zeta.
  exists (MetadataInterceptor.with_meta options
            (MetadataInterceptor.merge_meta (meta options) resolved)).
  split; [ apply merged_options_intro | ]. destruct type.
  - unfold MetadataInterceptor.interceptUnary. by rewrite Hshould, Hres.
  - unfold MetadataInterceptor.interceptServerStreaming. by rewrite Hshould, Hres.
  - split.
    + by apply client_run_resolved_call.
    + by destruct (client_run_resolved config method options nextClient before after
                     resolved Hshould Hres Hnot) as (_ & _ & ->).
  - split.
    + by apply duplex_run_resolved_call.
    + by destruct (duplex_run_resolved config method options nextDuplex before after
                     resolved Hshould Hres Hnot) as (_ & _ & ->).
Qed.


(** When the provider does not resolve, a streaming-input hook never makes
    the real call and never settles a deferred: for a provider that rejects,
    the rejection is not surfaced. *)
Lemma client_streaming_unresolved {I O : Type}
    (config : MetadataInterceptor.MetadataInterceptorConfig)
    (next : MethodInfo → RpcOptions → ClientStreamingCall O)
    (method : MethodInfo) (options : RpcOptions)
    (trace : list (MetadataInterceptor.Event I)) :
  MetadataInterceptor.shouldIntercept config MetadataInterceptor.clientStreaming = true →
  (∀ resolved,
     MetadataInterceptor.resolveMetadata (MetadataInterceptor.metadata config)
       (MetadataInterceptor.mkMetadataContext MetadataInterceptor.clientStreaming method)
     ≠ Resolved resolved) →
  let s := MetadataInterceptor.client_run next method options trace
             (MetadataInterceptor.interceptClientStreaming config next method options) in
  MetadataInterceptor.headersDeferred s = Pending
  ∧ MetadataInterceptor.responseDeferred s = Pending
  ∧ MetadataInterceptor.statusDeferred s = Pending
  ∧ MetadataInterceptor.trailersDeferred s = Pending
  ∧ MetadataInterceptor.next_calls s = []
  ∧ MetadataInterceptor.received s = [].
Proof.
  intros Hshould Hres. cbv zeta.
  rewrite client_run_unresolved by done.
  unfold MetadataInterceptor.interceptClientStreaming. by rewrite Hshould.
Qed.

Lemma duplex_unresolved {I O : Type}
    (config : MetadataInterceptor.MetadataInterceptorConfig)
    (next : MethodInfo → RpcOptions → DuplexStreamingCall O)
    (method : MethodInfo) (options : RpcOptions)
    (trace : list (MetadataInterceptor.Event I)) :
  MetadataInterceptor.shouldIntercept config MetadataInterceptor.duplex = true →
  (∀ resolved,
     MetadataInterceptor.resolveMetadata (MetadataInterceptor.metadata config)
       (MetadataInterceptor.mkMetadataContext MetadataInterceptor.duplex method)
     ≠ Resolved resolved) →
  let s := MetadataInterceptor.duplex_run next method options trace
             (MetadataInterceptor.interceptDuplex config next method options) in
  MetadataInterceptor.headersDeferred s = Pending
  ∧ MetadataInterceptor.statusDeferred s = Pending
  ∧ MetadataInterceptor.trailersDeferred s = Pending
  ∧ MetadataInterceptor.responseStream s = []
  ∧ MetadataInterceptor.next_calls s = []
  ∧ MetadataInterceptor.received s = [].
Proof.
  intros Hshould Hres. cbv zeta.
  rewrite duplex_run_unresolved by done.
  unfold MetadataInterceptor.interceptDuplex. by rewrite Hshould.
Qed.

(** In the unary hook the rejection of the provider is the rejection of the
    four promises. *)
Lemma unary_provider_rejects {I O : Type}
    (config : MetadataInterceptor.MetadataInterceptorConfig)
    (next : MethodInfo → I → RpcOptions → UnaryCall I O)
    (method : MethodInfo) (input : I) (options : RpcOptions) (reason : JsValue) :
  MetadataInterceptor.shouldIntercept config MetadataInterceptor.unary = true →
  MetadataInterceptor.resolveMetadata (MetadataInterceptor.metadata config)
    (MetadataInterceptor.mkMetadataContext MetadataInterceptor.unary method)
  = Rejected reason →
  MetadataInterceptor.interceptUnary config next method input options
  = (mkUnaryCall method (default ∅ (meta options)) input
       (Rejected reason) (Rejected reason) (Rejected reason) (Rejected reason), []).
Proof.
  intros Hshould Hres. unfold MetadataInterceptor.interceptUnary.
  by rewrite Hshould, Hres.
Qed.

(** In the server-streaming hook it is the rejection of headers, status and
    trailers; the response stream is told nothing. *)
Lemma server_provider_rejects {I O : Type}
    (config : MetadataInterceptor.MetadataInterceptorConfig)
    (next : MethodInfo → I → RpcOptions → ServerStreamingCall I O)
    (method : MethodInfo) (input : I) (options : RpcOptions) (reason : JsValue) :
  MetadataInterceptor.shouldIntercept config MetadataInterceptor.serverStreaming = true →
  MetadataInterceptor.resolveMetadata (MetadataInterceptor.metadata config)
    (MetadataInterceptor.mkMetadataContext MetadataInterceptor.serverStreaming method)
  = Rejected reason →
  MetadataInterceptor.interceptServerStreaming config next method input options
  = (mkServerStreamingCall method (default ∅ (meta options)) input
       (Rejected reason) [] (Rejected reason) (Rejected reason), []).
Proof.
  intros Hshould Hres. unfold MetadataInterceptor.interceptServerStreaming.
  by rewrite Hshould, Hres.
Qed.

(** C4, on the code. When the provider of the metadata interceptor rejects,
    the client-streaming and duplex hooks leave the deferreds of the call they
    returned pending, whatever the caller and the event loop do afterwards:
    the real call is never made and the messages of the caller stay in the
    buffer.  The unary hook rejects its four promises with the rejection of the
    provider. *)
Theorem provider_rejection_is_not_surfaced {I O : Type}
    (config : MetadataInterceptor.MetadataInterceptorConfig)
    (nextUnary : MethodInfo → I → RpcOptions → UnaryCall I O)
    (nextClient : MethodInfo → RpcOptions → ClientStreamingCall O)
    (nextDuplex : MethodInfo → RpcOptions → DuplexStreamingCall O)
    (method : MethodInfo) (input : I) (options : RpcOptions)
    (trace : list (MetadataInterceptor.Event I)) (reason : JsValue) :
  (∀ type, MetadataInterceptor.shouldIntercept config type = true) →
  (∀ type,
     MetadataInterceptor.resolveMetadata (MetadataInterceptor.metadata config)
       (MetadataInterceptor.mkMetadataContext type method) = Rejected reason) →
  let client :=
    MetadataInterceptor.client_run nextClient method options trace
      (MetadataInterceptor.interceptClientStreaming config nextClient method options) in
  let duplex :=
    MetadataInterceptor.duplex_run nextDuplex method options trace
      (MetadataInterceptor.interceptDuplex config nextDuplex method options) in
  (MetadataInterceptor.headersDeferred client = Pending
   ∧ MetadataInterceptor.responseDeferred client = Pending
   ∧ MetadataInterceptor.statusDeferred client = Pending
   ∧ MetadataInterceptor.trailersDeferred client = Pending
   ∧ MetadataInterceptor.next_calls client = []
   ∧ MetadataInterceptor.pendingMessages client = sent_messages trace)
  ∧ (MetadataInterceptor.headersDeferred duplex = Pending
     ∧ MetadataInterceptor.statusDeferred duplex = Pending
     ∧ MetadataInterceptor.trailersDeferred duplex = Pending
     ∧ MetadataInterceptor.responseStream duplex = []
     ∧ MetadataInterceptor.next_calls duplex = []
     ∧ MetadataInterceptor.pendingMessages duplex = sent_messages trace)
  ∧ (MetadataInterceptor.interceptUnary config nextUnary method input options).1
    = mkUnaryCall method (default ∅ (meta options)) input
        (Rejected reason) (Rejected reason) (Rejected reason) (Rejected reason).
Proof.
  intros Hshould Hres. cbv zeta.
  assert (Hnot : ∀ type resolved,
            MetadataInterceptor.resolveMetadata (MetadataInterceptor.metadata config)
              (MetadataInterceptor.mkMetadataContext type method) ≠ Resolved resolved).
  { intros type resolved. by rewrite Hres. }
  split; [ | split ].
  - rewrite client_run_unresolved by done.
    unfold MetadataInterceptor.interceptClientStreaming. by rewrite Hshould.
  - rewrite duplex_run_unresolved by done.
    unfold MetadataInterceptor.interceptDuplex. by rewrite Hshould.
  - unfold MetadataInterceptor.interceptUnary. by rewrite Hshould, Hres.
Qed.

(** ** The encoders return or throw

    An encoder writes what it is given, or throws where the runtime asserts:
    it does not run on. *)

Lemma fmap_halts {A B : Type} (g : A → B) (m : result A) :
  m ≠ Diverge → g <$> m ≠ Diverge.
Proof. by destruct m. Qed.

Lemma uint32_returns (v : N) : W.uint32 v ≠ Diverge.
Proof. unfold W.uint32. by case_match. Qed.

Lemma string_returns (s : string) : W.string s ≠ Diverge.
Proof.
  unfold W.string. cbv zeta. case_match; [ | done ].
  apply bind_halts; [ apply uint32_returns | done ].
Qed.

Lemma bytes_returns (b : list byte) : W.bytes b ≠ Diverge.
Proof. unfold W.bytes. apply bind_halts; [ apply uint32_returns | done ]. Qed.

Lemma int32_returns (v : Z) : W.int32 v ≠ Diverge.
Proof. unfold W.int32. by case_match. Qed.

Lemma int64_returns (v : Z) : W.int64 v ≠ Diverge.
Proof. unfold W.int64. by case_match. Qed.

Lemma write_string_if_returns (f : N) (s : string) : write_string_if f s ≠ Diverge.
Proof.
  unfold write_string_if. case_match; [ | done ].
  apply fmap_halts, string_returns.
Qed.

Lemma write_string_returns (f : N) (s : string) : write_string f s ≠ Diverge.
Proof. apply fmap_halts, string_returns. Qed.

Lemma write_bytes_returns (f : N) (sub : result (list byte)) :
  sub ≠ Diverge → write_bytes f sub ≠ Diverge.
Proof.
  intros Hsub. unfold write_bytes. apply bind_halts; [ done | ].
  intros inner. apply fmap_halts, bytes_returns.
Qed.

Lemma write_all_returns {X : Type} (write : X → result (list byte)) (xs : list X) :
  (∀ x, write x ≠ Diverge) → write_all write xs ≠ Diverge.
Proof.
  intros Hwrite. induction xs as [|x xs IH]; simpl; [ done | ].
  apply bind_halts; [ apply Hwrite | ]. intros b.
  apply bind_halts; [ apply IH | done ].
Qed.

Create HintDb writer discriminated.
#[global] Hint Resolve write_string_if_returns write_string_returns string_returns
  bytes_returns uint32_returns : writer.

Ltac solve_returns :=
  repeat first
    [ apply bind_halts; [ | intros ]
    | apply write_all_returns; intros
    | apply write_bytes_returns
    | apply fmap_halts
    | apply int64_returns
    | apply int32_returns
    | by auto with writer ].

Lemma encodeLocalizedMessage_returns locale message :
  encodeLocalizedMessage locale message ≠ Diverge.
Proof. unfold encodeLocalizedMessage. solve_returns. Qed.

Lemma encodeFieldViolation_returns violation : encodeFieldViolation violation ≠ Diverge.
Proof. unfold encodeFieldViolation. solve_returns. Qed.
#[global] Hint Resolve encodeFieldViolation_returns : writer.

Lemma encodeBadRequest_returns fieldViolations :
  encodeBadRequest fieldViolations ≠ Diverge.
Proof. unfold encodeBadRequest. solve_returns. Qed.

Lemma encodeDebugInfo_returns stackEntries detail :
  encodeDebugInfo stackEntries detail ≠ Diverge.
Proof. unfold encodeDebugInfo. solve_returns. Qed.

Lemma encodeMapEntry_returns entry : encodeMapEntry entry ≠ Diverge.
Proof. unfold encodeMapEntry. solve_returns. Qed.
#[global] Hint Resolve encodeMapEntry_returns : writer.

Lemma encodeErrorInfo_returns reason domain metadata :
  encodeErrorInfo reason domain metadata ≠ Diverge.
Proof. unfold encodeErrorInfo. solve_returns. Qed.

Lemma encodeRetryInfo_returns retryDelaySeconds :
  encodeRetryInfo retryDelaySeconds ≠ Diverge.
Proof.
  unfold encodeRetryInfo, encodeDuration. case_match; [ | done ]. solve_returns.
Qed.

Lemma encodeQuotaViolation_returns violation : encodeQuotaViolation violation ≠ Diverge.
Proof. unfold encodeQuotaViolation. solve_returns. Qed.
#[global] Hint Resolve encodeQuotaViolation_returns : writer.

Lemma encodeQuotaFailure_returns violations : encodeQuotaFailure violations ≠ Diverge.
Proof. unfold encodeQuotaFailure. solve_returns. Qed.

Lemma encodePreconditionViolation_returns violation :
  encodePreconditionViolation violation ≠ Diverge.
Proof. unfold encodePreconditionViolation. solve_returns. Qed.
#[global] Hint Resolve encodePreconditionViolation_returns : writer.

Lemma encodePreconditionFailure_returns violations :
  encodePreconditionFailure violations ≠ Diverge.
Proof. unfold encodePreconditionFailure. solve_returns. Qed.

Lemma encodeRequestInfo_returns requestId servingData :
  encodeRequestInfo requestId servingData ≠ Diverge.
Proof. unfold encodeRequestInfo. solve_returns. Qed.

Lemma encodeResourceInfo_returns resourceType resourceName owner description :
  encodeResourceInfo resourceType resourceName owner description ≠ Diverge.
Proof. unfold encodeResourceInfo. solve_returns. Qed.

Lemma encodeHelpLink_returns link : encodeHelpLink link ≠ Diverge.
Proof. unfold encodeHelpLink. solve_returns. Qed.
#[global] Hint Resolve encodeHelpLink_returns : writer.

Lemma encodeHelp_returns links : encodeHelp links ≠ Diverge.
Proof. unfold encodeHelp. solve_returns. Qed.

Lemma encodeErrorDetail_returns (detail : ErrorDetail) :
  encodeErrorDetail detail ≠ Diverge.
Proof.
  destruct detail; simpl; try done; (apply bind_halts; [ | done ]).
  - apply encodeLocalizedMessage_returns.
  - apply encodeBadRequest_returns.
  - apply encodeDebugInfo_returns.
  - apply encodeErrorInfo_returns.
  - apply encodeRetryInfo_returns.
  - apply encodeQuotaFailure_returns.
  - apply encodePreconditionFailure_returns.
  - apply encodeRequestInfo_returns.
  - apply encodeResourceInfo_returns.
  - apply encodeHelp_returns.
Qed.

Lemma encode_details_returns (details : list ErrorDetail) :
  encode_details details ≠ Diverge.
Proof.
  induction details as [|detail details IH]; simpl; [ done | ].
  apply bind_halts; [ apply encodeErrorDetail_returns | ]. intros encoded.
  apply bind_halts; [ apply IH | done ].
Qed.

Lemma encodeAny_returns (any : Any) : encodeAny any ≠ Diverge.
Proof.
  unfold encodeAny. apply bind_halts; [ apply write_string_if_returns | ]. intros t.
  apply bind_halts; [ | done ]. case_decide; [ | done ].
  by apply write_bytes_returns.
Qed.
#[global] Hint Resolve encodeAny_returns : writer.

Lemma encodeStatus_returns (status : Status) : encodeStatus status ≠ Diverge.
Proof.
  unfold encodeStatus. apply bind_halts.
  { case_decide; [ | done ]. apply fmap_halts, int32_returns. }
  intros code. apply bind_halts; [ apply write_string_if_returns | ]. intros message.
  apply bind_halts; [ | done ].
  apply write_all_returns. intros detail. apply write_bytes_returns, encodeAny_returns.
Qed.

Lemma encodeGrpcStatus_returns (error : GrpcError) : encodeGrpcStatus error ≠ Diverge.
Proof.
  unfold encodeGrpcStatus. apply bind_halts; [ apply encode_details_returns | ].
  intros details. apply encodeStatus_returns.
Qed.

(** An encoder that does not throw returns its bytes. *)
Lemma returned {A : Type} (r : result A) : r ≠ Diverge → r ≠ Throw → ∃ a, r = Ok a.
Proof. destruct r as [a| |]; [ by exists a | done | done ]. Qed.

(** ** What the encoder accepts

    The writer refuses a string or a message of 2^32 bytes or more and a
    string that is no JavaScript string.  A record whose strings are well
    formed and short of that bound is written. *)

#[local] Transparent W.tag W.varint.

Lemma varint_loop_length (budget k : nat) (v : N) :
  (1 ≤ k)%nat → v < 2 ^ (7 * N.of_nat k) →
  (length (W.varint_loop budget v) ≤ k)%nat.
Proof.
  revert k v. induction budget as [|budget IH]; intros k v Hk Hv; simpl; [ lia | ].
  destruct (N.ltb_spec 127 v) as [Hbig|Hsmall]; simpl; [ | lia ].
  destruct k as [|k]; [ lia | ].
  destruct k as [|k].
  { change (2 ^ (7 * N.of_nat 1)) with 128 in Hv. lia. }
  specialize (IH (S k) (N.shiftr v 7) ltac:(lia)).
  assert (Hshift : N.shiftr v 7 < 2 ^ (7 * N.of_nat (S k))).
  { rewrite N.shiftr_div_pow2. apply N.Div0.div_lt_upper_bound.
    rewrite <- N.pow_add_r.
    replace (7 + 7 * N.of_nat (S k)) with (7 * N.of_nat (S (S k))) by lia. done. }
  specialize (IH Hshift). lia.
Qed.

Lemma varint_length (k : nat) (v : N) :
  (1 ≤ k)%nat → v < 2 ^ (7 * N.of_nat k) → (length (W.varint v) ≤ k)%nat.
Proof. apply varint_loop_length. Qed.

Lemma varint32_length (v : N) : v < 2 ^ 32 → N.of_nat (length (W.varint v)) ≤ 5.
Proof.
  intros Hv. pose proof (varint_length 5 v ltac:(lia)) as Hlen.
  change (7 * N.of_nat 5) with 35 in Hlen.
  assert (v < 2 ^ 35) by (eapply N.lt_le_trans; [ exact Hv | by apply N.pow_le_mono_r ]).
  specialize (Hlen ltac:(done)). lia.
Qed.

Lemma varint64_length (v : N) : v < 2 ^ 64 → N.of_nat (length (W.varint v)) ≤ 10.
Proof.
  intros Hv. pose proof (varint_length 10 v ltac:(lia)) as Hlen.
  change (7 * N.of_nat 10) with 70 in Hlen.
  assert (v < 2 ^ 70) by (eapply N.lt_le_trans; [ exact Hv | by apply N.pow_le_mono_r ]).
  specialize (Hlen ltac:(done)). lia.
Qed.

Lemma tag_length (f : N) (w : WireType) : N.of_nat (length (W.tag f w)) ≤ 5.
Proof. unfold W.tag. apply varint32_length. by apply N.mod_lt. Qed.

#[local] Opaque W.tag W.varint.

Lemma length_list_byte_of_string (s : string) :
  length (list_byte_of_string s) = String.length s.
Proof.
  unfold list_byte_of_string. rewrite length_map.
  induction s as [|c s IH]; simpl; [ done | by rewrite IH ].
Qed.

Lemma fits_weaken (n m : N) (r : result (list byte)) : fits n r → n ≤ m → fits m r.
Proof. intros (b & -> & Hb) Hle. exists b. split; [ done | lia ]. Qed.

Lemma fits_nil (n : N) : fits n (Ok []).
Proof. exists []. split; [ done | simpl; lia ]. Qed.

(** A length prefix below 2^32 is written, in five bytes at most. *)
Lemma fits_uint32 (v : N) : v < 2 ^ 32 → fits 5 (W.uint32 v).
Proof.
  intros Hv. unfold W.uint32. apply N.ltb_lt in Hv as Hlt. rewrite Hlt.
  eexists. split; [ done | ]. by apply varint32_length.
Qed.

Lemma fits_bytes (b : list byte) :
  N.of_nat (length b) < 2 ^ 32 → fits (N.of_nat (length b) + 5) (W.bytes b).
Proof.
  intros Hb. unfold W.bytes.
  destruct (fits_uint32 _ Hb) as (len & -> & Hlen). simpl.
  eexists. split; [ done | ]. rewrite length_app. lia.
Qed.

Lemma fits_string (s : string) :
  well_formed_string s → N.of_nat (String.length s) < 2 ^ 32 →
  fits (N.of_nat (String.length s) + 5) (W.string s).
Proof.
  intros Hwf Hs. unfold W.string. cbv zeta. rewrite Hwf.
  rewrite <- (length_list_byte_of_string s) in Hs |- *.
  by apply fits_bytes.
Qed.

Lemma fits_write_string (f : N) (s : string) :
  well_formed_string s → N.of_nat (String.length s) < 2 ^ 32 →
  fits (N.of_nat (String.length s) + 10) (write_string f s).
Proof.
  intros Hwf Hs. unfold write_string.
  destruct (fits_string s Hwf Hs) as (b & -> & Hb). simpl.
  eexists. split; [ done | ]. rewrite length_app.
  pose proof (tag_length f LengthDelimited). lia.
Qed.

Lemma fits_write_string_if (f : N) (s : string) :
  well_formed_string s → N.of_nat (String.length s) < 2 ^ 32 →
  fits (N.of_nat (String.length s) + 10) (write_string_if f s).
Proof.
  intros Hwf Hs. unfold write_string_if. destruct (truthy s).
  - by apply fits_write_string.
  - apply fits_nil.
Qed.

Lemma fits_write_bytes (f : N) (sub : result (list byte)) (n : N) :
  fits n sub → n < 2 ^ 32 → fits (n + 10) (write_bytes f sub).
Proof.
  intros (inner & -> & Hinner) Hn. unfold write_bytes. simpl.
  destruct (fits_bytes inner ltac:(lia)) as (b & -> & Hb). simpl.
  eexists. split; [ done | ]. rewrite length_app.
  pose proof (tag_length f LengthDelimited). lia.
Qed.

Lemma fits_seq (n m : N) (a b : result (list byte)) :
  fits n a → fits m b → fits (n + m) (x ← a; y ← b; Ok (x ++ y)).
Proof.
  intros (x & -> & Hx) (y & -> & Hy). simpl.
  eexists. split; [ done | ]. rewrite length_app. lia.
Qed.

Lemma fits_write_all {X : Type} (write : X → result (list byte)) (size : X → N)
    (xs : list X) :
  Forall (λ x, fits (size x) (write x)) xs →
  fits (foldr (λ x n, size x + n) 0 xs) (write_all write xs).
Proof.
  induction 1 as [|x xs Hx _ IH]; simpl; [ apply fits_nil | ].
  by apply fits_seq.
Qed.

(** ** The bound of a list of strings *)

Lemma wire_bound_app (l1 l2 : list string) :
  wire_bound (l1 ++ l2) = wire_bound l1 + wire_bound l2.
Proof. induction l1 as [|s l1 IH]; simpl; [ done | ]. rewrite IH. lia. Qed.

Lemma wire_bound_flat_map {X : Type} (strings : X → list string) (xs : list X) :
  wire_bound (flat_map strings xs)
  = foldr (λ x n, wire_bound (strings x) + n) 0 xs.
Proof.
  induction xs as [|x xs IH]; simpl; [ done | ]. by rewrite wire_bound_app, IH.
Qed.

Lemma wire_bound_elem {X : Type} (strings : X → list string) (xs : list X) (x : X) :
  x ∈ xs → wire_bound (strings x) ≤ wire_bound (flat_map strings xs).
Proof.
  induction 1 as [x xs|x y xs _ IH]; simpl; rewrite wire_bound_app; lia.
Qed.

Lemma wire_bound_string (s : string) (l : list string) :
  s ∈ l → N.of_nat (String.length s) + 20 ≤ wire_bound l.
Proof. induction 1 as [s l|s t l _ IH]; simpl; lia. Qed.

(** A repeated nested message: every element is written as a field of its
    own. *)
Lemma fits_repeated {X : Type} (f : N) (enc : X → result (list byte))
    (strings : X → list string) (xs : list X) :
  (∀ x, Forall well_formed_string (strings x) → wire_bound (strings x) < 2 ^ 32 →
        ∃ n, fits n (enc x) ∧ n + 10 ≤ wire_bound (strings x)) →
  Forall well_formed_string (flat_map strings xs) →
  wire_bound (flat_map strings xs) < 2 ^ 32 →
  fits (wire_bound (flat_map strings xs))
    (write_all (λ x, write_bytes f (enc x)) xs).
Proof.
  intros Henc Hwf Hbound. rewrite wire_bound_flat_map.
  apply (fits_write_all _ (λ x, wire_bound (strings x))).
  apply Forall_forall. intros x Hx.
  pose proof (wire_bound_elem strings xs x Hx) as Hle.
  destruct (Henc x) as (n & Hn & Hsize); [ | lia | ].
  { apply Forall_forall. intros s Hs. rewrite Forall_forall in Hwf. apply Hwf.
    apply list_elem_of_In, in_flat_map. exists x.
    split; by apply list_elem_of_In. }
  apply (fits_weaken (n + 10)); [ | done ].
  apply fits_write_bytes; [ done | lia ].
Qed.

Lemma fits_seq3 (n m k : N) (a b c : result (list byte)) :
  fits n a → fits m b → fits k c →
  fits (n + m + k) (x ← a; y ← b; z ← c; Ok (x ++ y ++ z)).
Proof.
  intros (x & -> & Hx) (y & -> & Hy) (z & -> & Hz). simpl.
  eexists. split; [ done | ]. rewrite !length_app. lia.
Qed.

Lemma fits_seq4 (n m k l : N) (a b c d : result (list byte)) :
  fits n a → fits m b → fits k c → fits l d →
  fits (n + m + k + l) (x ← a; y ← b; z ← c; w ← d; Ok (x ++ y ++ z ++ w)).
Proof.
  intros (x & -> & Hx) (y & -> & Hy) (z & -> & Hz) (w & -> & Hw). simpl.
  eexists. split; [ done | ]. rewrite !length_app. lia.
Qed.

(** A string among well-formed strings of a bounded list is written. *)
Lemma fits_field (f : N) (s : string) (l : list string) :
  s ∈ l → Forall well_formed_string l → wire_bound l < 2 ^ 32 →
  fits (N.of_nat (String.length s) + 10) (write_string_if f s)
  ∧ fits (N.of_nat (String.length s) + 10) (write_string f s).
Proof.
  intros Hs Hwf Hbound. pose proof (wire_bound_string s l Hs).
  rewrite Forall_forall in Hwf.
  split; [ apply fits_write_string_if | apply fits_write_string ];
    first [ by apply Hwf | lia ].
Qed.

Ltac fits_field s :=
  lazymatch goal with
  | Hwf : Forall well_formed_string ?l, Hb : wire_bound ?l < 2 ^ 32 |- _ =>
      let H := fresh "Hfield" in
      pose proof (λ f, fits_field f s l
                          ltac:(repeat first [ apply list_elem_of_here
                                             | apply list_elem_of_further ])
                          Hwf Hb) as H
  end.

Section messages.
Variable l : list string.
Hypothesis Hwf : Forall well_formed_string l.
Hypothesis Hbound : wire_bound l < 2 ^ 32.

Lemma fits_FieldViolation (v : FieldViolation) :
  l = [fv_field v; fv_description v] →
  ∃ n, fits n (encodeFieldViolation v) ∧ n + 10 ≤ wire_bound l.
Proof.
  intros ->. fits_field (fv_field v). fits_field (fv_description v).
  eexists. split.
  - apply fits_seq; [ apply (Hfield 1) | apply (Hfield0 2) ].
  - simpl. lia.
Qed.

Lemma fits_QuotaViolation (v : QuotaViolation) :
  l = [qv_subject v; qv_description v] →
  ∃ n, fits n (encodeQuotaViolation v) ∧ n + 10 ≤ wire_bound l.
Proof.
  intros ->. fits_field (qv_subject v). fits_field (qv_description v).
  eexists. split.
  - apply fits_seq; [ apply (Hfield 1) | apply (Hfield0 2) ].
  - simpl. lia.
Qed.

Lemma fits_PreconditionViolation (v : PreconditionViolation) :
  l = [pv_type v; pv_subject v; pv_description v] →
  ∃ n, fits n (encodePreconditionViolation v) ∧ n + 10 ≤ wire_bound l.
Proof.
  intros ->. fits_field (pv_type v). fits_field (pv_subject v).
  fits_field (pv_description v).
  eexists. split.
  - apply fits_seq3; [ apply (Hfield 1) | apply (Hfield0 2) | apply (Hfield1 3) ].
  - simpl. lia.
Qed.

Lemma fits_HelpLink (v : HelpLink) :
  l = [hl_description v; hl_url v] →
  ∃ n, fits n (encodeHelpLink v) ∧ n + 10 ≤ wire_bound l.
Proof.
  intros ->. fits_field (hl_description v). fits_field (hl_url v).
  eexists. split.
  - apply fits_seq; [ apply (Hfield 1) | apply (Hfield0 2) ].
  - simpl. lia.
Qed.

Lemma fits_MapEntry (entry : string * string) :
  l = [entry.1; entry.2] →
  ∃ n, fits n (encodeMapEntry entry) ∧ n + 10 ≤ wire_bound l.
Proof.
  intros ->. fits_field (entry.1). fits_field (entry.2).
  eexists. split.
  - apply fits_seq; [ apply (Hfield 1) | apply (Hfield0 2) ].
  - simpl. lia.
Qed.
End messages.

Lemma fits_strings (f : N) (l : list string) :
  Forall well_formed_string l → wire_bound l < 2 ^ 32 →
  fits (wire_bound l) (write_all (write_string f) l).
Proof.
  intros Hwf Hbound.
  apply (fits_weaken (foldr (λ s n, N.of_nat (String.length s) + 10 + n) 0 l)).
  - apply (fits_write_all _ (λ s, N.of_nat (String.length s) + 10)).
    apply Forall_forall. intros s Hs.
    by apply (fits_field f s l Hs Hwf Hbound).
  - clear. induction l as [|s l IH]; simpl; lia.
Qed.

Lemma fits_Duration (seconds : Z) :
  (- 2 ^ 63 ≤ seconds < 2 ^ 63)%Z → fits 15 (encodeDuration seconds).
Proof.
  intros Hrange. unfold encodeDuration, W.int64.
  destruct (Z.leb_spec (- 2 ^ 63) seconds); [ | lia ].
  destruct (Z.ltb_spec seconds (2 ^ 63)); [ | lia ]. simpl.
  eexists. split; [ done | ]. rewrite length_app.
  pose proof (tag_length 1 Varint).
  pose proof (varint64_length (Z.to_N (seconds mod 2 ^ 64))) as Hlen.
  assert (Z.to_N (seconds mod 2 ^ 64) < 2 ^ 64).
  { pose proof (Z.mod_pos_bound seconds (2 ^ 64) ltac:(lia)). lia. }
  specialize (Hlen ltac:(done)). lia.
Qed.

Lemma carried_writable (detail : ErrorDetail) : carried detail → writable detail.
Proof. destruct detail; simpl; try done. lia. Qed.

(** The encoder accepts a compact detail whose retry delay the 64-bit writer
    accepts, and what it writes for it is no longer than the bound of its
    strings, twenty-five bytes being allowed for a retry delay. *)
Lemma compact_detail_fits (detail : ErrorDetail) :
  writable detail → compact detail →
  ∃ any, encodeErrorDetail detail = Ok (Some any)
         ∧ (recognized detail →
            N.of_nat (length (value any)) ≤ wire_bound (detail_strings detail) + 25).
Proof.
  intros Hc [Hwf Hbound].
  assert (Hdone : ∀ url enc,
            fits (wire_bound (detail_strings detail) + 25) enc →
            ∃ any, (v ← enc; Ok (Some (mkAny url v))) = Ok (Some any)
                   ∧ (recognized detail →
                      N.of_nat (length (value any))
                      ≤ wire_bound (detail_strings detail) + 25)).
  { intros url enc (b & -> & Hb). simpl. by eexists. }
  destruct detail; cbn [encodeErrorDetail detail_strings] in *;
    try (apply Hdone);
    try match goal with
        | |- fits (_ + 25) (encodeRetryInfo _) => idtac
        | |- fits (_ + 25) _ => eapply fits_weaken; [ | apply N.le_add_r ]
        end.
  - fits_field locale. fits_field message.
    eapply fits_weaken; [ apply fits_seq; [ apply (Hfield 1) | apply (Hfield0 2) ] | ].
    simpl. lia.
  - apply fits_repeated; try done. intros v Hv Hb. by apply (fits_FieldViolation _ Hv Hb).
  - apply Forall_app in Hwf as Hparts. destruct Hparts as [Hentries Hdetail].
    rewrite wire_bound_app in *.
    pose proof (fits_field 2 detail [detail] ltac:(apply list_elem_of_here) Hdetail
                  ltac:(lia)) as [Hfield _].
    eapply fits_weaken.
    + apply fits_seq; [ apply (fits_strings 1 stackEntries Hentries); lia | apply Hfield ].
    + simpl. lia.
  - change ([reason; domain] ++ ?l) with (reason :: domain :: l) in *.
    fits_field reason. fits_field domain.
    inversion Hwf as [|? ? _ Hwf1]; subst. inversion Hwf1 as [|? ? _ Hwf2]; subst.
    eapply fits_weaken.
    + apply fits_seq3; [ apply (Hfield 1) | apply (Hfield0 2) | ].
      apply (fits_repeated 3 encodeMapEntry (λ entry, [entry.1; entry.2])); try done.
      * intros entry He Hb. by apply (fits_MapEntry _ He Hb).
      * simpl in Hbound. lia.
    + simpl. lia.
  - simpl in Hc. unfold encodeRetryInfo.
    destruct (Z.ltb_spec 0 retryDelaySeconds); [ | apply fits_nil ].
    eapply fits_weaken; [ apply fits_write_bytes; [ apply fits_Duration; lia | done ] | ].
    simpl. lia.
  - apply fits_repeated; try done. intros v Hv Hb. by apply (fits_QuotaViolation _ Hv Hb).
  - apply fits_repeated; try done.
    intros v Hv Hb. by apply (fits_PreconditionViolation _ Hv Hb).
  - fits_field requestId. fits_field servingData.
    eapply fits_weaken; [ apply fits_seq; [ apply (Hfield 1) | apply (Hfield0 2) ] | ].
    simpl. lia.
  - fits_field resourceType. fits_field resourceName. fits_field owner.
    fits_field description.
    eapply fits_weaken;
      [ apply fits_seq4;
        [ apply (Hfield 1) | apply (Hfield0 2) | apply (Hfield1 3) | apply (Hfield2 4) ] | ].
    simpl. lia.
  - apply fits_repeated; try done. intros v Hv Hb. by apply (fits_HelpLink _ Hv Hb).
  - by eexists.
Qed.

Lemma fits_Any (any : Any) :
  well_formed_string (typeUrl any) → any_bound any < 2 ^ 32 →
  ∃ n, fits n (encodeAny any) ∧ n + 10 ≤ any_bound any.
Proof.
  intros Hwf Hbound. unfold any_bound in *. simpl in Hbound.
  exists (N.of_nat (String.length (typeUrl any)) + 10
          + (N.of_nat (length (value any)) + 10)).
  split; [ | simpl; lia ].
  unfold encodeAny. apply fits_seq.
  - apply fits_write_string_if; [ done | lia ].
  - case_decide; [ | apply fits_nil ].
    apply fits_write_bytes; [ | lia ]. eexists. split; [ done | lia ].
Qed.

(** The encoder accepts a compact status. *)
Lemma compact_status_fits (status : Status) :
  compact_status status → ∃ data, encodeStatus status = Ok data.
Proof.
  intros (Hcode & Hmessage & Hurls & Hbound).
  assert (Hfits : fits (15 + (N.of_nat (String.length (status_message status)) + 10)
                        + foldr (λ any n, any_bound any + n) 0 (status_details status))
                    (encodeStatus status)).
  { unfold encodeStatus. apply fits_seq3.
    - case_decide; [ | apply fits_nil ]. unfold W.int32.
      destruct (Z.leb_spec (-2147483648) (status_code status)); [ | lia ].
      destruct (Z.leb_spec (status_code status) 2147483647); [ | lia ]. simpl.
      eexists. split; [ done | ]. rewrite length_app.
      pose proof (tag_length 1 Varint).
      pose proof (varint64_length (Z.to_N (status_code status mod 2 ^ 64))) as Hlen.
      assert (Z.to_N (status_code status mod 2 ^ 64) < 2 ^ 64).
      { pose proof (Z.mod_pos_bound (status_code status) (2 ^ 64) ltac:(lia)). lia. }
      specialize (Hlen ltac:(done)). lia.
    - apply fits_write_string_if; [ done | simpl in Hbound; lia ].
    - apply (fits_write_all _ any_bound). apply Forall_forall. intros any Hany.
      rewrite Forall_forall in Hurls.
      assert (Hle : any_bound any
                    ≤ foldr (λ any n, any_bound any + n) 0 (status_details status)).
      { clear -Hany. induction Hany as [any l|any other l _ IH]; simpl; lia. }
      destruct (fits_Any any (Hurls any Hany)) as (n & Hn & Hsize); [ lia | ].
      apply (fits_weaken (n + 10)); [ | done ].
      apply fits_write_bytes; [ done | lia ]. }
  destruct Hfits as (data & -> & _). by exists data.
Qed.

Lemma type_url_length (detail : ErrorDetail) :
  recognized detail → N.of_nat (String.length (type_url_of detail)) ≤ 50.
Proof. destruct detail; simpl; intros Hr; try done; by vm_compute. Qed.

Lemma compact_details_fit (details : list ErrorDetail) :
  Forall carried details →
  Forall (λ detail, Forall well_formed_string
                      (type_url_of detail :: detail_strings detail)) details →
  foldr (λ detail n, detail_bound detail + n) 0 details < 2 ^ 32 →
  ∃ anys, encode_details details = Ok anys
          ∧ Forall (λ any, well_formed_string (typeUrl any)) anys
          ∧ foldr (λ any n, any_bound any + n) 0 anys
            ≤ foldr (λ detail n, detail_bound detail + n) 0 details.
Proof.
  induction details as [|detail details IH]; intros Hc Hwf Hbound.
  { exists []. by repeat split. }
  inversion Hc as [|? ? Hc1 Hc2]; subst. inversion Hwf as [|? ? Hwf1 Hwf2]; subst.
  inversion Hwf1 as [|? ? Hurl Hstrings]; subst. simpl in Hbound.
  destruct (IH Hc2 Hwf2 ltac:(lia)) as (anys & Hanys & Hurls & Hsize).
  assert (Hcompact : compact detail).
  { split; [ done | ]. destruct detail; simpl in *; lia. }
  destruct (compact_detail_fits detail (carried_writable _ Hc1) Hcompact)
    as (any & Henc & Hlen).
  destruct (encodeErrorDetail_Some _ _ Henc) as (any' & [= <-] & Hany).
  exists (any :: anys). simpl. rewrite Henc, Hanys. simpl.
  split; [ done | ]. split; [ constructor; [ by rewrite Hany | done ] | ].
  assert (any_bound any ≤ detail_bound detail); [ | lia ].
  assert (Hr : recognized detail ∨ ∃ typeUrl value, detail = unknown typeUrl value).
  { destruct detail; try (by left). right. by eexists _, _. }
  destruct Hr as [Hr|(typeUrl & value & ->)].
  - specialize (Hlen Hr). pose proof (type_url_length detail Hr).
    unfold any_bound. simpl. rewrite Hany.
    destruct detail; simpl in *; try done; lia.
  - simpl in Henc. by injection Henc as <-.
Qed.

(** The encoder accepts a compact typed error. *)
Lemma compact_error_fits (error : GrpcError) :
  Forall carried (error_details error) → compact_error error →
  ∃ data, encodeGrpcStatus error = Ok data.
Proof.
  intros Hc (Hmessage & Hwf & Hbound). simpl in Hbound.
  destruct (compact_details_fit _ Hc Hwf ltac:(lia)) as (anys & Hanys & Hurls & Hsize).
  unfold encodeGrpcStatus. rewrite Hanys. simpl.
  apply compact_status_fits. repeat split; simpl; try done.
  - destruct (error_class error); simpl; lia.
  - destruct (error_class error); simpl; lia.
  - lia.
Qed.

#[local] Opaque W.tag W.varint.

(** ** The claims on the codec *)

(** C1, for the records the codec carries.  Decoding gives back what was
    encoded, for every compact input and, beyond those, whenever the encoder
    does not throw: the detail record, when its strings are well-formed
    Unicode, its retry delay is a non-negative number of the signed 64-bit
    range and its metadata object has no property named [__proto__]; the
    status envelope, with its code, its message and its details in their
    order; and of a typed error the status code, the message and the detail
    records in their order.  The encoder accepts or throws: it throws where
    the runtime asserts, on a length of 2^32 or more, a status code that is no
    signed 32-bit number and a retry delay that is no signed 64-bit number,
    and on a [string] that is the UTF-8 form of no JavaScript string; it
    accepts every compact input. *)
Theorem codec_roundtrip (detail : ErrorDetail) (status : Status) (error : GrpcError) :
  carried detail →
  Forall carried (error_details error) →
  (compact detail ∨ encodeErrorDetail detail ≠ Throw →
   ∃ any, encodeErrorDetail detail = Ok (Some any)
          ∧ parseErrorDetail any = Ok detail)
  ∧ (compact_status status ∨ encodeStatus status ≠ Throw →
     ∃ data, encodeStatus status = Ok data ∧ parseStatus data = Ok status)
  ∧ (compact_error error ∨ encodeGrpcStatus error ≠ Throw →
     ∃ data, encodeGrpcStatus error = Ok data
             ∧ decodeGrpcStatus data
               = Ok (mkDecodedGrpcStatus (ERROR_TO_GRPC_CODE (error_class error))
                       (error_message error) (localizedMessage_of error)
                       (error_details error))).
Proof.
  intros Hdetail Hdetails. split; [ | split ].
  - intros Hd.
    assert (∃ encoded, encodeErrorDetail detail = Ok encoded) as [encoded Henc].
    { destruct Hd as [Hd|Hd].
      - destruct (compact_detail_fits detail (carried_writable _ Hdetail) Hd)
          as (any & -> & _).
        by eexists.
      - apply (returned _ (encodeErrorDetail_returns detail) Hd). }
    destruct (encodeErrorDetail_Some _ _ Henc) as (any & -> & _).
    exists any. split; [ done | ]. by apply parseErrorDetail_encodeErrorDetail.
  - intros Hs.
    assert (∃ data, encodeStatus status = Ok data) as [data Henc].
    { destruct Hs as [Hs|Hs]; [ by apply compact_status_fits | ].
      apply (returned _ (encodeStatus_returns status) Hs). }
    exists data. split; [ done | ]. by apply parseStatus_roundtrip.
  - intros He.
    assert (∃ data, encodeGrpcStatus error = Ok data) as [data Henc].
    { destruct He as [He|He]; [ by apply compact_error_fits | ].
      apply (returned _ (encodeGrpcStatus_returns error) He). }
    exists data. split; [ done | ]. by apply decodeGrpcStatus_encodeGrpcStatus.
Qed.

(** C7. An [Any] whose type URL is none of the ten is parsed, without a
    throw, to the unknown shape with the type URL and the bytes as they are,
    and the unknown shape is encoded to that [Any] again. *)
Theorem unknown_detail_passthrough (any : Any) :
  typeUrl any ∉ type_urls →
  parseErrorDetail any = Ok (unknown (typeUrl any) (value any))
  ∧ encodeErrorDetail (unknown (typeUrl any) (value any)) = Ok (Some any).
Proof.
  intros Hurl. split; [ by apply parseErrorDetail_unknown | ]. by destruct any.
Qed.

#[local] Transparent W.tag W.varint.

(** ** The claims at concrete inputs *)

Lemma codec_roundtrip_witness :
  (∃ any, encodeErrorDetail
            (errorInfo "RATE_LIMITED" "api.example.com" {[ "retryAfter" := "60" ]})
          = Ok (Some any)
          ∧ parseErrorDetail any
            = Ok (errorInfo "RATE_LIMITED" "api.example.com"
                    {[ "retryAfter" := "60" ]}))
  ∧ (∃ data, encodeStatus (mkStatus 5 "Not found" [mkAny "x.y/Z" [x01; x02]]) = Ok data
             ∧ parseStatus data
               = Ok (mkStatus 5 "Not found" [mkAny "x.y/Z" [x01; x02]]))
  ∧ (∃ data, encodeGrpcStatus Examples.not_found = Ok data
             ∧ decodeGrpcStatus data
               = Ok (mkDecodedGrpcStatus 5 "Not found" (Some "No such user")
                       [localizedMessage "en" "No such user"; retryInfo 30])).
Proof.
  destruct (codec_roundtrip
              (errorInfo "RATE_LIMITED" "api.example.com" {[ "retryAfter" := "60" ]})
              (mkStatus 5 "Not found" [mkAny "x.y/Z" [x01; x02]])
              Examples.not_found) as (Hdetail & Hstatus & Herror).
  - reflexivity.
  - repeat constructor; simpl; lia.
  - split; [ | split ].
    + apply Hdetail. left. split; vm_compute; [ by repeat constructor | done ].
    + apply Hstatus. left. split; [ simpl; lia | ].
      split; [ by vm_compute | ]. split; vm_compute; [ by repeat constructor | done ].
    + apply Herror. left. split; [ by vm_compute | ].
      split; vm_compute; [ by repeat constructor | done ].
Defined.

(** C1, as stated, fails: a retry delay below zero is not written and is
    read back as zero; a metadata entry named [__proto__] is written and is
    lost on reading; a retry delay of 2^63 or a status code of 2^31 makes the
    encoder throw. *)
Lemma codec_roundtrip_counterexample :
  (recognized (retryInfo (-5)) ∧ non_default (retryInfo (-5))
   ∧ encodeErrorDetail (retryInfo (-5)) = Ok (Some (mkAny TYPE_URLS.retryInfo []))
   ∧ parseErrorDetail (mkAny TYPE_URLS.retryInfo []) = Ok (retryInfo 0)
   ∧ retryInfo 0 ≠ retryInfo (-5))
  ∧ (recognized (errorInfo "R" "d" {[ "__proto__" := "x" ]})
     ∧ non_default (errorInfo "R" "d" {[ "__proto__" := "x" ]})
     ∧ ∃ any, encodeErrorDetail (errorInfo "R" "d" {[ "__proto__" := "x" ]})
              = Ok (Some any)
              ∧ parseErrorDetail any = Ok (errorInfo "R" "d" ∅)
              ∧ errorInfo "R" "d" ∅ ≠ errorInfo "R" "d" {[ "__proto__" := "x" ]})
  ∧ encodeErrorDetail (retryInfo (2 ^ 63)) = Throw
  ∧ encodeStatus (mkStatus (2 ^ 31) "m" []) = Throw.
Proof.
  split; [ | split; [ | split ] ].
  - repeat split; try done.
  - split; [ done | ]. split.
    { simpl. repeat split; try done. }
    eexists. split; [ by vm_compute | ]. split; [ by vm_compute | ].
    by intros [= ?].
  - by vm_compute.
  - by vm_compute.
Qed.

Lemma buffered_sends_in_order_witness :
  (delivered_in_order Examples.trace_before Examples.trace_after
     (MetadataInterceptor.received
        (MetadataInterceptor.client_run Examples.ok_client Examples.method
           Examples.options Examples.trace
           (MetadataInterceptor.interceptClientStreaming Examples.static_config
              Examples.ok_client Examples.method Examples.options)))
   ∧ MetadataInterceptor.pendingMessages
       (MetadataInterceptor.client_run Examples.ok_client Examples.method
          Examples.options Examples.trace
          (MetadataInterceptor.interceptClientStreaming Examples.static_config
             Examples.ok_client Examples.method Examples.options)) = [])
  ∧ (delivered_in_order Examples.trace_before Examples.trace_after
       (MetadataInterceptor.received
          (MetadataInterceptor.duplex_run Examples.ok_duplex Examples.method
             Examples.options Examples.trace
             (MetadataInterceptor.interceptDuplex Examples.static_config
                Examples.ok_duplex Examples.method Examples.options)))
     ∧ MetadataInterceptor.pendingMessages
         (MetadataInterceptor.duplex_run Examples.ok_duplex Examples.method
            Examples.options Examples.trace
            (MetadataInterceptor.interceptDuplex Examples.static_config
               Examples.ok_duplex Examples.method Examples.options)) = []).
Proof.
  assert (Hnot : MetadataInterceptor.MetadataSettled ∉ Examples.trace_before).
  { unfold Examples.trace_before. rewrite !not_elem_of_cons.
    repeat split; (discriminate || apply not_elem_of_nil). }
  destruct (buffered_sends_in_order Examples.static_config Examples.ok_client
              Examples.ok_duplex Examples.method Examples.options
              Examples.trace_before Examples.trace_after Hnot) as [Hclient Hduplex].
  split.
  - apply (Hclient eq_refl {[ "a" := MetaString "1" ]} eq_refl).
  - apply (Hduplex eq_refl {[ "a" := MetaString "1" ]} eq_refl).
Defined.

(** The run of the example, job by job: 1 and 2 are buffered, flushed when
    the metadata promise settles, then 3 and [complete] go straight through. *)
Example buffered_sends_example :
  MetadataInterceptor.received
    (MetadataInterceptor.client_run Examples.ok_client Examples.method
       Examples.options Examples.trace
       (MetadataInterceptor.interceptClientStreaming Examples.static_config
          Examples.ok_client Examples.method Examples.options))
  = [MetadataInterceptor.sent 1; MetadataInterceptor.sent 2;
     MetadataInterceptor.sent 3; MetadataInterceptor.completed]%nat.
Proof. reflexivity. Qed.


Lemma streaming_hooks_map_each_channel_apart_witness :
  (∃ call h' error,
     ErrorInterceptor.interceptUnary atob Examples.error_config Examples.failing_unary
       Examples.method 0%nat Examples.options None Examples.heap = Ok (call, h')
     ∧ unary_rejections call (λ _, VGrpcError error)
     ∧ mapped_from atob Examples.error_config Examples.options None
         Examples.wire_not_found error)
  ∧ (∃ call h' error,
       ErrorInterceptor.interceptServerStreaming atob Examples.error_config
         Cases.failing_server Examples.method 0%nat Examples.options None Examples.heap
       = Ok (call, h')
       ∧ server_rejections call (λ _, VRpcError Examples.wire_not_found)
       ∧ server_responses call = failing_stream [0%nat] (VGrpcError error)
       ∧ mapped_from atob Examples.error_config Examples.options None
           Examples.wire_not_found error)
  ∧ (∃ call h' errors,
       ErrorInterceptor.interceptClientStreaming atob Examples.error_config
         Examples.failing_client Examples.method Examples.options None
         Examples.all_channels Examples.heap = Ok (call, h')
       ∧ client_rejections call (λ c, VGrpcError (errors c))
       ∧ (∀ c, mapped_from atob Examples.error_config Examples.options None
                 Examples.wire_not_found (errors c))
       ∧ (∀ c1 c2, c1 ≠ c2 → error_ref (errors c1) ≠ error_ref (errors c2)))
  ∧ (∃ call h' errors error,
       ErrorInterceptor.interceptDuplex atob Examples.error_config
         Examples.failing_duplex Examples.method Examples.options None
         Examples.all_channels Examples.heap = Ok (call, h')
       ∧ duplex_rejections call (λ c, VGrpcError (errors c))
       ∧ duplex_responses call = failing_stream [] (VGrpcError error)
       ∧ (∀ c, c ≠ ch_response →
               mapped_from atob Examples.error_config Examples.options None
                 Examples.wire_not_found (errors c))
       ∧ mapped_from atob Examples.error_config Examples.options None
           Examples.wire_not_found error
       ∧ (∀ c1 c2, c1 ≠ ch_response → c2 ≠ ch_response → c1 ≠ c2 →
                   error_ref (errors c1) ≠ error_ref (errors c2))
       ∧ (∀ c, c ≠ ch_response → error_ref (errors c) ≠ error_ref error)).
Proof.
  assert (Hall : ∀ c, c ∈ Examples.all_channels).
  { intros c. unfold Examples.all_channels. destruct c; set_solver. }
  destruct (streaming_hooks_map_each_channel_apart atob Examples.error_config
              Examples.failing_unary Cases.failing_server Examples.failing_client
              Examples.failing_duplex Examples.method 0%nat Examples.options None
              Examples.all_channels Examples.heap Examples.wire_not_found
              (λ _, Examples.wire_not_found) [0%nat] Hall) as (Hunary & Hserver & _).
  destruct (streaming_hooks_map_each_channel_apart atob Examples.error_config
              Examples.failing_unary Cases.failing_server Examples.failing_client
              Examples.failing_duplex Examples.method 0%nat Examples.options None
              Examples.all_channels Examples.heap Examples.wire_not_found
              (λ _, Examples.wire_not_found) [] Hall) as (_ & _ & Hclient & Hduplex).
  split; [ | split; [ | split ] ].
  - apply Hunary. by repeat split.
  - apply Hserver; [ by repeat split | reflexivity ].
  - apply Hclient. by repeat split.
  - apply Hduplex; [ by repeat split | reflexivity ].
Defined.

(** The run of the example: the real call rejects its four promises with
    one wire error, and the four deferreds of the client-streaming hook are
    rejected with four errors, equal in class, message and details, that are
    four instances; the server-streaming hook returns the rejected promises as
    they are. *)
Example streaming_rejections_example :
  (∃ call h' e1 e2 e3 e4,
     ErrorInterceptor.interceptClientStreaming atob Examples.error_config
       Examples.failing_client Examples.method Examples.options None
       Examples.all_channels Examples.heap = Ok (call, h')
     ∧ client_headers call = Rejected (VGrpcError e1)
     ∧ client_response call = Rejected (VGrpcError e2)
     ∧ client_status call = Rejected (VGrpcError e3)
     ∧ client_trailers call = Rejected (VGrpcError e4)
     ∧ error_ref e1 = 0%nat ∧ error_ref e2 = 1%nat
     ∧ error_ref e3 = 2%nat ∧ error_ref e4 = 3%nat
     ∧ e1 ≠ e2 ∧ e1 ≠ e3 ∧ e1 ≠ e4 ∧ e2 ≠ e3 ∧ e2 ≠ e4 ∧ e3 ≠ e4
     ∧ error_class e1 = NotFoundError ∧ error_class e4 = NotFoundError)
  ∧ ErrorInterceptor.interceptServerStreaming atob Examples.error_config
      Cases.failing_server Examples.method 0%nat Examples.options None Examples.heap
    = Ok (Cases.mapped_server, mkHeap 1 []).
Proof.
  split; [ | by vm_compute ].
  do 6 eexists. split; [ by vm_compute | ].
  repeat split; try reflexivity; simpl; intros [= ?]; lia.
Qed.

(** The provider rejects with an error; the caller sends 1 and 2, then 3,
    and completes. *)
Lemma provider_rejection_is_not_surfaced_witness :
  let client :=
    MetadataInterceptor.client_run Examples.ok_client Examples.method Examples.options
      Examples.trace
      (MetadataInterceptor.interceptClientStreaming Examples.rejecting_config
         Examples.ok_client Examples.method Examples.options) in
  let duplex :=
    MetadataInterceptor.duplex_run Examples.ok_duplex Examples.method Examples.options
      Examples.trace
      (MetadataInterceptor.interceptDuplex Examples.rejecting_config
         Examples.ok_duplex Examples.method Examples.options) in
  (MetadataInterceptor.headersDeferred client = Pending
   ∧ MetadataInterceptor.responseDeferred client = Pending
   ∧ MetadataInterceptor.statusDeferred client = Pending
   ∧ MetadataInterceptor.trailersDeferred client = Pending
   ∧ MetadataInterceptor.next_calls client = []
   ∧ MetadataInterceptor.pendingMessages client = [1; 2; 3]%nat)
  ∧ (MetadataInterceptor.headersDeferred duplex = Pending
     ∧ MetadataInterceptor.statusDeferred duplex = Pending
     ∧ MetadataInterceptor.trailersDeferred duplex = Pending
     ∧ MetadataInterceptor.responseStream duplex = []
     ∧ MetadataInterceptor.next_calls duplex = []
     ∧ MetadataInterceptor.pendingMessages duplex = [1; 2; 3]%nat)
  ∧ (MetadataInterceptor.interceptUnary Examples.rejecting_config Examples.ok_unary
       Examples.method 0%nat Examples.options).1
    = mkUnaryCall Examples.method {[ "b" := MetaString "2" ]} 0%nat
        (Rejected (VError 7)) (Rejected (VError 7))
        (Rejected (VError 7)) (Rejected (VError 7)).
Proof.
  apply (provider_rejection_is_not_surfaced Examples.rejecting_config Examples.ok_unary
           Examples.ok_client Examples.ok_duplex Examples.method 0%nat Examples.options
           Examples.trace (VError 7)).
  - intros type. reflexivity.
  - intros type. reflexivity.
Defined.

Lemma status_code_to_kind_witness :
  ∃ error h',
    ErrorInterceptor.mapRpcError atob (VRpcError Examples.wire_not_found) None false
      None Examples.heap = Ok (VGrpcError error, h')
    ∧ error_class error = NotFoundError
    ∧ error_message error = "Not found".
Proof.
  apply (status_code_to_kind atob Examples.wire_not_found None false None Examples.heap).
  reflexivity.
Defined.

Lemma aborted_signal_forces_aborted_witness :
  ∃ error h',
    ErrorInterceptor.mapRpcError atob (VRpcError Examples.wire_not_found) (Some true)
      false None Examples.heap = Ok (VGrpcError error, h')
    ∧ error_class error = AbortedError
    ∧ error_message error = "Aborted by client".
Proof.
  apply (aborted_signal_forces_aborted atob Examples.wire_not_found (Some true) false
           None Examples.heap).
  reflexivity.
Defined.

Lemma unknown_detail_passthrough_witness :
  parseErrorDetail (mkAny "x.y/Z" [x01; x02]) = Ok (unknown "x.y/Z" [x01; x02])
  ∧ encodeErrorDetail (unknown "x.y/Z" [x01; x02]) = Ok (Some (mkAny "x.y/Z" [x01; x02])).
Proof.
  apply (unknown_detail_passthrough (mkAny "x.y/Z" [x01; x02])).
  unfold type_urls. simpl. rewrite !not_elem_of_cons.
  repeat split; (discriminate || apply not_elem_of_nil).
Defined.

Lemma unusable_details_give_no_details_witness :
  ∃ error h',
    ErrorInterceptor.mapRpcError atob (VRpcError Examples.wire_truncated) None false
      None Examples.heap = Ok (VGrpcError error, h')
    ∧ error_details error = [].
Proof.
  apply (unusable_details_give_no_details atob Examples.wire_truncated None false None
           Examples.heap).
  right. by vm_compute.
Defined.

(** The truncated header of the example is good base64, and it is the
    status decoder that throws on it, as it does on a message that is no
    UTF-8 and on a varint of eleven bytes; a header that is not base64 makes
    the base64 decoder throw; the wire error without a header has no details
    either.  A length prefix of 2^32 is read as zero: such a header is
    decoded, to one detail without a type URL. *)
Example unusable_details_examples :
  atob "CAUSCU5vdA==" = Some [x08; x05; x12; x09; x4e; x6f; x74]
  ∧ decodeGrpcStatus [x08; x05; x12; x09; x4e; x6f; x74] = Throw
  ∧ decodeGrpcStatus [x12; x01; xff; x1a; x00] = Throw
  ∧ decodeGrpcStatus [x08; x80; x80; x80; x80; x80; x80; x80; x80; x80; x80; x01]
    = Throw
  ∧ atob "not base64!" = None
  ∧ details_unusable atob (rpc_meta Examples.wire_plain)
  ∧ atob "GoCAgIAQ" = Some [x1a; x80; x80; x80; x80; x10]
  ∧ decodeGrpcStatus [x1a; x80; x80; x80; x80; x10]
    = Ok (mkDecodedGrpcStatus 0 "" None [unknown "" []]).
Proof. repeat split; by vm_compute. Qed.

(** The base64 decoder of the platform: white space is dropped, the padding
    may be left out, and padding in a string whose length is no multiple of
    four, or a single digit, is refused. *)
Example atob_examples :
  atob "CAU=" = Some [x08; x05]
  ∧ atob "CAU" = Some [x08; x05]
  ∧ atob "CA U=" = Some [x08; x05]
  ∧ atob "CA=" = None
  ∧ atob "C" = None.
Proof. repeat split; by vm_compute. Qed.

Lemma metadata_merge_witness :
  (∃ called,
     merged_options Examples.options {[ "a" := MetaString "1" ]} called
     ∧ MetadataInterceptor.interceptUnary Examples.static_config Examples.ok_unary
         Examples.method 0%nat Examples.options
       = (awaited_unary Examples.method Examples.options 0%nat
            (Examples.ok_unary Examples.method 0%nat called), [called]))
  ∧ (∃ called,
       merged_options Examples.options {[ "a" := MetaString "1" ]} called
       ∧ MetadataInterceptor.interceptServerStreaming Examples.static_config
           Examples.ok_server Examples.method 0%nat Examples.options
         = (awaited_server Examples.method Examples.options 0%nat
              (Examples.ok_server Examples.method 0%nat called), [called]))
  ∧ (∃ called,
       merged_options Examples.options {[ "a" := MetaString "1" ]} called
       ∧ MetadataInterceptor.pendingCall
           (MetadataInterceptor.client_run Examples.ok_client Examples.method
              Examples.options Examples.trace
              (MetadataInterceptor.interceptClientStreaming Examples.static_config
                 Examples.ok_client Examples.method Examples.options))
         = Some (Examples.ok_client Examples.method called)
       ∧ MetadataInterceptor.next_calls
           (MetadataInterceptor.client_run Examples.ok_client Examples.method
              Examples.options Examples.trace
              (MetadataInterceptor.interceptClientStreaming Examples.static_config
                 Examples.ok_client Examples.method Examples.options))
         = [called])
  ∧ (∃ called,
       merged_options Examples.options {[ "a" := MetaString "1" ]} called
       ∧ MetadataInterceptor.pendingCall
           (MetadataInterceptor.duplex_run Examples.ok_duplex Examples.method
              Examples.options Examples.trace
              (MetadataInterceptor.interceptDuplex Examples.static_config
                 Examples.ok_duplex Examples.method Examples.options))
         = Some (Examples.ok_duplex Examples.method called)
       ∧ MetadataInterceptor.next_calls
           (MetadataInterceptor.duplex_run Examples.ok_duplex Examples.method
              Examples.options Examples.trace
              (MetadataInterceptor.interceptDuplex Examples.static_config
                 Examples.ok_duplex Examples.method Examples.options))
         = [called]).
Proof.
  assert (Hnot : MetadataInterceptor.MetadataSettled ∉ Examples.trace_before).
  { unfold Examples.trace_before. rewrite !not_elem_of_cons.
    repeat split; (discriminate || apply not_elem_of_nil). }
  pose proof (λ type,
                metadata_merge Examples.static_config Examples.ok_unary
                  Examples.ok_server Examples.ok_client Examples.ok_duplex
                  Examples.method 0%nat Examples.options Examples.trace_before
                  Examples.trace_after type {[ "a" := MetaString "1" ]} Hnot
                  eq_refl eq_refl) as Hmerge.
  split; [ | split; [ | split ] ].
  - apply (Hmerge MetadataInterceptor.unary).
  - apply (Hmerge MetadataInterceptor.serverStreaming).
  - apply (Hmerge MetadataInterceptor.clientStreaming).
  - apply (Hmerge MetadataInterceptor.duplex).
Defined.

(** The example of the specification: the static provider [{a: "1"}]
    against the metadata [{b: "2"}] of the caller gives [{b: "2", a: "1"}],
    and a resolved entry stands over the entry of the caller.  A [next] that
    hands back the metadata it is given as the headers of the call shows what
    it was called with. *)
Example metadata_merge_example :
  MetadataInterceptor.merge_meta (Some {[ "b" := MetaString "2" ]})
    {[ "a" := MetaString "1" ]}
  = {[ "b" := MetaString "2"; "a" := MetaString "1" ]}
  ∧ MetadataInterceptor.merge_meta
      (Some {[ "a" := MetaString "0"; "b" := MetaString "2" ]})
      {[ "a" := MetaString "1" ]}
    = {[ "b" := MetaString "2"; "a" := MetaString "1" ]}
  ∧ unary_headers
      (MetadataInterceptor.interceptUnary Examples.static_config
         (λ method input options,
            mkUnaryCall method (default ∅ (meta options)) input
              (Resolved (default ∅ (meta options))) (Resolved input)
              (Resolved Examples.ok_status) (Resolved ∅))
         Examples.method 0%nat Examples.options).1
    = Resolved {[ "b" := MetaString "2"; "a" := MetaString "1" ]}.
Proof. repeat split; by vm_compute. Qed.

Lemma aborted_error_has_no_details_witness :
  ∃ error h',
    ErrorInterceptor.mapRpcError atob (VRpcError Examples.wire_not_found) (Some true)
      false None Examples.heap = Ok (VGrpcError error, h')
    ∧ error_details error = []
    ∧ error_cause error = None.
Proof.
  apply (aborted_error_has_no_details atob Examples.wire_not_found (Some true) false
           None Examples.heap).
  reflexivity.
Defined.

(** The wire error of the two witnesses above carries a header that decodes
    to two details: with the abort signal not set they are the details of the
    typed error. *)
Example decodable_header_example :
  ErrorInterceptor.parseRichErrorDetails atob (rpc_meta Examples.wire_not_found)
  = Ok (mkGrpcErrorOptions
          (Some [localizedMessage "en" "No such user"; retryInfo 30]) None).
Proof. by vm_compute. Qed.

(** * Part III: further properties of the code *)


(** ** Fields the parsers step over *)

#[local] Transparent W.varint.

Lemma skip_varint_varint_loop (budget : nat) (v : N) (rest : list byte) :
  (N.to_nat (N.log2 v) ≤ budget)%nat →
  R.skip_varint (W.varint_loop budget v ++ rest) = Ok rest.
Proof.
  revert v. induction budget as [|budget IH]; intros v Hb.
  - assert (Hv : v < 128).
    { destruct (N.eq_dec v 0) as [ -> | Hv0 ]; [ done | ].
      change 128 with (2 ^ 7). apply N.log2_lt_pow2; lia. }
    simpl. rewrite to_N_byte_of_N by lia. by rewrite testbit7_low.
  - simpl. destruct (N.ltb_spec 127 v) as [Hv|Hv]; simpl.
    + assert (Hlt : v mod 128 < 128) by (apply N.mod_lt; lia).
      rewrite land_127, lor_128 by done.
      rewrite to_N_byte_of_N by lia. rewrite testbit7_high by done.
      apply IH. rewrite N.log2_shiftr. lia.
    + rewrite to_N_byte_of_N by lia. by rewrite testbit7_low by lia.
Qed.

Lemma skip_varint_varint (v : N) (rest : list byte) :
  R.skip_varint (W.varint v ++ rest) = Ok rest.
Proof. unfold W.varint. by apply skip_varint_varint_loop. Qed.

#[local] Opaque W.tag W.varint.

(** [skip] steps over a payload of the wire type it is given. *)
Lemma skip_payload (p : Payload) (rest : list byte) :
  well_formed p → R.skip (payload_type p) (payload_bytes p ++ rest) = Ok ((), rest).
Proof.
  intros Hwf. unfold R.skip.
  replace (2 * length (payload_bytes p ++ rest) + 2)%nat
    with (S (2 * length (payload_bytes p ++ rest) + 1)) by lia.
  destruct p as [v|b|b|b]; cbn [R.skip_loop payload_type payload_bytes].
  - by rewrite skip_varint_varint.
  - simpl in Hwf. unfold R.advance.
    rewrite decide_True by (rewrite length_app; lia).
    rewrite <- Hwf. by rewrite drop_app_length.
  - simpl in Hwf.
    rewrite (bytes_roundtrip b (W.varint (N.of_nat (length b)) ++ b)); [ by cbn | ].
    unfold W.bytes, W.uint32. apply N.ltb_lt in Hwf. by rewrite Hwf.
  - simpl in Hwf. unfold R.advance.
    rewrite decide_True by (rewrite length_app; lia).
    rewrite <- Hwf. by rewrite drop_app_length.
Qed.

Lemma skip_field_payload {S : Type} (p : Payload) (st : S) (rest : list byte) :
  well_formed p →
  skip_field (payload_type p) st (payload_bytes p ++ rest) = Ok (st, rest).
Proof. intros Hwf. unfold skip_field. by rewrite skip_payload. Qed.

(** ** The status envelope, read over a status already held *)

Section status_skips.

Abbreviation status_body :=
  (λ (fieldNo : N) (wireType : WireType) (status : Status),
     match fieldNo with
     | 1 => varint_field wireType R.int32
              (λ c, mkStatus c (status_message status) (status_details status)) status
     | 2 => string_field wireType
              (λ s, mkStatus (status_code status) s (status_details status)) status
     | 3 => bytes_field wireType parseAny
              (λ a, mkStatus (status_code status) (status_message status)
                      (status_details status ++ [a])) status
     | _ => skip_field wireType status
     end).

(** A field [parseStatus] does not expect is stepped over, whatever the
    status held so far. *)
Lemma status_body_skips (fieldNo : N) (p : Payload) (st : Status) (rest : list byte) :
  fieldNo ≠ 0 → fieldNo < 2 ^ 29 → well_formed p →
  status_expects fieldNo ≠ Some (payload_type p) →
  R.fields status_body st (wire_field fieldNo p ++ rest) = R.fields status_body st rest.
Proof.
  intros Hf Hlt Hwf Hexp. unfold wire_field. rewrite <- app_assoc.
  rewrite fields_tag by (apply status_body_shrinks || done).
  assert (Hskip : skip_field (payload_type p) st (payload_bytes p ++ rest)
                  = Ok (st, rest)) by (by apply skip_field_payload).
  destruct fieldNo as [|[[|[]|]|[|[]|]|]]; try done;
    destruct p; simpl in Hexp; try done; cbn in Hskip |- *; by rewrite Hskip.
Qed.

End status_skips.

(** X1. Reading one encoded status after another, in one buffer, gives the
    merge of the two: a code or a message of the second replaces the one of
    the first when the second carries one, and the details of the second
    follow those of the first. *)
Theorem status_concatenation_merges (s1 s2 : Status) (d1 d2 : list byte) :
  encodeStatus s1 = Ok d1 → encodeStatus s2 = Ok d2 →
  parseStatus (d1 ++ d2) = Ok (merge_status s1 s2).
Proof.
  intros H1 H2. unfold parseStatus.
  rewrite (parseStatus_fields _ s1 d1 d2 H1), merge_status_initial.
  rewrite <- (app_nil_r d2).
  by rewrite (parseStatus_fields _ s2 d2 [] H2).
Qed.

(** X2. A field that [parseStatus] does not expect, by its number or by its
    wire type, is stepped over: a buffer with such a field after an encoded
    status is read as the buffer without it.  The field number is one a tag
    can hold, below 2^29; a length-delimited payload is shorter than 2^32
    bytes. *)
Theorem unexpected_status_fields_are_skipped (s : Status) (d : list byte)
    (fieldNo : N) (p : Payload) (rest : list byte) :
  encodeStatus s = Ok d →
  fieldNo ≠ 0 → fieldNo < 2 ^ 29 → well_formed p →
  status_expects fieldNo ≠ Some (payload_type p) →
  parseStatus (d ++ wire_field fieldNo p ++ rest) = parseStatus (d ++ rest)
  ∧ decodeGrpcStatus (d ++ wire_field fieldNo p ++ rest) = decodeGrpcStatus (d ++ rest).
Proof.
  intros Hd Hf Hlt Hwf Hexp.
  assert (Hparse : parseStatus (d ++ wire_field fieldNo p ++ rest)
                   = parseStatus (d ++ rest)).
  { unfold parseStatus. rewrite !(parseStatus_fields _ s d _ Hd).
    by apply status_body_skips. }
  split; [ done | ]. unfold decodeGrpcStatus. by rewrite Hparse.
Qed.

(** ** What a trip through the codec makes of a detail *)

(** X3. What decoding makes of an encoded detail of one of the ten shapes,
    for every compact detail whose retry delay is below 2^63 and, beyond
    those, whenever the encoder does not throw: the encoder returns an [Any]
    under the type URL of the shape, and decoding that [Any] gives the detail
    itself, except that a retry delay of zero or less comes back as zero and
    that a metadata entry named [__proto__] is lost. *)
Theorem codec_normalizes (detail : ErrorDetail) :
  recognized detail →
  compact detail ∧ writable detail ∨ encodeErrorDetail detail ≠ Throw →
  ∃ any, encodeErrorDetail detail = Ok (Some any)
         ∧ typeUrl any = type_url_of detail
         ∧ parseErrorDetail any = Ok (normalized detail).
Proof.
  intros Hr Hd.
  assert (∃ encoded, encodeErrorDetail detail = Ok encoded) as [encoded Henc].
  { destruct Hd as [[Hc Hw]|Hd].
    - destruct (compact_detail_fits detail Hw Hc) as (any & -> & _). by eexists.
    - apply (returned _ (encodeErrorDetail_returns detail) Hd). }
  destruct (encodeErrorDetail_Some _ _ Henc) as (any & -> & Hurl).
  exists any. split; [ done | ]. split; [ done | ].
  by apply parseErrorDetail_normalizes.
Qed.

(** ** What [encodeGrpcStatus] returns *)

Lemma encodeErrorDetail_unwritable (detail : ErrorDetail) :
  unwritable detail → encodeErrorDetail detail = Throw.
Proof.
  destruct detail; simpl; try done. intros Hu.
  unfold encodeRetryInfo, write_bytes, encodeDuration, W.int64.
  destruct (Z.ltb_spec 0 retryDelaySeconds); [ | lia ].
  destruct (Z.ltb_spec retryDelaySeconds (2 ^ 63)); [ lia | ].
  by rewrite andb_false_r.
Qed.

Lemma writable_or_not (detail : ErrorDetail) : writable detail ∨ unwritable detail.
Proof. destruct detail; simpl; auto. apply Z.lt_ge_cases. Qed.

Lemma encode_details_writable (details : list ErrorDetail) (anys : list Any) :
  encode_details details = Ok anys → Forall writable details.
Proof.
  revert anys. induction details as [|detail details IH]; intros anys; simpl.
  - by constructor.
  - intros Henc. apply bind_Ok in Henc as (encoded & He & Henc).
    apply bind_Ok in Henc as (rest & Hrest & _).
    constructor; [ | by eapply IH ].
    destruct (writable_or_not detail) as [Hw|Hu]; [ done | ].
    by rewrite (encodeErrorDetail_unwritable detail Hu) in He.
Qed.

Lemma encode_details_unwritable (details : list ErrorDetail) :
  Exists unwritable details → encode_details details = Throw.
Proof.
  induction 1 as [detail details Hu|detail details _ IH]; simpl.
  - by rewrite (encodeErrorDetail_unwritable detail Hu).
  - pose proof (encodeErrorDetail_returns detail).
    destruct (encodeErrorDetail detail); simpl; [ by rewrite IH | done | done ].
Qed.

(** X4. [encodeGrpcStatus] returns or throws.  What it returns is the
    encoding of a status that holds the code of the class of the error, the
    message of the error, and one [Any] for each detail, in the order of the
    details and under the type URL of its shape: no detail is left out, and
    no detail carries a retry delay of 2^63 seconds or more.  With such a
    detail it throws. *)
Theorem encodeGrpcStatus_outcome (error : GrpcError) :
  match encodeGrpcStatus error with
  | Ok data =>
      Forall writable (error_details error)
      ∧ ∃ status,
          parseStatus data = Ok status
          ∧ status_code status = ERROR_TO_GRPC_CODE (error_class error)
          ∧ status_message status = error_message error
          ∧ map typeUrl (status_details status)
            = map type_url_of (error_details error)
  | Throw => True
  | Diverge => False
  end
  ∧ (Exists unwritable (error_details error) → encodeGrpcStatus error = Throw).
Proof.
  split.
  - pose proof (encodeGrpcStatus_returns error) as Hret.
    destruct (encodeGrpcStatus error) as [data| |] eqn:Henc; [ | done | done ].
    unfold encodeGrpcStatus in Henc.
    apply bind_Ok in Henc as (anys & Hanys & Henc).
    split; [ by eapply encode_details_writable | ].
    eexists. split; [ by apply parseStatus_roundtrip | ].
    repeat split. simpl. by eapply encode_details_urls.
  - intros Hu. unfold encodeGrpcStatus. by rewrite (encode_details_unwritable _ Hu).
Qed.

(** ** One detail that cannot be parsed *)

Lemma map_result_throws {A B : Type} (f : A → result B) (l : list A) :
  (∀ a, f a ≠ Diverge) → Exists (λ a, f a = Throw) l → map_result f l = Throw.
Proof.
  intros Hh. induction 1 as [a l Ha|a l _ IH]; simpl.
  - by rewrite Ha.
  - pose proof (Hh a). destruct (f a); simpl; [ by rewrite IH | done | done ].
Qed.

Lemma decodeGrpcStatus_throws (data : list byte) (status : Status) :
  parseStatus data = Ok status →
  Exists (λ any, parseErrorDetail any = Throw) (status_details status) →
  decodeGrpcStatus data = Throw.
Proof.
  intros Hs Hbad. unfold decodeGrpcStatus. rewrite Hs. simpl.
  by rewrite (map_result_throws _ _ parseErrorDetail_halts Hbad).
Qed.

Section details_of_mapped_errors.
Import ErrorInterceptor.
Variable decodeBase64 : string → option (list byte).

Lemma mapRpcError_details (e : RpcError) (abort : option bool) (onError : bool)
    (callSiteStack : option string) (h : Heap) (details : list ErrorDetail) :
  aborted abort = false →
  parseRichErrorDetails decodeBase64 (rpc_meta e)
  = Ok (mkGrpcErrorOptions (Some details) None) →
  ∃ error h',
    mapRpcError decodeBase64 (VRpcError e) abort onError callSiteStack h
    = Ok (VGrpcError error, h')
    ∧ error_class error = spec_kind (rpc_code e)
    ∧ error_details error = details
    ∧ error_cause error = Some e.
Proof.
  intros Hab Hparse.
  destruct (mapRpcError_wire decodeBase64 e abort onError callSiteStack h Hab)
    as [details' [Hparse' Hmap]].
  rewrite Hparse in Hparse'. injection Hparse' as <-.
  cbv zeta in Hmap. rewrite Hmap. do 2 eexists. split; [ done | ].
  pose proof (applyCallSiteStack_fields
                (mkGrpcError (next_ref h) (spec_kind (rpc_code e))
                   (class_name (spec_kind (rpc_code e)))
                   (spec_message (spec_kind (rpc_code e))) details (Some e) None)
                callSiteStack) as Hf.
  cbv zeta in Hf. by destruct Hf as (_ & -> & _ & _ & -> & ->).
Qed.

(** X5. The details of a wire error are taken all or none: when the header
    decodes to a status in which one detail, of a known type URL, cannot be
    parsed, the status decoder throws, and the typed error has no detail at
    all, the well-formed ones included. *)
Theorem one_malformed_detail_loses_all (e : RpcError) (abort : option bool)
    (onError : bool) (callSiteStack : option string) (h : Heap)
    (richError : MetaValue) (data : list byte) (status : Status) :
  rpc_meta e !! "grpc-status-details-bin" = Some richError →
  decodeBase64 (meta_as_string richError) = Some data →
  parseStatus data = Ok status →
  Exists (λ any, parseErrorDetail any = Throw) (status_details status) →
  decodeGrpcStatus data = Throw
  ∧ ∃ error h',
      mapRpcError decodeBase64 (VRpcError e) abort onError callSiteStack h
      = Ok (VGrpcError error, h')
      ∧ error_details error = [].
Proof.
  intros Hmeta Hb64 Hs Hbad.
  pose proof (decodeGrpcStatus_throws data status Hs Hbad) as Hthrow.
  split; [ done | ].
  destruct (aborted abort) eqn:Hab.
  - destruct (mapRpcError_aborted_fields decodeBase64 e abort onError callSiteStack h Hab)
      as (error & h' & Hmap & _ & _ & Hd & _).
    by exists error, h'.
  - destruct (mapRpcError_details e abort onError callSiteStack h [] Hab)
      as (error & h' & Hmap & _ & Hd & _).
    + apply parseRichErrorDetails_unusable. unfold details_unusable.
      rewrite Hmeta. right. by rewrite Hb64.
    + by exists error, h'.
Qed.

(** X6. From the server to the client: when the header of a wire error
    holds the encoding, by [encodeGrpcStatus], of an error whose details the
    codec carries, and the call was not aborted, the typed error
    [mapRpcError] returns has the details of that error, in their order, and
    so the same localized message; its cause is the wire error. *)
Theorem server_details_reach_the_client (server_error : GrpcError) (e : RpcError)
    (abort : option bool) (onError : bool) (callSiteStack : option string)
    (h : Heap) (richError : MetaValue) (data : list byte) :
  aborted abort = false →
  Forall carried (error_details server_error) →
  encodeGrpcStatus server_error = Ok data →
  rpc_meta e !! "grpc-status-details-bin" = Some richError →
  meta_falsy richError = false →
  decodeBase64 (meta_as_string richError) = Some data →
  ∃ error h',
    mapRpcError decodeBase64 (VRpcError e) abort onError callSiteStack h
    = Ok (VGrpcError error, h')
    ∧ error_details error = error_details server_error
    ∧ localizedMessage_of error = localizedMessage_of server_error
    ∧ error_cause error = Some e.
Proof.
  intros Hab Hc Henc Hmeta Htruthy Hb64.
  pose proof (decodeGrpcStatus_encodeGrpcStatus server_error data Hc Henc) as Hdec.
  destruct (mapRpcError_details e abort onError callSiteStack h
              (error_details server_error) Hab)
    as (error & h' & Hmap & _ & Hd & Hcause).
  { unfold parseRichErrorDetails. rewrite Hmeta, Htruthy, Hb64. simpl.
    by rewrite Hdec. }
  exists error, h'. repeat split; try done.
  unfold localizedMessage_of. by rewrite Hd.
Qed.
End details_of_mapped_errors.

(** ** What the error-mapping hooks hand to the caller *)

Section mapped_errors.
Import ErrorInterceptor.
Variable decodeBase64 : string → option (list byte).

Lemma mapRpcError_is_mapped (e : JsValue) (abort : option bool) (onError : bool)
    (callSiteStack : option string) (h : Heap) (v : JsValue) (h' : Heap) :
  mapRpcError decodeBase64 e abort onError callSiteStack h = Ok (v, h') →
  is_mapped v.
Proof.
  destruct e as [e|g|ref|ref]; simpl.
  - destruct (aborted abort) eqn:Hab.
    + by intros [= <- _].
    + destruct (parseRichErrorDetails decodeBase64 (rpc_meta e)); simpl; [ | done | done ].
      destruct (error_for_code _ _ _). by intros [= <- _].
  - by intros [= <- _].
  - by intros [= <- _].
  - by intros [= <- _].
Qed.

Lemma mapRpcError_mapped (v : JsValue) (abort : option bool) (onError : bool)
    (callSiteStack : option string) (h : Heap) :
  is_mapped v → mapRpcError decodeBase64 v abort onError callSiteStack h = Ok (v, h).
Proof. by destruct v. Qed.

(** What a wire error leaves on the heap: the typed error is handed to
    [onError], when there is one. *)
Lemma mapRpcError_wire_reports (e : RpcError) (abort : option bool) (onError : bool)
    (callSiteStack : option string) (h : Heap) (v : JsValue) (h' : Heap) :
  mapRpcError decodeBase64 (VRpcError e) abort onError callSiteStack h = Ok (v, h') →
  ∃ error, v = VGrpcError error
           ∧ onError_calls h' = onError_calls h ++ (if onError then [error] else []).
Proof.
  simpl. destruct (aborted abort) eqn:Hab.
  - intros [= <- <-]. eexists. split; [ done | ].
    unfold call_onError. destruct onError; simpl; [ done | by rewrite app_nil_r ].
  - destruct (parseRichErrorDetails decodeBase64 (rpc_meta e)) as [parsed| |];
      simpl; [ | done | done ].
    assert (Hcalls : ∀ opts, onError_calls (error_for_code (rpc_code e) opts h).2
                             = onError_calls h).
    { intros opts. unfold error_for_code. by repeat case_match. }
    specialize (Hcalls (Some (mkGrpcErrorOptions (options_details parsed) (Some e)))).
    destruct (error_for_code _ _ _) as [error h1]. simpl in Hcalls.
    intros [= <- <-]. eexists. split; [ done | ].
    unfold call_onError. destruct onError; simpl; rewrite Hcalls;
      [ done | by rewrite app_nil_r ].
Qed.

(** Any other value leaves the calls of [onError] as they are. *)
Lemma mapRpcError_other_reports (e : JsValue) (abort : option bool) (onError : bool)
    (callSiteStack : option string) (h : Heap) (v : JsValue) (h' : Heap) :
  (∀ w, e ≠ VRpcError w) →
  mapRpcError decodeBase64 e abort onError callSiteStack h = Ok (v, h') →
  onError_calls h' = onError_calls h.
Proof.
  destruct e as [w|g|ref|ref]; simpl.
  - intros Hne. by destruct (Hne w).
  - by intros _ [= _ <-].
  - by intros _ [= _ <-].
  - by intros _ [= _ <-].
Qed.

Context {I O : Type}.
Variables (config : ErrorInterceptorConfig) (options : RpcOptions)
  (callSiteStack : option string).

Lemma map_settlement_typed {V : Type} (p d : Settlement V) (h h' : Heap) :
  map_settlement decodeBase64 config options callSiteStack p h = Ok (d, h') →
  typed d.
Proof.
  destruct p as [|v|e]; simpl.
  - by intros [= <- _].
  - by intros [= <- _].
  - destruct (mapRpcError decodeBase64 e (abort options) (onError config)
                callSiteStack h) as [[error h1]| |] eqn:Hmap; simpl; [ | done | done ].
    intros [= <- _]. simpl. by eapply mapRpcError_is_mapped.
Qed.

Lemma map_settlement_mapped {V : Type} (p : Settlement V) (h : Heap) :
  typed p → map_settlement decodeBase64 config options callSiteStack p h = Ok (p, h).
Proof.
  destruct p as [|v|e]; simpl; [ done | done | ].
  intros He. by rewrite mapRpcError_mapped.
Qed.

Lemma follows_typed {V : Type} (p d : Settlement V) :
  follows decodeBase64 config options callSiteStack p d → typed d.
Proof. intros [ -> | (h & h' & Hmap) ]; [ done | by eapply map_settlement_typed ]. Qed.

Lemma forward_responses_forwarded (events : list (StreamEvent O)) (h : Heap) :
  ∃ events' h',
    forward_responses decodeBase64 config options callSiteStack events h
    = Ok (events', h')
    ∧ Forall2 forwarded events events'.
Proof.
  revert h. induction events as [|event events IH]; intros h; simpl.
  - do 2 eexists. split; [ done | constructor ].
  - destruct event as [message|error|].
    + simpl. destruct (IH h) as (events' & h' & -> & Hfw). simpl.
      do 2 eexists. split; [ done | ]. by constructor.
    + destruct (mapRpcError_ok decodeBase64 error (abort options) (onError config)
                  callSiteStack h) as (error' & h1 & Hmap).
      rewrite Hmap. simpl.
      destruct (IH h1) as (events' & h' & -> & Hfw). simpl.
      do 2 eexists. split; [ done | ]. constructor; [ | done ]. simpl. split.
      * by eapply mapRpcError_is_mapped.
      * intros Hm. rewrite mapRpcError_mapped in Hmap by done. by injection Hmap as <- _.
    + simpl. destruct (IH h) as (events' & h' & -> & Hfw). simpl.
      do 2 eexists. split; [ done | ]. by constructor.
Qed.

Lemma forwarded_typed (events events' : list (StreamEvent O)) :
  Forall2 forwarded events events' → Forall typed_event events'.
Proof.
  induction 1 as [|event event' events events' Hfw _ IH]; constructor; [ | done ].
  destruct event, event'; simpl in *; try done. by destruct Hfw.
Qed.

Lemma forward_responses_typed (events : list (StreamEvent O)) (h : Heap) :
  Forall typed_event events →
  forward_responses decodeBase64 config options callSiteStack events h
  = Ok (events, h).
Proof.
  induction 1 as [|event events Hev _ IH]; simpl; [ done | ].
  destruct event as [message|error|]; simpl in *.
  - by rewrite IH.
  - rewrite mapRpcError_mapped by done. simpl. by rewrite IH.
  - by rewrite IH.
Qed.

(** X7. With the error-mapping interceptor, no promise of a unary, a
    client-streaming or a duplex call rejects with a wire error, and no
    error of the response stream of a duplex call is one: every rejection
    is a typed error, or the error that was thrown when that was no wire
    error. *)
Theorem rejections_are_never_wire_errors
    (nextUnary : MethodInfo → I → RpcOptions → UnaryCall I O)
    (nextClient : MethodInfo → RpcOptions → ClientStreamingCall O)
    (nextDuplex : MethodInfo → RpcOptions → DuplexStreamingCall O)
    (method : MethodInfo) (input : I) (order : list Channel) (h : Heap) :
  (∃ call h',
     interceptUnary decodeBase64 config nextUnary method input options
       callSiteStack h = Ok (call, h')
     ∧ typed (unary_headers call) ∧ typed (unary_response call)
     ∧ typed (unary_status call) ∧ typed (unary_trailers call))
  ∧ (∃ call h',
       interceptClientStreaming decodeBase64 config nextClient method options
         callSiteStack order h = Ok (call, h')
       ∧ typed (client_headers call) ∧ typed (client_response call)
       ∧ typed (client_status call) ∧ typed (client_trailers call))
  ∧ (∃ call h',
       interceptDuplex decodeBase64 config nextDuplex method options
         callSiteStack order h = Ok (call, h')
       ∧ typed (duplex_headers call) ∧ typed (duplex_status call)
       ∧ typed (duplex_trailers call)
       ∧ Forall typed_event (duplex_responses call)).
Proof.
  split; [ | split ].
  - unfold interceptUnary.
    destruct (await_unary (nextUnary method input options)) as [|res|e].
    + by do 2 eexists.
    + by do 2 eexists.
    + destruct (mapRpcError_ok decodeBase64 e (abort options) (onError config)
                  callSiteStack h) as (error & h' & Hmap).
      rewrite Hmap. simpl. do 2 eexists. split; [ done | ].
      apply mapRpcError_is_mapped in Hmap. by repeat split.
  - destruct (interceptClientStreaming_follows decodeBase64 config options
                callSiteStack nextClient method order h)
      as (call & h' & Hcall & Hh & Hr & Hs & Ht & _).
    exists call, h'. split; [ done | ]. repeat split; by eapply follows_typed.
  - unfold interceptDuplex.
    destruct (settle_client_all_follows decodeBase64 config options callSiteStack
                (duplex_promises (nextDuplex method options)) order
                (mkClientDeferreds Pending Pending Pending Pending) h
                (deferreds_follow_init _ _ _ _ _))
      as (d & h1 & -> & Hh & _ & Hs & Ht).
    simpl.
    destruct (forward_responses_forwarded
                (duplex_responses (nextDuplex method options)) h1)
      as (events & h' & -> & Hfw).
    simpl. do 2 eexists. split; [ done | ].
    repeat split; try (by eapply follows_typed). by eapply forwarded_typed.
Qed.
End mapped_errors.

(** ** Error-mapping hooks, one over another, and the calls of [onError] *)

Section error_hook_composition.
Import ErrorInterceptor.
Variable decodeBase64 : string → option (list byte).
Context {I O : Type}.
Variables (config : ErrorInterceptorConfig) (options : RpcOptions)
  (callSiteStack : option string).

(** X8. A second error-mapping interceptor around a first one changes
    nothing: given the call the first hook returned, the unary and the
    server-streaming hook return that call again, promise for promise and
    event for event, create no error and call [onError] no more. *)
Theorem stacked_error_hooks_map_once (config' : ErrorInterceptorConfig)
    (callSiteStack' : option string)
    (nextUnary : MethodInfo → I → RpcOptions → UnaryCall I O)
    (nextServer : MethodInfo → I → RpcOptions → ServerStreamingCall I O)
    (method : MethodInfo) (input : I) (h : Heap)
    (unaryCall : UnaryCall I O) (h1 : Heap)
    (serverCall : ServerStreamingCall I O) (h2 : Heap) :
  interceptUnary decodeBase64 config nextUnary method input options
    callSiteStack h = Ok (unaryCall, h1) →
  interceptServerStreaming decodeBase64 config nextServer method input options
    callSiteStack h = Ok (serverCall, h2) →
  interceptUnary decodeBase64 config' (λ _ _ _, unaryCall) method input options
    callSiteStack' h1 = Ok (unaryCall, h1)
  ∧ interceptServerStreaming decodeBase64 config' (λ _ _ _, serverCall) method input
      options callSiteStack' h2 = Ok (serverCall, h2).
Proof.
  intros Hunary Hserver. split.
  - revert Hunary. unfold interceptUnary at 1.
    destruct (await_unary (nextUnary method input options)) as [|res|e].
    + by intros [= <- <-].
    + by intros [= <- <-].
    + destruct (mapRpcError decodeBase64 e (abort options) (onError config)
                  callSiteStack h) as [[error h']| |] eqn:Hmap; simpl; [ | done | done ].
      intros [= <- <-]. apply mapRpcError_is_mapped in Hmap.
      unfold interceptUnary, await_unary. simpl.
      by rewrite mapRpcError_mapped.
  - revert Hserver. unfold interceptServerStreaming at 1.
    destruct (forward_responses_forwarded decodeBase64 config options callSiteStack
                (server_responses (nextServer method input options)) h)
      as (events & h' & -> & Hfw).
    simpl. intros [= <- <-]. unfold interceptServerStreaming. simpl.
    by rewrite (forward_responses_typed decodeBase64 config' options callSiteStack'
                  events h' (forwarded_typed _ _ Hfw)).
Qed.

(** What the listener passes on, event by event. *)
Lemma forward_responses_mapped (events : list (StreamEvent O)) (h : Heap) :
  ∃ events' h',
    forward_responses decodeBase64 config options callSiteStack events h
    = Ok (events', h')
    ∧ Forall2 (mapped_event decodeBase64 config options callSiteStack)
        events events'.
Proof.
  revert h. induction events as [|event events IH]; intros h; simpl.
  - do 2 eexists. split; [ done | constructor ].
  - destruct event as [message|error|].
    + simpl. destruct (IH h) as (events' & h' & -> & Hfw). simpl.
      do 2 eexists. split; [ done | ]. by constructor.
    + destruct (mapRpcError_ok decodeBase64 error (abort options) (onError config)
                  callSiteStack h) as (error' & h1 & Hmap).
      rewrite Hmap. simpl.
      destruct (IH h1) as (events' & h' & -> & Hfw). simpl.
      do 2 eexists. split; [ done | ]. constructor; [ | done ].
      simpl. by exists h, h1.
    + simpl. destruct (IH h) as (events' & h' & -> & Hfw). simpl.
      do 2 eexists. split; [ done | ]. by constructor.
Qed.

(** X9. In the server-streaming hook only the response stream is mapped:
    the hook returns the promises of headers, status and trailers of the
    real call as they are, so that a wire error on one of them reaches the
    caller as it is; of the response stream it passes on, one for one and
    in order, a message and the end of the stream as they come, and for an
    error what a call of [mapRpcError] returns for it. *)
Theorem server_streaming_maps_the_stream_only
    (next : MethodInfo → I → RpcOptions → ServerStreamingCall I O)
    (method : MethodInfo) (input : I) (h : Heap) :
  ∃ call h',
    interceptServerStreaming decodeBase64 config next method input options
      callSiteStack h = Ok (call, h')
    ∧ server_headers call = server_headers (next method input options)
    ∧ server_status call = server_status (next method input options)
    ∧ server_trailers call = server_trailers (next method input options)
    ∧ Forall2 (mapped_event decodeBase64 config options callSiteStack)
        (server_responses (next method input options)) (server_responses call).
Proof.
  unfold interceptServerStreaming.
  destruct (forward_responses_mapped
              (server_responses (next method input options)) h)
    as (events & h' & -> & Hfw).
  simpl. by do 2 eexists.
Qed.

(** The calls of [onError] of one pair of handlers. *)
Lemma map_settlement_reports {V : Type} (p d : Settlement V) (h h' : Heap) :
  map_settlement decodeBase64 config options callSiteStack p h = Ok (d, h') →
  onError_calls h'
  = onError_calls h
    ++ (if onError config && wire_rejected p then option_list (rejection_error d)
        else [])
  ∧ (wire_rejected p = true → is_Some (rejection_error d)).
Proof.
  destruct p as [|v|e]; simpl.
  - intros [= <- <-]. rewrite andb_false_r, app_nil_r. done.
  - intros [= <- <-]. rewrite andb_false_r, app_nil_r. done.
  - destruct (mapRpcError decodeBase64 e (abort options) (onError config)
                callSiteStack h) as [[error h1]| |] eqn:Hmap; simpl; [ | done | done ].
    intros [= <- <-]. destruct e as [w|g|ref|ref].
    + apply mapRpcError_wire_reports in Hmap as (g & -> & ->). simpl.
      rewrite andb_true_r. split; [ by destruct (onError config) | by eexists ].
    + apply mapRpcError_other_reports in Hmap; [ | done ].
      rewrite Hmap, andb_false_r, app_nil_r. done.
    + apply mapRpcError_other_reports in Hmap; [ | done ].
      rewrite Hmap, andb_false_r, app_nil_r. done.
    + apply mapRpcError_other_reports in Hmap; [ | done ].
      rewrite Hmap, andb_false_r, app_nil_r. done.
Qed.

Lemma wire_rejected_erase {V : Type} (p : Settlement V) :
  wire_rejected (erase p) = wire_rejected p.
Proof. by destruct p. Qed.

Lemma rejection_error_erase {V : Type} (p : Settlement V) :
  rejection_error (erase p) = rejection_error p.
Proof. by destruct p. Qed.

Lemma erase_pending {V : Type} (p : Settlement V) : erase p = Pending ↔ p = Pending.
Proof. by destruct p. Qed.

(** One step of the settlement: the other channels stay as they are; a
    channel that is settled stays as it is; a pending one is settled by
    its pair of handlers. *)
Lemma settle_client_view (call : ClientStreamingCall O) (channel : Channel)
    (d : ClientDeferreds O) (h : Heap) (d' : ClientDeferreds O) (h' : Heap) :
  settle_client decodeBase64 config options callSiteStack call channel d h
  = Ok (d', h') →
  (∀ c, c ≠ channel → deferred_view d' c = deferred_view d c)
  ∧ (deferred_view d channel = Pending →
     onError_calls h'
     = onError_calls h
       ++ (if onError config && promise_wire_rejected call channel
           then option_list (deferred_error d' channel) else [])
     ∧ (promise_wire_rejected call channel = true →
        is_Some (deferred_error d' channel))).
Proof.
  unfold promise_wire_rejected, deferred_error.
  destruct channel; simpl.
  - destruct (headersDeferred d) eqn:Hd;
      [ | intros [= <- <-]; split; [ done | by rewrite Hd ].. ].
    destruct (map_settlement decodeBase64 config options callSiteStack
                (client_headers call) h) as [[p h1]| |] eqn:Hp; simpl; [ | done | done ].
    intros [= <- <-]. apply map_settlement_reports in Hp. simpl.
    rewrite wire_rejected_erase, rejection_error_erase.
    split; [ by intros [] | done ].
  - destruct (responseDeferred d) eqn:Hd;
      [ | intros [= <- <-]; split; [ done | by rewrite Hd ].. ].
    destruct (map_settlement decodeBase64 config options callSiteStack
                (client_response call) h) as [[p h1]| |] eqn:Hp; simpl; [ | done | done ].
    intros [= <- <-]. apply map_settlement_reports in Hp. simpl.
    rewrite wire_rejected_erase, rejection_error_erase.
    split; [ by intros [] | done ].
  - destruct (statusDeferred d) eqn:Hd;
      [ | intros [= <- <-]; split; [ done | by rewrite Hd ].. ].
    destruct (map_settlement decodeBase64 config options callSiteStack
                (client_status call) h) as [[p h1]| |] eqn:Hp; simpl; [ | done | done ].
    intros [= <- <-]. apply map_settlement_reports in Hp. simpl.
    rewrite wire_rejected_erase, rejection_error_erase.
    split; [ by intros [] | done ].
  - destruct (trailersDeferred d) eqn:Hd;
      [ | intros [= <- <-]; split; [ done | by rewrite Hd ].. ].
    destruct (map_settlement decodeBase64 config options callSiteStack
                (client_trailers call) h) as [[p h1]| |] eqn:Hp; simpl; [ | done | done ].
    intros [= <- <-]. apply map_settlement_reports in Hp. simpl.
    rewrite wire_rejected_erase, rejection_error_erase.
    split; [ by intros [] | done ].
Qed.

Lemma settle_client_all_other (call : ClientStreamingCall O) (order : list Channel)
    (d : ClientDeferreds O) (h : Heap) (d' : ClientDeferreds O) (h' : Heap) :
  settle_client_all decodeBase64 config options callSiteStack call order d h
  = Ok (d', h') →
  ∀ c, c ∉ order → deferred_view d' c = deferred_view d c.
Proof.
  revert d h. induction order as [|channel order IH]; intros d h; simpl.
  - by intros [= <- <-].
  - destruct (settle_client decodeBase64 config options callSiteStack call channel d h)
      as [[d1 h1]| |] eqn:Hstep; simpl; [ | done | done ].
    intros Hrest c Hc. apply not_elem_of_cons in Hc as [Hne Hc].
    rewrite (IH d1 h1 Hrest c Hc).
    by apply (settle_client_view call channel d h d1 h1 Hstep).
Qed.

Lemma settle_client_all_reports (call : ClientStreamingCall O) (order : list Channel)
    (d : ClientDeferreds O) (h : Heap) (d' : ClientDeferreds O) (h' : Heap) :
  NoDup order →
  (∀ c, c ∈ order → deferred_view d c = Pending) →
  settle_client_all decodeBase64 config options callSiteStack call order d h
  = Ok (d', h') →
  onError_calls h'
  = onError_calls h ++ (if onError config then reported call d' order else [])
  ∧ length (reported call d' order)
    = length (filter (λ c, promise_wire_rejected call c = true) order).
Proof.
  intros Hnd. revert d h.
  induction Hnd as [|channel order Hnotin Hnd IH]; intros d h Hpending; simpl.
  - intros [= <- <-]. by destruct (onError config); rewrite app_nil_r.
  - destruct (settle_client decodeBase64 config options callSiteStack call channel d h)
      as [[d1 h1]| |] eqn:Hstep; simpl; [ | done | done ].
    intros Hrest.
    destruct (settle_client_view call channel d h d1 h1 Hstep) as [Hother Hthis].
    destruct (Hthis (Hpending channel ltac:(by left))) as [Hcalls Hsome].
    destruct (IH d1 h1) as [Hcalls' Hlen]; [ | done | ].
    { intros c Hc. rewrite Hother; [ apply Hpending; by right | ].
      intros ->. by apply Hnotin. }
    assert (Hsame : deferred_error d' channel = deferred_error d1 channel).
    { unfold deferred_error.
      by rewrite (settle_client_all_other call order d1 h1 d' h' Hrest channel Hnotin). }
    unfold reported in *. cbn [omap list_omap]. rewrite filter_cons.
    rewrite Hcalls', Hcalls, Hsame.
    destruct (promise_wire_rejected call channel) eqn:Hwire.
    + destruct (Hsome eq_refl) as [error Herror]. rewrite Herror.
      rewrite decide_True by done. simpl. split; [ | by rewrite Hlen ].
      rewrite andb_true_r. destruct (onError config); simpl.
      * by rewrite <- app_assoc.
      * by rewrite !app_nil_r.
    + rewrite decide_False by done. split; [ | done ].
      rewrite andb_false_r, app_nil_r. done.
Qed.

(** The rejection the unary hook catches is the rejection of one of the
    promises of the real call, and there is one when a promise is
    rejected. *)
Lemma await_unary_rejected (call : UnaryCall I O) (reason : JsValue) :
  await_unary call = Rejected reason → Rejected reason ∈ unary_promises call.
Proof.
  unfold await_unary, unary_promises.
  destruct (unary_headers call) as [|hd|r1], (unary_response call) as [|rs|r2],
           (unary_status call) as [|st|r3], (unary_trailers call) as [|tr|r4];
    simpl; intros [= <-]; set_solver.
Qed.

Lemma await_unary_rejects (call : UnaryCall I O) :
  Exists (λ p, is_rejected p = true) (unary_promises call) →
  ∃ reason, await_unary call = Rejected reason.
Proof.
  unfold await_unary, unary_promises. rewrite !Exists_cons, Exists_nil.
  destruct (unary_headers call) as [|hd|r1], (unary_response call) as [|rs|r2],
           (unary_status call) as [|st|r3], (unary_trailers call) as [|tr|r4];
    simpl; intros Hex; first [ by eexists | by destruct Hex as [?|[?|[?|[?|[]]]]] ].
Qed.

(** X10. [onError] is called once for every promise of the real call that
    rejects with a wire error and whose rejection is handled, with the typed
    error that takes its place.  The unary hook handles one rejection, the
    first: it calls [onError] at most once; not at all when no promise of
    the real call rejects with a wire error; and when a promise rejects and
    every rejection is a wire error, once, with the one typed error that
    rejects the four promises it returns.  The client-streaming hook handles
    every promise: it calls [onError] once for each promise rejected with a
    wire error, in the order in which the handlers run. *)
Theorem onError_is_called_for_each_rejected_promise
    (nextUnary : MethodInfo → I → RpcOptions → UnaryCall I O)
    (nextClient : MethodInfo → RpcOptions → ClientStreamingCall O)
    (method : MethodInfo) (input : I) (order : list Channel) (h : Heap) :
  NoDup order →
  (∃ call h',
     interceptUnary decodeBase64 config nextUnary method input options
       callSiteStack h = Ok (call, h')
     ∧ (length (onError_calls h') ≤ S (length (onError_calls h)))%nat
     ∧ (Forall (λ p, wire_rejected p = false)
          (unary_promises (nextUnary method input options)) →
        onError_calls h' = onError_calls h)
     ∧ (Exists (λ p, is_rejected p = true)
          (unary_promises (nextUnary method input options)) →
        Forall (λ p, is_rejected p = wire_rejected p)
          (unary_promises (nextUnary method input options)) →
        ∃ error,
          unary_rejections call (λ _, VGrpcError error)
          ∧ onError_calls h'
            = onError_calls h ++ (if onError config then [error] else [])))
  ∧ (∃ call h',
       interceptClientStreaming decodeBase64 config nextClient method options
         callSiteStack order h = Ok (call, h')
       ∧ onError_calls h'
         = onError_calls h
           ++ (if onError config
               then reported (nextClient method options) (client_deferreds call) order
               else [])
       ∧ length (reported (nextClient method options) (client_deferreds call) order)
         = length (filter (λ c, promise_wire_rejected (nextClient method options) c
                                = true) order)).
Proof.
  intros Hnd. split.
  - unfold interceptUnary.
    destruct (await_unary (nextUnary method input options)) as [|res|reason] eqn:Hawait.
    + do 2 eexists. split; [ done | ]. split; [ lia | ]. split; [ done | ].
      intros [r Hr]%await_unary_rejects. by rewrite Hawait in Hr.
    + do 2 eexists. split; [ done | ]. split; [ lia | ]. split; [ done | ].
      intros [r Hr]%await_unary_rejects. by rewrite Hawait in Hr.
    + apply await_unary_rejected in Hawait.
      destruct (mapRpcError_ok decodeBase64 reason (abort options) (onError config)
                  callSiteStack h) as (v & h' & Hmap).
      rewrite Hmap. simpl. do 2 eexists. split; [ done | ].
      destruct reason as [e|g|ref|ref].
      * apply mapRpcError_wire_reports in Hmap as (error & -> & Hcalls).
        split; [ rewrite Hcalls, length_app; destruct (onError config); simpl; lia | ].
        split.
        -- intros Hnone. rewrite Forall_forall in Hnone.
           by specialize (Hnone _ Hawait).
        -- intros _ _. by exists error.
      * apply mapRpcError_other_reports in Hmap as ->; [ | done ].
        split; [ lia | ]. split; [ done | ].
        intros _ Hall. rewrite Forall_forall in Hall. by specialize (Hall _ Hawait).
      * apply mapRpcError_other_reports in Hmap as ->; [ | done ].
        split; [ lia | ]. split; [ done | ].
        intros _ Hall. rewrite Forall_forall in Hall. by specialize (Hall _ Hawait).
      * apply mapRpcError_other_reports in Hmap as ->; [ | done ].
        split; [ lia | ]. split; [ done | ].
        intros _ Hall. rewrite Forall_forall in Hall. by specialize (Hall _ Hawait).
  - unfold interceptClientStreaming.
    destruct (settle_client_all_follows decodeBase64 config options callSiteStack
                (nextClient method options) order
                (mkClientDeferreds Pending Pending Pending Pending) h
                (deferreds_follow_init _ _ _ _ _))
      as (d & h' & Hsettle & _).
    destruct (settle_client_all_reports (nextClient method options) order
                (mkClientDeferreds Pending Pending Pending Pending) h d h' Hnd)
      as [Hcalls Hlen]; [ by intros [] | done | ].
    rewrite Hsettle. simpl. do 2 eexists. split; [ done | ].
    by destruct d.
Qed.
End error_hook_composition.

(** ** The trace of a mapped error *)

Section call_site_stack.
Import ErrorInterceptor.
Variable decodeBase64 : string → option (list byte).

Lemma split_lines_nonempty (s : string) : split_lines s ≠ [].
Proof. induction s as [|c s IH]; simpl; [ done | ]. by repeat case_match. Qed.

(** Splitting at line breaks is splitting each side of one of them. *)
Lemma split_lines_app (a b : string) :
  split_lines (a +:+ newline +:+ b) = split_lines a ++ split_lines b.
Proof.
  induction a as [|c a IH]; [ done | ]. simpl.
  destruct (Ascii.eqb c "010"); [ by rewrite IH | ].
  rewrite IH. pose proof (split_lines_nonempty a).
  by destruct (split_lines a).
Qed.

Lemma split_lines_single_lines (s : string) : Forall single_line (split_lines s).
Proof.
  induction s as [|c s IH]; simpl; [ by constructor | ].
  destruct (Ascii.eqb c "010") eqn:Hc; [ by constructor | ].
  pose proof (split_lines_nonempty s).
  destruct (split_lines s) as [|line lines]; [ done | ].
  apply Forall_cons in IH as [Hline Hlines]. constructor; [ | done ].
  unfold single_line in *. simpl. by rewrite Hc, Hline.
Qed.

(** [lines.join('\n').split('\n')] gives the lines back, but for no line
    at all. *)
Lemma split_lines_concat (lines : list string) :
  Forall single_line lines →
  split_lines (String.concat newline lines) = rejoined lines.
Proof.
  induction 1 as [|line lines Hline Hlines IH]; [ done | ].
  destruct lines as [|line' lines]; [ done | ].
  change (String.concat newline (line :: line' :: lines))
    with (line +:+ newline +:+ String.concat newline (line' :: lines)).
  by rewrite split_lines_app, IH, Hline.
Qed.

Lemma header_single_line (kind : ErrorClass) :
  single_line (class_name kind +:+ ": " +:+ spec_message kind).
Proof. by destruct kind. Qed.

Lemma applyCallSiteStack_lines (error : GrpcError) (stack : string) :
  truthy stack = true →
  single_line (error_name error +:+ ": " +:+ error_message error) →
  ∃ trace,
    error_stack (applyCallSiteStack error (Some stack)) = Some trace
    ∧ split_lines trace
      = (error_name error +:+ ": " +:+ error_message error)
        :: rejoined (drop 1 (split_lines stack)).
Proof.
  intros Hstack Hheader. unfold applyCallSiteStack. rewrite Hstack. simpl.
  eexists. split; [ done | ].
  rewrite split_lines_app, Hheader. simpl. f_equal.
  apply split_lines_concat, Forall_drop, split_lines_single_lines.
Qed.

(** X11. The trace of the typed error made of a wire error, when a trace
    was captured at the call site: its first line is the name and the
    message of the typed error, and below it come the lines of the captured
    trace but the first, all of them and in their order. *)
Theorem call_site_frames_are_kept (e : RpcError) (abort : option bool)
    (onError : bool) (stack : string) (h : Heap) :
  truthy stack = true →
  ∃ error h' trace,
    mapRpcError decodeBase64 (VRpcError e) abort onError (Some stack) h
    = Ok (VGrpcError error, h')
    ∧ error_stack error = Some trace
    ∧ split_lines trace
      = (error_name error +:+ ": " +:+ error_message error)
        :: rejoined (drop 1 (split_lines stack)).
Proof.
  intros Hstack. destruct (aborted abort) eqn:Hab.
  - rewrite mapRpcError_aborted by done.
    destruct (applyCallSiteStack_lines
                (mkGrpcError (next_ref h) AbortedError "AbortedError"
                   "Aborted by client" [] None None) stack Hstack)
      as (trace & Htrace & Hlines); [ done | ].
    pose proof (applyCallSiteStack_fields
                  (mkGrpcError (next_ref h) AbortedError "AbortedError"
                     "Aborted by client" [] None None) (Some stack)) as Hf.
    cbv zeta in Hf. destruct Hf as (_ & _ & Hname & Hmessage & _).
    do 3 eexists. split; [ done | ]. split; [ exact Htrace | ].
    by rewrite Hname, Hmessage.
  - destruct (mapRpcError_wire decodeBase64 e abort onError (Some stack) h Hab)
      as [details [_ Hmap]].
    cbv zeta in Hmap. rewrite Hmap.
    destruct (applyCallSiteStack_lines
                (mkGrpcError (next_ref h) (spec_kind (rpc_code e))
                   (class_name (spec_kind (rpc_code e)))
                   (spec_message (spec_kind (rpc_code e))) details (Some e) None)
                stack Hstack)
      as (trace & Htrace & Hlines); [ apply header_single_line | ].
    pose proof (applyCallSiteStack_fields
                  (mkGrpcError (next_ref h) (spec_kind (rpc_code e))
                     (class_name (spec_kind (rpc_code e)))
                     (spec_message (spec_kind (rpc_code e))) details (Some e) None)
                  (Some stack)) as Hf.
    cbv zeta in Hf. destruct Hf as (_ & _ & Hname & Hmessage & _).
    do 3 eexists. split; [ done | ]. split; [ exact Htrace | ].
    by rewrite Hname, Hmessage.
Qed.
End call_site_stack.

(** ** The metadata interceptor: what reaches the caller *)

(** A deferred that its handlers settle once, along a run. *)
Section slot.
Context {S E V : Type} (step : S → E → S) (get : S → Settlement V)
  (p : Settlement V) (hit : E → bool) (inv : S → Prop).
Hypothesis inv_step : ∀ s e, inv s → inv (step s e).
Hypothesis get_step :
  ∀ s e, inv s →
    get (step s e)
    = if hit e then MetadataInterceptor.settle_once (get s) p else get s.

Lemma settle_once_settled_as (deferred : Settlement V) :
  settled_as deferred p → MetadataInterceptor.settle_once deferred p = p.
Proof. intros [ -> | -> ]; [ done | by destruct p ]. Qed.

Lemma slot_inv (trace : list E) (s : S) : inv s → inv (fold_left step trace s).
Proof. revert s. induction trace as [|e trace IH]; intros s Hs; simpl; auto. Qed.

Lemma slot_settled_as (trace : list E) (s : S) :
  inv s → settled_as (get s) p → settled_as (get (fold_left step trace s)) p.
Proof.
  revert s. induction trace as [|e trace IH]; intros s Hs Hget; simpl; [ done | ].
  apply IH; [ by apply inv_step | ]. rewrite get_step by done.
  destruct (hit e); [ | done ]. right. by apply settle_once_settled_as.
Qed.

Lemma slot_fixed (trace : list E) (s : S) :
  inv s → get s = p → get (fold_left step trace s) = p.
Proof.
  revert s. induction trace as [|e trace IH]; intros s Hs Hget; simpl; [ done | ].
  apply IH; [ by apply inv_step | ]. rewrite get_step by done.
  destruct (hit e); [ | done ]. apply settle_once_settled_as. by right.
Qed.

Lemma slot_hit (trace : list E) (s : S) :
  inv s → settled_as (get s) p → Exists (λ e, hit e = true) trace →
  get (fold_left step trace s) = p.
Proof.
  intros Hs Hget Hex. revert s Hs Hget.
  induction Hex as [e trace He|e trace _ IH]; intros s Hs Hget; simpl.
  - apply slot_fixed; [ by apply inv_step | ].
    rewrite get_step, He by done. by apply settle_once_settled_as.
  - apply IH; [ by apply inv_step | ]. rewrite get_step by done.
    destruct (hit e); [ | done ]. right. by apply settle_once_settled_as.
Qed.

Lemma slot_miss (trace : list E) (s : S) :
  inv s → Forall (λ e, hit e = false) trace → get (fold_left step trace s) = get s.
Proof.
  intros Hs Hall. revert s Hs.
  induction Hall as [|e trace He _ IH]; intros s Hs; simpl; [ done | ].
  rewrite IH by (by apply inv_step). by rewrite get_step, He.
Qed.
End slot.

Section metadata_more.
Import MetadataInterceptor.
Context {I O : Type}.
Variables (config : MetadataInterceptorConfig) (method : MethodInfo)
  (options : RpcOptions).

(** The first job of the metadata promise in a trace. *)
Lemma first_metadata_job (trace : list (Event I)) :
  MetadataSettled ∈ trace →
  ∃ before after, trace = before ++ MetadataSettled :: after
                  ∧ MetadataSettled ∉ before.
Proof.
  induction trace as [|event trace IH]; [ by intros ?%elem_of_nil | ].
  intros Hin.
  assert (Hcase : event = MetadataSettled ∨ event ≠ MetadataSettled)
    by (destruct event; auto).
  destruct Hcase as [ -> | Hne ].
  - exists [], trace. split; [ done | apply not_elem_of_nil ].
  - apply elem_of_cons in Hin as [Heq|Hin]; [ by destruct Hne | ].
    destruct (IH Hin) as (before & after & -> & Hnot).
    exists (event :: before), after. split; [ done | ].
    apply not_elem_of_cons. by split.
Qed.

Section client.
Variable next : MethodInfo → RpcOptions → ClientStreamingCall O.

Lemma client_step_call (s : State I O (ClientStreamingCall O)) (event : Event I)
    (call : ClientStreamingCall O) :
  pendingCall s = Some call →
  let s' := client_step next method options s event in
  pendingCall s' = Some call
  ∧ headersDeferred s'
    = (if is_settled_job ch_headers event
       then settle_once (headersDeferred s) (client_headers call)
       else headersDeferred s)
  ∧ responseDeferred s'
    = (if is_settled_job ch_response event
       then settle_once (responseDeferred s) (client_response call)
       else responseDeferred s)
  ∧ statusDeferred s'
    = (if is_settled_job ch_status event
       then settle_once (statusDeferred s) (client_status call)
       else statusDeferred s)
  ∧ trailersDeferred s'
    = (if is_settled_job ch_trailers event
       then settle_once (trailersDeferred s) (client_trailers call)
       else trailersDeferred s).
Proof.
  intros Hcall. cbv zeta.
  destruct event as [message| | |channel|]; simpl;
    unfold send, complete, metadata_settled, call_settled; rewrite Hcall; simpl;
    try done.
  by destruct channel.
Qed.

(** The run from the job of the resolved metadata promise on. *)
Lemma client_run_call (before rest : list (Event I)) (resolved : RpcMetadata) :
  shouldIntercept config clientStreaming = true →
  resolveMetadata (metadata config) (mkMetadataContext clientStreaming method)
  = Resolved resolved →
  MetadataSettled ∉ before →
  client_run next method options (before ++ MetadataSettled :: rest)
    (interceptClientStreaming config next method options)
  = client_run next method options rest
      (on_resolved next (λ _, []) method options resolved
         (buffering (interceptClientStreaming config next method options)
            (sent_messages before) (caller_completed before))).
Proof.
  intros Hshould Hres Hnot. unfold client_run.
  rewrite fold_left_app. simpl. f_equal.
  rewrite (run_before next (λ _, []) method options
             (client_step next method options)); try done.
  - unfold metadata_settled, buffering, interceptClientStreaming.
    rewrite Hshould. simpl. by rewrite Hres.
  - apply client_step_before.
  - unfold interceptClientStreaming. by rewrite Hshould.
  - unfold interceptClientStreaming. by rewrite Hshould.
  - by left.
Qed.
End client.

Section duplex.
Variable next : MethodInfo → RpcOptions → DuplexStreamingCall O.

Lemma duplex_step_call (s : State I O (DuplexStreamingCall O)) (event : Event I)
    (call : DuplexStreamingCall O) :
  pendingCall s = Some call →
  let s' := duplex_step next method options s event in
  pendingCall s' = Some call
  ∧ headersDeferred s'
    = (if is_settled_job ch_headers event
       then settle_once (headersDeferred s) (duplex_headers call)
       else headersDeferred s)
  ∧ statusDeferred s'
    = (if is_settled_job ch_status event
       then settle_once (statusDeferred s) (duplex_status call)
       else statusDeferred s)
  ∧ trailersDeferred s'
    = (if is_settled_job ch_trailers event
       then settle_once (trailersDeferred s) (duplex_trailers call)
       else trailersDeferred s).
Proof.
  intros Hcall. cbv zeta.
  destruct event as [message| | |channel|]; simpl;
    unfold send, complete, metadata_settled, call_settled, call_next;
    rewrite ?Hcall; simpl; try done.
  - by destruct channel.
  - by destruct (undelivered s).
Qed.

Lemma duplex_run_call (before rest : list (Event I)) (resolved : RpcMetadata) :
  shouldIntercept config duplex = true →
  resolveMetadata (metadata config) (mkMetadataContext duplex method)
  = Resolved resolved →
  MetadataSettled ∉ before →
  duplex_run next method options (before ++ MetadataSettled :: rest)
    (interceptDuplex config next method options)
  = duplex_run next method options rest
      (on_resolved next duplex_responses method options resolved
         (buffering (interceptDuplex config next method options)
            (sent_messages before) (caller_completed before))).
Proof.
  intros Hshould Hres Hnot. unfold duplex_run.
  rewrite fold_left_app. simpl. f_equal.
  rewrite (run_before next duplex_responses method options
             (duplex_step next method options)); try done.
  - unfold metadata_settled, buffering, interceptDuplex.
    rewrite Hshould. simpl. by rewrite Hres.
  - apply duplex_step_before.
  - unfold interceptDuplex. by rewrite Hshould.
  - unfold interceptDuplex. by rewrite Hshould.
  - by left.
Qed.

(** The responses of the real call reach the response stream of the
    hook one by one, in their order. *)
Lemma duplex_run_delivers (rest : list (Event I))
    (s : State I O (DuplexStreamingCall O)) :
  is_Some (pendingCall s) →
  let s' := duplex_run next method options rest s in
  responseStream s' = responseStream s ++ take (count_next rest) (undelivered s)
  ∧ undelivered s' = drop (count_next rest) (undelivered s).
Proof.
  unfold duplex_run. revert s.
  induction rest as [|event rest IH]; intros s [call Hcall]; cbv zeta.
  - simpl. by rewrite take_0, app_nil_r, drop_0.
  - cbn [fold_left].
    destruct (duplex_step_call s event call Hcall) as (Hcall' & _).
    cbv zeta in Hcall'.
    destruct (IH (duplex_step next method options s event)) as [Hrs Hun];
      [ by eexists | ].
    cbv zeta in Hrs, Hun. rewrite Hrs, Hun.
    destruct event as [message| | |channel|]; simpl;
      unfold send, complete, metadata_settled, call_settled, call_next;
      rewrite ?Hcall; simpl; try done.
    destruct (undelivered s) as [|ev evs] eqn:Hund; simpl; rewrite ?Hund.
    + by rewrite take_nil, drop_nil.
    + simpl. by rewrite <- app_assoc.
Qed.
End duplex.
End metadata_more.

Section metadata_runs.
Import MetadataInterceptor.
Context {I O : Type}.
Variables (method : MethodInfo) (options : RpcOptions).

Lemma client_run_after (next : MethodInfo → RpcOptions → ClientStreamingCall O)
    (trace : list (Event I)) (s : State I O (ClientStreamingCall O)) :
  is_Some (pendingCall s) →
  let s' := client_run next method options trace s in
  received s' = received s ++ requests trace
  ∧ pendingMessages s' = pendingMessages s
  ∧ next_calls s' = next_calls s
  ∧ is_Some (pendingCall s').
Proof.
  apply (run_after next (λ _ : ClientStreamingCall O, @nil (StreamEvent O)) method
           options (client_step next method options)); try done.
  apply client_step_after.
Qed.

Lemma duplex_run_after (next : MethodInfo → RpcOptions → DuplexStreamingCall O)
    (trace : list (Event I)) (s : State I O (DuplexStreamingCall O)) :
  is_Some (pendingCall s) →
  let s' := duplex_run next method options trace s in
  received s' = received s ++ requests trace
  ∧ pendingMessages s' = pendingMessages s
  ∧ next_calls s' = next_calls s
  ∧ is_Some (pendingCall s').
Proof.
  apply (run_after next duplex_responses method options
           (duplex_step next method options)); try done.
  apply duplex_step_after.
Qed.

Section client_slots.
Variables (next : MethodInfo → RpcOptions → ClientStreamingCall O)
  (call : ClientStreamingCall O).

Abbreviation client_inv :=
  (λ s : State I O (ClientStreamingCall O), pendingCall s = Some call).

Lemma client_inv_step s e :
  client_inv s → client_inv (client_step next method options s e).
Proof. intros Hs. by apply client_step_call. Qed.

Lemma client_headers_step s e :
  client_inv s →
  headersDeferred (client_step next method options s e)
  = if is_settled_job ch_headers e
    then settle_once (headersDeferred s) (client_headers call)
    else headersDeferred s.
Proof. intros Hs. by apply client_step_call. Qed.

Lemma client_response_step s e :
  client_inv s →
  responseDeferred (client_step next method options s e)
  = if is_settled_job ch_response e
    then settle_once (responseDeferred s) (client_response call)
    else responseDeferred s.
Proof. intros Hs. by apply client_step_call. Qed.

Lemma client_status_step s e :
  client_inv s →
  statusDeferred (client_step next method options s e)
  = if is_settled_job ch_status e
    then settle_once (statusDeferred s) (client_status call)
    else statusDeferred s.
Proof. intros Hs. by apply client_step_call. Qed.

Lemma client_trailers_step s e :
  client_inv s →
  trailersDeferred (client_step next method options s e)
  = if is_settled_job ch_trailers e
    then settle_once (trailersDeferred s) (client_trailers call)
    else trailersDeferred s.
Proof. intros Hs. by apply client_step_call. Qed.
End client_slots.

Section duplex_slots.
Variables (next : MethodInfo → RpcOptions → DuplexStreamingCall O)
  (call : DuplexStreamingCall O).

Abbreviation duplex_inv :=
  (λ s : State I O (DuplexStreamingCall O), pendingCall s = Some call).

Lemma duplex_inv_step s e :
  duplex_inv s → duplex_inv (duplex_step next method options s e).
Proof. intros Hs. by apply duplex_step_call. Qed.

Lemma duplex_headers_step s e :
  duplex_inv s →
  headersDeferred (duplex_step next method options s e)
  = if is_settled_job ch_headers e
    then settle_once (headersDeferred s) (duplex_headers call)
    else headersDeferred s.
Proof. intros Hs. by apply duplex_step_call. Qed.

Lemma duplex_status_step s e :
  duplex_inv s →
  statusDeferred (duplex_step next method options s e)
  = if is_settled_job ch_status e
    then settle_once (statusDeferred s) (duplex_status call)
    else statusDeferred s.
Proof. intros Hs. by apply duplex_step_call. Qed.

Lemma duplex_trailers_step s e :
  duplex_inv s →
  trailersDeferred (duplex_step next method options s e)
  = if is_settled_job ch_trailers e
    then settle_once (trailersDeferred s) (duplex_trailers call)
    else trailersDeferred s.
Proof. intros Hs. by apply duplex_step_call. Qed.
End duplex_slots.
End metadata_runs.

(** X12. A call type that [callTypes] leaves out is passed through: the
    hook calls [next] once, with the options of the caller as they are, and
    what it returns is the call of [next]; for the two shapes with a request
    stream, whatever the caller and the event loop do, every request goes to
    the real call as it is made, nothing is buffered, and the promises and the
    response stream are those of the real call. *)
Theorem filtered_call_types_pass_through {I O : Type}
    (config : MetadataInterceptor.MetadataInterceptorConfig)
    (nextUnary : MethodInfo → I → RpcOptions → UnaryCall I O)
    (nextServer : MethodInfo → I → RpcOptions → ServerStreamingCall I O)
    (nextClient : MethodInfo → RpcOptions → ClientStreamingCall O)
    (nextDuplex : MethodInfo → RpcOptions → DuplexStreamingCall O)
    (method : MethodInfo) (input : I) (options : RpcOptions)
    (trace : list (MetadataInterceptor.Event I))
    (type : MetadataInterceptor.CallType) :
  MetadataInterceptor.shouldIntercept config type = false →
  match type with
  | MetadataInterceptor.unary =>
      MetadataInterceptor.interceptUnary config nextUnary method input options
      = (nextUnary method input options, [options])
  | MetadataInterceptor.serverStreaming =>
      MetadataInterceptor.interceptServerStreaming config nextServer method input options
      = (nextServer method input options, [options])
  | MetadataInterceptor.clientStreaming =>
      let call := nextClient method options in
      let s := MetadataInterceptor.client_run nextClient method options trace
                 (MetadataInterceptor.interceptClientStreaming config nextClient
                    method options) in
      MetadataInterceptor.next_calls s = [options]
      ∧ MetadataInterceptor.received s = requests trace
      ∧ MetadataInterceptor.pendingMessages s = []
      ∧ MetadataInterceptor.headersDeferred s = client_headers call
      ∧ MetadataInterceptor.responseDeferred s = client_response call
      ∧ MetadataInterceptor.statusDeferred s = client_status call
      ∧ MetadataInterceptor.trailersDeferred s = client_trailers call
  | MetadataInterceptor.duplex =>
      let call := nextDuplex method options in
      let s := MetadataInterceptor.duplex_run nextDuplex method options trace
                 (MetadataInterceptor.interceptDuplex config nextDuplex method options) in
      MetadataInterceptor.next_calls s = [options]
      ∧ MetadataInterceptor.received s = requests trace
      ∧ MetadataInterceptor.pendingMessages s = []
      ∧ MetadataInterceptor.headersDeferred s = duplex_headers call
      ∧ MetadataInterceptor.responseStream s = duplex_responses call
      ∧ MetadataInterceptor.statusDeferred s = duplex_status call
      ∧ MetadataInterceptor.trailersDeferred s = duplex_trailers call
  end.
Proof.
  intros Hshould. destruct type.
  - unfold MetadataInterceptor.interceptUnary. by rewrite Hshould.
  - unfold MetadataInterceptor.interceptServerStreaming. by rewrite Hshould.
  - cbv zeta. unfold MetadataInterceptor.interceptClientStreaming.
    rewrite Hshould. simpl.
    set (call := nextClient method options).
    match goal with
    | |- context [MetadataInterceptor.client_run _ _ _ _ ?s0] => set (s := s0)
    end.
    destruct (client_run_after method options nextClient trace s) as (Hr & Hm & Hn & _);
      [ by eexists | ].
    cbv zeta in Hr, Hm, Hn. rewrite Hr, Hm, Hn. repeat split; try done.
    + apply (slot_fixed _ _ _ _ _ (client_inv_step method options nextClient call)
               (client_headers_step method options nextClient call)); done.
    + apply (slot_fixed _ _ _ _ _ (client_inv_step method options nextClient call)
               (client_response_step method options nextClient call)); done.
    + apply (slot_fixed _ _ _ _ _ (client_inv_step method options nextClient call)
               (client_status_step method options nextClient call)); done.
    + apply (slot_fixed _ _ _ _ _ (client_inv_step method options nextClient call)
               (client_trailers_step method options nextClient call)); done.
  - cbv zeta. unfold MetadataInterceptor.interceptDuplex.
    rewrite Hshould. simpl.
    set (call := nextDuplex method options).
    match goal with
    | |- context [MetadataInterceptor.duplex_run _ _ _ _ ?s0] => set (s := s0)
    end.
    destruct (duplex_run_after method options nextDuplex trace s) as (Hr & Hm & Hn & _);
      [ by eexists | ].
    destruct (duplex_run_delivers method options nextDuplex trace s) as (Hrs & _);
      [ by eexists | ].
    cbv zeta in Hr, Hm, Hn, Hrs. rewrite Hr, Hm, Hn, Hrs. repeat split; try done.
    + apply (slot_fixed _ _ _ _ _ (duplex_inv_step method options nextDuplex call)
               (duplex_headers_step method options nextDuplex call)); done.
    + simpl. by rewrite take_nil, app_nil_r.
    + apply (slot_fixed _ _ _ _ _ (duplex_inv_step method options nextDuplex call)
               (duplex_status_step method options nextDuplex call)); done.
    + apply (slot_fixed _ _ _ _ _ (duplex_inv_step method options nextDuplex call)
               (duplex_trailers_step method options nextDuplex call)); done.
Qed.

(** X13. With the metadata interceptor, the promises of a unary call settle
    together, and so do the promises of headers, status and trailers of a
    server-streaming call: the hook awaits the real call as a whole.  When
    the real call fulfils all its promises, those of the returned call are
    fulfilled with the same values; when one of them rejects, all those of the
    returned call reject with that reason, a promise the real call fulfilled
    included; until then they are all pending.  The responses of a
    server-streaming call are passed on as they are. *)
Theorem intercepted_promises_settle_together {I O : Type}
    (config : MetadataInterceptor.MetadataInterceptorConfig)
    (nextUnary : MethodInfo → I → RpcOptions → UnaryCall I O)
    (nextServer : MethodInfo → I → RpcOptions → ServerStreamingCall I O)
    (method : MethodInfo) (input : I) (options : RpcOptions)
    (resolvedUnary resolvedServer : RpcMetadata) :
  MetadataInterceptor.shouldIntercept config MetadataInterceptor.unary = true →
  MetadataInterceptor.shouldIntercept config MetadataInterceptor.serverStreaming = true →
  MetadataInterceptor.resolveMetadata (MetadataInterceptor.metadata config)
    (MetadataInterceptor.mkMetadataContext MetadataInterceptor.unary method)
  = Resolved resolvedUnary →
  MetadataInterceptor.resolveMetadata (MetadataInterceptor.metadata config)
    (MetadataInterceptor.mkMetadataContext MetadataInterceptor.serverStreaming method)
  = Resolved resolvedServer →
  (let real :=
     nextUnary method input
       (MetadataInterceptor.with_meta options
          (MetadataInterceptor.merge_meta (meta options) resolvedUnary)) in
   let call :=
     (MetadataInterceptor.interceptUnary config nextUnary method input options).1 in
   match await_unary real with
   | Resolved _ =>
       unary_headers call = unary_headers real
       ∧ unary_response call = unary_response real
       ∧ unary_status call = unary_status real
       ∧ unary_trailers call = unary_trailers real
   | Rejected reason =>
       unary_headers call = Rejected reason
       ∧ unary_response call = Rejected reason
       ∧ unary_status call = Rejected reason
       ∧ unary_trailers call = Rejected reason
   | Pending =>
       unary_headers call = Pending ∧ unary_response call = Pending
       ∧ unary_status call = Pending ∧ unary_trailers call = Pending
   end)
  ∧ (let real :=
       nextServer method input
         (MetadataInterceptor.with_meta options
            (MetadataInterceptor.merge_meta (meta options) resolvedServer)) in
     let call :=
       (MetadataInterceptor.interceptServerStreaming config nextServer method input
          options).1 in
     server_responses call = server_responses real
     ∧ match await_server real with
       | Resolved _ =>
           server_headers call = server_headers real
           ∧ server_status call = server_status real
           ∧ server_trailers call = server_trailers real
       | Rejected reason =>
           server_headers call = Rejected reason
           ∧ server_status call = Rejected reason
           ∧ server_trailers call = Rejected reason
       | Pending =>
           server_headers call = Pending ∧ server_status call = Pending
           ∧ server_trailers call = Pending
       end).
Proof.
  intros Hunary Hserver HresU HresS. split; cbv zeta.
  - unfold MetadataInterceptor.interceptUnary. rewrite Hunary, HresU. simpl.
    unfold await_unary.
    destruct (unary_headers (nextUnary _ _ _)) as [|hd|r1],
             (unary_response (nextUnary _ _ _)) as [|rs|r2],
             (unary_status (nextUnary _ _ _)) as [|st|r3],
             (unary_trailers (nextUnary _ _ _)) as [|tr|r4]; by simpl.
  - unfold MetadataInterceptor.interceptServerStreaming. rewrite Hserver, HresS. simpl.
    split; [ done | ]. unfold await_server.
    destruct (server_headers (nextServer _ _ _)) as [|hd|r1],
             (server_status (nextServer _ _ _)) as [|st|r3],
             (server_trailers (nextServer _ _ _)) as [|tr|r4]; by simpl.
Qed.

Section metadata_before.
Import MetadataInterceptor.
Context {I O : Type}.
Variables (config : MetadataInterceptorConfig) (method : MethodInfo)
  (options : RpcOptions).

Lemma metadata_job_or_not (trace : list (Event I)) :
  MetadataSettled ∈ trace ∨ MetadataSettled ∉ trace.
Proof.
  induction trace as [|event trace [IH|IH]].
  - right. apply not_elem_of_nil.
  - left. by right.
  - destruct event; try (right; apply not_elem_of_cons; by split).
    left. by left.
Qed.

Lemma client_run_before (next : MethodInfo → RpcOptions → ClientStreamingCall O)
    (trace : list (Event I)) :
  shouldIntercept config clientStreaming = true →
  MetadataSettled ∉ trace →
  client_run next method options trace
    (interceptClientStreaming config next method options)
  = buffering (interceptClientStreaming config next method options)
      (sent_messages trace) (caller_completed trace).
Proof.
  intros Hshould Hnot. unfold client_run.
  apply (run_before next (λ _ : ClientStreamingCall O, @nil (StreamEvent O)) method
           options (client_step next method options)); try done.
  - apply client_step_before.
  - unfold interceptClientStreaming. by rewrite Hshould.
  - unfold interceptClientStreaming. by rewrite Hshould.
  - by left.
Qed.

Lemma duplex_run_before (next : MethodInfo → RpcOptions → DuplexStreamingCall O)
    (trace : list (Event I)) :
  shouldIntercept config duplex = true →
  MetadataSettled ∉ trace →
  duplex_run next method options trace (interceptDuplex config next method options)
  = buffering (interceptDuplex config next method options)
      (sent_messages trace) (caller_completed trace).
Proof.
  intros Hshould Hnot. unfold duplex_run.
  apply (run_before next duplex_responses method options
           (duplex_step next method options)); try done.
  - apply duplex_step_before.
  - unfold interceptDuplex. by rewrite Hshould.
  - unfold interceptDuplex. by rewrite Hshould.
  - by left.
Qed.

(** The real call of the client-streaming hook, for any trace. *)
Lemma client_pending_call (next : MethodInfo → RpcOptions → ClientStreamingCall O)
    (trace : list (Event I)) :
  shouldIntercept config clientStreaming = true →
  let s := client_run next method options trace
             (interceptClientStreaming config next method options) in
  (MetadataSettled ∈ trace
   ∧ ∃ resolved,
       resolveMetadata (metadata config) (mkMetadataContext clientStreaming method)
       = Resolved resolved
       ∧ pendingCall s
         = Some (next method
                   (with_meta options (merge_meta (meta options) resolved)))
       ∧ next_calls s = [with_meta options (merge_meta (meta options) resolved)])
  ∨ (¬ (MetadataSettled ∈ trace
        ∧ ∃ resolved,
            resolveMetadata (metadata config)
              (mkMetadataContext clientStreaming method) = Resolved resolved)
     ∧ pendingCall s = None ∧ next_calls s = []).
Proof.
  intros Hshould. cbv zeta.
  assert (Hinit : pendingCall (interceptClientStreaming (I:=I) config next method
                                 options) = None
                  ∧ next_calls (interceptClientStreaming (I:=I) config next method
                                  options) = []).
  { unfold interceptClientStreaming. by rewrite Hshould. }
  destruct Hinit as [Hcall Hcalls].
  destruct (metadata_job_or_not trace) as [Hin|Hnot].
  - destruct (resolveMetadata (metadata config)
                (mkMetadataContext clientStreaming method)) as [|resolved|reason] eqn:Hres.
    + right. split; [ by intros [_ [? ?]] | ].
      rewrite client_run_unresolved by (done || by rewrite Hres). done.
    + left. split; [ done | ]. exists resolved. split; [ done | ].
      destruct (first_metadata_job trace Hin) as (before & after & -> & Hbefore).
      split; [ by apply client_run_resolved_call | ].
      by destruct (client_run_resolved config method options next before after
                     resolved Hshould Hres Hbefore) as (_ & _ & ->).
    + right. split; [ by intros [_ [? ?]] | ].
      rewrite client_run_unresolved by (done || by rewrite Hres). done.
  - right. split; [ by intros [? _] | ].
    by rewrite client_run_before.
Qed.

Lemma duplex_pending_call (next : MethodInfo → RpcOptions → DuplexStreamingCall O)
    (trace : list (Event I)) :
  shouldIntercept config duplex = true →
  let s := duplex_run next method options trace
             (interceptDuplex config next method options) in
  (MetadataSettled ∈ trace
   ∧ ∃ resolved,
       resolveMetadata (metadata config) (mkMetadataContext duplex method)
       = Resolved resolved
       ∧ pendingCall s
         = Some (next method
                   (with_meta options (merge_meta (meta options) resolved)))
       ∧ next_calls s = [with_meta options (merge_meta (meta options) resolved)])
  ∨ (¬ (MetadataSettled ∈ trace
        ∧ ∃ resolved,
            resolveMetadata (metadata config) (mkMetadataContext duplex method)
            = Resolved resolved)
     ∧ pendingCall s = None ∧ next_calls s = []).
Proof.
  intros Hshould. cbv zeta.
  assert (Hinit : pendingCall (interceptDuplex (I:=I) config next method options)
                  = None
                  ∧ next_calls (interceptDuplex (I:=I) config next method options)
                    = []).
  { unfold interceptDuplex. by rewrite Hshould. }
  destruct Hinit as [Hcall Hcalls].
  destruct (metadata_job_or_not trace) as [Hin|Hnot].
  - destruct (resolveMetadata (metadata config)
                (mkMetadataContext duplex method)) as [|resolved|reason] eqn:Hres.
    + right. split; [ by intros [_ [? ?]] | ].
      rewrite duplex_run_unresolved by (done || by rewrite Hres). done.
    + left. split; [ done | ]. exists resolved. split; [ done | ].
      destruct (first_metadata_job trace Hin) as (before & after & -> & Hbefore).
      split; [ by apply duplex_run_resolved_call | ].
      by destruct (duplex_run_resolved config method options next before after
                     resolved Hshould Hres Hbefore) as (_ & _ & ->).
    + right. split; [ by intros [_ [? ?]] | ].
      rewrite duplex_run_unresolved by (done || by rewrite Hres). done.
  - right. split; [ by intros [? _] | ].
    by rewrite duplex_run_before.
Qed.

(** The real call of a hook that does not intercept, for any trace. *)
Lemma client_passed_call (next : MethodInfo → RpcOptions → ClientStreamingCall O)
    (trace : list (Event I)) :
  shouldIntercept config clientStreaming = false →
  let s := client_run next method options trace
             (interceptClientStreaming config next method options) in
  pendingCall s = Some (next method options) ∧ next_calls s = [options].
Proof.
  intros Hshould. cbv zeta. unfold interceptClientStreaming. rewrite Hshould. simpl.
  split.
  - apply (run_keeps_call next (λ _ : ClientStreamingCall O, @nil (StreamEvent O))
             method options (client_step next method options)); try done.
    apply client_step_after.
  - match goal with
    | |- context [client_run _ _ _ _ ?s0] =>
        destruct (client_run_after method options next trace s0)
          as (_ & _ & Hn & _); [ by eexists | ]
    end.
    cbv zeta in Hn. by rewrite Hn.
Qed.

Lemma duplex_passed_call (next : MethodInfo → RpcOptions → DuplexStreamingCall O)
    (trace : list (Event I)) :
  shouldIntercept config duplex = false →
  let s := duplex_run next method options trace
             (interceptDuplex config next method options) in
  pendingCall s = Some (next method options) ∧ next_calls s = [options].
Proof.
  intros Hshould. cbv zeta. unfold interceptDuplex. rewrite Hshould. simpl.
  split.
  - apply (run_keeps_call next duplex_responses method options
             (duplex_step next method options)); try done.
    apply duplex_step_after.
  - match goal with
    | |- context [duplex_run _ _ _ _ ?s0] =>
        destruct (duplex_run_after method options next trace s0)
          as (_ & _ & Hn & _); [ by eexists | ]
    end.
    cbv zeta in Hn. by rewrite Hn.
Qed.
End metadata_before.

(** X14. Whatever the caller and the event loop do, the client-streaming
    and the duplex hook of the metadata interceptor make the real call at most
    once.  A hook that intercepts holds no real call until the metadata
    promise is resolved and its job has run, and from then on the one call of
    [next] with the options of the caller under the merged metadata; it holds
    none, for ever, when the metadata promise is not resolved.  A hook that
    does not intercept holds the call of [next] with the options of the caller
    from the start.  The call a hook holds is the only one it has made. *)
Theorem next_is_called_at_most_once {I O : Type}
    (config : MetadataInterceptor.MetadataInterceptorConfig)
    (nextClient : MethodInfo → RpcOptions → ClientStreamingCall O)
    (nextDuplex : MethodInfo → RpcOptions → DuplexStreamingCall O)
    (method : MethodInfo) (options : RpcOptions)
    (trace : list (MetadataInterceptor.Event I)) :
  let client :=
    MetadataInterceptor.client_run nextClient method options trace
      (MetadataInterceptor.interceptClientStreaming config nextClient method options) in
  let duplex :=
    MetadataInterceptor.duplex_run nextDuplex method options trace
      (MetadataInterceptor.interceptDuplex config nextDuplex method options) in
  (∃ made : option RpcOptions,
     MetadataInterceptor.pendingCall client = nextClient method <$> made
     ∧ MetadataInterceptor.next_calls client = option_list made
     ∧ (MetadataInterceptor.shouldIntercept config MetadataInterceptor.clientStreaming
        = false → made = Some options)
     ∧ (MetadataInterceptor.shouldIntercept config MetadataInterceptor.clientStreaming
        = true →
        (is_Some made ↔
         MetadataInterceptor.MetadataSettled ∈ trace
         ∧ ∃ resolved,
             MetadataInterceptor.resolveMetadata (MetadataInterceptor.metadata config)
               (MetadataInterceptor.mkMetadataContext
                  MetadataInterceptor.clientStreaming method) = Resolved resolved)
        ∧ ∀ called, made = Some called →
            ∃ resolved,
              MetadataInterceptor.resolveMetadata (MetadataInterceptor.metadata config)
                (MetadataInterceptor.mkMetadataContext
                   MetadataInterceptor.clientStreaming method) = Resolved resolved
              ∧ called = MetadataInterceptor.with_meta options
                           (MetadataInterceptor.merge_meta (meta options) resolved)))
  ∧ (∃ made : option RpcOptions,
       MetadataInterceptor.pendingCall duplex = nextDuplex method <$> made
       ∧ MetadataInterceptor.next_calls duplex = option_list made
       ∧ (MetadataInterceptor.shouldIntercept config MetadataInterceptor.duplex = false →
          made = Some options)
       ∧ (MetadataInterceptor.shouldIntercept config MetadataInterceptor.duplex = true →
          (is_Some made ↔
           MetadataInterceptor.MetadataSettled ∈ trace
           ∧ ∃ resolved,
               MetadataInterceptor.resolveMetadata (MetadataInterceptor.metadata config)
                 (MetadataInterceptor.mkMetadataContext MetadataInterceptor.duplex
                    method) = Resolved resolved)
          ∧ ∀ called, made = Some called →
              ∃ resolved,
                MetadataInterceptor.resolveMetadata
                  (MetadataInterceptor.metadata config)
                  (MetadataInterceptor.mkMetadataContext MetadataInterceptor.duplex
                     method) = Resolved resolved
                ∧ called = MetadataInterceptor.with_meta options
                             (MetadataInterceptor.merge_meta (meta options)
                                resolved))).
Proof.
  cbv zeta. split.
  - destruct (MetadataInterceptor.shouldIntercept config
                MetadataInterceptor.clientStreaming) eqn:Hshould.
    + destruct (client_pending_call config method options nextClient trace Hshould)
        as [(Hin & resolved & Hres & Hcall & Hcalls)|(Hnot & Hcall & Hcalls)];
        cbv zeta in Hcall, Hcalls.
      * eexists (Some _). split; [ exact Hcall | ]. split; [ exact Hcalls | ].
        split; [ done | ]. intros _. split.
        -- split; [ intros _; split; [ done | by exists resolved ] | by eexists ].
        -- intros called [= <-]. by exists resolved.
      * exists None. split; [ exact Hcall | ]. split; [ exact Hcalls | ].
        split; [ done | ]. intros _. split.
        -- split; [ by intros [? ?] | intros H; by destruct Hnot ].
        -- done.
    + destruct (client_passed_call config method options nextClient trace Hshould)
        as [Hcall Hcalls]. cbv zeta in Hcall, Hcalls.
      exists (Some options). by rewrite Hcall, Hcalls.
  - destruct (MetadataInterceptor.shouldIntercept config MetadataInterceptor.duplex)
      eqn:Hshould.
    + destruct (duplex_pending_call config method options nextDuplex trace Hshould)
        as [(Hin & resolved & Hres & Hcall & Hcalls)|(Hnot & Hcall & Hcalls)];
        cbv zeta in Hcall, Hcalls.
      * eexists (Some _). split; [ exact Hcall | ]. split; [ exact Hcalls | ].
        split; [ done | ]. intros _. split.
        -- split; [ intros _; split; [ done | by exists resolved ] | by eexists ].
        -- intros called [= <-]. by exists resolved.
      * exists None. split; [ exact Hcall | ]. split; [ exact Hcalls | ].
        split; [ done | ]. intros _. split.
        -- split; [ by intros [? ?] | intros H; by destruct Hnot ].
        -- done.
    + destruct (duplex_passed_call config method options nextDuplex trace Hshould)
        as [Hcall Hcalls]. cbv zeta in Hcall, Hcalls.
      exists (Some options). by rewrite Hcall, Hcalls.
Qed.

Section settled_jobs.
Import MetadataInterceptor.
Context {I O : Type}.

Lemma settled_job_in (channel : Channel) (trace : list (Event I)) :
  CallSettled channel ∈ trace →
  Exists (λ event, is_settled_job channel event = true) trace.
Proof.
  intros Hin. apply Exists_exists. exists (CallSettled channel).
  split; [ done | ]. simpl. by apply bool_decide_eq_true.
Qed.

Lemma settled_job_not_in (channel : Channel) (trace : list (Event I)) :
  CallSettled channel ∉ trace →
  Forall (λ event, is_settled_job channel event = false) trace.
Proof.
  intros Hnot. apply Forall_forall. intros event Hin.
  destruct event as [message| | |c|]; try done. simpl.
  apply bool_decide_eq_false. by intros ->.
Qed.

Lemma duplex_response_step (method : MethodInfo) (options : RpcOptions)
    (next : MethodInfo → RpcOptions → DuplexStreamingCall O)
    (call : DuplexStreamingCall O) (s : State I O (DuplexStreamingCall O))
    (e : Event I) :
  pendingCall s = Some call →
  responseDeferred (duplex_step next method options s e)
  = if is_settled_job ch_response e
    then settle_once (responseDeferred s) Pending
    else responseDeferred s.
Proof.
  intros Hcall.
  destruct e as [message| | |channel|]; simpl;
    unfold send, complete, metadata_settled, call_settled, call_next;
    rewrite ?Hcall; simpl; try done.
  - by destruct channel.
  - by destruct (undelivered s).
Qed.
End settled_jobs.

(** X15. In the client-streaming and the duplex hook of the metadata
    interceptor, a deferred of the returned call is settled by the handlers
    the hook puts on the matching promise of the real call, and as that
    promise is, with the same value or the same reason of rejection: it is
    pending until the real call was made and those handlers have run, and
    what they settled stays. *)
Theorem deferreds_settle_as_the_real_call {I O : Type}
    (config : MetadataInterceptor.MetadataInterceptorConfig)
    (nextClient : MethodInfo → RpcOptions → ClientStreamingCall O)
    (nextDuplex : MethodInfo → RpcOptions → DuplexStreamingCall O)
    (method : MethodInfo) (options : RpcOptions)
    (before after : list (MetadataInterceptor.Event I)) (channel : Channel)
    (resolved : RpcMetadata) :
  MetadataInterceptor.MetadataSettled ∉ before →
  let trace := before ++ MetadataInterceptor.MetadataSettled :: after in
  let called :=
    MetadataInterceptor.with_meta options
      (MetadataInterceptor.merge_meta (meta options) resolved) in
  (MetadataInterceptor.shouldIntercept config MetadataInterceptor.clientStreaming = true →
   MetadataInterceptor.resolveMetadata (MetadataInterceptor.metadata config)
     (MetadataInterceptor.mkMetadataContext MetadataInterceptor.clientStreaming method)
   = Resolved resolved →
   let s := MetadataInterceptor.client_run nextClient method options trace
              (MetadataInterceptor.interceptClientStreaming config nextClient
                 method options) in
   (MetadataInterceptor.CallSettled channel ∈ after →
    client_settled s (nextClient method called) channel)
   ∧ (MetadataInterceptor.CallSettled channel ∉ after → deferred_pending s channel))
  ∧ (MetadataInterceptor.shouldIntercept config MetadataInterceptor.duplex = true →
     MetadataInterceptor.resolveMetadata (MetadataInterceptor.metadata config)
       (MetadataInterceptor.mkMetadataContext MetadataInterceptor.duplex method)
     = Resolved resolved →
     let s := MetadataInterceptor.duplex_run nextDuplex method options trace
                (MetadataInterceptor.interceptDuplex config nextDuplex method options) in
     (MetadataInterceptor.CallSettled channel ∈ after →
      duplex_settled s (nextDuplex method called) channel)
     ∧ (MetadataInterceptor.CallSettled channel ∉ after → deferred_pending s channel)).
Proof.
  intros Hbefore. cbv zeta. split.
  - intros Hshould Hres.
    rewrite (client_run_call config method options nextClient before after resolved)
      by done.
    unfold MetadataInterceptor.client_run, MetadataInterceptor.interceptClientStreaming.
    rewrite Hshould. simpl.
    set (call := nextClient method _).
    match goal with
    | |- context [fold_left _ after ?s0] => set (s0' := s0)
    end.
    assert (Hcall : MetadataInterceptor.pendingCall s0' = Some call) by done.
    split.
    + intros Hin%settled_job_in. destruct channel; simpl.
      * apply (slot_hit _ _ _ _ _ (client_inv_step method options nextClient call)
                 (client_headers_step method options nextClient call));
          [ done | by left | done ].
      * apply (slot_hit _ _ _ _ _ (client_inv_step method options nextClient call)
                 (client_response_step method options nextClient call));
          [ done | by left | done ].
      * apply (slot_hit _ _ _ _ _ (client_inv_step method options nextClient call)
                 (client_status_step method options nextClient call));
          [ done | by left | done ].
      * apply (slot_hit _ _ _ _ _ (client_inv_step method options nextClient call)
                 (client_trailers_step method options nextClient call));
          [ done | by left | done ].
    + intros Hnot%settled_job_not_in. destruct channel; simpl.
      * by rewrite (slot_miss _ _ _ _ _ (client_inv_step method options nextClient call)
                      (client_headers_step method options nextClient call) after s0').
      * by rewrite (slot_miss _ _ _ _ _ (client_inv_step method options nextClient call)
                      (client_response_step method options nextClient call) after s0').
      * by rewrite (slot_miss _ _ _ _ _ (client_inv_step method options nextClient call)
                      (client_status_step method options nextClient call) after s0').
      * by rewrite (slot_miss _ _ _ _ _ (client_inv_step method options nextClient call)
                      (client_trailers_step method options nextClient call) after s0').
  - intros Hshould Hres.
    rewrite (duplex_run_call config method options nextDuplex before after resolved)
      by done.
    unfold MetadataInterceptor.duplex_run, MetadataInterceptor.interceptDuplex.
    rewrite Hshould. simpl.
    set (call := nextDuplex method _).
    match goal with
    | |- context [fold_left _ after ?s0] => set (s0' := s0)
    end.
    assert (Hcall : MetadataInterceptor.pendingCall s0' = Some call) by done.
    split.
    + intros Hin%settled_job_in. destruct channel; simpl; [ | done | | ].
      * apply (slot_hit _ _ _ _ _ (duplex_inv_step method options nextDuplex call)
                 (duplex_headers_step method options nextDuplex call));
          [ done | by left | done ].
      * apply (slot_hit _ _ _ _ _ (duplex_inv_step method options nextDuplex call)
                 (duplex_status_step method options nextDuplex call));
          [ done | by left | done ].
      * apply (slot_hit _ _ _ _ _ (duplex_inv_step method options nextDuplex call)
                 (duplex_trailers_step method options nextDuplex call));
          [ done | by left | done ].
    + intros Hnot%settled_job_not_in. destruct channel; simpl.
      * by rewrite (slot_miss _ _ _ _ _ (duplex_inv_step method options nextDuplex call)
                      (duplex_headers_step method options nextDuplex call) after s0').
      * by rewrite (slot_miss _ _ _ _ _ (duplex_inv_step method options nextDuplex call)
                      (duplex_response_step method options nextDuplex call) after s0').
      * by rewrite (slot_miss _ _ _ _ _ (duplex_inv_step method options nextDuplex call)
                      (duplex_status_step method options nextDuplex call) after s0').
      * by rewrite (slot_miss _ _ _ _ _ (duplex_inv_step method options nextDuplex call)
                      (duplex_trailers_step method options nextDuplex call) after s0').
Qed.

(** X16. The response stream of a duplex call through the metadata
    interceptor holds the responses the real call has delivered since it was
    made, all of them and in their order: it is a prefix of the responses of
    the real call, one response longer for each delivery, and what is left is
    the rest of them. *)
Theorem duplex_responses_arrive_in_order {I O : Type}
    (config : MetadataInterceptor.MetadataInterceptorConfig)
    (next : MethodInfo → RpcOptions → DuplexStreamingCall O)
    (method : MethodInfo) (options : RpcOptions)
    (before after : list (MetadataInterceptor.Event I)) (resolved : RpcMetadata) :
  MetadataInterceptor.shouldIntercept config MetadataInterceptor.duplex = true →
  MetadataInterceptor.resolveMetadata (MetadataInterceptor.metadata config)
    (MetadataInterceptor.mkMetadataContext MetadataInterceptor.duplex method)
  = Resolved resolved →
  MetadataInterceptor.MetadataSettled ∉ before →
  let real :=
    next method (MetadataInterceptor.with_meta options
                   (MetadataInterceptor.merge_meta (meta options) resolved)) in
  let s := MetadataInterceptor.duplex_run next method options
             (before ++ MetadataInterceptor.MetadataSettled :: after)
             (MetadataInterceptor.interceptDuplex config next method options) in
  MetadataInterceptor.responseStream s
  = take (count_next after) (duplex_responses real)
  ∧ MetadataInterceptor.undelivered s
    = drop (count_next after) (duplex_responses real).
Proof.
  intros Hshould Hres Hbefore. cbv zeta.
  rewrite (duplex_run_call config method options next before after resolved) by done.
  match goal with
  | |- context [MetadataInterceptor.duplex_run _ _ _ after ?s0] =>
      destruct (duplex_run_delivers method options next after s0) as [Hrs Hun];
        [ by eexists | ]
  end.
  cbv zeta in Hrs, Hun. rewrite Hrs, Hun.
  unfold MetadataInterceptor.interceptDuplex. rewrite Hshould. done.
Qed.


#[local] Transparent W.tag W.varint.

(** ** The further properties at concrete inputs *)

Lemma status_concatenation_merges_witness :
  ∃ d1 d2,
    encodeStatus Cases.first_status = Ok d1
    ∧ encodeStatus Cases.second_status = Ok d2
    ∧ parseStatus (d1 ++ d2)
      = Ok (mkStatus 5 "Not found"
              [mkAny "x.y/Z" [x01; x02];
               mkAny TYPE_URLS.retryInfo [x0a; x02; x08; x1e]]).
Proof.
  destruct (encodeStatus Cases.first_status) as [d1| |] eqn:H1;
    [ | by vm_compute in H1 .. ].
  destruct (encodeStatus Cases.second_status) as [d2| |] eqn:H2;
    [ | by vm_compute in H2 .. ].
  exists d1, d2. split; [ done | ]. split; [ done | ].
  apply (status_concatenation_merges Cases.first_status Cases.second_status d1 d2 H1 H2).
Defined.

(** The second status has no code and no message on the wire, so those of
    the first stay; a second status with a code replaces it. *)
Example status_concatenation_example :
  merge_status Cases.first_status Cases.second_status
  = mkStatus 5 "Not found"
      [mkAny "x.y/Z" [x01; x02]; mkAny TYPE_URLS.retryInfo [x0a; x02; x08; x1e]]
  ∧ merge_status Cases.second_status Cases.first_status
    = mkStatus 5 "Not found"
        [mkAny TYPE_URLS.retryInfo [x0a; x02; x08; x1e]; mkAny "x.y/Z" [x01; x02]]
  ∧ status_code (merge_status Cases.first_status Cases.malformed_status) = 3%Z.
Proof. repeat split; by vm_compute. Qed.

(** Field 1 as a length-delimited field, where a varint is expected. *)
Lemma unexpected_status_fields_are_skipped_witness :
  ∃ d,
    encodeStatus Cases.first_status = Ok d
    ∧ parseStatus (d ++ wire_field 1 (delimited_payload [x07]) ++ [x12; x01; x41])
      = parseStatus (d ++ [x12; x01; x41])
    ∧ decodeGrpcStatus (d ++ wire_field 1 (delimited_payload [x07]) ++ [x12; x01; x41])
      = decodeGrpcStatus (d ++ [x12; x01; x41]).
Proof.
  destruct (encodeStatus Cases.first_status) as [d| |] eqn:Hd;
    [ | by vm_compute in Hd .. ].
  exists d. split; [ done | ].
  apply (unexpected_status_fields_are_skipped Cases.first_status d 1
           (delimited_payload [x07]) [x12; x01; x41] Hd).
  - lia.
  - by vm_compute.
  - by vm_compute.
  - simpl. discriminate.
Defined.

(** A tag holds 29 bits of a field number: field 2^29 + 1 is written, and
    read, as field 1, here the code of the status. *)
Example wrapped_field_number_example :
  W.tag (2 ^ 29 + 1) Varint = W.tag 1 Varint
  ∧ parseStatus [x88; x80; x80; x80; x10; x05] = Ok (mkStatus 5 "" []).
Proof. split; by vm_compute. Qed.

Lemma codec_normalizes_witness :
  ∃ any,
    encodeErrorDetail (retryInfo (-5)) = Ok (Some any)
    ∧ typeUrl any = TYPE_URLS.retryInfo
    ∧ parseErrorDetail any = Ok (retryInfo 0).
Proof.
  apply (codec_normalizes (retryInfo (-5))).
  - exact I.
  - left. split; [ split; [ constructor | by vm_compute ] | simpl; lia ].
Defined.

(** A metadata entry named [__proto__] is lost, the other entries stay. *)
Example codec_normalizes_example :
  normalized (errorInfo "R" "d" {[ "__proto__" := "x"; "k" := "v" ]})
  = errorInfo "R" "d" {[ "k" := "v" ]}
  ∧ normalized (retryInfo 30) = retryInfo 30.
Proof. split; by vm_compute. Qed.

(** A typed error with a retry delay of 2^63 seconds is not encoded. *)
Example encodeGrpcStatus_example :
  encodeGrpcStatus
    (mkGrpcError 0 UnavailableError "UnavailableError" "Cannot connect to the server"
       [retryInfo (2 ^ 63)] None None) = Throw
  ∧ ∃ data, encodeGrpcStatus Examples.not_found = Ok data
            ∧ atob Examples.not_found_base64 = Some data.
Proof. split; [ by vm_compute | ]. eexists. split; by vm_compute. Qed.

Lemma one_malformed_detail_loses_all_witness :
  decodeGrpcStatus (default [] (atob Cases.malformed_base64)) = Throw
  ∧ ∃ error h',
      ErrorInterceptor.mapRpcError atob (VRpcError Cases.wire_malformed) None false
        None Examples.heap = Ok (VGrpcError error, h')
      ∧ error_details error = [].
Proof.
  apply (one_malformed_detail_loses_all atob Cases.wire_malformed None false None
           Examples.heap (MetaString Cases.malformed_base64)
           (default [] (atob Cases.malformed_base64)) Cases.malformed_status).
  - reflexivity.
  - by vm_compute.
  - by vm_compute.
  - apply Exists_cons_tl, Exists_cons_hd. by vm_compute.
Defined.

(** The first detail of the malformed status is sound on its own. *)
Example one_malformed_detail_example :
  encodeLocalizedMessage "en" "Bad input"
  = Ok ([x0a; x02] ++ list_byte_of_string "en"
        ++ [x12; x09] ++ list_byte_of_string "Bad input")
  ∧ parseErrorDetail
      (mkAny TYPE_URLS.localizedMessage
         ([x0a; x02] ++ list_byte_of_string "en"
          ++ [x12; x09] ++ list_byte_of_string "Bad input"))
    = Ok (localizedMessage "en" "Bad input")
  ∧ parseErrorDetail (mkAny TYPE_URLS.retryInfo [x0a; x05; x08]) = Throw.
Proof. repeat split; by vm_compute. Qed.

(** What else the parser of a detail throws on, and what it does not: a
    string that is no UTF-8 is refused; a length prefix of 2^32 is read as
    zero. *)
Example parseErrorDetail_examples :
  parseErrorDetail (mkAny TYPE_URLS.localizedMessage [x0a; x01; xff]) = Throw
  ∧ parseErrorDetail
      (mkAny TYPE_URLS.localizedMessage [x0a; x80; x80; x80; x80; x10])
    = Ok (localizedMessage "" "").
Proof. split; by vm_compute. Qed.

Lemma server_details_reach_the_client_witness :
  ∃ error h',
    ErrorInterceptor.mapRpcError atob (VRpcError Examples.wire_not_found) None false
      None Examples.heap = Ok (VGrpcError error, h')
    ∧ error_details error = [localizedMessage "en" "No such user"; retryInfo 30]
    ∧ localizedMessage_of error = Some "No such user"
    ∧ error_cause error = Some Examples.wire_not_found.
Proof.
  apply (server_details_reach_the_client atob Examples.not_found Examples.wire_not_found
           None false None Examples.heap (MetaString Examples.not_found_base64)
           (default [] (atob Examples.not_found_base64))).
  - reflexivity.
  - repeat constructor; simpl; lia.
  - by vm_compute.
  - reflexivity.
  - reflexivity.
  - by vm_compute.
Defined.

Lemma stacked_error_hooks_map_once_witness :
  ErrorInterceptor.interceptUnary atob Cases.reporting_config
    (λ _ _ _, Cases.mapped_unary) Examples.method 0%nat Examples.options
    (Some Cases.call_site) (mkHeap 1 []) = Ok (Cases.mapped_unary, mkHeap 1 [])
  ∧ ErrorInterceptor.interceptServerStreaming atob Cases.reporting_config
      (λ _ _ _, Cases.mapped_server) Examples.method 0%nat Examples.options
      (Some Cases.call_site) (mkHeap 1 []) = Ok (Cases.mapped_server, mkHeap 1 []).
Proof.
  apply (stacked_error_hooks_map_once atob Examples.error_config Examples.options None
           Cases.reporting_config (Some Cases.call_site) Examples.failing_unary
           Cases.failing_server Examples.method 0%nat Examples.heap).
  - by vm_compute.
  - by vm_compute.
Defined.

Lemma onError_is_called_for_each_rejected_promise_witness :
  (∃ call h',
     ErrorInterceptor.interceptUnary atob Cases.reporting_config Examples.failing_unary
       Examples.method 0%nat Examples.options None Examples.heap = Ok (call, h')
     ∧ (length (onError_calls h') ≤ 1)%nat
     ∧ ∃ error,
         unary_rejections call (λ _, VGrpcError error)
         ∧ onError_calls h' = [error])
  ∧ (∃ call h',
       ErrorInterceptor.interceptClientStreaming atob Cases.reporting_config
         Cases.mixed_client Examples.method Examples.options None
         Examples.all_channels Examples.heap = Ok (call, h')
       ∧ onError_calls h'
         = onError_calls Examples.heap
           ++ (if ErrorInterceptor.onError Cases.reporting_config
               then reported (Cases.mixed_client Examples.method Examples.options)
                      (client_deferreds call) Examples.all_channels
               else [])
       ∧ length (reported (Cases.mixed_client Examples.method Examples.options)
                   (client_deferreds call) Examples.all_channels)
         = length (filter (λ c, promise_wire_rejected
                                  (Cases.mixed_client Examples.method Examples.options) c
                                = true) Examples.all_channels)).
Proof.
  assert (Hnd : NoDup Examples.all_channels).
  { unfold Examples.all_channels. repeat constructor; rewrite ?not_elem_of_cons;
      repeat split; (discriminate || apply not_elem_of_nil). }
  destruct (onError_is_called_for_each_rejected_promise atob Cases.reporting_config
              Examples.options None Examples.failing_unary Cases.mixed_client
              Examples.method 0%nat Examples.all_channels Examples.heap Hnd)
    as [(call & h' & Hcall & Hlen & _ & Hone) Hclient].
  split; [ | exact Hclient ].
  exists call, h'. split; [ exact Hcall | ]. split; [ exact Hlen | ].
  apply Hone.
  - apply Exists_cons_hd. reflexivity.
  - repeat constructor.
Defined.

(** The failed unary call reports its one error once; of the four promises
    of the mixed call two reject with a wire error, and [onError] is called
    twice, first for the response and then for the trailers. *)
Example onError_calls_example :
  (∃ call h',
     ErrorInterceptor.interceptUnary atob Cases.reporting_config Examples.failing_unary
       Examples.method 0%nat Examples.options None Examples.heap = Ok (call, h')
     ∧ onError_calls h' = [Cases.typed_not_found])
  ∧ (∃ call h',
       ErrorInterceptor.interceptClientStreaming atob Cases.reporting_config
         Cases.mixed_client Examples.method Examples.options None
         Examples.all_channels Examples.heap = Ok (call, h')
       ∧ map error_class (onError_calls h') = [NotFoundError; UnavailableError]
       ∧ map error_ref (onError_calls h') = [0; 1]%nat).
Proof. split; do 2 eexists; (split; [ by vm_compute | ]); by vm_compute. Qed.

Lemma call_site_frames_are_kept_witness :
  ∃ error h' trace,
    ErrorInterceptor.mapRpcError atob (VRpcError Examples.wire_plain) None false
      (Some Cases.call_site) Examples.heap = Ok (VGrpcError error, h')
    ∧ error_stack error = Some trace
    ∧ ErrorInterceptor.split_lines trace
      = (error_name error +:+ ": " +:+ error_message error)
        :: rejoined (drop 1 (ErrorInterceptor.split_lines Cases.call_site)).
Proof.
  apply (call_site_frames_are_kept atob Examples.wire_plain None false Cases.call_site
           Examples.heap).
  reflexivity.
Defined.

(** The lines of the trace of the example. *)
Example call_site_frames_example :
  ∃ error h' trace,
    ErrorInterceptor.mapRpcError atob (VRpcError Examples.wire_plain) None false
      (Some Cases.call_site) Examples.heap = Ok (VGrpcError error, h')
    ∧ error_stack error = Some trace
    ∧ ErrorInterceptor.split_lines trace
      = ["UnavailableError: Cannot connect to the server";
         "    at caller (app.ts:1:1)"; "    at main (app.ts:2:2)"].
Proof. do 3 eexists. split; [ by vm_compute | ]. split; by vm_compute. Qed.

Lemma filtered_call_types_pass_through_witness :
  let call := Examples.ok_client Examples.method Examples.options in
  let s := MetadataInterceptor.client_run Examples.ok_client Examples.method
             Examples.options Examples.trace
             (MetadataInterceptor.interceptClientStreaming Cases.unary_only_config
                Examples.ok_client Examples.method Examples.options) in
  MetadataInterceptor.next_calls s = [Examples.options]
  ∧ MetadataInterceptor.received s = requests Examples.trace
  ∧ MetadataInterceptor.pendingMessages s = []
  ∧ MetadataInterceptor.headersDeferred s = client_headers call
  ∧ MetadataInterceptor.responseDeferred s = client_response call
  ∧ MetadataInterceptor.statusDeferred s = client_status call
  ∧ MetadataInterceptor.trailersDeferred s = client_trailers call.
Proof.
  apply (filtered_call_types_pass_through Cases.unary_only_config Examples.ok_unary
           Examples.ok_server Examples.ok_client Examples.ok_duplex Examples.method
           0%nat Examples.options Examples.trace MetadataInterceptor.clientStreaming).
  reflexivity.
Defined.

(** The real call fulfils headers, status and trailers and rejects the
    response: the four promises of the returned call reject. *)
Lemma intercepted_promises_settle_together_witness :
  (let call :=
     (MetadataInterceptor.interceptUnary Examples.static_config
        Cases.half_failing_unary Examples.method 0%nat Examples.options).1 in
   unary_headers call = Rejected (VRpcError Examples.wire_plain)
   ∧ unary_response call = Rejected (VRpcError Examples.wire_plain)
   ∧ unary_status call = Rejected (VRpcError Examples.wire_plain)
   ∧ unary_trailers call = Rejected (VRpcError Examples.wire_plain))
  ∧ (let call :=
       (MetadataInterceptor.interceptServerStreaming Examples.static_config
          Examples.ok_server Examples.method 0%nat Examples.options).1 in
     server_responses call = [NextMessage 0%nat; NextDone]
     ∧ server_headers call = Resolved ∅
       ∧ server_status call = Resolved Examples.ok_status
       ∧ server_trailers call = Resolved ∅).
Proof.
  apply (intercepted_promises_settle_together Examples.static_config
           Cases.half_failing_unary Examples.ok_server Examples.method 0%nat
           Examples.options {[ "a" := MetaString "1" ]} {[ "a" := MetaString "1" ]});
    reflexivity.
Defined.

Lemma next_is_called_at_most_once_witness :
  let called := mkRpcOptions (Some {[ "b" := MetaString "2"; "a" := MetaString "1" ]})
                  None in
  let client :=
    MetadataInterceptor.client_run Examples.ok_client Examples.method Examples.options
      Examples.trace
      (MetadataInterceptor.interceptClientStreaming Examples.static_config
         Examples.ok_client Examples.method Examples.options) in
  let duplex :=
    MetadataInterceptor.duplex_run Examples.ok_duplex Examples.method Examples.options
      Examples.trace_before
      (MetadataInterceptor.interceptDuplex Examples.static_config
         Examples.ok_duplex Examples.method Examples.options) in
  (∃ made,
     MetadataInterceptor.pendingCall client = Examples.ok_client Examples.method <$> made
     ∧ MetadataInterceptor.next_calls client = option_list made
     ∧ (∀ c, made = Some c → c = called))
  ∧ (∃ made,
       MetadataInterceptor.pendingCall duplex
       = Examples.ok_duplex Examples.method <$> made
       ∧ MetadataInterceptor.next_calls duplex = option_list made
       ∧ ¬ is_Some made).
Proof.
  destruct (next_is_called_at_most_once Examples.static_config Examples.ok_client
              Examples.ok_duplex Examples.method Examples.options Examples.trace)
    as [(made & Hcall & Hcalls & _ & Hmade) _].
  destruct (next_is_called_at_most_once Examples.static_config Examples.ok_client
              Examples.ok_duplex Examples.method Examples.options Examples.trace_before)
    as [_ (made' & Hcall' & Hcalls' & _ & Hmade')].
  split.
  - exists made. split; [ exact Hcall | ]. split; [ exact Hcalls | ].
    intros c Hc. destruct (proj2 (Hmade eq_refl) c Hc) as (resolved & [= <-] & ->).
    reflexivity.
  - exists made'. split; [ exact Hcall' | ]. split; [ exact Hcalls' | ].
    intros [Hin _]%(proj1 (Hmade' eq_refl)).
    unfold Examples.trace_before in Hin. rewrite !elem_of_cons in Hin.
    destruct Hin as [Hin|[Hin|Hin]]; [ discriminate | discriminate | ].
    by apply elem_of_nil in Hin.
Defined.

(** The run of the example: the real call the client-streaming hook holds
    after the trace, and the call log; before the job of the metadata promise
    the duplex hook holds none. *)
Example next_is_called_example :
  MetadataInterceptor.pendingCall
    (MetadataInterceptor.client_run Examples.ok_client Examples.method Examples.options
       Examples.trace
       (MetadataInterceptor.interceptClientStreaming Examples.static_config
          Examples.ok_client Examples.method Examples.options))
  = Some (Examples.ok_client Examples.method
            (mkRpcOptions (Some {[ "b" := MetaString "2"; "a" := MetaString "1" ]})
               None))
  ∧ MetadataInterceptor.pendingCall
      (MetadataInterceptor.duplex_run Examples.ok_duplex Examples.method
         Examples.options Examples.trace_before
         (MetadataInterceptor.interceptDuplex Examples.static_config
            Examples.ok_duplex Examples.method Examples.options))
    = None.
Proof. split; by vm_compute. Qed.

Lemma deferreds_settle_as_the_real_call_witness :
  let called := mkRpcOptions (Some {[ "b" := MetaString "2"; "a" := MetaString "1" ]})
                  None in
  let client after :=
    MetadataInterceptor.client_run Examples.ok_client Examples.method Examples.options
      (Examples.trace_before ++ MetadataInterceptor.MetadataSettled :: after)
      (MetadataInterceptor.interceptClientStreaming Examples.static_config
         Examples.ok_client Examples.method Examples.options) in
  let duplex after :=
    MetadataInterceptor.duplex_run Examples.ok_duplex Examples.method Examples.options
      (Examples.trace_before ++ MetadataInterceptor.MetadataSettled :: after)
      (MetadataInterceptor.interceptDuplex Examples.static_config
         Examples.ok_duplex Examples.method Examples.options) in
  MetadataInterceptor.statusDeferred (client Examples.trace_after)
  = client_status (Examples.ok_client Examples.method called)
  ∧ MetadataInterceptor.statusDeferred (duplex Examples.trace_after)
    = duplex_status (Examples.ok_duplex Examples.method called)
  ∧ MetadataInterceptor.statusDeferred (client Cases.trace_responses) = Pending
  ∧ MetadataInterceptor.statusDeferred (duplex Cases.trace_responses) = Pending.
Proof.
  assert (Hnot : MetadataInterceptor.MetadataSettled ∉ Examples.trace_before).
  { unfold Examples.trace_before. rewrite !not_elem_of_cons.
    repeat split; (discriminate || apply not_elem_of_nil). }
  destruct (deferreds_settle_as_the_real_call Examples.static_config Examples.ok_client
              Examples.ok_duplex Examples.method Examples.options Examples.trace_before
              Examples.trace_after ch_status {[ "a" := MetaString "1" ]} Hnot)
    as [Hclient Hduplex].
  destruct (deferreds_settle_as_the_real_call Examples.static_config Examples.ok_client
              Examples.ok_duplex Examples.method Examples.options Examples.trace_before
              Cases.trace_responses ch_status {[ "a" := MetaString "1" ]} Hnot)
    as [Hclient' Hduplex'].
  assert (Hin : MetadataInterceptor.CallSettled (I:=nat) ch_status ∈ Examples.trace_after).
  { unfold Examples.trace_after. rewrite !elem_of_cons. tauto. }
  assert (Hout : MetadataInterceptor.CallSettled (I:=nat) ch_status
                 ∉ Cases.trace_responses).
  { unfold Cases.trace_responses. rewrite !not_elem_of_cons.
    repeat split; (discriminate || apply not_elem_of_nil). }
  split; [ | split; [ | split ] ].
  - apply (proj1 (Hclient eq_refl eq_refl) Hin).
  - apply (proj1 (Hduplex eq_refl eq_refl) Hin).
  - apply (proj2 (Hclient' eq_refl eq_refl) Hout).
  - apply (proj2 (Hduplex' eq_refl eq_refl) Hout).
Defined.

Lemma duplex_responses_arrive_in_order_witness :
  let s := MetadataInterceptor.duplex_run Examples.ok_duplex Examples.method
             Examples.options
             (Examples.trace_before
              ++ MetadataInterceptor.MetadataSettled
                 :: [MetadataInterceptor.CallNext; MetadataInterceptor.Send 3%nat])
             (MetadataInterceptor.interceptDuplex Examples.static_config
                Examples.ok_duplex Examples.method Examples.options) in
  MetadataInterceptor.responseStream s = [NextMessage 0%nat]
  ∧ MetadataInterceptor.undelivered s = [NextDone].
Proof.
  apply (duplex_responses_arrive_in_order Examples.static_config Examples.ok_duplex
           Examples.method Examples.options Examples.trace_before
           [MetadataInterceptor.CallNext; MetadataInterceptor.Send 3%nat]
           {[ "a" := MetaString "1" ]}).
  - reflexivity.
  - reflexivity.
  - unfold Examples.trace_before. rewrite !not_elem_of_cons.
    repeat split; (discriminate || apply not_elem_of_nil).
Defined.
